(** * Star ImageMaster: link consistency, orphan tracking and deduplication

    A shallow embedding of the core of the plugin
    ([src/types/index.ts], [core/LinkUpdater.ts], [core/FileManager.ts],
    [core/OrphanDetector.ts], [core/HashService.ts]) together with the part of
    the host (vault, metadata cache) those classes talk to.

    JavaScript strings are modelled as [string]: sequences of 8-bit units.
    Every character the code inspects ('.', '/', '!', '[', ']', '|', '(',
    ')', '$', the ASCII letters) is a single unit that never occurs inside
    the encoding of another character, so splitting, literal matching and
    the negated class [[^\]]] behave on these units as they do on UTF-16
    code units. *)

From Stdlib Require Import String Ascii List Bool Arith ZArith Lia DecimalString
  DecimalNat.
Import ListNotations.

Local Open Scope list_scope.
Local Open Scope string_scope.

(* ================================================================== *)
(** ** JavaScript string primitives used by the plugin *)
(* ================================================================== *)

Module Js.

(** [s.split(sep)] for a one-character separator: never empty, keeps empty
    segments. *)
Fixpoint split (sep : ascii) (s : string) : list string :=
  match s with
  | EmptyString => [EmptyString]
  | String c s' =>
      if Ascii.eqb c sep then EmptyString :: split sep s'
      else match split sep s' with
           | [] => [String c EmptyString]
           | seg :: segs => String c seg :: segs
           end
  end.

(** [arr.pop() || ''] on the result of a split: the last segment. *)
Definition pop_or_empty (segs : list string) : string := last segs "".

(** [arr.filter((p) => p)]: drops the empty (falsy) strings. *)
Definition filter_truthy (segs : list string) : list string :=
  filter (fun p => negb (p =? "")) segs.

(** [arr.join(sep)]. *)
Definition join (sep : string) (segs : list string) : string :=
  String.concat sep segs.

(** [s.repeat(n)]. *)
Fixpoint repeat (s : string) (n : nat) : string :=
  match n with
  | O => ""
  | S k => s ++ repeat s k
  end.

(** [c.toLowerCase()] on one unit: 'A'..'Z' move to 'a'..'z'.  No character
    outside ASCII lower-cases to one of the letters of the supported
    extensions, so the units of other characters are left as they are. *)
Definition lower_ascii (c : ascii) : ascii :=
  let n := nat_of_ascii c in
  if ((65 <=? n) && (n <=? 90))%nat then ascii_of_nat (n + 32) else c.

Fixpoint toLowerCase (s : string) : string :=
  match s with
  | EmptyString => EmptyString
  | String c s' => String (lower_ascii c) (toLowerCase s')
  end.

(** [arr.includes(x)] on an array of strings. *)
Definition includes (arr : list string) (x : string) : bool :=
  existsb (String.eqb x) arr.

(** [s.startsWith(p)] with the remainder: [Some r] when [s = p ++ r]. *)
Fixpoint strip_prefix (p s : string) : option string :=
  match p with
  | EmptyString => Some s
  | String a p' =>
      match s with
      | EmptyString => None
      | String b s' => if Ascii.eqb a b then strip_prefix p' s' else None
      end
  end.

(** [s.substring(n)]. *)
Fixpoint drop (n : nat) (s : string) : string :=
  match n, s with
  | O, _ => s
  | S _, EmptyString => EmptyString
  | S k, String _ s' => drop k s'
  end.

(** [s.substring(0, s.lastIndexOf(c))], with [''] when [c] does not occur
    (JavaScript clamps the index -1 to 0). *)
Fixpoint before_last (c : ascii) (s : string) : option string :=
  match s with
  | EmptyString => None
  | String a s' =>
      match before_last c s' with
      | Some r => Some (String a r)
      | None => if Ascii.eqb a c then Some EmptyString else None
      end
  end.

Definition substring_to_last (c : ascii) (s : string) : string :=
  match before_last c s with
  | Some r => r
  | None => ""
  end.

Definition is_digit (c : ascii) : bool :=
  let n := nat_of_ascii c in ((48 <=? n) && (n <=? 57))%nat.

Definition digit_value (c : ascii) : nat := nat_of_ascii c - 48.

(** The abstract operation GetSubstitution of ECMAScript: expands the
    replacement patterns [$$], [$&], [$`], [$'], [$n] and [$nn] of a
    replacement string.  [captures] are the capture groups of the match
    ([None] for a group that did not participate); there are no named
    groups, so [$<] stands for itself. *)
Definition capture_text (captures : list (option string)) (index : nat) : string :=
  match nth_error captures (index - 1) with
  | Some (Some g) => g
  | _ => ""
  end.

Fixpoint GetSubstitution (matched before after : string)
    (captures : list (option string)) (template : string) : string :=
  let m := List.length captures in
  match template with
  | EmptyString => EmptyString
  | String c t1 =>
      if negb (Ascii.eqb c "$") then
        String c (GetSubstitution matched before after captures t1)
      else
        match t1 with
        | EmptyString => String "$" EmptyString
        | String d1 t2 =>
            if Ascii.eqb d1 "$" then
              String "$" (GetSubstitution matched before after captures t2)
            else if Ascii.eqb d1 "&" then
              matched ++ GetSubstitution matched before after captures t2
            else if Ascii.eqb d1 "`" then
              before ++ GetSubstitution matched before after captures t2
            else if Ascii.eqb d1 "'" then
              after ++ GetSubstitution matched before after captures t2
            else if is_digit d1 then
              let one_digit :=
                if ((1 <=? digit_value d1) && (digit_value d1 <=? m))%nat
                then capture_text captures (digit_value d1)
                       ++ GetSubstitution matched before after captures t2
                else String "$" (String d1
                       (GetSubstitution matched before after captures t2)) in
              match t2 with
              | EmptyString => one_digit
              | String d2 t3 =>
                  if is_digit d2 then
                    let index := 10 * digit_value d1 + digit_value d2 in
                    if (m <? index)%nat then one_digit
                    else if (1 <=? index)%nat then
                      capture_text captures index
                        ++ GetSubstitution matched before after captures t3
                    else String "$" (String d1 (String d2
                           (GetSubstitution matched before after captures t3)))
                  else one_digit
              end
            else
              String "$" (GetSubstitution matched before after captures t1)
        end
  end.

(** A successful [RegExp.prototype.exec]: the matched text and its capture
    groups. *)
Record RegExpMatch := mkMatch {
  matched : string;
  captures : list (option string)
}.

(** The second argument of [String.prototype.replace]: a replacement
    string, or a function of the matched text. *)
Inductive ReplaceValue :=
| Template (t : string)
| Replacer (f : string -> string).

Definition replacement (v : ReplaceValue) (m : RegExpMatch)
    (before after : string) : string :=
  match v with
  | Template t => GetSubstitution (matched m) before after (captures m) t
  | Replacer f => f (matched m)
  end.

(** [s.replace(re, v)] for a global regular expression [re] that never
    matches the empty string.  [exec] tries [re] at the start of its
    argument; the loop visits the positions from left to right, replaces
    the leftmost match and resumes after it.  [skip] counts the units of the
    current match still to be passed over, [before] is the text already
    visited. *)
Fixpoint replace_loop (exec : string -> option RegExpMatch) (v : ReplaceValue)
    (skip : nat) (before s : string) : string :=
  match s with
  | EmptyString => EmptyString
  | String c s' =>
      match skip with
      | S k => replace_loop exec v k (before ++ String c "") s'
      | O =>
          match exec s with
          | Some m =>
              replacement v m before (drop (String.length (matched m)) s)
                ++ replace_loop exec v (String.length (matched m) - 1)
                     (before ++ String c "") s'
          | None => String c (replace_loop exec v 0 (before ++ String c "") s')
          end
      end
  end.

Definition replace_global (exec : string -> option RegExpMatch)
    (v : ReplaceValue) (s : string) : string :=
  replace_loop exec v 0 "" s.

(** [s.replace(pat, repl)] for a string pattern: only the first occurrence
    is replaced, and [repl] is still a replacement string (no capture
    groups). *)
Fixpoint replace_first_from (pat repl before s : string) : string :=
  match strip_prefix pat s with
  | Some after => GetSubstitution pat before after [] repl ++ after
  | None =>
      match s with
      | EmptyString => EmptyString
      | String c s' => String c (replace_first_from pat repl (before ++ String c "") s')
      end
  end.

Definition replace_first (pat repl s : string) : string :=
  replace_first_from pat repl "" s.

(** The longest prefix without the unit [c], and what follows it: the greedy
    [[^c]*]. *)
Fixpoint span_not (c : ascii) (s : string) : string * string :=
  match s with
  | EmptyString => (EmptyString, EmptyString)
  | String a s' =>
      if Ascii.eqb a c then (EmptyString, s)
      else let (run, rest) := span_not c s' in (String a run, rest)
  end.

End Js.

(* ================================================================== *)
(** ** src/types/index.ts *)
(* ================================================================== *)

Module Types.

Definition SUPPORTED_IMAGE_EXTENSIONS : list string :=
  ["png"; "jpg"; "jpeg"; "gif"; "webp"; "svg"; "bmp"].

(** [filename.split('.').pop()?.toLowerCase()], then membership in the list
    unless the text is empty. *)
Definition isImageFile (filename : string) : bool :=
  let ext := Js.toLowerCase (Js.pop_or_empty (Js.split "." filename)) in
  if ext =? "" then false else Js.includes SUPPORTED_IMAGE_EXTENSIONS ext.

End Types.


(* ================================================================== *)
(** ** The host: vault and metadata cache of the note-taking application *)
(* ================================================================== *)

Module Obsidian.

(** A [TAbstractFile]: a file with its path, [stat.mtime] and content (the
    text of a note, the bytes of an image), or a folder. *)
Inductive TAbstractFile :=
| TFile (path : string) (mtime : Z) (data : string)
| TFolder (path : string).

Definition path_of (f : TAbstractFile) : string :=
  match f with
  | TFile p _ _ => p
  | TFolder p => p
  end.

Definition isTFile (f : TAbstractFile) : bool :=
  match f with
  | TFile _ _ _ => true
  | TFolder _ => false
  end.

(** [plugin.app] as the core sees it.
    - [files]: the file tree, in the order of [vault.getFiles()];
    - [resolvedLinks]: [metadataCache.resolvedLinks] in the order of
      [Object.entries], each note with the [Object.keys] of its links;
    - [getFirstLinkpathDest linkpath sourcePath]: the path of the file the
      host resolves a link to;
    - [normalizePath]: the host's path normaliser;
    - [readThrows], [modifyThrows], [deleteThrows], [renameThrows],
      [createFolderThrows]: the paths on which the corresponding vault call
      fails;
    - [modifyLog]: the calls of [vault.modify] so far, latest first. *)
Record App := mkApp {
  files : list TAbstractFile;
  resolvedLinks : list (string * list string);
  getFirstLinkpathDest : string -> string -> option string;
  normalizePath : string -> string;
  readThrows : string -> bool;
  modifyThrows : string -> bool;
  deleteThrows : string -> bool;
  renameThrows : string -> bool;
  createFolderThrows : string -> bool;
  modifyLog : list (string * string)
}.

Definition with_files (fs : list TAbstractFile) (a : App) : App :=
  mkApp fs (resolvedLinks a) (getFirstLinkpathDest a) (normalizePath a)
        (readThrows a) (modifyThrows a) (deleteThrows a) (renameThrows a)
        (createFolderThrows a) (modifyLog a).

Definition with_modification (p content : string) (fs : list TAbstractFile)
    (a : App) : App :=
  mkApp fs (resolvedLinks a) (getFirstLinkpathDest a) (normalizePath a)
        (readThrows a) (modifyThrows a) (deleteThrows a) (renameThrows a)
        (createFolderThrows a) ((p, content) :: modifyLog a).

(** [vault.getAbstractFileByPath(p)]. *)
Definition getAbstractFileByPath (p : string) (a : App) : option TAbstractFile :=
  find (fun f => path_of f =? p) (files a).

(** [vault.adapter.exists(p)]. *)
Definition adapter_exists (p : string) (a : App) : bool :=
  existsb (fun f => path_of f =? p) (files a).

(** [vault.getFiles()]: the files, without the folders. *)
Definition getFiles (a : App) : list TAbstractFile :=
  filter isTFile (files a).

(** The content [vault.read] and [vault.readBinary] deliver for a path. *)
Definition content_of (p : string) (a : App) : option string :=
  match getAbstractFileByPath p a with
  | Some (TFile _ _ d) => Some d
  | _ => None
  end.

Definition set_data (p content : string) (f : TAbstractFile) : TAbstractFile :=
  match f with
  | TFile q t d => if q =? p then TFile q t content else f
  | TFolder _ => f
  end.

Definition set_path (p newPath : string) (f : TAbstractFile) : TAbstractFile :=
  match f with
  | TFile q t d => if q =? p then TFile newPath t d else f
  | TFolder _ => f
  end.

(** The result of an asynchronous call on a state: a value, a rejection
    (an exception thrown on the way), or a loop that never ends. *)
Inductive Outcome (S A : Type) :=
| Returned (a : A) (s : S)
| Thrown (s : S)
| Diverged.
Arguments Returned {S A} a s.
Arguments Thrown {S A} s.
Arguments Diverged {S A}.

Definition M (S A : Type) : Type := S -> Outcome S A.

Definition ret {S A} (a : A) : M S A := fun s => Returned a s.

Definition bind {S A B} (m : M S A) (k : A -> M S B) : M S B :=
  fun s =>
    match m s with
    | Returned a s' => k a s'
    | Thrown s' => Thrown s'
    | Diverged => Diverged
    end.

(** [try { m } catch (error) { handler }]. *)
Definition try_catch {S A} (m handler : M S A) : M S A :=
  fun s =>
    match m s with
    | Thrown s' => handler s'
    | o => o
    end.

(** The value a call returned, if it returned. *)
Definition value_of {S A} (o : Outcome S A) : option A :=
  match o with
  | Returned a _ => Some a
  | _ => None
  end.

(** [await vault.read(file)]. *)
Definition read (p : string) : M App string :=
  fun a =>
    if readThrows a p then Thrown a
    else match content_of p a with
         | Some d => Returned d a
         | None => Thrown a
         end.

(** [await vault.modify(file, content)]. *)
Definition modify (p content : string) : M App unit :=
  fun a =>
    if modifyThrows a p then Thrown a
    else match content_of p a with
         | Some _ =>
             Returned tt (with_modification p content
                            (map (set_data p content) (files a)) a)
         | None => Thrown a
         end.

(** [await vault.delete(file)]. *)
Definition delete (p : string) : M App unit :=
  fun a =>
    if deleteThrows a p then Thrown a
    else Returned tt
           (with_files (filter (fun f => negb (path_of f =? p)) (files a)) a).

(** [await vault.rename(file, newPath)]: refused when the destination is
    taken.  The resolved links belong to the metadata cache, which the
    rename itself does not touch. *)
Definition rename (p newPath : string) : M App unit :=
  fun a =>
    if renameThrows a p || adapter_exists newPath a then Thrown a
    else Returned tt (with_files (map (set_path p newPath) (files a)) a).

(** [await vault.createFolder(p)]: refused when the path is taken, and
    whenever the host cannot create the folder. *)
Definition createFolder (p : string) : M App unit :=
  fun a =>
    if createFolderThrows a p || adapter_exists p a then Thrown a
    else Returned tt (with_files (files a ++ [TFolder p])%list a).

End Obsidian.

Declare Scope js_scope.
Delimit Scope js_scope with js.
Notation "x <- m ;; k" := (Obsidian.bind m (fun x => k))
  (at level 61, m at next level, right associativity) : js_scope.
Notation "m ;;; k" := (Obsidian.bind m (fun _ => k))
  (at level 61, right associativity) : js_scope.

(* ================================================================== *)
(** ** core/LinkUpdater.ts *)
(* ================================================================== *)

Module LinkUpdater.
Import Obsidian.
Local Open Scope js_scope.

(** [findNotesReferencingImage]: the notes of [resolvedLinks] one of whose
    link targets is [imagePath], in the order of [Object.entries]. *)
Definition findNotesReferencingImage (imagePath : string) (a : App) : list string :=
  map fst
    (filter (fun entry => existsb (fun linkedPath => linkedPath =? imagePath) (snd entry))
            (resolvedLinks a)).

(** [getRelativePath]: the loop that counts the common leading segments. *)
Fixpoint commonLength (fromParts toParts : list string) : nat :=
  match fromParts, toParts with
  | f :: fromParts', t :: toParts' =>
      if f =? t then S (commonLength fromParts' toParts') else O
  | _, _ => O
  end.

Definition getRelativePath (fromFolder toPath : string) : string :=
  let fromParts := Js.filter_truthy (Js.split "/" fromFolder) in
  let toParts := Js.filter_truthy (Js.split "/" toPath) in
  let common := commonLength fromParts toParts in
  let upCount := (List.length fromParts - common)%nat in
  let downPath := Js.join "/" (skipn common toParts) in
  if (upCount =? 0)%nat then "./" ++ downPath
  else Js.repeat "../" upCount ++ downPath.

(** The regular expression of the wikilink rules tried at the start of [s]:
    the literal "![[", then [escapeRegex(lit)], which matches [lit]
    literally, then an optional capture group (a '|' followed by a greedy
    run of characters other than ']'), then the literal "]]".  The group is
    tried first; giving back part of its run cannot help, since what then
    follows is not a ']'. *)
Definition exec_wikilink (lit s : string) : option Js.RegExpMatch :=
  match Js.strip_prefix ("![[" ++ lit) s with
  | None => None
  | Some r =>
      let without_group :=
        match Js.strip_prefix "]]" r with
        | Some _ => Some (Js.mkMatch ("![[" ++ lit ++ "]]") [None])
        | None => None
        end in
      match r with
      | String c r1 =>
          if Ascii.eqb c "|" then
            let (alias, r2) := Js.span_not "]" r1 in
            match Js.strip_prefix "]]" r2 with
            | Some _ =>
                Some (Js.mkMatch ("![[" ++ lit ++ "|" ++ alias ++ "]]")
                                 [Some ("|" ++ alias)])
            | None => without_group
            end
          else without_group
      | EmptyString => without_group
      end
  end.

(** The regular expression of the markdown rules tried at the start of [s]:
    the literal "![", a capture group holding a greedy run of characters
    other than ']', the literal "](", for the absolute rule
    ([optSlash = true]) an optional '/', then [escapeRegex(lit)] and ")".
    The optional '/' is taken when it leads to a match, and left out
    otherwise. *)
Definition exec_mdlink (optSlash : bool) (lit s : string) : option Js.RegExpMatch :=
  match Js.strip_prefix "![" s with
  | None => None
  | Some r =>
      let (alt, r1) := Js.span_not "]" r in
      match Js.strip_prefix "](" r1 with
      | None => None
      | Some r2 =>
          let without_slash :=
            match Js.strip_prefix (lit ++ ")") r2 with
            | Some _ => Some (Js.mkMatch ("![" ++ alt ++ "](" ++ lit ++ ")") [Some alt])
            | None => None
            end in
          if optSlash then
            match Js.strip_prefix ("/" ++ lit ++ ")") r2 with
            | Some _ => Some (Js.mkMatch ("![" ++ alt ++ "](/" ++ lit ++ ")") [Some alt])
            | None => without_slash
            end
          else without_slash
      end
  end.

(** The four replacements of [updateLinksInNote], one definition each. *)
Definition replaceFullPathWikilinks (oldPath newPath content : string) : string :=
  Js.replace_global (exec_wikilink oldPath)
    (Js.Template ("![[" ++ newPath ++ "$1]]")) content.

Definition replaceNameOnlyWikilinks (a : App) (notePath oldPath oldName newName
    content : string) : string :=
  Js.replace_global (exec_wikilink oldName)
    (Js.Replacer (fun m =>
       match getFirstLinkpathDest a oldName notePath with
       | Some resolvedPath =>
           if resolvedPath =? oldPath then Js.replace_first oldName newName m else m
       | None => m
       end))
    content.

Definition replaceAbsoluteMarkdownLinks (oldPath newPath content : string) : string :=
  Js.replace_global (exec_mdlink true oldPath)
    (Js.Template ("![$1](/" ++ newPath ++ ")")) content.

Definition replaceRelativeMarkdownLinks (oldRelative newRelative content : string) : string :=
  Js.replace_global (exec_mdlink false oldRelative)
    (Js.Template ("![$1](" ++ newRelative ++ ")")) content.

(** The content [updateLinksInNote] computes from the content it read. *)
Definition rewriteLinks (a : App) (notePath oldPath newPath content : string) : string :=
  let oldName := Js.pop_or_empty (Js.split "/" oldPath) in
  let newName := Js.pop_or_empty (Js.split "/" newPath) in
  let content := replaceFullPathWikilinks oldPath newPath content in
  let content :=
    if negb (oldName =? newName)
    then replaceNameOnlyWikilinks a notePath oldPath oldName newName content
    else content in
  let content := replaceAbsoluteMarkdownLinks oldPath newPath content in
  let noteFolder := Js.substring_to_last "/" notePath in
  let oldRelative := getRelativePath noteFolder oldPath in
  let newRelative := getRelativePath noteFolder newPath in
  replaceRelativeMarkdownLinks oldRelative newRelative content.

(** [updateLinksInNote(noteFile, oldPath, newPath)]; the note is given by
    its path.  The content is written back only if it changed. *)
Definition updateLinksInNote (notePath oldPath newPath : string) : M App bool :=
  fun a =>
    (originalContent <- read notePath ;;
     let content := rewriteLinks a notePath oldPath newPath originalContent in
     if negb (content =? originalContent)
     then modify notePath content ;;; ret true
     else ret false) a.

(** The loop of [updateImageReferences] over the referencing notes. *)
Fixpoint updateNotes (notesToUpdate : list string) (oldPath newPath : string)
    (updatedCount : nat) : M App nat :=
  match notesToUpdate with
  | [] => ret updatedCount
  | notePath :: rest =>
      fun a =>
        match getAbstractFileByPath notePath a with
        | Some (TFile _ _ _) =>
            (updated <- updateLinksInNote notePath oldPath newPath ;;
             updateNotes rest oldPath newPath
               (if updated : bool then S updatedCount else updatedCount)) a
        | _ => updateNotes rest oldPath newPath updatedCount a
        end
  end.

Definition updateImageReferences (oldPath newPath : string) : M App nat :=
  fun a => updateNotes (findNotesReferencingImage oldPath a) oldPath newPath 0 a.

(** The loop of [batchUpdateReferences] over the [(oldPath, newPath)] pairs. *)
Fixpoint batchLoop (updates : list (string * string)) (totalUpdated : nat)
    : M App nat :=
  match updates with
  | [] => ret totalUpdated
  | (oldPath, newPath) :: rest =>
      count <- updateImageReferences oldPath newPath ;;
      batchLoop rest (totalUpdated + count)
  end.

Definition batchUpdateReferences (updates : list (string * string)) : M App nat :=
  batchLoop updates 0.

End LinkUpdater.

(* ================================================================== *)
(** ** core/FileManager.ts *)
(* ================================================================== *)

Module FileManager.

(** [FileManager.getRelativePath]: the same text as the private method of
    [LinkUpdater]. *)
Fixpoint commonLength (fromParts toParts : list string) : nat :=
  match fromParts, toParts with
  | f :: fromParts', t :: toParts' =>
      if f =? t then S (commonLength fromParts' toParts') else O
  | _, _ => O
  end.

Definition getRelativePath (fromFolder toPath : string) : string :=
  let fromParts := Js.filter_truthy (Js.split "/" fromFolder) in
  let toParts := Js.filter_truthy (Js.split "/" toPath) in
  let common := commonLength fromParts toParts in
  let upCount := (List.length fromParts - common)%nat in
  let downPath := Js.join "/" (skipn common toParts) in
  if (upCount =? 0)%nat then "./" ++ downPath
  else Js.repeat "../" upCount ++ downPath.

End FileManager.

(* ================================================================== *)
(** ** core/OrphanDetector.ts *)
(* ================================================================== *)

Module OrphanDetector.
Import Obsidian.
Local Open Scope js_scope.

Inductive OrphanHandling := keep | moveToFolder | markOnly.

(** The instance: [plugin.app], the two settings it reads, and the private
    [orphanImages], a [Set<string>] kept as the list of its elements in
    insertion order. *)
Record State := mkState {
  app : App;
  orphanHandling : OrphanHandling;
  orphanFolder : string;
  orphanImages : list string
}.

Definition set_has (x : string) (s : list string) : bool :=
  existsb (String.eqb x) s.

Definition set_add (x : string) (s : list string) : list string :=
  if set_has x s then s else (s ++ [x])%list.

Definition set_delete (x : string) (s : list string) : list string :=
  filter (fun y => negb (y =? x)) s.

Definition with_app (a : App) (st : State) : State :=
  mkState a (orphanHandling st) (orphanFolder st) (orphanImages st).

Definition with_orphans (o : list string) (st : State) : State :=
  mkState (app st) (orphanHandling st) (orphanFolder st) o.

(** A call on the vault made from the detector. *)
Definition liftApp {A} (m : M App A) : M State A :=
  fun st =>
    match m (app st) with
    | Returned x a => Returned x (with_app a st)
    | Thrown a => Thrown (with_app a st)
    | Diverged => Diverged
    end.

(** The names every object inherits from [Object.prototype]: the operator
    [in] also answers true on them. *)
Definition object_prototype_keys : list string :=
  ["constructor"; "__defineGetter__"; "__defineSetter__"; "hasOwnProperty";
   "__lookupGetter__"; "__lookupSetter__"; "isPrototypeOf";
   "propertyIsEnumerable"; "toString"; "valueOf"; "__proto__";
   "toLocaleString"].

(** [key in links]. *)
Definition js_in (key : string) (links : list string) : bool :=
  existsb (String.eqb key) links || existsb (String.eqb key) object_prototype_keys.

(** [getAllReferencedImages]: the image paths among all link targets. *)
Definition getAllReferencedImages (a : App) : list string :=
  fold_left
    (fun referenced links =>
       fold_left
         (fun referenced linkedPath =>
            if Types.isImageFile linkedPath then set_add linkedPath referenced
            else referenced)
         links referenced)
    (map snd (resolvedLinks a)) [].

(** [isOrphan(imagePath)]: the cached set first, then the resolved links;
    a path found nowhere is added to the set. *)
Definition isOrphan (imagePath : string) (st : State) : bool * State :=
  if set_has imagePath (orphanImages st) then (true, st)
  else if existsb (js_in imagePath) (map snd (resolvedLinks (app st)))
  then (false, st)
  else (true, with_orphans (set_add imagePath (orphanImages st)) st).

(** [fileName.replace(/\.[^.]+$/, '')]: the name without its last
    extension, when that extension is not empty. *)
Definition nameWithoutExt (fileName : string) : string :=
  match Js.before_last "." fileName with
  | Some stem =>
      if (String.length stem + 1 <? String.length fileName)%nat then stem
      else fileName
  | None => fileName
  end.

Definition decimal (n : nat) : string :=
  DecimalString.NilZero.string_of_uint (Nat.to_uint n).

(** The loop that looks for a free name in the target folder.  It runs as
    long as the candidate exists; [fuel] bounds the number of rounds the
    model follows. *)
Fixpoint freeName (fuel : nat) (a : App) (targetFolder fileName : string)
    (counter : nat) (finalPath : string) : option string :=
  if adapter_exists finalPath a then
    match fuel with
    | O => None
    | S fuel' =>
        let ext := Js.pop_or_empty (Js.split "." fileName) in
        freeName fuel' a targetFolder fileName (S counter)
          (normalizePath a
             (targetFolder ++ "/" ++ nameWithoutExt fileName ++ "_"
                ++ decimal counter ++ "." ++ ext))
    end
  else Some finalPath.

(** [ensureFolderExists]. *)
Definition ensureFolderExists (folderPath : string) : M App unit :=
  fun a =>
    if folderPath =? "" then Returned tt a
    else
      let normalizedPath := normalizePath a folderPath in
      match getAbstractFileByPath normalizedPath a with
      | Some _ => Returned tt a
      | None => createFolder normalizedPath a
      end.

(** The loop of [moveOrphansToFolder]: a move that fails is logged and the
    loop goes on. *)
Fixpoint moveLoop (fuel : nat) (targetFolder : string) (orphanPaths : list string)
    (movedCount : nat) : M App nat :=
  match orphanPaths with
  | [] => ret movedCount
  | imagePath :: rest =>
      fun a =>
        match getAbstractFileByPath imagePath a with
        | Some (TFile p _ _) =>
            let fileName := Js.pop_or_empty (Js.split "/" p) in
            let newPath := normalizePath a (targetFolder ++ "/" ++ fileName) in
            match freeName fuel a targetFolder fileName 1 newPath with
            | None => Diverged
            | Some finalPath =>
                (moved <- try_catch (rename p finalPath ;;; ret true) (ret false) ;;
                 moveLoop fuel targetFolder rest
                   (if moved : bool then S movedCount else movedCount)) a
            end
        | _ => moveLoop fuel targetFolder rest movedCount a
        end
  end.

Definition moveOrphansToFolder (fuel : nat) (orphanPaths : list string) : M State unit :=
  fun st =>
    liftApp (ensureFolderExists (orphanFolder st) ;;;
             moveLoop fuel (orphanFolder st) orphanPaths 0 ;;;
             ret tt) st.

(** [scanOrphanImages]. *)
Definition scanOrphanImages (fuel : nat) : M State (list string) :=
  fun st =>
    let allImages :=
      filter (fun f => Types.isImageFile (path_of f)) (getFiles (app st)) in
    let referencedImages := getAllReferencedImages (app st) in
    let orphans :=
      filter (fun p => negb (set_has p referencedImages)) (map path_of allImages) in
    let st1 := with_orphans (fold_left (fun s p => set_add p s) orphans []) st in
    match orphanHandling st1, orphans with
    | moveToFolder, _ :: _ =>
        (moveOrphansToFolder fuel orphans ;;; ret orphans) st1
    | _, _ => Returned orphans st1
    end.

(** The loop of [deleteOrphanImages]: only existing files are deleted, a
    failed deletion is logged and skipped. *)
Fixpoint deleteLoop (imagePaths : list string) (deletedCount : nat) : M State nat :=
  match imagePaths with
  | [] => ret deletedCount
  | imagePath :: rest =>
      fun st =>
        match getAbstractFileByPath imagePath (app st) with
        | Some (TFile p _ _) =>
            (deleted <-
               try_catch
                 (liftApp (delete p) ;;;
                  (fun st' => Returned true
                     (with_orphans (set_delete imagePath (orphanImages st')) st')))
                 (ret false) ;;
             deleteLoop rest (if deleted : bool then S deletedCount else deletedCount)) st
        | _ => deleteLoop rest deletedCount st
        end
  end.

Definition deleteOrphanImages (imagePaths : list string) : M State nat :=
  deleteLoop imagePaths 0.

End OrphanDetector.

(* ================================================================== *)
(** ** SHA-256 (createHash('sha256') of the crypto module) *)
(* ================================================================== *)

Module Sha256.
Local Open Scope Z_scope.

Definition w32 (x : Z) : Z := Z.land x 4294967295.
Definition add32 (x y : Z) : Z := w32 (x + y).
Definition rotr (n x : Z) : Z := Z.lor (Z.shiftr x n) (w32 (Z.shiftl x (32 - n))).

Definition Ch (x y z : Z) : Z :=
  Z.lxor (Z.land x y) (Z.land (Z.lxor x 4294967295) z).
Definition Maj (x y z : Z) : Z :=
  Z.lxor (Z.lxor (Z.land x y) (Z.land x z)) (Z.land y z).
Definition Sigma0 (x : Z) : Z := Z.lxor (Z.lxor (rotr 2 x) (rotr 13 x)) (rotr 22 x).
Definition Sigma1 (x : Z) : Z := Z.lxor (Z.lxor (rotr 6 x) (rotr 11 x)) (rotr 25 x).
Definition sigma0 (x : Z) : Z := Z.lxor (Z.lxor (rotr 7 x) (rotr 18 x)) (Z.shiftr x 3).
Definition sigma1 (x : Z) : Z := Z.lxor (Z.lxor (rotr 17 x) (rotr 19 x)) (Z.shiftr x 10).

(** The largest [r] with [r * r * r <= n], by bisection between [lo] and
    [hi]. *)
Fixpoint cube_root_between (rounds : nat) (n lo hi : Z) : Z :=
  match rounds with
  | O => lo
  | S k =>
      let mid := (lo + hi + 1) / 2 in
      if mid * mid * mid <=? n then cube_root_between k n mid hi
      else cube_root_between k n lo (mid - 1)
  end.

Definition primes : list Z :=
  [2; 3; 5; 7; 11; 13; 17; 19; 23; 29; 31; 37; 41; 43; 47; 53; 59; 61; 67; 71;
   73; 79; 83; 89; 97; 101; 103; 107; 109; 113; 127; 131; 137; 139; 149; 151;
   157; 163; 167; 173; 179; 181; 191; 193; 197; 199; 211; 223; 227; 229; 233;
   239; 241; 251; 257; 263; 269; 271; 277; 281; 283; 293; 307; 311].

(** The round constants: the first 32 bits of the fractional parts of the
    cube roots of the first 64 primes. *)
Definition K : list Z :=
  map (fun p => w32 (cube_root_between 36 (p * 2 ^ 96) 0 (2 ^ 35))) primes.

(** The initial hash value: the first 32 bits of the fractional parts of
    the square roots of the first 8 primes. *)
Definition H0 : list Z :=
  map (fun p => w32 (Z.sqrt (p * 2 ^ 64))) (firstn 8 primes).

Definition bytes_of (data : string) : list Z :=
  map (fun c => Z.of_nat (nat_of_ascii c)) (list_ascii_of_string data).

(** The message followed by the bit 1, zeros up to 56 modulo 64 bytes, and
    the bit length on 8 bytes, most significant first. *)
Definition be_bytes (count : nat) (x : Z) : list Z :=
  map (fun i => Z.land (Z.shiftr x (8 * Z.of_nat i)) 255) (rev (seq 0 count)).

Definition pad (msg : list Z) : list Z :=
  let len := Z.of_nat (List.length msg) in
  let zeros := Z.to_nat ((55 - len) mod 64) in
  (msg ++ [128] ++ List.repeat 0 zeros ++ be_bytes 8 (8 * len))%list.

Fixpoint words (count : nat) (bytes : list Z) : list Z :=
  match count with
  | O => []
  | S k =>
      match bytes with
      | a :: b :: c :: d :: rest =>
          (Z.shiftl a 24 + Z.shiftl b 16 + Z.shiftl c 8 + d) :: words k rest
      | _ => []
      end
  end.

(** The message schedule, kept latest word first. *)
Fixpoint schedule (count : nat) (ws : list Z) : list Z :=
  match count with
  | O => ws
  | S k =>
      let w :=
        add32 (add32 (sigma1 (nth 1 ws 0)) (nth 6 ws 0))
              (add32 (sigma0 (nth 14 ws 0)) (nth 15 ws 0)) in
      schedule k (w :: ws)
  end.

Definition round (h : list Z) (kw : Z * Z) : list Z :=
  match h with
  | [a; b; c; d; e; f; g; hh] =>
      let t1 := add32 (add32 (add32 hh (Sigma1 e)) (add32 (Ch e f g) (fst kw))) (snd kw) in
      let t2 := add32 (Sigma0 a) (Maj a b c) in
      [add32 t1 t2; a; b; c; add32 d t1; e; f; g]
  | _ => h
  end.

Definition compress (h : list Z) (block : list Z) : list Z :=
  let ws := rev (schedule 48 (rev block)) in
  map (fun p => add32 (fst p) (snd p))
      (combine h (fold_left round (combine K ws) h)).

Fixpoint blocks (count : nat) (h : list Z) (ws : list Z) : list Z :=
  match count with
  | O => h
  | S k => blocks k (compress h (firstn 16 ws)) (skipn 16 ws)
  end.

Definition digest (data : string) : list Z :=
  let padded := pad (bytes_of data) in
  let count := (List.length padded / 64)%nat in
  blocks count H0 (words (16 * count) padded).

Definition hex_digit (n : Z) : ascii :=
  ascii_of_nat (Z.to_nat (if n <? 10 then 48 + n else 87 + n)).

Definition hex_word (w : Z) : string :=
  string_of_list_ascii
    (map (fun i => hex_digit (Z.land (Z.shiftr w (4 * Z.of_nat i)) 15))
         (rev (seq 0 8))).

(** [digest('hex')]. *)
Definition hexdigest (data : string) : string :=
  String.concat "" (map hex_word (digest data)).

End Sha256.

(* ================================================================== *)
(** ** core/HashService.ts *)
(* ================================================================== *)

Module HashService.
Import Obsidian.

Record HashCacheEntry := mkEntry {
  hash : string;
  mtime : Z
}.

(** [HashCache]: the object as the list of its [Object.entries].  A new key
    goes to the end, an assignment to an existing key keeps its place (the
    order of string keys that are not array indices, as image paths are). *)
Definition HashCache := list (string * HashCacheEntry).

Record State := mkState {
  app : App;
  cache : HashCache
}.

(** [cache[path]]. *)
Fixpoint cache_get (path : string) (c : HashCache) : option HashCacheEntry :=
  match c with
  | [] => None
  | (k, e) :: rest => if k =? path then Some e else cache_get path rest
  end.

(** [cache[path] = entry]. *)
Fixpoint cache_set (path : string) (entry : HashCacheEntry) (c : HashCache) : HashCache :=
  match c with
  | [] => [(path, entry)]
  | (k, e) :: rest =>
      if k =? path then (k, entry) :: rest else (k, e) :: cache_set path entry rest
  end.

(** [delete cache[path]]. *)
Definition cache_delete (path : string) (c : HashCache) : HashCache :=
  filter (fun ke => negb (fst ke =? path)) c.

(** [computeHash]: the first 16 characters of the hexadecimal SHA-256
    digest. *)
Definition computeHash (data : string) : string :=
  String.substring 0 16 (Sha256.hexdigest data).

Arguments computeHash : simpl never.

Definition calculateHashFromBuffer (data : string) : string := computeHash data.

(** [calculateHash(file)], the file being given by its path, its
    [stat.mtime] and the bytes [vault.readBinary] delivers: the cached
    digest when its [mtime] is that of the file, a fresh digest stored in
    the cache otherwise. *)
Definition calculateHash (path : string) (fileMtime : Z) (data : string)
    (st : State) : string * State :=
  let fresh :=
    let h := computeHash data in
    (h, mkState (app st) (cache_set path (mkEntry h fileMtime) (cache st))) in
  match cache_get path (cache st) with
  | Some cached => if (mtime cached =? fileMtime)%Z then (hash cached, st) else fresh
  | None => fresh
  end.

(** The first loop of [findDuplicate], over the entries the cache had when
    the loop began. *)
Fixpoint searchCache (entries : HashCache) (newHash : string) (st : State)
    : option string * State :=
  match entries with
  | [] => (None, st)
  | (path, entry) :: rest =>
      if hash entry =? newHash then
        match getAbstractFileByPath path (app st) with
        | Some (TFile _ _ _) => (Some path, st)
        | _ => searchCache rest newHash
                 (mkState (app st) (cache_delete path (cache st)))
        end
      else searchCache rest newHash st
  end.

(** The second loop of [findDuplicate], over the image files of the vault:
    the files without a cache entry are hashed. *)
Fixpoint searchVault (images : list TAbstractFile) (newHash : string) (st : State)
    : option string * State :=
  match images with
  | [] => (None, st)
  | TFile path fileMtime data :: rest =>
      match cache_get path (cache st) with
      | Some _ => searchVault rest newHash st
      | None =>
          let (h, st') := calculateHash path fileMtime data st in
          if h =? newHash then (Some path, st') else searchVault rest newHash st'
      end
  | TFolder _ :: rest => searchVault rest newHash st
  end.

(** [findDuplicate(data)]. *)
Definition findDuplicate (data : string) (st : State) : option string * State :=
  let newHash := calculateHashFromBuffer data in
  match searchCache (cache st) newHash st with
  | (Some path, st') => (Some path, st')
  | (None, st') =>
      let images :=
        filter (fun f => Types.isImageFile (path_of f)) (getFiles (app st')) in
      searchVault images newHash st'
  end.

End HashService.

(* ================================================================== *)
(** ** core/LinkUpdater.ts: the queries, escapeRegex and the link parser *)
(* ================================================================== *)

Module LinkQueries.
Import Obsidian.
Local Open Scope js_scope.

(** [getReferencingNotes]: the referencing notes that resolve to a file. *)
Definition getReferencingNotes (imagePath : string) (a : App) : list TAbstractFile :=
  flat_map
    (fun path =>
       match getAbstractFileByPath path a with
       | Some (TFile p t d) => [TFile p t d]
       | _ => []
       end)
    (LinkUpdater.findNotesReferencingImage imagePath a).

Definition isImageReferenced (imagePath : string) (a : App) : bool :=
  (0 <? List.length (LinkUpdater.findNotesReferencingImage imagePath a))%nat.

Definition getReferenceCount (imagePath : string) (a : App) : nat :=
  List.length (LinkUpdater.findNotesReferencingImage imagePath a).

(** The character class of [escapeRegex]: the fourteen characters
    . * + ? ^ $ { } ( ) | [ ] and the backslash. *)
Definition special_characters : list ascii :=
  ["."; "*"; "+"; "?"; "^"; "$"; "{"; "}"; "("; ")"; "|"; "["; "]"; "\"]%char.

Definition is_special (c : ascii) : bool :=
  existsb (Ascii.eqb c) special_characters.

(** The class tried at the start of [s]: one special character. *)
Definition exec_special (s : string) : option Js.RegExpMatch :=
  match s with
  | String c _ =>
      if is_special c then Some (Js.mkMatch (String c EmptyString) []) else None
  | EmptyString => None
  end.

(** [escapeRegex(str)]: every special character is replaced by the
    replacement string made of a backslash and [$&]. *)
Definition escapeRegex (str : string) : string :=
  Js.replace_global exec_special (Js.Template "\$&") str.

(** A [while ((match = re.exec(content)) !== null)] loop over a global
    regular expression that never matches the empty string: the matches
    from left to right, each search resuming where the previous match
    ended.  [skip] counts the units of the current match still to be passed
    over. *)
Fixpoint exec_loop (exec : string -> option Js.RegExpMatch) (skip : nat)
    (s : string) : list Js.RegExpMatch :=
  match s with
  | EmptyString => []
  | String _ s' =>
      match skip with
      | S k => exec_loop exec k s'
      | O =>
          match exec s with
          | Some m => m :: exec_loop exec (String.length (Js.matched m) - 1) s'
          | None => exec_loop exec 0 s'
          end
      end
  end.

Definition exec_all (exec : string -> option Js.RegExpMatch) (s : string)
    : list Js.RegExpMatch :=
  exec_loop exec 0 s.

(** The longest prefix without ']' and '|', and what follows it. *)
Fixpoint span_name (s : string) : string * string :=
  match s with
  | EmptyString => (EmptyString, EmptyString)
  | String a s' =>
      if Ascii.eqb a "]" || Ascii.eqb a "|" then (EmptyString, s)
      else let (run, rest) := span_name s' in (String a run, rest)
  end.

(** [wikilinkRegex] tried at the start of [s]: the literal "![[", a first
    group holding a greedy non-empty run of characters other than ']' and
    '|', an optional second group (a '|' and a greedy run of characters
    other than ']'), and the literal "]]".  A shorter run would be followed
    by a character of the run, on which neither the second group nor "]]"
    can start. *)
Definition exec_any_wikilink (s : string) : option Js.RegExpMatch :=
  match Js.strip_prefix "![[" s with
  | None => None
  | Some r =>
      let (name, r1) := span_name r in
      if name =? "" then None
      else
        let without_group :=
          match Js.strip_prefix "]]" r1 with
          | Some _ => Some (Js.mkMatch ("![[" ++ name ++ "]]") [Some name; None])
          | None => None
          end in
        match r1 with
        | String c r2 =>
            if Ascii.eqb c "|" then
              let (alias, r3) := Js.span_not "]" r2 in
              match Js.strip_prefix "]]" r3 with
              | Some _ =>
                  Some (Js.mkMatch ("![[" ++ name ++ "|" ++ alias ++ "]]")
                                   [Some name; Some ("|" ++ alias)])
              | None => without_group
              end
            else without_group
        | EmptyString => without_group
        end
  end.

(** [markdownRegex] tried at the start of [s]: the literal "![", a group
    holding a greedy run of characters other than ']', the literal "](", a
    group holding a greedy non-empty run of characters other than ')', and
    a ')'. *)
Definition exec_any_mdlink (s : string) : option Js.RegExpMatch :=
  match Js.strip_prefix "![" s with
  | None => None
  | Some r =>
      let (alt, r1) := Js.span_not "]" r in
      match Js.strip_prefix "](" r1 with
      | None => None
      | Some r2 =>
          let (target, r3) := Js.span_not ")" r2 in
          if target =? "" then None
          else
            match Js.strip_prefix ")" r3 with
            | Some _ =>
                Some (Js.mkMatch ("![" ++ alt ++ "](" ++ target ++ ")")
                                 [Some alt; Some target])
            | None => None
            end
      end
  end.

Record ImageLink := mkLink {
  link : string;
  isWikilink : bool;
  fullMatch : string
}.

(** [parseImageLinks(content)]: the wikilinks first, then the markdown
    links. *)
Definition parseImageLinks (content : string) : list ImageLink :=
  (map (fun m => mkLink (Js.capture_text (Js.captures m) 1) true (Js.matched m))
       (exec_all exec_any_wikilink content)
   ++ map (fun m => mkLink (Js.capture_text (Js.captures m) 2) false (Js.matched m))
          (exec_all exec_any_mdlink content))%list.

(** [validateImageLinks(noteFile)]: each parsed link with whether the host
    resolves it from the note. *)
Definition validateImageLinks (notePath : string) : M App (list (string * bool)) :=
  fun a =>
    (content <- read notePath ;;
     ret (map (fun l =>
                 (link l,
                  match getFirstLinkpathDest a (link l) notePath with
                  | Some _ => true
                  | None => false
                  end))
              (parseImageLinks content))) a.

End LinkQueries.

(* ================================================================== *)
(** ** src/types/index.ts: the settings *)
(* ================================================================== *)

Module Settings.

(** The settings are read back from disk, so each [switch] over one of
    them keeps a [default] branch; [other_mode], [other_pattern] and
    [other_format] stand for a stored value outside the declared type. *)
Inductive StorageMode :=
| folderBased | central | dateBased | noteFolder | sameAsNote | other_mode.

Inductive FilenamePattern :=
| original | timestamp | uuid | hash | custom | other_pattern.

Inductive LinkFormat :=
| wikilink | wikilink_path | markdown_relative | markdown_absolute | other_format.

(** The fields of [ImageMasterSettings] that [FileManager] reads. *)
Record ImageMasterSettings := mkSettings {
  storageMode : StorageMode;
  imageFolderSuffix : string;
  centralFolder : string;
  dateFormat : string;
  filenamePattern : FilenamePattern;
  customPattern : string;
  linkFormat : LinkFormat
}.

Definition DEFAULT_SETTINGS : ImageMasterSettings :=
  mkSettings folderBased "_img" "attachments" "{year}/{month}"
             timestamp "{timestamp}_{original}" wikilink_path.

End Settings.

(* ================================================================== *)
(** ** core/FileManager.ts: names, paths and links of new images *)
(* ================================================================== *)

Module FileNaming.
Import Obsidian.
Local Open Scope js_scope.

(** A [Date] through the getters the code calls (local time). *)
Record Date := mkDate {
  getFullYear : Z;
  getMonth : nat;
  getDate : nat;
  getHours : nat;
  getMinutes : nat;
  getSeconds : nat
}.

(** The note a pasted image belongs to: [activeFile.path] and
    [activeFile.basename]. *)
Record NoteFile := mkNote {
  path : string;
  basename : string
}.

(** [String(n)] and [n.toString()] for an integer. *)
Definition number_string (z : Z) : string :=
  DecimalString.NilZero.string_of_int (Z.to_int z).

(** [s.padStart(targetLength, padString)]. *)
Definition padStart (targetLength : nat) (padString s : string) : string :=
  let fillLength := (targetLength - String.length s)%nat in
  String.substring 0 fillLength (Js.repeat padString fillLength) ++ s.

Definition two_digits (n : nat) : string :=
  padStart 2 "0" (OrphanDetector.decimal n).

(** [formatTimestamp(date)]: YYYYMMdd_HHmmss. *)
Definition formatTimestamp (date : Date) : string :=
  number_string (getFullYear date) ++ two_digits (getMonth date + 1)
    ++ two_digits (getDate date) ++ "_" ++ two_digits (getHours date)
    ++ two_digits (getMinutes date) ++ two_digits (getSeconds date).

(** [formatDate(date)]: YYYY-MM-DD. *)
Definition formatDate (date : Date) : string :=
  number_string (getFullYear date) ++ "-" ++ two_digits (getMonth date + 1)
    ++ "-" ++ two_digits (getDate date).

(** [formatDatePath(pattern)], [now] being the [new Date()] of the call:
    three replacements of a first occurrence. *)
Definition formatDatePath (now : Date) (pattern : string) : string :=
  Js.replace_first "{day}" (two_digits (getDate now))
    (Js.replace_first "{month}" (two_digits (getMonth now + 1))
       (Js.replace_first "{year}" (number_string (getFullYear now)) pattern)).

Record PatternVariables := mkVariables {
  original : string;
  ext : string;
  timestamp : string;
  date : string;
  year : string;
  month : string;
  day : string;
  uuid : string;
  hash : string;
  note : string;
  folder : string;
  counter : nat
}.

(** [getPatternVariables(originalName, ext, activeFile)]; [now] is the
    [new Date()] of the call and [random] what [generateUUID()] delivers. *)
Definition getPatternVariables (now : Date) (random : string)
    (originalName ext : string) (activeFile : NoteFile) : PatternVariables :=
  let noteFolder := Js.substring_to_last "/" (path activeFile) in
  mkVariables originalName ext (formatTimestamp now) (formatDate now)
    (number_string (getFullYear now)) (two_digits (getMonth now + 1))
    (two_digits (getDate now)) random "" (basename activeFile)
    (Js.pop_or_empty (Js.split "/" noteFolder)) 0.

(** [Object.entries(variables)] with each value through [String(value)]. *)
Definition entries (v : PatternVariables) : list (string * string) :=
  [("original", original v); ("ext", ext v); ("timestamp", timestamp v);
   ("date", date v); ("year", year v); ("month", month v); ("day", day v);
   ("uuid", uuid v); ("hash", hash v); ("note", note v); ("folder", folder v);
   ("counter", OrphanDetector.decimal (counter v))].

(** A regular expression that is one literal text, tried at the start of
    [s]. *)
Definition exec_literal (lit s : string) : option Js.RegExpMatch :=
  match Js.strip_prefix lit s with
  | Some _ => Some (Js.mkMatch lit [])
  | None => None
  end.

(** [applyCustomPattern(pattern, variables)]: for each variable in turn,
    every "{key}" of the current text is replaced, the value being used as
    a replacement string. *)
Definition applyCustomPattern (pattern : string) (variables : PatternVariables)
    : string :=
  fold_left
    (fun result kv =>
       Js.replace_global (exec_literal ("{" ++ fst kv ++ "}"))
         (Js.Template (snd kv)) result)
    (entries variables) pattern.

(** [generateFilename(originalFilename, activeFile)]. *)
Definition generateFilename (settings : Settings.ImageMasterSettings)
    (now : Date) (random : string) (originalFilename : string)
    (activeFile : NoteFile) : string :=
  let ext :=
    let e := Js.pop_or_empty (Js.split "." originalFilename) in
    if e =? "" then "png" else e in
  let originalName := OrphanDetector.nameWithoutExt originalFilename in
  let variables := getPatternVariables now random originalName ext activeFile in
  match Settings.filenamePattern settings with
  | Settings.original => originalFilename
  | Settings.timestamp => timestamp variables ++ "_" ++ originalName ++ "." ++ ext
  | Settings.uuid => uuid variables ++ "." ++ ext
  | Settings.hash => timestamp variables ++ "." ++ ext
  | Settings.custom =>
      applyCustomPattern (Settings.customPattern settings) variables ++ "." ++ ext
  | Settings.other_pattern => originalFilename
  end.

(** The loop of [resolveConflict]: a counter is appended to the name as
    long as the candidate exists; [fuel] bounds the number of rounds the
    model follows. *)
Fixpoint conflictLoop (fuel : nat) (a : App) (basePath nameWithoutExt ext : string)
    (counter : nat) (finalPath : string) : option string :=
  if adapter_exists finalPath a then
    match fuel with
    | O => None
    | S fuel' =>
        conflictLoop fuel' a basePath nameWithoutExt ext (S counter)
          (normalizePath a
             (basePath ++ "/" ++ nameWithoutExt ++ "_"
                ++ OrphanDetector.decimal counter ++ "." ++ ext))
    end
  else Some finalPath.

(** [resolveConflict(basePath, filename)]. *)
Definition resolveConflict (fuel : nat) (a : App) (basePath filename : string)
    : option string :=
  conflictLoop fuel a basePath (OrphanDetector.nameWithoutExt filename)
    (Js.pop_or_empty (Js.split "." filename)) 1
    (normalizePath a (basePath ++ "/" ++ filename)).

(** [ensureFolderExists(folderPath)]. *)
Definition ensureFolderExists (folderPath : string) : M App unit :=
  fun a =>
    if folderPath =? "" then Returned tt a
    else
      let normalizedPath := normalizePath a folderPath in
      match getAbstractFileByPath normalizedPath a with
      | Some _ => Returned tt a
      | None => createFolder normalizedPath a
      end.

(** [determineSavePath(activeFile, originalFilename)]; [today] is the
    [new Date()] of [formatDatePath], [now] the later one of
    [getPatternVariables]. *)
Definition determineSavePath (settings : Settings.ImageMasterSettings)
    (today now : Date) (random : string) (fuel : nat)
    (activeFile : NoteFile) (originalFilename : string) : M App string :=
  let noteFolder := Js.substring_to_last "/" (path activeFile) in
  let noteName := basename activeFile in
  let basePath :=
    match Settings.storageMode settings with
    | Settings.folderBased =>
        let folderName := Js.pop_or_empty (Js.split "/" noteFolder) in
        let suffix :=
          if Settings.imageFolderSuffix settings =? "" then "_img"
          else Settings.imageFolderSuffix settings in
        if noteFolder =? "" then
          match Js.strip_prefix "_" suffix with
          | Some _ => suffix
          | None => "_" ++ suffix
          end
        else noteFolder ++ "/" ++ folderName ++ suffix
    | Settings.central => Settings.centralFolder settings
    | Settings.dateBased =>
        Settings.centralFolder settings ++ "/"
          ++ formatDatePath today (Settings.dateFormat settings)
    | Settings.noteFolder => Settings.centralFolder settings ++ "/" ++ noteName
    | Settings.sameAsNote => noteFolder
    | Settings.other_mode => Settings.centralFolder settings
    end in
  ensureFolderExists basePath ;;;
  (fun a =>
     let filename := generateFilename settings now random originalFilename activeFile in
     match resolveConflict fuel a basePath filename with
     | Some finalPath => Returned finalPath a
     | None => Diverged
     end).

(** [formatImageLink(imagePath, noteFile)], the note being given by its
    path. *)
Definition formatImageLink (settings : Settings.ImageMasterSettings)
    (imagePath notePath : string) : string :=
  let imageName :=
    let n := Js.pop_or_empty (Js.split "/" imagePath) in
    if n =? "" then imagePath else n in
  match Settings.linkFormat settings with
  | Settings.wikilink => "![[" ++ imageName ++ "]]"
  | Settings.wikilink_path => "![[" ++ imagePath ++ "]]"
  | Settings.markdown_relative =>
      let noteFolder := Js.substring_to_last "/" notePath in
      let relativePath := FileManager.getRelativePath noteFolder imagePath in
      "![](" ++ relativePath ++ ")"
  | Settings.markdown_absolute => "![](/" ++ imagePath ++ ")"
  | Settings.other_format => "![[" ++ imagePath ++ "]]"
  end.

(** [moveImage(oldPath, newPath)]: nothing is caught, a refused rename
    rejects the call. *)
Definition moveImage (oldPath newPath : string) : M App unit :=
  fun a =>
    match getAbstractFileByPath oldPath a with
    | Some (TFile p _ _) =>
        let normalizedNewPath := normalizePath a newPath in
        let targetFolder := Js.substring_to_last "/" normalizedNewPath in
        (ensureFolderExists targetFolder ;;; rename p normalizedNewPath) a
    | _ => Returned tt a
    end.

(** [getAllImages()]. *)
Definition getAllImages (a : App) : list TAbstractFile :=
  filter (fun file => Types.isImageFile (path_of file)) (getFiles a).

End FileNaming.

(* ================================================================== *)
(** ** core/OrphanDetector.ts: the orphan set seen from outside *)
(* ================================================================== *)

Module OrphanViews.
Import Obsidian OrphanDetector.

(** [getOrphanImages()]: [Array.from] of the set, in insertion order. *)
Definition getOrphanImages (st : State) : list string := orphanImages st.

Definition getOrphanCount (st : State) : nat := List.length (orphanImages st).

Definition markAsReferenced (imagePath : string) (st : State) : State :=
  with_orphans (set_delete imagePath (orphanImages st)) st.

Definition clearCache (st : State) : State := with_orphans [] st.

(** An [ImageInfo] with the fields the model of the host carries: the
    path, the name (the last segment of the path), [stat.mtime], the
    referencing notes and the orphan flag. *)
Record ImageInfo := mkInfo {
  path : string;
  name : string;
  modified : Z;
  referencedBy : list string;
  isOrphan : bool
}.

(** The loop of [getAllImageInfos]: every image without a referencing note
    is added to the orphan set on the way. *)
Fixpoint imageInfos (allImages : list TAbstractFile) (st : State)
    : list ImageInfo * State :=
  match allImages with
  | [] => ([], st)
  | TFile p t _ :: rest =>
      let referencingNotes := LinkUpdater.findNotesReferencingImage p (app st) in
      let orphan := (List.length referencingNotes =? 0)%nat in
      let st1 :=
        if orphan then with_orphans (set_add p (orphanImages st)) st else st in
      let (infos, st') := imageInfos rest st1 in
      (mkInfo p (Js.pop_or_empty (Js.split "/" p)) t referencingNotes orphan :: infos,
       st')
  | TFolder _ :: rest => imageInfos rest st
  end.

Definition getAllImageInfos (st : State) : list ImageInfo * State :=
  imageInfos (filter (fun f => Types.isImageFile (path_of f)) (getFiles (app st))) st.

(** [getOrphanImageInfos()]: an entry for each path of the set that still
    resolves to a file. *)
Definition getOrphanImageInfos (st : State) : list ImageInfo :=
  flat_map
    (fun imagePath =>
       match getAbstractFileByPath imagePath (app st) with
       | Some (TFile p t _) =>
           [mkInfo p (Js.pop_or_empty (Js.split "/" p)) t [] true]
       | _ => []
       end)
    (orphanImages st).

(** [stat.size]: the number of bytes of a file. *)
Definition size_of (f : TAbstractFile) : nat :=
  match f with
  | TFile _ _ d => String.length d
  | TFolder _ => 0
  end.

Record ImageStats := mkStats {
  total : nat;
  orphan : nat;
  inUse : Z;
  totalSize : nat;
  orphanSize : nat
}.

(** [getImageStats()]: a scan, then one pass over the image files that
    adds up the sizes, those of the paths in the orphan set apart. *)
Definition getImageStats (fuel : nat) : M State ImageStats :=
  bind (scanOrphanImages fuel)
    (fun _ st =>
       let allImages :=
         filter (fun f => Types.isImageFile (path_of f)) (getFiles (app st)) in
       let sizes :=
         fold_left
           (fun sizes image =>
              (fst sizes + size_of image,
               if set_has (path_of image) (orphanImages st)
               then snd sizes + size_of image else snd sizes)%nat)
           allImages (0, 0)%nat in
       Returned
         (mkStats (List.length allImages) (List.length (orphanImages st))
                  (Z.of_nat (List.length allImages)
                   - Z.of_nat (List.length (orphanImages st)))
                  (fst sizes) (snd sizes))
         st).

End OrphanViews.

(* ================================================================== *)
(** ** core/HashService.ts: keeping the cache in step with the vault *)
(* ================================================================== *)

Module HashMaintenance.
Import Obsidian HashService.

(** [this.cache[path]] read as a value: the entry stored under the key;
    without one, the member a plain object inherits from [Object.prototype]
    when [path] is one of its names; [undefined] otherwise. *)
Inductive CacheValue :=
| OwnEntry (entry : HashCacheEntry)
| InheritedMember
| Undefined.

Definition cache_read (path : string) (c : HashCache) : CacheValue :=
  match cache_get path c with
  | Some entry => OwnEntry entry
  | None =>
      if existsb (String.eqb path) OrphanDetector.object_prototype_keys
      then InheritedMember else Undefined
  end.

(** [updateCachePath(oldPath, newPath)]: a value read under [oldPath] that
    is truthy is stored under [newPath], then the key [oldPath] is deleted.
    An entry is truthy, and so is an inherited member; storing that member
    gives a cache that holds a value which is no entry, which [HashCache]
    cannot describe: the result is then [None]. *)
Definition updateCachePath (oldPath newPath : string) (st : State) : option State :=
  match cache_read oldPath (cache st) with
  | OwnEntry entry =>
      Some (mkState (app st) (cache_delete oldPath (cache_set newPath entry (cache st))))
  | InheritedMember => None
  | Undefined => Some st
  end.

Definition removeFromCache (path : string) (st : State) : State :=
  mkState (app st) (cache_delete path (cache st)).

(** [getHash(path)]: the digest of an existing image file, [null]
    otherwise. *)
Definition getHash (path : string) (st : State) : option string * State :=
  match getAbstractFileByPath path (app st) with
  | Some (TFile p fileMtime data) =>
      if Types.isImageFile p then
        let (h, st') := calculateHash p fileMtime data st in (Some h, st')
      else (None, st)
  | _ => (None, st)
  end.

(** A [Map<string, string[]>] as the list of its entries in insertion
    order; [map_push] is the three lines that append a path to the array
    stored under a digest. *)
Fixpoint map_push (h path : string) (m : list (string * list string))
    : list (string * list string) :=
  match m with
  | [] => [(h, [path])]
  | (k, files) :: rest =>
      if k =? h then (k, (files ++ [path])%list) :: rest
      else (k, files) :: map_push h path rest
  end.

(** The first loop of [findAllDuplicates]. *)
Fixpoint groupByHash (images : list TAbstractFile)
    (hashToFiles : list (string * list string)) (st : State)
    : list (string * list string) * State :=
  match images with
  | [] => (hashToFiles, st)
  | TFile path fileMtime data :: rest =>
      let (h, st') := calculateHash path fileMtime data st in
      groupByHash rest (map_push h path hashToFiles) st'
  | TFolder _ :: rest => groupByHash rest hashToFiles st
  end.

(** [findAllDuplicates()]: the groups with more than one file. *)
Definition findAllDuplicates (st : State) : list (string * list string) * State :=
  let images := filter (fun f => Types.isImageFile (path_of f)) (getFiles (app st)) in
  let (hashToFiles, st') := groupByHash images [] st in
  (filter (fun group => (1 <? List.length (snd group))%nat) hashToFiles, st').

End HashMaintenance.

(* ================================================================== *)
(** ** main.ts: the handlers of the image events *)
(* ================================================================== *)

Module Plugin.
Import Obsidian HashService.

(** A call of the link updater made from the plugin, whose state holds the
    vault and the hash cache. *)
Definition liftApp {A} (m : M App A) : M State A :=
  fun st =>
    match m (app st) with
    | Returned x a => Returned x (mkState a (cache st))
    | Thrown a => Thrown (mkState a (cache st))
    | Diverged => Diverged
    end.

(** [handleImageRename(file, oldPath)], [newPath] being [file.path]: the
    links first, the cache after.  The state it leaves is [None] when the
    cache has left what [HashCache] describes. *)
Definition handleImageRename (newPath oldPath : string) (st : State)
    : Outcome (option State) unit :=
  match liftApp (LinkUpdater.updateImageReferences oldPath newPath) st with
  | Returned _ st1 => Returned tt (HashMaintenance.updateCachePath oldPath newPath st1)
  | Thrown st1 => Thrown (Some st1)
  | Diverged => Diverged
  end.

(** [handleImageDelete(file)]. *)
Definition handleImageDelete (path : string) : M State unit :=
  fun st => Returned tt (HashMaintenance.removeFromCache path st).

End Plugin.

(* ================================================================== *)
(** * Properties *)
(* ================================================================== *)

(** ** Strings *)

Lemma append_nil_r (s : string) : s ++ "" = s.
Proof. induction s; simpl; congruence. Qed.

Lemma append_assoc (a b c : string) : (a ++ b) ++ c = a ++ b ++ c.
Proof. induction a; simpl; congruence. Qed.

Lemma length_append (a b : string) :
  String.length (a ++ b) = (String.length a + String.length b)%nat.
Proof. induction a; simpl; congruence. Qed.

(** The units of a string. *)
Fixpoint units (P : ascii -> Prop) (s : string) : Prop :=
  match s with
  | EmptyString => True
  | String c s' => P c /\ units P s'
  end.

Lemma units_append P a b : units P (a ++ b) <-> units P a /\ units P b.
Proof. induction a; simpl; tauto. Qed.

Lemma units_impl (P Q : ascii -> Prop) s :
  (forall c, P c -> Q c) -> units P s -> units Q s.
Proof. intros H; induction s; simpl; intuition. Qed.

(** ** src/types/index.ts: isImageFile *)

Lemma split_without_separator sep s :
  units (fun c => c <> sep) s -> Js.split sep s = [s].
Proof.
  induction s as [|c s IH]; simpl; [reflexivity|].
  intros [Hc Hs]. destruct (Ascii.eqb_spec c sep) as [->|_]; [contradiction|].
  now rewrite (IH Hs).
Qed.

Lemma includes_In arr x : Js.includes arr x = true <-> In x arr.
Proof.
  unfold Js.includes. rewrite existsb_exists. split.
  - intros (y & Hy & E). apply String.eqb_eq in E. now subst.
  - intros H. exists x. split; [assumption | apply String.eqb_refl].
Qed.

(** The predicate looks at the last '.'-separated segment of the path, which
    is the whole path when it has no '.'. *)
Lemma isImageFile_spec filename :
  Types.isImageFile filename = true <->
  In (Js.toLowerCase (Js.pop_or_empty (Js.split "." filename)))
     Types.SUPPORTED_IMAGE_EXTENSIONS.
Proof.
  unfold Types.isImageFile.
  destruct (String.eqb_spec (Js.toLowerCase (Js.pop_or_empty (Js.split "." filename))) "")
    as [E|_].
  - rewrite E. split; [discriminate|].
    simpl. intuition discriminate.
  - apply includes_In.
Qed.

Lemma isImageFile_without_dot filename :
  units (fun c => c <> "."%char) filename ->
  Types.isImageFile filename = true <->
  In (Js.toLowerCase filename) Types.SUPPORTED_IMAGE_EXTENSIONS.
Proof.
  intros H. rewrite isImageFile_spec, (split_without_separator _ _ H). reflexivity.
Qed.

(** C10.  [isImageFile] at paths that have no '.': the file named "png" (and
    "JPG", "attachments/x" being told apart) is taken for an image although
    it has no extension, while "noext" is not; with an extension the
    predicate answers as the list says. *)
Theorem isImageFile_extensionless_name :
  Js.split "." "png" = ["png"] /\
  Types.isImageFile "png" = true /\
  Types.isImageFile "JPG" = true /\
  Types.isImageFile "noext" = false /\
  Types.isImageFile "IMG.PNG" = true /\
  Types.isImageFile "image.tiff" = false.
Proof. repeat split; reflexivity. Qed.

(** ** getRelativePath *)

Lemma commonLength_spec (fromParts toParts : list string) :
  exists common up down,
    fromParts = (common ++ up)%list /\ toParts = (common ++ down)%list /\
    List.length common = LinkUpdater.commonLength fromParts toParts /\
    (forall f t, hd_error up = Some f -> hd_error down = Some t -> f <> t).
Proof.
  revert toParts. induction fromParts as [|f fs IH]; intros toParts.
  - exists [], [], toParts. simpl. repeat split; intros; discriminate.
  - destruct toParts as [|t ts].
    + exists [], (f :: fs), []. simpl. repeat split; intros; discriminate.
    + simpl. destruct (String.eqb_spec f t) as [->|Hne].
      * destruct (IH ts) as (common & up & down & -> & -> & Hlen & Hd).
        exists (t :: common), up, down. simpl. repeat split; auto.
      * exists [], (f :: fs), (t :: ts). simpl. repeat split; auto.
        intros f' t' [= <-] [= <-]. assumption.
Qed.

Lemma FileManager_commonLength a b :
  FileManager.commonLength a b = LinkUpdater.commonLength a b.
Proof.
  reflexivity.
Qed.

Lemma split_not_nil sep s : Js.split sep s <> [].
Proof.
  destruct s as [|c s]; simpl; [discriminate|].
  destruct (Ascii.eqb c sep); [discriminate|].
  destruct (Js.split sep s); discriminate.
Qed.

Lemma split_app sep a b :
  Js.split sep (a ++ String sep b) = (Js.split sep a ++ Js.split sep b)%list.
Proof.
  induction a as [|c a IH]; simpl.
  - now rewrite Ascii.eqb_refl.
  - destruct (Ascii.eqb c sep); rewrite IH; [reflexivity|].
    destruct (Js.split sep a) eqn:E; [|reflexivity].
    now apply split_not_nil in E.
Qed.

(** The segments a path is read with: the names between its slashes.  A
    slash at the start or at the end and a doubled slash add no segment,
    and the empty path has none. *)
Inductive segments_of : string -> list string -> Prop :=
| segments_empty : segments_of "" []
| segments_slash s l : segments_of s l -> segments_of (String "/" s) l
| segments_last seg :
    seg <> "" -> units (fun c => c <> "/"%char) seg -> segments_of seg [seg]
| segments_more seg s l :
    seg <> "" -> units (fun c => c <> "/"%char) seg -> segments_of s l ->
    segments_of (seg ++ String "/" s) (seg :: l).

(** The parts [getRelativePath] works with are these segments. *)
Lemma segments_of_parts s l :
  segments_of s l -> Js.filter_truthy (Js.split "/" s) = l.
Proof.
  unfold Js.filter_truthy.
  induction 1 as [|s l _ IH|seg Hne Hseg|seg s l Hne Hseg _ IH].
  - reflexivity.
  - cbn [Js.split]. change (Ascii.eqb "/" "/") with true. cbn iota.
    cbn [filter String.eqb negb]. exact IH.
  - rewrite (split_without_separator _ _ Hseg). cbn [filter].
    destruct (String.eqb_spec seg ""); [contradiction|reflexivity].
  - rewrite split_app, (split_without_separator _ _ Hseg). cbn [app filter].
    destruct (String.eqb_spec seg ""); [contradiction|]. cbn [negb]. now rewrite IH.
Qed.

Lemma segments_of_unique s l l' : segments_of s l -> segments_of s l' -> l = l'.
Proof.
  intros H H'. apply segments_of_parts in H, H'. congruence.
Qed.

(** Every path has segments. *)
Lemma segments_of_total s : exists l, segments_of s l.
Proof.
  induction s as [|c s IH].
  - exists []. constructor.
  - destruct IH as [l IH]. destruct (Ascii.eqb_spec c "/") as [->|Hc].
    + exists l. now constructor.
    + assert (Hunit : units (fun u => u <> "/"%char) (String c ""))
        by (split; [assumption|exact I]).
      inversion IH as [E|s' l' H' E|seg Hne Hseg E|seg s' l' Hne Hseg H' E]; subst.
      * exists [String c ""]. now constructor.
      * exists (String c "" :: l).
        apply (segments_more (String c "") s' l); [discriminate|assumption|assumption].
      * exists [String c s]. constructor; [discriminate|]. split; assumption.
      * exists (String c seg :: l').
        apply (segments_more (String c seg) s' l');
          [discriminate|split; assumption|assumption].
Qed.

Lemma commonLength_diverging (common up down : list string) :
  (forall f t, hd_error up = Some f -> hd_error down = Some t -> f <> t) ->
  LinkUpdater.commonLength (common ++ up) (common ++ down) = List.length common.
Proof.
  intros Hd. induction common as [|x common IH]; simpl.
  - destruct up as [|f up]; [reflexivity|]. destruct down as [|t down]; [reflexivity|].
    cbn [LinkUpdater.commonLength].
    destruct (String.eqb_spec f t) as [E|_]; [|reflexivity].
    now destruct (Hd f t eq_refl eq_refl).
  - now rewrite String.eqb_refl, IH.
Qed.

(** C5.  Read both paths as their segments (the names between the
    slashes).  Whenever the segments of [fromFolder] are [common] followed
    by [up] and those of [toPath] are [common] followed by [down], with
    [up] and [down] starting differently, [getRelativePath] writes one
    "../" for each segment of [up] ("./" when there is none), followed by
    the segments of [down] joined by '/'; [FileManager] computes the same.
    Every pair of paths can be read in this way.  From "a/b" to "c/x.png"
    the result is "../../c/x.png"; from the root, or from a folder the
    target lies in, the result begins with "./". *)
Theorem getRelativePath_common_prefix (fromFolder toPath : string) :
  (forall common up down,
     segments_of fromFolder (common ++ up) ->
     segments_of toPath (common ++ down) ->
     (forall f t, hd_error up = Some f -> hd_error down = Some t -> f <> t) ->
     LinkUpdater.getRelativePath fromFolder toPath =
       (match up with
        | [] => "./"
        | _ :: _ => Js.repeat "../" (List.length up)
        end) ++ Js.join "/" down) /\
  (exists common up down,
     segments_of fromFolder (common ++ up) /\
     segments_of toPath (common ++ down) /\
     (forall f t, hd_error up = Some f -> hd_error down = Some t -> f <> t)) /\
  FileManager.getRelativePath fromFolder toPath =
    LinkUpdater.getRelativePath fromFolder toPath /\
  LinkUpdater.getRelativePath "a/b" "c/x.png" = "../../c/x.png" /\
  LinkUpdater.getRelativePath "" "x.png" = "./x.png" /\
  LinkUpdater.getRelativePath "a/b" "a/b/img/x.png" = "./img/x.png" /\
  LinkUpdater.getRelativePath "/a//b/" "a/c.png" = "../c.png".
Proof.
  split; [|split; [|split; [|repeat split; reflexivity]]].
  - intros common up down Hf Ht Hd. unfold LinkUpdater.getRelativePath.
    rewrite (segments_of_parts _ _ Hf), (segments_of_parts _ _ Ht).
    rewrite (commonLength_diverging _ _ _ Hd).
    rewrite length_app, Nat.add_comm, Nat.add_sub.
    rewrite skipn_app, Nat.sub_diag, skipn_all. simpl.
    destruct up; reflexivity.
  - destruct (segments_of_total fromFolder) as [lf Hf].
    destruct (segments_of_total toPath) as [lt Ht].
    destruct (commonLength_spec lf lt) as (common & up & down & -> & -> & _ & Hd).
    exists common, up, down. auto.
  - unfold FileManager.getRelativePath, LinkUpdater.getRelativePath.
    now rewrite FileManager_commonLength.
Qed.

(** ** core/OrphanDetector.ts *)

Section OrphanDetectorFacts.
Import Obsidian OrphanDetector.

Definition is_file (p : string) (a : App) : bool :=
  match getAbstractFileByPath p a with
  | Some (TFile _ _ _) => true
  | _ => false
  end.

Lemma set_has_In x s : set_has x s = true <-> In x s.
Proof.
  unfold set_has. rewrite existsb_exists. split.
  - intros (y & Hy & E). apply String.eqb_eq in E. now subst.
  - intros H. exists x. split; [assumption | apply String.eqb_refl].
Qed.

Lemma set_has_false x s : set_has x s = false <-> ~ In x s.
Proof.
  rewrite <- set_has_In. destruct (set_has x s); split; congruence.
Qed.

Lemma set_add_In x y s : In y (set_add x s) <-> y = x \/ In y s.
Proof.
  unfold set_add. destruct (set_has x s) eqn:E.
  - apply set_has_In in E. split; [auto|]. intros [->|H]; assumption.
  - rewrite in_app_iff. simpl. intuition.
Qed.

Lemma set_delete_In x y s : In y (set_delete x s) <-> In y s /\ y <> x.
Proof.
  unfold set_delete. rewrite filter_In, negb_true_iff, String.eqb_neq. reflexivity.
Qed.

Lemma find_after_delete p q fs :
  find (fun f => path_of f =? p)
       (filter (fun f => negb (path_of f =? q)) fs) =
  if p =? q then None else find (fun f => path_of f =? p) fs.
Proof.
  induction fs as [|f fs IH]; simpl.
  - now destruct (p =? q).
  - destruct (String.eqb_spec (path_of f) q) as [Eq|Nq]; simpl.
    + rewrite IH. destruct (String.eqb_spec p q) as [->|Npq]; [reflexivity|].
      destruct (String.eqb_spec (path_of f) p) as [Ep|_]; [congruence|reflexivity].
    + destruct (String.eqb_spec (path_of f) p) as [Ep|Np].
      * destruct (String.eqb_spec p q) as [->|_]; [contradiction|reflexivity].
      * apply IH.
Qed.

Lemma is_file_after_delete p q a :
  is_file p (with_files (filter (fun f => negb (path_of f =? q)) (files a)) a) =
  negb (p =? q) && is_file p a.
Proof.
  unfold is_file, getAbstractFileByPath. simpl. rewrite find_after_delete.
  now destruct (p =? q).
Qed.

Lemma filter_after_delete q deleted (fs : list TAbstractFile) :
  filter (fun f => negb (set_has (path_of f) deleted))
         (filter (fun f => negb (path_of f =? q)) fs) =
  filter (fun f => negb (set_has (path_of f) (q :: deleted))) fs.
Proof.
  induction fs as [|f fs IH]; simpl; [reflexivity|].
  rewrite (String.eqb_sym (path_of f) q).
  destruct (q =? path_of f); simpl; rewrite IH; reflexivity.
Qed.

Lemma orphans_after_delete q deleted (o : list string) :
  filter (fun p => negb (set_has p deleted)) (set_delete q o) =
  filter (fun p => negb (set_has p (q :: deleted))) o.
Proof.
  unfold set_delete. induction o as [|x o IH]; simpl; [reflexivity|].
  rewrite (String.eqb_sym x q).
  destruct (q =? x); simpl; rewrite IH; reflexivity.
Qed.

Lemma filter_nothing_deleted {A} (f : A -> string) (l : list A) :
  filter (fun x => negb (set_has (f x) [])) l = l.
Proof. induction l as [|x l IH]; [reflexivity|]. simpl. f_equal. exact IH. Qed.

(** What the loop of [deleteOrphanImages] does, for any count it starts
    from: [deleted] lists the paths it deleted, without repetition. *)
Lemma deleteLoop_spec (imagePaths : list string) :
  forall (st : State) (count : nat),
  exists deleted st',
    deleteLoop imagePaths count st = Returned (count + List.length deleted)%nat st' /\
    NoDup deleted /\
    (forall p, In p deleted <->
               In p imagePaths /\ is_file p (app st) = true /\
               deleteThrows (app st) p = false) /\
    files (app st') =
      filter (fun f => negb (set_has (path_of f) deleted)) (files (app st)) /\
    orphanImages st' =
      filter (fun p => negb (set_has p deleted)) (orphanImages st) /\
    deleteThrows (app st') = deleteThrows (app st).
Proof.
  induction imagePaths as [|imagePath rest IH]; intros st count.
  - exists [], st. simpl. unfold ret. rewrite Nat.add_0_r.
    repeat split; try constructor; try tauto;
      now rewrite ?(filter_nothing_deleted path_of), ?(filter_nothing_deleted (fun p => p)).
  - simpl.
    assert (Hskip :
      (is_file imagePath (app st) = false \/ deleteThrows (app st) imagePath = true) ->
      forall deleted st',
        deleteLoop rest count st = Returned (count + List.length deleted)%nat st' ->
        (forall p, In p deleted <->
                   In p rest /\ is_file p (app st) = true /\
                   deleteThrows (app st) p = false) ->
        forall p, In p deleted <->
                  In p (imagePath :: rest) /\ is_file p (app st) = true /\
                  deleteThrows (app st) p = false).
    { intros Hno deleted st' _ Hin p. rewrite Hin. simpl. split; [tauto|].
      intros ([<-|Hr] & Hf & Ht); [|tauto].
      destruct Hno; congruence. }
    destruct (getAbstractFileByPath imagePath (app st)) as [[q t d|q]|] eqn:Hfind.
    + assert (Hq : q = imagePath).
      { unfold getAbstractFileByPath in Hfind. apply find_some in Hfind.
        destruct Hfind as [_ Hfind]. simpl in Hfind. now apply String.eqb_eq. }
      subst q.
      assert (Hfile : is_file imagePath (app st) = true)
        by (unfold is_file; now rewrite Hfind).
      unfold bind at 1, try_catch, bind at 1, liftApp, delete.
      destruct (deleteThrows (app st) imagePath) eqn:Hthrow.
      * unfold ret at 1.
        destruct (IH st count) as (deleted & st' & Hrun & Hnd & Hin & Hfs & Ho & Hdt).
        replace (with_app (app st) st) with st by now destruct st.
        exists deleted, st'. repeat split; auto; now apply (Hskip (or_intror eq_refl) deleted st' Hrun Hin).
      * set (a1 := with_files (filter (fun f => negb (path_of f =? imagePath))
                                      (files (app st))) (app st)).
        set (st1 := with_orphans (set_delete imagePath (orphanImages (with_app a1 st)))
                                 (with_app a1 st)).
        destruct (IH st1 (S count)) as (deleted & st' & Hrun & Hnd & Hin & Hfs & Ho & Hdt).
        assert (Hfile1 : forall p, is_file p (app st1) =
                                   negb (p =? imagePath) && is_file p (app st))
          by (intros p; apply is_file_after_delete).
        exists (imagePath :: deleted), st'.
        split; [simpl List.length; rewrite Nat.add_succ_r; exact Hrun|].
        split.
        { constructor; [|assumption]. rewrite Hin, Hfile1, String.eqb_refl.
          simpl. intuition discriminate. }
        split.
        { intros p. simpl In. rewrite Hin, Hfile1. split.
          - intros [<-|(Hr & Hf & Ht)]; [tauto|].
            apply andb_true_iff in Hf. tauto.
          - intros ([Hp|Hp] & Hf & Ht); [left; assumption|].
            destruct (String.eqb_spec p imagePath) as [->|Hne]; [left; reflexivity|].
            right. simpl. tauto. }
        split; [rewrite Hfs; apply filter_after_delete|].
        split; [rewrite Ho; apply orphans_after_delete|].
        exact Hdt.
    + assert (Hfile : is_file imagePath (app st) = false)
        by (unfold is_file; now rewrite Hfind).
      destruct (IH st count) as (deleted & st' & Hrun & Hnd & Hin & Hfs & Ho & Hdt).
      exists deleted, st'. repeat split; auto; now apply (Hskip (or_introl Hfile) deleted st' Hrun Hin).
    + assert (Hfile : is_file imagePath (app st) = false)
        by (unfold is_file; now rewrite Hfind).
      destruct (IH st count) as (deleted & st' & Hrun & Hnd & Hin & Hfs & Ho & Hdt).
      exists deleted, st'. repeat split; auto; now apply (Hskip (or_introl Hfile) deleted st' Hrun Hin).
Qed.

(** In a list without repeated keys, removing the entries whose key is in
    a repetition-free list of keys present shortens it by that many. *)
Lemma length_after_removal {A} (key : A -> string) (l : list A) :
  forall deleted,
    NoDup (map key l) -> NoDup deleted ->
    (forall p, In p deleted -> In p (map key l)) ->
    List.length l =
    (List.length (filter (fun x => negb (set_has (key x) deleted)) l)
     + List.length deleted)%nat.
Proof.
  induction l as [|x l IH]; intros deleted Hl Hd Hsub.
  - destruct deleted as [|p deleted]; [reflexivity|].
    destruct (Hsub p (or_introl eq_refl)).
  - inversion Hl as [|? ? Hx Hl']; subst. cbn [filter].
    destruct (set_has (key x) deleted) eqn:Ex; cbn [negb].
    + apply set_has_In in Ex.
      specialize (IH (set_delete (key x) deleted) Hl').
      assert (Hlen : List.length deleted = S (List.length (set_delete (key x) deleted))).
      { clear - Ex Hd. unfold set_delete.
        induction deleted as [|d ds IHd]; [destruct Ex|].
        inversion Hd as [|? ? Hnotin Hd']; subst. simpl.
        destruct (String.eqb_spec d (key x)) as [->|Hne]; simpl.
        - f_equal. clear - Hnotin.
          induction ds as [|e es IHe]; [reflexivity|]. simpl.
          destruct (String.eqb_spec e (key x)) as [->|_]; simpl.
          + exfalso. apply Hnotin. now left.
          + f_equal. apply IHe. intros H. apply Hnotin. now right.
        - f_equal. apply IHd; [assumption|].
          destruct Ex as [E|E]; [congruence|assumption]. }
      rewrite Hlen, Nat.add_succ_r. simpl. f_equal.
      rewrite IH.
      * f_equal. f_equal. apply filter_ext_in. intros y Hy. f_equal.
        apply eq_true_iff_eq. rewrite !set_has_In, set_delete_In.
        split; [tauto|]. intros H. split; [assumption|].
        intros E. apply Hx. rewrite <- E. now apply in_map.
      * unfold set_delete. now apply NoDup_filter.
      * intros p Hp. apply set_delete_In in Hp. destruct Hp as [Hp Hne].
        destruct (Hsub p Hp) as [E|H]; [congruence|assumption].
    + simpl. f_equal. apply IH; auto.
      intros p Hp. destruct (Hsub p Hp) as [E|H]; [|assumption].
      apply set_has_false in Ex. subst p. contradiction.
Qed.

Lemma is_file_In p a :
  is_file p a = true -> In p (map path_of (files a)).
Proof.
  unfold is_file, getAbstractFileByPath.
  destruct (find _ (files a)) as [f|] eqn:E; [|discriminate].
  intros _. apply find_some in E. destruct E as [Hin Hp].
  apply String.eqb_eq in Hp. rewrite <- Hp. now apply in_map.
Qed.

(** C7.  [deleteOrphanImages] always returns; the paths it deletes are
    exactly the given paths that resolve to an existing file whose deletion
    does not fail, whatever their orphan status; the count it returns is
    their number (in a vault with one entry per path, the number of files
    that left the vault); these paths, and no others, leave the vault and
    the orphan set, so a path that did not exist leaves the orphan set as it
    was. *)
Theorem deleteOrphanImages_deletes_existing_files (imagePaths : list string)
    (st : State) :
  exists deleted st',
    deleteOrphanImages imagePaths st = Returned (List.length deleted) st' /\
    NoDup deleted /\
    (forall p, In p deleted <->
               In p imagePaths /\ is_file p (app st) = true /\
               deleteThrows (app st) p = false) /\
    files (app st') =
      filter (fun f => negb (set_has (path_of f) deleted)) (files (app st)) /\
    orphanImages st' =
      filter (fun p => negb (set_has p deleted)) (orphanImages st) /\
    (forall p, is_file p (app st) = false ->
               set_has p (orphanImages st') = set_has p (orphanImages st)) /\
    (NoDup (map path_of (files (app st))) ->
     List.length (files (app st)) =
     (List.length (files (app st')) + List.length deleted)%nat).
Proof.
  destruct (deleteLoop_spec imagePaths st 0)
    as (deleted & st' & Hrun & Hnd & Hin & Hfs & Ho & _).
  exists deleted, st'. repeat (split; [assumption|]). split.
  - intros p Hp.
    assert (Hnot : ~ In p deleted) by (rewrite Hin; intros (_ & Hf & _); congruence).
    apply eq_true_iff_eq.
    rewrite !set_has_In, Ho, filter_In, negb_true_iff, set_has_false.
    tauto.
  - intros Hfiles. rewrite Hfs. apply length_after_removal; auto.
    intros p Hp. apply Hin in Hp. now apply is_file_In.
Qed.

(** *** scanOrphanImages and isOrphan *)

Lemma referenced_fold_inner links :
  forall referenced p,
    In p (fold_left
            (fun referenced linkedPath =>
               if Types.isImageFile linkedPath then set_add linkedPath referenced
               else referenced)
            links referenced) <->
    In p referenced \/ (In p links /\ Types.isImageFile p = true).
Proof.
  induction links as [|l links IH]; intros referenced p; simpl.
  - tauto.
  - rewrite IH. destruct (Types.isImageFile l) eqn:E.
    + rewrite set_add_In. split.
      * intros [[->|H]|[H1 H2]]; auto.
      * intros [H|[[<-|H1] H2]]; auto.
    + split.
      * intros [H|[H1 H2]]; auto.
      * intros [H|[[<-|H1] H2]]; auto. congruence.
Qed.

Lemma referenced_fold_outer (allLinks : list (list string)) :
  forall referenced p,
    In p (fold_left
            (fun referenced links =>
               fold_left
                 (fun referenced linkedPath =>
                    if Types.isImageFile linkedPath then set_add linkedPath referenced
                    else referenced)
                 links referenced)
            allLinks referenced) <->
    In p referenced \/
    ((exists links, In links allLinks /\ In p links) /\ Types.isImageFile p = true).
Proof.
  induction allLinks as [|links allLinks IH]; intros referenced p; simpl.
  - split; [auto|]. intros [H|[(l & [] & _) _]]. assumption.
  - rewrite IH, referenced_fold_inner. split.
    + intros [[H|[H1 H2]]|[(l & H1 & H2) H3]]; auto.
      * right. split; [exists links; auto | assumption].
      * right. split; [exists l; auto | assumption].
    + intros [H|[(l & [<-|H1] & H2) H3]]; auto.
      right. split; [exists l; auto | assumption].
Qed.

(** An image path is in [getAllReferencedImages] exactly when some note
    links to it. *)
Lemma getAllReferencedImages_In a p :
  In p (getAllReferencedImages a) <->
  (exists links, In links (map snd (resolvedLinks a)) /\ In p links) /\
  Types.isImageFile p = true.
Proof.
  unfold getAllReferencedImages. rewrite referenced_fold_outer. simpl. tauto.
Qed.

(** "No note links to [p]", in the words of [findNotesReferencingImage]. *)
Lemma findNotesReferencingImage_nil a p :
  LinkUpdater.findNotesReferencingImage p a = [] <->
  ~ exists links, In links (map snd (resolvedLinks a)) /\ In p links.
Proof.
  unfold LinkUpdater.findNotesReferencingImage.
  induction (resolvedLinks a) as [|[note links] rl IH]; simpl.
  - split; [|reflexivity]. intros _ (l & [] & _).
  - destruct (existsb (fun linkedPath => linkedPath =? p) links) eqn:E; simpl.
    + split; [discriminate|]. intros H. exfalso. apply H.
      apply existsb_exists in E. destruct E as (x & Hx & Ex).
      apply String.eqb_eq in Ex. subst x. exists links. auto.
    + rewrite IH. split.
      * intros H (l & [<-|Hl] & Hp); [|apply H; exists l; auto].
        assert (existsb (fun linkedPath => linkedPath =? p) links = true); [|congruence].
        apply existsb_exists. exists p. split; [assumption|apply String.eqb_refl].
      * intros H (l & Hl & Hp). apply H. exists l. auto.
Qed.

Lemma prototype_keys_are_not_images :
  forallb (fun k => negb (Types.isImageFile k)) object_prototype_keys = true.
Proof. reflexivity. Qed.

Lemma js_in_image p links :
  Types.isImageFile p = true -> js_in p links = true <-> In p links.
Proof.
  intros Himg. unfold js_in. rewrite orb_true_iff.
  change (existsb (String.eqb p) links) with (set_has p links).
  rewrite set_has_In. split; [|auto]. intros [H|H]; [assumption|].
  exfalso. apply existsb_exists in H. destruct H as (k & Hk & E).
  apply String.eqb_eq in E. subst k.
  pose proof prototype_keys_are_not_images as Hall.
  rewrite forallb_forall in Hall. specialize (Hall p Hk).
  rewrite Himg in Hall. discriminate.
Qed.

(** Moving orphans renames files and may create the target folder; the
    resolved links are those of the metadata cache and stay as they are. *)
Lemma moveLoop_resolvedLinks fuel targetFolder orphanPaths :
  forall movedCount a n a',
    moveLoop fuel targetFolder orphanPaths movedCount a = Returned n a' ->
    resolvedLinks a' = resolvedLinks a.
Proof.
  induction orphanPaths as [|imagePath rest IH]; intros movedCount a n a'; simpl.
  - unfold ret. now intros [= _ <-].
  - destruct (getAbstractFileByPath imagePath a) as [[q t d|q]|]; try apply IH.
    destruct (freeName fuel a targetFolder _ 1 _) as [finalPath|]; [|discriminate].
    unfold bind at 1, try_catch, bind at 1, rename.
    destruct (renameThrows a q || adapter_exists finalPath a).
    + unfold ret at 1. apply IH.
    + unfold ret at 1. intros H. apply IH in H. exact H.
Qed.

Lemma ensureFolderExists_resolvedLinks folderPath a a' :
  ensureFolderExists folderPath a = Returned tt a' ->
  resolvedLinks a' = resolvedLinks a.
Proof.
  unfold ensureFolderExists, createFolder.
  destruct (folderPath =? ""); [now intros [= <-]|].
  destruct (getAbstractFileByPath _ a); [now intros [= <-]|].
  destruct (createFolderThrows a _ || adapter_exists _ a); [discriminate|].
  now intros [= <-].
Qed.

(** The state a completed scan leaves: the orphan set holds the orphans it
    returns, and the resolved links are untouched. *)
Lemma scanOrphanImages_state fuel st orphans st' :
  scanOrphanImages fuel st = Returned orphans st' ->
  orphans =
    filter (fun p => negb (set_has p (getAllReferencedImages (app st))))
      (map path_of
         (filter (fun f => Types.isImageFile (path_of f)) (getFiles (app st)))) /\
  orphanImages st' = fold_left (fun s p => set_add p s) orphans [] /\
  resolvedLinks (app st') = resolvedLinks (app st).
Proof.
  unfold scanOrphanImages.
  set (orphans0 := filter _ (map path_of _)).
  set (st1 := with_orphans _ st).
  assert (Hkeep : Returned orphans0 st1 = Returned orphans st' ->
                  orphans = orphans0 /\
                  orphanImages st' = fold_left (fun s p => set_add p s) orphans [] /\
                  resolvedLinks (app st') = resolvedLinks (app st)).
  { intros [= <- <-]. repeat split. }
  destruct (orphanHandling st1); try exact Hkeep.
  destruct orphans0 as [|o os] eqn:Eo; [exact Hkeep|].
  unfold bind at 1, moveOrphansToFolder, liftApp, bind at 1.
  destruct (ensureFolderExists (orphanFolder st1) (app st1)) as [[] a1| |] eqn:E1;
    try discriminate.
  unfold bind at 1.
  destruct (moveLoop fuel (orphanFolder st1) (o :: os) 0 a1) as [n a2| |] eqn:E2;
    try discriminate.
  unfold ret. intros [= <- <-]. repeat split.
  simpl. apply moveLoop_resolvedLinks in E2.
  apply ensureFolderExists_resolvedLinks in E1. rewrite E2, E1. reflexivity.
Qed.

Lemma fold_set_add_In (l : list string) :
  forall acc p, In p (fold_left (fun s q => set_add q s) l acc) <-> In p acc \/ In p l.
Proof.
  induction l as [|x l IH]; intros acc p; simpl; [tauto|].
  rewrite IH, set_add_In. intuition.
Qed.

(** C1.  After a completed scan the orphan set holds exactly the image
    files of the vault that no note links to, whatever it held before; and
    for every image path [p], [isOrphan p] answers true if and only if no
    note of the resolved links links to [p].  This holds for every setting
    of [orphanHandling], the relocation of the orphans included. *)
Theorem scan_then_isOrphan_agrees_with_links (fuel : nat) (st st' : State)
    (orphans : list string) :
  scanOrphanImages fuel st = Returned orphans st' ->
  (forall p, In p (orphanImages st') <->
             In p (map path_of (getFiles (app st))) /\
             Types.isImageFile p = true /\
             LinkUpdater.findNotesReferencingImage p (app st) = []) /\
  (forall p, In p orphans <-> In p (orphanImages st')) /\
  resolvedLinks (app st') = resolvedLinks (app st) /\
  (forall p, Types.isImageFile p = true ->
             fst (isOrphan p st') = true <->
             LinkUpdater.findNotesReferencingImage p (app st') = []).
Proof.
  intros Hscan. apply scanOrphanImages_state in Hscan.
  destruct Hscan as (Horph & Hset & Hlinks).
  assert (Hin : forall p, In p (orphanImages st') <-> In p orphans).
  { intros p. rewrite Hset, fold_set_add_In. simpl. tauto. }
  assert (Hchar : forall p, In p orphans <->
             In p (map path_of (getFiles (app st))) /\
             Types.isImageFile p = true /\
             LinkUpdater.findNotesReferencingImage p (app st) = []).
  { intros p. rewrite Horph, filter_In, negb_true_iff, set_has_false.
    rewrite getAllReferencedImages_In, findNotesReferencingImage_nil.
    rewrite !in_map_iff. split.
    - intros ((f & <- & Hf) & Hnot). apply filter_In in Hf. destruct Hf as [Hf Himg].
      split; [exists f; auto|]. split; [assumption|]. tauto.
    - intros ((f & <- & Hf) & Himg & Hnot). split; [|tauto].
      exists f. split; [reflexivity|]. apply filter_In. auto. }
  split; [intros p; rewrite Hin; apply Hchar|].
  split; [intros p; symmetry; apply Hin|].
  split; [assumption|].
  intros p Himg. unfold isOrphan.
  assert (Hnone : existsb (js_in p) (map snd (resolvedLinks (app st'))) = false <->
                  LinkUpdater.findNotesReferencingImage p (app st') = []).
  { rewrite findNotesReferencingImage_nil, <- not_true_iff_false, existsb_exists.
    split; intros H (l & Hl & Hp); apply H; exists l; (split; [assumption|]);
      now apply (js_in_image p l Himg). }
  destruct (set_has p (orphanImages st')) eqn:Ecache; simpl.
  - split; [intros _|reflexivity].
    apply set_has_In, Hin, Hchar in Ecache. rewrite Hlinks in *.
    unfold LinkUpdater.findNotesReferencingImage in *. rewrite Hlinks. tauto.
  - destruct (existsb (js_in p) (map snd (resolvedLinks (app st')))) eqn:Elinks; simpl.
    + split; [discriminate|]. intros H. apply Hnone in H. discriminate.
    + split; [intros _; now apply Hnone | reflexivity].
Qed.

(** A vault in which the orphan folder already holds a file named like a
    new orphan, and an orphan set that had drifted. *)
Definition scan_example : State :=
  OrphanDetector.mkState
    (mkApp [TFile "notes/a.md" 10 "![[img/used.png]]";
            TFile "img/used.png" 11 "u"; TFile "img/lost.png" 12 "l";
            TFolder "_orphaned"; TFile "_orphaned/lost.png" 13 "o"]
           [("notes/a.md", ["img/used.png"])]
           (fun _ _ => None) (fun p => p)
           (fun _ => false) (fun _ => false) (fun _ => false) (fun _ => false)
           (fun _ => false) [])
    moveToFolder "_orphaned" ["img/used.png"].

Lemma scan_then_isOrphan_witness :
  exists orphans st',
    scanOrphanImages 4 scan_example = Returned orphans st' /\
    orphans = ["img/lost.png"; "_orphaned/lost.png"] /\
    map path_of (files (app st')) =
      ["notes/a.md"; "img/used.png"; "_orphaned/lost_1.png"; "_orphaned";
       "_orphaned/lost_2.png"] /\
    (forall p, Types.isImageFile p = true ->
               fst (isOrphan p st') = true <->
               LinkUpdater.findNotesReferencingImage p (app st') = []).
Proof.
  eexists. eexists.
  match goal with
  | |- ?A /\ _ => assert (H : A) by (vm_compute; reflexivity)
  end.
  split; [exact H|].
  split; [reflexivity|]. split; [reflexivity|].
  exact (proj2 (proj2 (proj2
           (scan_then_isOrphan_agrees_with_links 4 scan_example _ _ H)))).
Defined.

End OrphanDetectorFacts.

(** ** SHA-256 *)

(** The digests of the empty message and of "abc", as published with the
    standard. *)
Example sha256_of_empty :
  Sha256.hexdigest "" =
  "e3b0c44298fc1c149afbf4c8996fb92427ae41e4649b934ca495991b7852b855".
Proof. vm_compute. reflexivity. Qed.

Example sha256_of_abc :
  Sha256.hexdigest "abc" =
  "ba7816bf8f01cfea414140de5dae2223b00361a396177a9cb410ff61f20015ad".
Proof. vm_compute. reflexivity. Qed.

(** ** core/HashService.ts *)

Section HashServiceFacts.
Import Obsidian HashService.

Definition data_of (f : TAbstractFile) : string :=
  match f with
  | TFile _ _ d => d
  | TFolder _ => ""
  end.

Definition is_cached (path : string) (c : HashCache) : bool :=
  match cache_get path c with
  | Some _ => true
  | None => false
  end.

(** A cache entry with the wanted digest whose file exists, and one whose
    file is gone. *)
Definition live_match (newHash : string) (a : App) (ke : string * HashCacheEntry) : bool :=
  (hash (snd ke) =? newHash) && is_file (fst ke) a.

Definition stale_match (newHash : string) (a : App) (ke : string * HashCacheEntry) : bool :=
  (hash (snd ke) =? newHash) && negb (is_file (fst ke) a).

(** An image file without a cache entry whose content has the wanted
    digest. *)
Definition uncached_match (newHash : string) (c : HashCache) (f : TAbstractFile) : bool :=
  isTFile f && Types.isImageFile (path_of f) && negb (is_cached (path_of f) c)
  && (computeHash (data_of f) =? newHash).

(** [calculateHash] trusts an entry only when its [mtime] is the file's. *)
Lemma calculateHash_checks_mtime path fileMtime data st :
  fst (calculateHash path fileMtime data st) =
  match cache_get path (cache st) with
  | Some cached =>
      if (mtime cached =? fileMtime)%Z then hash cached else computeHash data
  | None => computeHash data
  end.
Proof.
  unfold calculateHash. destruct (cache_get path (cache st)) as [cached|]; [|reflexivity].
  now destruct (mtime cached =? fileMtime)%Z.
Qed.

(** The keys the first loop deletes: the entries with the wanted digest and
    no file, up to the first entry with the wanted digest and a file. *)
Fixpoint purged_keys (newHash : string) (a : App) (entries : HashCache) : list string :=
  match entries with
  | [] => []
  | (path, entry) :: rest =>
      if hash entry =? newHash then
        if is_file path a then [] else path :: purged_keys newHash a rest
      else purged_keys newHash a rest
  end.

Lemma filter_after_cache_delete path keys (c : HashCache) :
  filter (fun ke => negb (OrphanDetector.set_has (fst ke) keys)) (cache_delete path c) =
  filter (fun ke => negb (OrphanDetector.set_has (fst ke) (path :: keys))) c.
Proof.
  unfold cache_delete. induction c as [|[k e] c IH]; [reflexivity|]. simpl.
  rewrite (String.eqb_sym k path).
  destruct (path =? k); simpl; rewrite IH; reflexivity.
Qed.

Lemma searchCache_spec entries newHash :
  forall st,
    fst (searchCache entries newHash st) =
      option_map fst (find (live_match newHash (app st)) entries) /\
    app (snd (searchCache entries newHash st)) = app st /\
    cache (snd (searchCache entries newHash st)) =
      filter (fun ke => negb (OrphanDetector.set_has (fst ke) (purged_keys newHash (app st) entries)))
             (cache st).
Proof.
  induction entries as [|[path entry] rest IH]; intros st; simpl.
  - repeat split. symmetry. apply (filter_nothing_deleted fst).
  - unfold live_match at 1. simpl. unfold is_file.
    destruct (hash entry =? newHash); simpl; [|apply IH].
    destruct (getAbstractFileByPath path (app st)) as [[q t d|q]|]; simpl.
    + repeat split. symmetry. apply (filter_nothing_deleted fst).
    + destruct (IH (HashService.mkState (app st) (cache_delete path (cache st))))
        as (H1 & H2 & H3).
      simpl in H1, H2, H3. repeat split; try assumption.
      rewrite H3. apply filter_after_cache_delete.
    + destruct (IH (HashService.mkState (app st) (cache_delete path (cache st))))
        as (H1 & H2 & H3).
      simpl in H1, H2, H3. repeat split; try assumption.
      rewrite H3. apply filter_after_cache_delete.
Qed.

Lemma purged_keys_are_stale newHash a entries p :
  In p (purged_keys newHash a entries) ->
  exists e, In (p, e) entries /\ stale_match newHash a (p, e) = true.
Proof.
  induction entries as [|[path entry] rest IH]; simpl; [tauto|].
  destruct (hash entry =? newHash) eqn:Eh.
  - destruct (is_file path a) eqn:Ef; simpl; [tauto|].
    intros [<-|H].
    + exists entry. split; [auto|]. unfold stale_match. simpl. now rewrite Eh, Ef.
    + destruct (IH H) as (e & He & Hs). exists e. auto.
  - intros H. destruct (IH H) as (e & He & Hs). exists e. auto.
Qed.

Lemma purged_keys_complete newHash a entries p e :
  find (live_match newHash a) entries = None ->
  In (p, e) entries -> (hash e =? newHash) = true ->
  In p (purged_keys newHash a entries).
Proof.
  induction entries as [|[path entry] rest IH]; simpl; [tauto|].
  unfold live_match at 1. simpl.
  destruct (hash entry =? newHash) eqn:Eh; simpl.
  - destruct (is_file path a); [discriminate|].
    intros Hnone [[= -> ->]|Hin] He; [left; reflexivity|right; auto].
  - intros Hnone [[= -> ->]|Hin] He; [congruence|auto].
Qed.

Lemma cache_get_set_other p q e c :
  p <> q -> cache_get p (cache_set q e c) = cache_get p c.
Proof.
  intros Hne. induction c as [|[k e'] c IH]; simpl.
  - apply String.eqb_neq in Hne. rewrite String.eqb_sym. now rewrite Hne.
  - destruct (String.eqb_spec k q) as [->|Hkq]; simpl.
    + apply not_eq_sym, String.eqb_neq in Hne. now rewrite Hne.
    + now rewrite IH.
Qed.

Lemma cache_set_keeps p e c x :
  cache_get p c = None -> In x c -> In x (cache_set p e c).
Proof.
  induction c as [|[k e'] c IH]; simpl; [tauto|].
  destruct (k =? p); [discriminate|]. intros Hnone [<-|Hin]; simpl; auto.
Qed.

Lemma find_ext_in {A} (P Q : A -> bool) (l : list A) :
  (forall x, In x l -> P x = Q x) -> find P l = find Q l.
Proof.
  induction l as [|x l IH]; simpl; [reflexivity|]. intros H.
  rewrite (H x (or_introl eq_refl)), IH; [reflexivity|]. intros y Hy. apply H. auto.
Qed.

(** The second loop returns the first image file, among those it is given,
    that has no cache entry and the wanted digest; it keeps the entries the
    cache had and adds entries only for files it was given. *)
Lemma searchVault_spec newHash (images : list TAbstractFile) :
  NoDup (map path_of images) ->
  forall st,
    fst (searchVault images newHash st) =
      option_map path_of
        (find (fun f => isTFile f && negb (is_cached (path_of f) (cache st))
                        && (computeHash (data_of f) =? newHash)) images) /\
    app (snd (searchVault images newHash st)) = app st /\
    (forall x, In x (cache st) -> In x (cache (snd (searchVault images newHash st)))) /\
    (forall p, ~ In p (map path_of images) ->
               cache_get p (cache (snd (searchVault images newHash st))) =
               cache_get p (cache st)).
Proof.
  induction images as [|f images IH]; intros Hnd st.
  - simpl. repeat split; auto.
  - inversion Hnd as [|? ? Hnotin Hnd']; subst.
    destruct f as [path t d|path]; simpl.
    + unfold is_cached at 1.
      destruct (cache_get path (cache st)) eqn:Eget; simpl.
      * destruct (IH Hnd' st) as (H1 & H2 & H3 & H4).
        split; [assumption|]. split; [assumption|]. split; [assumption|].
        intros p Hp. apply H4. tauto.
      * unfold calculateHash. rewrite Eget.
        destruct (computeHash d =? newHash) eqn:Eh; simpl.
        -- split; [reflexivity|]. split; [reflexivity|]. split.
           ++ intros x Hx. now apply cache_set_keeps.
           ++ intros p Hp. apply cache_get_set_other.
              intros ->. apply Hp. now left.
        -- set (st1 := HashService.mkState (app st)
                         (cache_set path (mkEntry (computeHash d) t) (cache st))).
           destruct (IH Hnd' st1) as (H1 & H2 & H3 & H4).
           split; [|split; [assumption|split]].
           ++ rewrite H1. f_equal. apply find_ext_in. intros x Hx.
              unfold is_cached. simpl. rewrite cache_get_set_other; [reflexivity|].
              intros E. apply Hnotin. simpl. rewrite <- E. now apply in_map.
           ++ intros x Hx. apply H3. simpl. now apply cache_set_keeps.
           ++ intros p Hp. rewrite H4 by tauto. simpl.
              apply cache_get_set_other. intros ->. apply Hp. now left.
    + destruct (IH Hnd' st) as (H1 & H2 & H3 & H4).
      split; [assumption|]. split; [assumption|]. split; [assumption|].
      intros p Hp. apply H4. tauto.
Qed.

Lemma find_filter {A} (P Q : A -> bool) (l : list A) :
  find P (filter Q l) = find (fun x => Q x && P x) l.
Proof.
  induction l as [|x l IH]; simpl; [reflexivity|].
  destruct (Q x); simpl; [|assumption]. now destruct (P x).
Qed.

Lemma NoDup_map_filter {A B} (f : A -> B) (P : A -> bool) (l : list A) :
  NoDup (map f l) -> NoDup (map f (filter P l)).
Proof.
  induction l as [|x l IH]; simpl; [auto|]. intros H.
  inversion H as [|? ? Hnotin Hnd]; subst.
  destruct (P x); simpl; [|auto]. constructor; [|auto].
  intros Hin. apply Hnotin. apply in_map_iff in Hin. destruct Hin as (y & Ey & Hy).
  apply filter_In in Hy. apply in_map_iff. exists y. tauto.
Qed.

(** In a vault with one entry per path, a file found in the tree is what
    its path resolves to. *)
Lemma is_file_of_In a f :
  NoDup (map path_of (files a)) -> In f (files a) -> isTFile f = true ->
  is_file (path_of f) a = true.
Proof.
  unfold is_file, getAbstractFileByPath.
  induction (files a) as [|g fs IH]; simpl; [tauto|].
  intros Hnd Hin Hf. inversion Hnd as [|? ? Hnotin Hnd']; subst.
  destruct (String.eqb_spec (path_of g) (path_of f)) as [E|Ne].
  - destruct Hin as [->|Hin]; [now destruct f|].
    exfalso. apply Hnotin. rewrite E. now apply in_map.
  - destruct Hin as [->|Hin]; [congruence|auto].
Qed.

Lemma cache_get_filter p keys (c : HashCache) :
  cache_get p (filter (fun ke => negb (OrphanDetector.set_has (fst ke) keys)) c) =
  if OrphanDetector.set_has p keys then None else cache_get p c.
Proof.
  induction c as [|[k e] c IH]; simpl.
  - now destruct (OrphanDetector.set_has p keys).
  - destruct (OrphanDetector.set_has k keys) eqn:Ek; simpl.
    + rewrite IH. destruct (String.eqb_spec k p) as [->|_]; [now rewrite Ek|reflexivity].
    + rewrite IH. destruct (String.eqb_spec k p) as [->|_]; [now rewrite Ek|reflexivity].
Qed.

Lemma unique_entry (c : HashCache) p e e' :
  NoDup (map fst c) -> In (p, e) c -> In (p, e') c -> e = e'.
Proof.
  induction c as [|[k x] c IH]; simpl; [tauto|]. intros Hnd H1 H2.
  inversion Hnd as [|? ? Hnotin Hnd']; subst.
  assert (Hkey : forall y, In (p, y) c -> In p (map fst c))
    by (intros y Hy; change p with (fst (p, y)); now apply in_map).
  destruct H1 as [H1|H1], H2 as [H2|H2].
  - congruence.
  - exfalso. apply Hnotin. injection H1 as -> _. eauto.
  - exfalso. apply Hnotin. injection H2 as -> _. eauto.
  - auto.
Qed.

(** What [findDuplicate] returns and what it does to the cache, in a vault
    with one entry per path and a cache with one entry per key. *)
Lemma findDuplicate_spec (data : string) (st : State) :
  NoDup (map path_of (files (app st))) ->
  NoDup (map fst (cache st)) ->
  fst (findDuplicate data st) =
    match find (live_match (computeHash data) (app st)) (cache st) with
    | Some ke => Some (fst ke)
    | None =>
        option_map path_of
          (find (uncached_match (computeHash data) (cache st)) (files (app st)))
    end /\
  (forall p e, In (p, e) (cache st) ->
               stale_match (computeHash data) (app st) (p, e) = false ->
               In (p, e) (cache (snd (findDuplicate data st)))) /\
  (find (live_match (computeHash data) (app st)) (cache st) = None ->
   forall p e, In (p, e) (cache st) ->
               stale_match (computeHash data) (app st) (p, e) = true ->
               cache_get p (cache (snd (findDuplicate data st))) = None).
Proof.
  intros Hfiles Hkeys. unfold findDuplicate, calculateHashFromBuffer.
  set (newHash := computeHash data).
  destruct (searchCache_spec (cache st) newHash st) as (Hr & Ha & Hc).
  set (purged := purged_keys newHash (app st) (cache st)) in Hc.
  assert (Hkept : forall p e, In (p, e) (cache st) ->
                   stale_match newHash (app st) (p, e) = false ->
                   In (p, e) (cache (snd (searchCache (cache st) newHash st)))).
  { intros p e Hin Hns. rewrite Hc. apply filter_In. split; [assumption|].
    simpl. apply negb_true_iff, set_has_false. intros Hp.
    apply purged_keys_are_stale in Hp. destruct Hp as (e' & Hin' & Hs).
    rewrite (unique_entry _ _ _ _ Hkeys Hin Hin') in Hns. congruence. }
  destruct (searchCache (cache st) newHash st) as [[path|] st1] eqn:Esearch;
    simpl in Hr, Ha, Hc, Hkept.
  - destruct (find (live_match newHash (app st)) (cache st)) as [ke|];
      simpl in Hr; [|discriminate].
    split; [exact Hr|]. split; [exact Hkept|]. discriminate.
  - destruct (find (live_match newHash (app st)) (cache st)) as [ke|] eqn:Elive;
      simpl in Hr; [discriminate|].
    set (images := filter (fun f => Types.isImageFile (path_of f)) (getFiles (app st1))).
    assert (Hnd : NoDup (map path_of images)).
    { unfold images, getFiles. rewrite Ha. now do 2 apply NoDup_map_filter. }
    destruct (searchVault_spec newHash images Hnd st1) as (Hv & _ & Hvk & Hvg).
    assert (Himg : forall f, In f images -> is_file (path_of f) (app st) = true).
    { intros f Hf. unfold images, getFiles in Hf. rewrite Ha in Hf.
      apply filter_In in Hf. destruct Hf as [Hf _]. apply filter_In in Hf.
      now apply is_file_of_In. }
    split; [|split].
    + rewrite Hv. f_equal. unfold images, getFiles. rewrite Ha, !find_filter.
      apply find_ext_in. intros f Hf. unfold uncached_match.
      destruct (isTFile f) eqn:Ef; simpl; [|reflexivity].
      destruct (Types.isImageFile (path_of f)); simpl; [|reflexivity].
      f_equal. f_equal. unfold is_cached. rewrite Hc, cache_get_filter.
      destruct (OrphanDetector.set_has (path_of f) purged) eqn:Ep; [|reflexivity].
      apply set_has_In, purged_keys_are_stale in Ep.
      destruct Ep as (e & _ & Hs). unfold stale_match in Hs. simpl in Hs.
      rewrite (is_file_of_In _ _ Hfiles Hf Ef) in Hs.
      rewrite andb_false_r in Hs. discriminate.
    + intros p e Hin Hns. apply Hvk. now apply Hkept.
    + intros _ p e Hin Hs. rewrite Hvg.
      * rewrite Hc, cache_get_filter.
        assert (Hp : In p purged).
        { apply (purged_keys_complete _ _ _ _ e Elive Hin).
          unfold stale_match in Hs. simpl in Hs. now apply andb_true_iff in Hs. }
        apply set_has_In in Hp. now rewrite Hp.
      * intros Hp. apply in_map_iff in Hp. destruct Hp as (f & <- & Hf).
        apply Himg in Hf. unfold stale_match in Hs. simpl in Hs.
        rewrite Hf, andb_false_r in Hs. discriminate.
Qed.

Definition plain_app (fs : list TAbstractFile) : App :=
  mkApp fs [] (fun _ _ => None) (fun p => p)
        (fun _ => false) (fun _ => false) (fun _ => false) (fun _ => false)
        (fun _ => false) [].

(** A cached digest taken at [mtime] 1 of a file that was edited since. *)
Definition stale_mtime_example : State :=
  HashService.mkState
    (plain_app [TFile "img/a.png" 2 "new bytes"])
    [("img/a.png", mkEntry (computeHash "old bytes") 1)].

(** C4.  [calculateHash] recomputes the digest of a file whose cached
    [mtime] is stale, but [findDuplicate] compares the cached digest without
    looking at [mtime]: with "img/a.png" cached at [mtime] 1 and edited
    since, pasting the old bytes is reported as a duplicate of "img/a.png",
    and pasting its current bytes finds nothing. *)
Theorem findDuplicate_compares_stale_digest :
  files (app stale_mtime_example) = [TFile "img/a.png" 2 "new bytes"] /\
  cache_get "img/a.png" (cache stale_mtime_example)
    = Some (mkEntry (computeHash "old bytes") 1) /\
  fst (calculateHash "img/a.png" 2 "new bytes" stale_mtime_example)
    = computeHash "new bytes" /\
  computeHash "new bytes" <> computeHash "old bytes" /\
  fst (findDuplicate "old bytes" stale_mtime_example) = Some "img/a.png" /\
  fst (findDuplicate "new bytes" stale_mtime_example) = None.
Proof.
  split; [reflexivity|]. split; [reflexivity|]. split; [reflexivity|].
  split; [vm_compute; discriminate|]. split; vm_compute; reflexivity.
Qed.

(** The claim of C6 on the purge, at an entry whose file is gone and whose
    digest is not the one looked for: the search leaves it in the cache. *)
Definition unrelated_stale_example : State :=
  HashService.mkState (plain_app [])
    [("gone.png", mkEntry "0000000000000000" 1)].

Lemma findDuplicate_keeps_unrelated_stale_entry :
  is_file "gone.png" (app unrelated_stale_example) = false /\
  fst (findDuplicate "x" unrelated_stale_example) = None /\
  cache_get "gone.png" (cache (snd (findDuplicate "x" unrelated_stale_example)))
    = Some (mkEntry "0000000000000000" 1).
Proof. repeat split; vm_compute; reflexivity. Qed.

(** C6, amended.  In a vault with one entry per path and a cache with one
    entry per key, [findDuplicate] returns the path of the first cache entry
    whose digest is the input's and whose file exists; when there is none,
    the path of the first image file without a cache entry whose content
    has the input's digest (so with an empty cache an existing image with
    the same bytes is found by the scan of the vault).  The search deletes a
    cache entry only if its digest is the input's and its path no longer
    resolves to a file, and it deletes all of these when the cache holds no
    match with an existing file; every other entry stays. *)
Theorem findDuplicate_cache_first_then_vault (data : string) (st : State) :
  NoDup (map path_of (files (app st))) ->
  NoDup (map fst (cache st)) ->
  fst (findDuplicate data st) =
    match find (live_match (computeHash data) (app st)) (cache st) with
    | Some ke => Some (fst ke)
    | None =>
        option_map path_of
          (find (uncached_match (computeHash data) (cache st)) (files (app st)))
    end /\
  (cache st = [] ->
   forall f, In f (files (app st)) -> isTFile f = true ->
             Types.isImageFile (path_of f) = true -> data_of f = data ->
             exists p, fst (findDuplicate data st) = Some p) /\
  (forall p e, In (p, e) (cache st) ->
               stale_match (computeHash data) (app st) (p, e) = false ->
               In (p, e) (cache (snd (findDuplicate data st)))) /\
  (find (live_match (computeHash data) (app st)) (cache st) = None ->
   forall p e, In (p, e) (cache st) ->
               stale_match (computeHash data) (app st) (p, e) = true ->
               cache_get p (cache (snd (findDuplicate data st))) = None).
Proof.
  intros Hfiles Hkeys.
  destruct (findDuplicate_spec data st Hfiles Hkeys) as (Hres & Hkept & Hpurged).
  split; [exact Hres|]. split; [|split; assumption].
  intros Hempty f Hf Hfile Himg Hdata. rewrite Hres, Hempty. simpl.
  destruct (find (uncached_match (computeHash data) []) (files (app st))) as [g|] eqn:Efind.
  - exists (path_of g). reflexivity.
  - exfalso. apply (find_none _ _ Efind) in Hf. unfold uncached_match in Hf.
    rewrite Hfile, Himg, Hdata, String.eqb_refl in Hf. discriminate.
Qed.

(** A cache with a match whose file is gone and an unrelated entry whose
    file is gone too; the vault holds the pasted bytes, not yet cached. *)
Definition purge_example : State :=
  HashService.mkState
    (plain_app [TFolder "img"; TFile "img/a.png" 5 "DATA"])
    [("gone.png", mkEntry (computeHash "DATA") 1);
     ("other.png", mkEntry "0000000000000000" 2)].

Lemma findDuplicate_cache_first_then_vault_witness :
  fst (findDuplicate "DATA" purge_example) = Some "img/a.png" /\
  In ("other.png", mkEntry "0000000000000000" 2)
     (cache (snd (findDuplicate "DATA" purge_example))) /\
  cache_get "gone.png" (cache (snd (findDuplicate "DATA" purge_example))) = None.
Proof.
  assert (Hfiles : NoDup (map path_of (files (app purge_example)))).
  { simpl. repeat constructor; simpl; intuition discriminate. }
  assert (Hkeys : NoDup (map fst (cache purge_example))).
  { simpl. repeat constructor; simpl; intuition discriminate. }
  destruct (findDuplicate_cache_first_then_vault "DATA" purge_example Hfiles Hkeys)
    as (Hres & _ & Hkept & Hpurged).
  split; [rewrite Hres; vm_compute; reflexivity|]. split.
  - apply Hkept; [right; left; reflexivity | vm_compute; reflexivity].
  - apply (Hpurged eq_refl "gone.png" (mkEntry (computeHash "DATA") 1));
      [left; reflexivity | vm_compute; reflexivity].
Defined.

End HashServiceFacts.

(** ** core/LinkUpdater.ts *)

Section LinkUpdaterFacts.
Import Obsidian LinkUpdater.

(** *** Failures of the vault *)

(** The three ways [updateLinksInNote] ends: it throws and leaves the vault
    as it was, it finds nothing to change, or it writes the new content. *)
Lemma updateLinksInNote_cases notePath oldPath newPath a :
  updateLinksInNote notePath oldPath newPath a = Thrown a \/
  updateLinksInNote notePath oldPath newPath a = Returned false a \/
  exists content,
    updateLinksInNote notePath oldPath newPath a =
    Returned true
      (with_modification notePath content (map (set_data notePath content) (files a)) a).
Proof.
  unfold updateLinksInNote, bind, read, modify, ret.
  destruct (readThrows a notePath); [now left|].
  destruct (content_of notePath a) as [original|] eqn:Ec; [|now left].
  destruct (rewriteLinks a notePath oldPath newPath original =? original); simpl.
  - right. now left.
  - destruct (modifyThrows a notePath); [now left|]. rewrite Ec.
    right. right. eexists. reflexivity.
Qed.

Lemma find_set_data p notePath content fs :
  option_map isTFile
    (find (fun f => path_of f =? p) (map (set_data notePath content) fs)) =
  option_map isTFile (find (fun f => path_of f =? p) fs).
Proof.
  induction fs as [|f fs IH]; simpl; [reflexivity|].
  assert (Hp : path_of (set_data notePath content f) = path_of f).
  { destruct f as [q t d|q]; simpl; [|reflexivity]. now destruct (q =? notePath). }
  assert (Hk : isTFile (set_data notePath content f) = isTFile f).
  { destruct f as [q t d|q]; simpl; [|reflexivity]. now destruct (q =? notePath). }
  rewrite Hp. destruct (path_of f =? p); simpl; [now rewrite Hk | exact IH].
Qed.

Lemma is_file_after_modification p notePath content a :
  is_file p (with_modification notePath content
               (map (set_data notePath content) (files a)) a) = is_file p a.
Proof.
  unfold is_file, getAbstractFileByPath. simpl.
  pose proof (find_set_data p notePath content (files a)) as H.
  destruct (find _ (map _ _)) as [[]|], (find _ (files a)) as [[]|];
    simpl in H; congruence.
Qed.

(** What a call leaves unchanged in the host, and how the log of writes
    relates to the count. *)
Record unchanged_host (a a' : App) : Prop := {
  same_links : resolvedLinks a' = resolvedLinks a;
  same_readThrows : readThrows a' = readThrows a;
  same_modifyThrows : modifyThrows a' = modifyThrows a;
  same_files : forall p, is_file p a' = is_file p a
}.

Lemma unchanged_host_refl a : unchanged_host a a.
Proof. now constructor. Qed.

Lemma unchanged_host_trans a b c :
  unchanged_host a b -> unchanged_host b c -> unchanged_host a c.
Proof.
  intros [] []. constructor; try congruence.
Qed.

Lemma unchanged_host_modification notePath content a :
  unchanged_host a (with_modification notePath content
                      (map (set_data notePath content) (files a)) a).
Proof.
  constructor; try reflexivity. intros p. apply is_file_after_modification.
Qed.

(** Every outcome of the loop over the notes: the count grows by the number
    of writes made, and a throw keeps the writes made before it. *)
Lemma updateNotes_outcome oldPath newPath (notes : list string) :
  forall count a,
    match updateNotes notes oldPath newPath count a with
    | Returned n a' =>
        unchanged_host a a' /\
        (List.length (modifyLog a') + count = List.length (modifyLog a) + n)%nat
    | Thrown a' =>
        unchanged_host a a' /\
        (List.length (modifyLog a) <= List.length (modifyLog a'))%nat
    | Diverged => False
    end.
Proof.
  induction notes as [|notePath rest IH]; intros count a; simpl.
  - split; [apply unchanged_host_refl | lia].
  - destruct (getAbstractFileByPath notePath a) as [[q t d|q]|]; try apply IH.
    unfold bind.
    destruct (updateLinksInNote_cases notePath oldPath newPath a)
      as [E|[E|(content & E)]]; rewrite E.
    + split; [apply unchanged_host_refl | lia].
    + apply IH.
    + set (a1 := with_modification _ _ _ a).
      specialize (IH (S count) a1).
      pose proof (unchanged_host_modification notePath content a) as H1.
      fold a1 in H1.
      destruct (updateNotes rest oldPath newPath (S count) a1) as [n a'|a'|].
      * destruct IH as [H2 Hlen]. split; [eapply unchanged_host_trans; eauto|].
        simpl in Hlen. lia.
      * destruct IH as [H2 Hlen]. split; [eapply unchanged_host_trans; eauto|].
        simpl in Hlen. lia.
      * exact IH.
Qed.

Lemma batchLoop_outcome (updates : list (string * string)) :
  forall total a,
    match batchLoop updates total a with
    | Returned n a' =>
        unchanged_host a a' /\
        (List.length (modifyLog a') + total = List.length (modifyLog a) + n)%nat
    | Thrown a' =>
        unchanged_host a a' /\
        (List.length (modifyLog a) <= List.length (modifyLog a'))%nat
    | Diverged => False
    end.
Proof.
  induction updates as [|[oldPath newPath] rest IH]; intros total a; simpl.
  - split; [apply unchanged_host_refl | lia].
  - unfold bind, updateImageReferences.
    pose proof (updateNotes_outcome oldPath newPath
                  (findNotesReferencingImage oldPath a) 0 a) as H.
    destruct (updateNotes _ oldPath newPath 0 a) as [count a1|a1|]; try exact H.
    destruct H as [H1 Hlen1]. specialize (IH (total + count)%nat a1).
    destruct (batchLoop rest (total + count) a1) as [n a'|a'|]; try exact IH.
    + destruct IH as [H2 Hlen2]. split; [eapply unchanged_host_trans; eauto | lia].
    + destruct IH as [H2 Hlen2]. split; [eapply unchanged_host_trans; eauto | lia].
Qed.

(** An existing note that cannot be read makes the whole loop throw. *)
Lemma updateNotes_unreadable oldPath newPath (notes : list string) :
  forall count a notePath,
    In notePath notes -> is_file notePath a = true -> readThrows a notePath = true ->
    exists a', updateNotes notes oldPath newPath count a = Thrown a'.
Proof.
  induction notes as [|first rest IH]; intros count a notePath; simpl; [tauto|].
  intros Hin Hfile Hthrow.
  destruct (getAbstractFileByPath first a) as [[q t d|q]|] eqn:Efirst.
  - unfold bind.
    destruct (String.eqb_spec first notePath) as [->|Hne].
    + unfold updateLinksInNote at 1, bind, read. rewrite Hthrow. eauto.
    + destruct Hin as [Hin|Hin]; [contradiction|].
      destruct (updateLinksInNote_cases first oldPath newPath a)
        as [E|[E|(content & E)]]; rewrite E; eauto.
      apply (IH _ _ notePath Hin); [|assumption].
      now rewrite is_file_after_modification.
  - destruct Hin as [->|Hin]; [|eauto].
    unfold is_file in Hfile. rewrite Efirst in Hfile. discriminate.
  - destruct Hin as [->|Hin]; [|eauto].
    unfold is_file in Hfile. rewrite Efirst in Hfile. discriminate.
Qed.

(** Without failures of the vault the loop returns. *)
Lemma updateNotes_returns oldPath newPath (notes : list string) :
  forall count a,
    (forall p, readThrows a p = false) -> (forall p, modifyThrows a p = false) ->
    exists n a', updateNotes notes oldPath newPath count a = Returned n a'.
Proof.
  induction notes as [|notePath rest IH]; intros count a Hr Hm; simpl.
  - unfold ret. eauto.
  - destruct (getAbstractFileByPath notePath a) as [[q t d|q]|] eqn:Efind; eauto.
    assert (Hq : q = notePath).
    { unfold getAbstractFileByPath in Efind. apply find_some in Efind.
      destruct Efind as [_ Efind]. simpl in Efind. now apply String.eqb_eq. }
    subst q.
    unfold bind, updateLinksInNote at 1, bind, read, modify, ret, content_of.
    cbv beta. rewrite Hr, Efind.
    destruct (rewriteLinks a notePath oldPath newPath d =? d); simpl; [eauto|].
    rewrite Hm, Efind. apply IH; simpl; assumption.
Qed.

Lemma batchLoop_returns (updates : list (string * string)) :
  forall total a,
    (forall p, readThrows a p = false) -> (forall p, modifyThrows a p = false) ->
    exists n a', batchLoop updates total a = Returned n a'.
Proof.
  induction updates as [|[oldPath newPath] rest IH]; intros total a Hr Hm; simpl.
  - unfold ret. eauto.
  - unfold bind, updateImageReferences.
    destruct (updateNotes_returns oldPath newPath
                (findNotesReferencingImage oldPath a) 0 a Hr Hm) as (count & a1 & E).
    rewrite E.
    pose proof (updateNotes_outcome oldPath newPath
                  (findNotesReferencingImage oldPath a) 0 a) as H.
    rewrite E in H. destruct H as [[_ Hr1 Hm1 _] _].
    apply IH; intros p; [rewrite Hr1 | rewrite Hm1]; auto.
Qed.

(** Two notes embed "a.png"; the first cannot be read.  A third note embeds
    "c.png". *)
Definition unreadable_note_example : App :=
  mkApp [TFile "n1.md" 1 "![[a.png]]"; TFile "n2.md" 2 "![[a.png]]";
         TFile "n3.md" 3 "![[c.png]]"]
        [("n1.md", ["a.png"]); ("n2.md", ["a.png"]); ("n3.md", ["c.png"])]
        (fun _ _ => None) (fun p => p)
        (fun p => p =? "n1.md") (fun _ => false) (fun _ => false) (fun _ => false)
        (fun _ => false) [].

(** The claim of C3 at this vault: the failure of "n1.md" is not caught.
    The call for "a.png" throws instead of returning a count, "n2.md" keeps
    its link to "a.png" although rewriting it would change it, and the batch
    never reaches the pair for "c.png". *)
Lemma unreadable_note_aborts_the_update :
  updateImageReferences "a.png" "b.png" unreadable_note_example
    = Thrown unreadable_note_example /\
  batchUpdateReferences [("a.png", "b.png"); ("c.png", "d.png")] unreadable_note_example
    = Thrown unreadable_note_example /\
  content_of "n2.md" unreadable_note_example = Some "![[a.png]]" /\
  rewriteLinks unreadable_note_example "n2.md" "a.png" "b.png" "![[a.png]]"
    = "![[b.png]]" /\
  rewriteLinks unreadable_note_example "n3.md" "c.png" "d.png" "![[c.png]]"
    = "![[d.png]]".
Proof. repeat split; vm_compute; reflexivity. Qed.

(** The loops run their list from left to right: the notes (the pairs) of
    a first part, then those of the rest from the state and the count the
    first part left; a failure in the first part ends the whole. *)
Lemma updateNotes_app oldPath newPath (before rest : list string) :
  forall count a,
    updateNotes (before ++ rest) oldPath newPath count a =
    match updateNotes before oldPath newPath count a with
    | Returned n a1 => updateNotes rest oldPath newPath n a1
    | Thrown a1 => Thrown a1
    | Diverged => Diverged
    end.
Proof.
  induction before as [|notePath before IH]; intros count a; [reflexivity|].
  cbn [app updateNotes].
  destruct (getAbstractFileByPath notePath a) as [[q t d|q]|]; try apply IH.
  unfold bind.
  destruct (updateLinksInNote notePath oldPath newPath a) as [updated a1|a1|];
    [apply IH|reflexivity|reflexivity].
Qed.

Lemma batchLoop_app (before rest : list (string * string)) :
  forall total a,
    batchLoop (before ++ rest) total a =
    match batchLoop before total a with
    | Returned n a1 => batchLoop rest n a1
    | Thrown a1 => Thrown a1
    | Diverged => Diverged
    end.
Proof.
  induction before as [|[oldPath newPath] before IH]; intros total a; [reflexivity|].
  cbn [app batchLoop]. unfold bind.
  destruct (updateImageReferences oldPath newPath a) as [count a1|a1|];
    [apply IH|reflexivity|reflexivity].
Qed.

(** When [updateLinksInNote] rejects: the read fails, or the rewritten
    content differs and the write fails; the vault is as it was. *)
Lemma updateLinksInNote_rejects notePath oldPath newPath a content :
  content_of notePath a = Some content ->
  forall a',
    updateLinksInNote notePath oldPath newPath a = Thrown a' <->
    a' = a /\
    (readThrows a notePath = true \/
     rewriteLinks a notePath oldPath newPath content <> content /\
     modifyThrows a notePath = true).
Proof.
  intros Hc a'. unfold updateLinksInNote, bind, read, modify, ret.
  destruct (readThrows a notePath).
  - split; [intros [= <-]; auto|]. now intros [-> _].
  - rewrite Hc.
    destruct (String.eqb_spec (rewriteLinks a notePath oldPath newPath content) content)
      as [E|Ne]; cbn [negb].
    + split; [discriminate|]. intros [_ [H|[H _]]]; [discriminate|contradiction].
    + destruct (modifyThrows a notePath).
      * split; [intros [= <-]; auto|]. now intros [-> _].
      * rewrite Hc. split; [discriminate|].
        intros [_ [H|[_ H]]]; discriminate.
Qed.

(** C3, amended.  [updateImageReferences] and [batchUpdateReferences] do
    not catch the failure of a note.  When a call returns, its count is
    exactly the number of notes written, and a call that throws keeps the
    writes made before.  The loop over the notes stops at the first
    existing note whose read fails, or whose rewritten content differs
    while its write fails: the call throws, and the vault it leaves is the
    one the notes before that note left, whatever notes come after, so
    that none of them is read or written.  In the same way the batch stops
    at the first pair whose update throws and leaves the vault of that
    throw, whatever pairs come after.  An existing referencing note whose
    read throws makes [updateImageReferences] throw; and when no read or
    write of the vault throws, the batch returns. *)
Theorem link_update_failure_aborts (updates : list (string * string)) (a : App) :
  match batchUpdateReferences updates a with
  | Returned n a' => List.length (modifyLog a') = (List.length (modifyLog a) + n)%nat
  | Thrown a' => (List.length (modifyLog a) <= List.length (modifyLog a'))%nat
  | Diverged => False
  end /\
  (forall oldPath newPath,
     match updateImageReferences oldPath newPath a with
     | Returned n a' => List.length (modifyLog a') = (List.length (modifyLog a) + n)%nat
     | Thrown a' => (List.length (modifyLog a) <= List.length (modifyLog a'))%nat
     | Diverged => False
     end) /\
  (forall oldPath newPath earlier notePath later n a1 content,
     findNotesReferencingImage oldPath a = (earlier ++ notePath :: later)%list ->
     updateNotes earlier oldPath newPath 0 a = Returned n a1 ->
     is_file notePath a1 = true ->
     content_of notePath a1 = Some content ->
     (readThrows a1 notePath = true \/
      rewriteLinks a1 notePath oldPath newPath content <> content /\
      modifyThrows a1 notePath = true) ->
     updateImageReferences oldPath newPath a = Thrown a1) /\
  (forall earlier oldPath newPath later n a1 a2,
     updates = (earlier ++ (oldPath, newPath) :: later)%list ->
     batchUpdateReferences earlier a = Returned n a1 ->
     updateImageReferences oldPath newPath a1 = Thrown a2 ->
     batchUpdateReferences updates a = Thrown a2) /\
  (forall oldPath newPath notePath,
     In notePath (findNotesReferencingImage oldPath a) ->
     is_file notePath a = true -> readThrows a notePath = true ->
     exists a', updateImageReferences oldPath newPath a = Thrown a') /\
  (forall oldPath newPath rest a',
     updateImageReferences oldPath newPath a = Thrown a' ->
     batchUpdateReferences ((oldPath, newPath) :: rest) a = Thrown a') /\
  ((forall p, readThrows a p = false) -> (forall p, modifyThrows a p = false) ->
   exists n a', batchUpdateReferences updates a = Returned n a').
Proof.
  split; [|split; [|split; [|split; [|split; [|split]]]]].
  - pose proof (batchLoop_outcome updates 0 a) as H.
    unfold batchUpdateReferences.
    destruct (batchLoop updates 0 a); [destruct H as [_ H]; lia | tauto | assumption].
  - intros oldPath newPath. unfold updateImageReferences.
    pose proof (updateNotes_outcome oldPath newPath
                  (findNotesReferencingImage oldPath a) 0 a) as H.
    destruct (updateNotes _ oldPath newPath 0 a);
      [destruct H as [_ H]; lia | tauto | assumption].
  - intros oldPath newPath earlier notePath later n a1 content Hnotes Hrun Hfile Hc Hfail.
    unfold updateImageReferences. rewrite Hnotes, updateNotes_app, Hrun.
    cbn [updateNotes]. unfold is_file in Hfile.
    destruct (getAbstractFileByPath notePath a1) as [[q t d|q]|]; try discriminate.
    unfold bind.
    rewrite (proj2 (updateLinksInNote_rejects notePath oldPath newPath a1 content Hc a1)
               (conj eq_refl Hfail)).
    reflexivity.
  - intros earlier oldPath newPath later n a1 a2 -> Hrun Hthrow.
    unfold batchUpdateReferences in *. rewrite batchLoop_app, Hrun.
    cbn [batchLoop]. unfold bind. now rewrite Hthrow.
  - intros oldPath newPath notePath Hin Hfile Hthrow.
    apply (updateNotes_unreadable oldPath newPath _ 0 a notePath Hin Hfile Hthrow).
  - intros oldPath newPath rest a' H.
    unfold batchUpdateReferences. simpl. unfold bind. now rewrite H.
  - apply batchLoop_returns.
Qed.

(** The same vault with a readable first note: the update of "a.png"
    writes "n1.md", then stops at "n2.md", which is not read. *)
Definition second_note_unreadable : App :=
  mkApp [TFile "n1.md" 1 "![[a.png]]"; TFile "n2.md" 2 "![[a.png]]";
         TFile "n3.md" 3 "![[a.png]]"]
        [("n1.md", ["a.png"]); ("n2.md", ["a.png"]); ("n3.md", ["a.png"])]
        (fun _ _ => None) (fun p => p)
        (fun p => p =? "n2.md") (fun _ => false) (fun _ => false) (fun _ => false)
        (fun _ => false) [].

Lemma link_update_failure_aborts_witness :
  exists a1,
    updateImageReferences "a.png" "b.png" second_note_unreadable = Thrown a1 /\
    modifyLog a1 = [("n1.md", "![[b.png]]")] /\
    content_of "n1.md" a1 = Some "![[b.png]]" /\
    content_of "n3.md" a1 = Some "![[a.png]]" /\
    batchUpdateReferences [("a.png", "b.png"); ("c.png", "d.png")]
      second_note_unreadable = Thrown a1.
Proof.
  destruct (link_update_failure_aborts [("a.png", "b.png"); ("c.png", "d.png")]
              second_note_unreadable) as (_ & _ & Hnote & Hbatch & _).
  set (a1 := with_modification "n1.md" "![[b.png]]"
               (map (set_data "n1.md" "![[b.png]]") (files second_note_unreadable))
               second_note_unreadable).
  exists a1.
  assert (Hrun : updateImageReferences "a.png" "b.png" second_note_unreadable
                 = Thrown a1).
  { apply (Hnote "a.png" "b.png" ["n1.md"] "n2.md" ["n3.md"] 1%nat a1 "![[a.png]]");
      [reflexivity|vm_compute; reflexivity|reflexivity|reflexivity|now left]. }
  split; [exact Hrun|].
  split; [reflexivity|]. split; [reflexivity|]. split; [reflexivity|].
  apply (Hbatch [] "a.png" "b.png" [("c.png", "d.png")] 0%nat second_note_unreadable a1);
    [reflexivity|reflexivity|exact Hrun].
Defined.

(** *** Writing only what changed *)

Definition suffix_of (suf s : string) : Prop := exists pre, s = pre ++ suf.

(** The regular expression matches nowhere in [s]. *)
Fixpoint matches_nowhere (exec : string -> option Js.RegExpMatch) (s : string) : bool :=
  match exec s with
  | Some _ => false
  | None =>
      match s with
      | EmptyString => true
      | String _ s' => matches_nowhere exec s'
      end
  end.

Lemma matches_nowhere_spec exec s :
  matches_nowhere exec s = true <-> (forall suf, suffix_of suf s -> exec suf = None).
Proof.
  induction s as [|c s IH].
  - simpl. destruct (exec "") eqn:E; split; try discriminate; try reflexivity.
    + intros H. rewrite (H "") in E; [discriminate|]. now exists "".
    + intros _ suf [pre Hpre]. destruct pre; [|discriminate]. simpl in Hpre. now subst.
  - simpl. destruct (exec (String c s)) eqn:E.
    + split; [discriminate|]. intros H. rewrite (H (String c s)) in E; [discriminate|].
      now exists "".
    + rewrite IH. split.
      * intros H suf [pre Hpre]. destruct pre as [|c' pre]; simpl in Hpre.
        -- now subst.
        -- injection Hpre as _ Hs. apply H. now exists pre.
      * intros H suf [pre Hpre]. apply H. exists (String c pre). simpl. now rewrite Hpre.
Qed.

Lemma replace_loop_matches_nowhere exec v s :
  matches_nowhere exec s = true ->
  forall before, Js.replace_loop exec v 0 before s = s.
Proof.
  induction s as [|c s IH]; simpl; [reflexivity|].
  destruct (exec (String c s)); [discriminate|].
  intros H before. now rewrite IH.
Qed.

(** C8.  For a note that loads with [content]: [updateLinksInNote] reports
    "not updated" and leaves the vault as it is (no write is issued) exactly
    when the rewritten content is the content read; when they differ it
    issues one write, of the rewritten content; and when no token of the
    content matches any of the four rules for [(oldPath, newPath)], the
    content is unchanged, no write is issued and the note is reported as
    not updated. *)
Theorem updateLinksInNote_writes_only_changes (a : App)
    (notePath oldPath newPath content : string) :
  read notePath a = Returned content a ->
  (updateLinksInNote notePath oldPath newPath a = Returned false a <->
   rewriteLinks a notePath oldPath newPath content = content) /\
  (rewriteLinks a notePath oldPath newPath content <> content ->
   (modifyThrows a notePath = true ->
    updateLinksInNote notePath oldPath newPath a = Thrown a) /\
   (modifyThrows a notePath = false ->
    exists a', updateLinksInNote notePath oldPath newPath a = Returned true a' /\
               modifyLog a' =
                 (notePath, rewriteLinks a notePath oldPath newPath content) :: modifyLog a /\
               content_of notePath a' =
                 Some (rewriteLinks a notePath oldPath newPath content))) /\
  ((forall suf, suffix_of suf content ->
      exec_wikilink oldPath suf = None /\
      exec_wikilink (Js.pop_or_empty (Js.split "/" oldPath)) suf = None /\
      exec_mdlink true oldPath suf = None /\
      exec_mdlink false
        (getRelativePath (Js.substring_to_last "/" notePath) oldPath) suf = None) ->
   rewriteLinks a notePath oldPath newPath content = content /\
   updateLinksInNote notePath oldPath newPath a = Returned false a).
Proof.
  intros Hread.
  assert (Hrun : updateLinksInNote notePath oldPath newPath a =
                 if negb (rewriteLinks a notePath oldPath newPath content =? content)
                 then match modify notePath (rewriteLinks a notePath oldPath newPath content) a with
                      | Returned _ a' => Returned true a'
                      | Thrown a' => Thrown a'
                      | Diverged => Diverged
                      end
                 else Returned false a).
  { unfold updateLinksInNote, bind. rewrite Hread.
    destruct (rewriteLinks a notePath oldPath newPath content =? content); reflexivity. }
  assert (Hsame : rewriteLinks a notePath oldPath newPath content = content ->
                  updateLinksInNote notePath oldPath newPath a = Returned false a).
  { intros E. rewrite Hrun, E, String.eqb_refl. reflexivity. }
  assert (Hcontent : content_of notePath a = Some content).
  { unfold read in Hread. destruct (readThrows a notePath); [discriminate|].
    destruct (content_of notePath a); [|discriminate]. now injection Hread as ->. }
  split; [|split].
  - split; [|exact Hsame]. rewrite Hrun.
    destruct (String.eqb_spec (rewriteLinks a notePath oldPath newPath content) content)
      as [E|Ne]; [auto|]. simpl.
    destruct (modify notePath _ a); discriminate.
  - intros Hdiff. apply String.eqb_neq in Hdiff. rewrite Hrun, Hdiff. simpl.
    split; intros Hm; unfold modify; rewrite Hm; [reflexivity|]. rewrite Hcontent.
    eexists. split; [reflexivity|]. split; [reflexivity|].
    unfold content_of, getAbstractFileByPath in *. simpl.
    induction (files a) as [|f fs IH]; simpl in *; [discriminate|].
    destruct f as [q t d|q]; simpl in *.
    + destruct (String.eqb_spec q notePath) as [->|Hq]; simpl.
      * now rewrite String.eqb_refl.
      * apply String.eqb_neq in Hq. rewrite Hq. auto.
    + destruct (q =? notePath); [discriminate|auto].
  - intros Hnone.
    assert (E : rewriteLinks a notePath oldPath newPath content = content).
    { unfold rewriteLinks, replaceFullPathWikilinks, replaceNameOnlyWikilinks,
        replaceAbsoluteMarkdownLinks, replaceRelativeMarkdownLinks, Js.replace_global.
      rewrite (replace_loop_matches_nowhere (exec_wikilink oldPath))
        by (apply matches_nowhere_spec; intros suf Hs; apply (Hnone suf Hs)).
      assert (E2 : forall v, Js.replace_loop
                     (exec_wikilink (Js.pop_or_empty (Js.split "/" oldPath))) v 0 ""
                     content = content).
      { intros v. apply replace_loop_matches_nowhere, matches_nowhere_spec.
        intros suf Hs. apply (Hnone suf Hs). }
      rewrite E2.
      match goal with
      | |- context [if ?b then content else content] =>
          replace (if b then content else content) with content by now destruct b
      end.
      rewrite (replace_loop_matches_nowhere (exec_mdlink true oldPath))
        by (apply matches_nowhere_spec; intros suf Hs; apply (Hnone suf Hs)).
      apply replace_loop_matches_nowhere, matches_nowhere_spec.
      intros suf Hs. apply (Hnone suf Hs). }
    split; [exact E | exact (Hsame E)].
Qed.

(** A note whose two embeds point elsewhere. *)
Definition untouched_note_example : App :=
  mkApp [TFile "notes/n.md" 7 "See ![[other.png]] and ![pic](/x/y.png)!"]
        [("notes/n.md", ["img/a.png"])]
        (fun _ _ => None) (fun p => p)
        (fun _ => false) (fun _ => false) (fun _ => false) (fun _ => false)
        (fun _ => false) [].

Lemma updateLinksInNote_writes_only_changes_witness :
  rewriteLinks untouched_note_example "notes/n.md" "img/a.png" "img/b.png"
    "See ![[other.png]] and ![pic](/x/y.png)!"
  = "See ![[other.png]] and ![pic](/x/y.png)!" /\
  updateLinksInNote "notes/n.md" "img/a.png" "img/b.png" untouched_note_example
  = Returned false untouched_note_example.
Proof.
  apply (updateLinksInNote_writes_only_changes untouched_note_example
           "notes/n.md" "img/a.png" "img/b.png"
           "See ![[other.png]] and ![pic](/x/y.png)!" eq_refl).
  intros suf Hs.
  repeat split;
    refine (proj1 (matches_nowhere_spec _ _) _ suf Hs); vm_compute; reflexivity.
Defined.

(** *** Bare-filename wikilinks *)

(** The note "sub/n.md" embeds the image "a.png" of the vault root by an
    absolute link, and the unrelated "sub/a.png" by its bare name, which
    the host resolves from this note to "sub/a.png". *)
Definition same_name_example : App :=
  mkApp [TFile "sub/n.md" 1 "![root](/a.png) ![[a.png]]";
         TFile "a.png" 2 "root image"; TFile "sub/a.png" 3 "other image"]
        [("sub/n.md", ["a.png"; "sub/a.png"])]
        (fun linkpath sourcePath =>
           if (linkpath =? "a.png") && (sourcePath =? "sub/n.md")
           then Some "sub/a.png" else None)
        (fun p => p)
        (fun _ => false) (fun _ => false) (fun _ => false) (fun _ => false)
        (fun _ => false) [].

(** C9.  Renaming the root image "a.png" to "b.png": the bare-filename
    wikilink of "sub/n.md", which resolves to the unrelated "sub/a.png",
    is rewritten by the full-path rule, which makes no resolution check;
    moving "a.png" to "img/a.png", which keeps the filename, rewrites it
    as well. *)
Theorem bare_wikilink_of_root_image_rewritten_unchecked :
  getFirstLinkpathDest same_name_example "a.png" "sub/n.md" = Some "sub/a.png" /\
  rewriteLinks same_name_example "sub/n.md" "a.png" "b.png" "![[a.png]]"
    = "![[b.png]]" /\
  rewriteLinks same_name_example "sub/n.md" "a.png" "img/a.png" "![[a.png]]"
    = "![[img/a.png]]" /\
  (exists a',
     updateImageReferences "a.png" "b.png" same_name_example = Returned 1 a' /\
     content_of "sub/n.md" a' = Some "![root](/b.png) ![[b.png]]").
Proof.
  split; [reflexivity|]. split; [reflexivity|]. split; [reflexivity|].
  eexists. split; vm_compute; reflexivity.
Qed.

(** *** Rewriting there and back *)

Lemma strip_prefix_app p r : Js.strip_prefix p (p ++ r) = Some r.
Proof. induction p as [|c p IH]; simpl; [reflexivity|]. now rewrite Ascii.eqb_refl. Qed.

Lemma strip_prefix_Some p s r : Js.strip_prefix p s = Some r -> s = p ++ r.
Proof.
  revert s. induction p as [|c p IH]; intros s; simpl.
  - now intros [= ->].
  - destruct s as [|d s]; [discriminate|].
    destruct (Ascii.eqb_spec c d) as [->|_]; [|discriminate].
    intros H. now rewrite (IH _ H).
Qed.

(** A literal made of units satisfying [P], matched against [x ++ tail]
    where [x] is made of such units and [tail] begins with a unit that is
    not: the literal ends inside [x]. *)
Lemma strip_prefix_within (P : ascii -> Prop) lit x t0 tail r :
  units P lit -> ~ P t0 ->
  Js.strip_prefix lit (x ++ String t0 tail) = Some r ->
  exists x', x = lit ++ x' /\ r = x' ++ String t0 tail.
Proof.
  revert x. induction lit as [|c lit IH]; intros x Hlit Ht; simpl.
  - intros [= <-]. now exists x.
  - destruct Hlit as [Hc Hlit]. destruct x as [|d x]; simpl.
    + destruct (Ascii.eqb_spec c t0) as [->|_]; [contradiction|discriminate].
    + destruct (Ascii.eqb_spec c d) as [->|_]; [|discriminate].
      intros H. destruct (IH x Hlit Ht H) as (x' & -> & ->). now exists x'.
Qed.

(** Two texts without the unit [c], each followed by [c]: one is a prefix
    of the other only if they are equal. *)
Lemma strip_prefix_delimited c x y p r :
  units (fun u => u <> c) x -> units (fun u => u <> c) y ->
  Js.strip_prefix (x ++ String c p) (y ++ String c r) =
  if x =? y then Js.strip_prefix p r else None.
Proof.
  revert y. induction x as [|a x IH]; intros y Hx Hy; simpl.
  - destruct y as [|b y]; simpl.
    + now rewrite Ascii.eqb_refl.
    + destruct Hy as [Hb _]. destruct (Ascii.eqb_spec c b) as [->|_]; [contradiction|reflexivity].
  - destruct Hx as [Ha Hx]. destruct y as [|b y]; simpl.
    + destruct (Ascii.eqb_spec a c) as [->|_]; [contradiction|reflexivity].
    + destruct Hy as [Hb Hy]. destruct (Ascii.eqb_spec a b) as [->|Hab].
      * rewrite (IH y Hx Hy). reflexivity.
      * reflexivity.
Qed.

Lemma span_not_app c s r :
  units (fun u => u <> c) s -> Js.span_not c (s ++ String c r) = (s, String c r).
Proof.
  induction s as [|a s IH]; simpl.
  - now rewrite Ascii.eqb_refl.
  - intros [Ha Hs]. destruct (Ascii.eqb_spec a c) as [->|_]; [contradiction|].
    now rewrite (IH Hs).
Qed.

Lemma drop_app t rest : Js.drop (String.length t) (t ++ rest) = rest.
Proof. induction t; simpl; auto. Qed.

(** The replacement loop on a stretch it passes over, on a stretch without
    a match, and on a token that is replaced as a whole. *)
Lemma replace_loop_skip exec v t :
  forall before rest,
    Js.replace_loop exec v (String.length t) before (t ++ rest) =
    Js.replace_loop exec v 0 (before ++ t) rest.
Proof.
  induction t as [|c t IH]; intros before rest; simpl.
  - rewrite append_nil_r. now destruct rest.
  - rewrite IH, append_assoc. reflexivity.
Qed.

Definition starts_with_bang (exec : string -> option Js.RegExpMatch) : Prop :=
  forall c s, c <> "!"%char -> exec (String c s) = None.

Lemma replace_loop_plain exec v t :
  starts_with_bang exec -> units (fun u => u <> "!"%char) t ->
  forall before rest,
    Js.replace_loop exec v 0 before (t ++ rest) =
    t ++ Js.replace_loop exec v 0 (before ++ t) rest.
Proof.
  intros Hexec. induction t as [|c t IH]; intros Ht before rest; simpl.
  - now rewrite append_nil_r.
  - destruct Ht as [Hc Ht]. rewrite (Hexec c _ Hc), (IH Ht), append_assoc. reflexivity.
Qed.

Lemma replace_loop_unmatched exec v t :
  starts_with_bang exec -> units (fun u => u <> "!"%char) t ->
  forall before rest,
    exec (String "!" (t ++ rest)) = None ->
    Js.replace_loop exec v 0 before (String "!" t ++ rest) =
    String "!" t ++ Js.replace_loop exec v 0 (before ++ String "!" t) rest.
Proof.
  intros Hexec Ht before rest Hnone. simpl. rewrite Hnone.
  rewrite (replace_loop_plain exec v t Hexec Ht), append_assoc. reflexivity.
Qed.

Lemma replace_loop_matched exec v t m :
  forall before rest,
    exec (String "!" (t ++ rest)) = Some m -> Js.matched m = String "!" t ->
    Js.replace_loop exec v 0 before (String "!" t ++ rest) =
    Js.replacement v m before rest
      ++ Js.replace_loop exec v 0 (before ++ String "!" t) rest.
Proof.
  intros before rest Hm Hmatched. simpl. rewrite Hm, Hmatched. simpl.
  rewrite Nat.sub_0_r, drop_app, replace_loop_skip, append_assoc. reflexivity.
Qed.

Lemma exec_wikilink_starts_with_bang lit : starts_with_bang (exec_wikilink lit).
Proof.
  intros c s Hc. unfold exec_wikilink. cbn [Js.strip_prefix append].
  destruct (Ascii.eqb_spec "!" c) as [<-|_]; [contradiction|reflexivity].
Qed.

Lemma exec_mdlink_starts_with_bang optSlash lit : starts_with_bang (exec_mdlink optSlash lit).
Proof.
  intros c s Hc. unfold exec_mdlink. cbn [Js.strip_prefix append].
  destruct (Ascii.eqb_spec "!" c) as [<-|_]; [contradiction|reflexivity].
Qed.

(** The two shapes of embed: [![[x]]] or [![[x|alias]]], and
    [![alt](target)]. *)
Definition alias_text (alias : option string) : string :=
  match alias with
  | Some a => "|" ++ a
  | None => ""
  end.

Definition wikilink (x : string) (alias : option string) : string :=
  "![[" ++ x ++ alias_text alias ++ "]]".

Definition mdlink (alt target : string) : string :=
  "![" ++ alt ++ "](" ++ target ++ ")".

Definition no_bracket (c : ascii) : Prop := c <> "]"%char.
Definition name_unit (c : ascii) : Prop := c <> "]"%char /\ c <> "|"%char.

Definition alias_ok (alias : option string) : Prop :=
  match alias with
  | Some a => units no_bracket a
  | None => True
  end.

Lemma strip_prefix_cons a p b s :
  Js.strip_prefix (String a p) (String b s) =
  if Ascii.eqb a b then Js.strip_prefix p s else None.
Proof. reflexivity. Qed.

Lemma exec_wikilink_on_wikilink lit x alias rest :
  units name_unit lit -> units name_unit x -> alias_ok alias ->
  exec_wikilink lit (wikilink x alias ++ rest) =
  if lit =? x
  then Some (Js.mkMatch (wikilink x alias)
               [option_map (fun a => "|" ++ a) alias])
  else None.
Proof.
  intros Hlit Hx Halias. unfold exec_wikilink, wikilink.
  rewrite !append_assoc.
  change (("![[" ++ lit)) with (String "!" (String "[" (String "[" lit))).
  change ("![[" ++ x ++ alias_text alias ++ "]]" ++ rest)
    with (String "!" (String "[" (String "[" (x ++ alias_text alias ++ "]]" ++ rest)))).
  rewrite !strip_prefix_cons. change (Ascii.eqb "!" "!") with true.
  change (Ascii.eqb "[" "[") with true. cbv iota.
  assert (Htail : exists t0 tail, alias_text alias ++ "]]" ++ rest = String t0 tail /\
                                  ~ name_unit t0).
  { destruct alias as [a|]; simpl; eexists; eexists; (split; [reflexivity|]);
      unfold name_unit; tauto. }
  destruct Htail as (t0 & tail & Etail & Ht0).
  destruct (String.eqb_spec lit x) as [->|Hne].
  - rewrite strip_prefix_app.
    destruct alias as [a|]; simpl in Halias |- *.
    + change (Ascii.eqb "|" "|") with true. cbv iota.
      rewrite (span_not_app "]" a (String "]" rest) Halias).
      reflexivity.
    + reflexivity.
  - rewrite Etail.
    destruct (Js.strip_prefix lit (x ++ String t0 tail)) as [r|] eqn:Estrip; [|reflexivity].
    destruct (strip_prefix_within name_unit lit x t0 tail r Hlit Ht0 Estrip)
      as (x' & -> & ->).
    destruct x' as [|c x']; [rewrite append_nil_r in Hne; contradiction|].
    apply units_append in Hx. destruct Hx as [_ [[Hc1 Hc2] _]].
    cbn [append Js.strip_prefix].
    destruct (Ascii.eqb_spec c "|") as [->|_]; [contradiction|].
    destruct (Ascii.eqb_spec "]" c) as [<-|_]; [contradiction|reflexivity].
Qed.

Lemma exec_wikilink_on_mdlink lit alt target rest :
  units no_bracket lit -> units no_bracket alt ->
  exec_wikilink lit (mdlink alt target ++ rest) = None.
Proof.
  intros Hlit Halt. unfold exec_wikilink, mdlink. rewrite !append_assoc.
  change ("![[" ++ lit) with (String "!" (String "[" (String "[" lit))).
  change ("![" ++ alt ++ "](" ++ target ++ ")" ++ rest)
    with (String "!" (String "[" (alt ++ String "]" ("(" ++ target ++ ")" ++ rest)))).
  rewrite !strip_prefix_cons. change (Ascii.eqb "!" "!") with true.
  change (Ascii.eqb "[" "[") with true. cbv iota.
  destruct (Js.strip_prefix (String "[" lit) _) as [r|] eqn:Estrip; [|reflexivity].
  assert (Hlit' : units no_bracket (String "[" lit)) by (split; [discriminate|assumption]).
  assert (Ht0 : ~ no_bracket "]") by (intros H; now apply H).
  destruct (strip_prefix_within no_bracket _ alt "]" _ r Hlit' Ht0 Estrip)
    as (x' & Ealt & ->).
  rewrite Ealt in Halt. apply units_append in Halt. destruct Halt as [_ Hx'].
  assert (Hno : Js.strip_prefix "]]" (x' ++ String "]" ("(" ++ target ++ ")" ++ rest)) = None).
  { destruct x' as [|c x']; cbn [append Js.strip_prefix].
    - reflexivity.
    - destruct Hx' as [Hc _].
      destruct (Ascii.eqb_spec "]" c) as [<-|_]; [now exfalso; apply Hc|reflexivity]. }
  rewrite Hno.
  destruct x' as [|c x']; cbn [append]; [reflexivity|].
  destruct Hx' as [Hc Hx'].
  destruct (Ascii.eqb c "|"); [|reflexivity].
  rewrite (span_not_app "]" x' _ Hx'). reflexivity.
Qed.

Lemma exec_mdlink_on_wikilink optSlash lit x alias rest :
  units no_bracket x -> alias_ok alias ->
  exec_mdlink optSlash lit (wikilink x alias ++ rest) = None.
Proof.
  intros Hx Halias. unfold exec_mdlink, wikilink. rewrite !append_assoc.
  assert (E : "![[" ++ x ++ alias_text alias ++ "]]" ++ rest =
              "![" ++ (String "[" (x ++ alias_text alias)) ++ String "]" (String "]" rest)).
  { simpl. now rewrite !append_assoc. }
  rewrite E, strip_prefix_app.
  rewrite span_not_app.
  - reflexivity.
  - split; [discriminate|]. apply units_append. split; [assumption|].
    destruct alias as [a|]; simpl; [|exact I]. split; [discriminate|assumption].
Qed.

Definition no_paren (c : ascii) : Prop := c <> ")"%char.

Lemma exec_mdlink_on_mdlink optSlash lit alt target rest :
  units no_bracket alt -> units no_paren lit -> units no_paren target ->
  exec_mdlink optSlash lit (mdlink alt target ++ rest) =
  if optSlash && (String "/" lit =? target)
  then Some (Js.mkMatch (mdlink alt (String "/" lit)) [Some alt])
  else if lit =? target
       then Some (Js.mkMatch (mdlink alt lit) [Some alt])
       else None.
Proof.
  intros Halt Hlit Htarget. unfold exec_mdlink, mdlink. rewrite !append_assoc.
  rewrite strip_prefix_app.
  change ("](" ++ target ++ ")" ++ rest) with (String "]" ("(" ++ target ++ ")" ++ rest)).
  rewrite (span_not_app "]" alt _ Halt).
  change (String "]" ("(" ++ target ++ ")" ++ rest)) with ("](" ++ target ++ ")" ++ rest).
  rewrite strip_prefix_app.
  change (target ++ ")" ++ rest) with (target ++ String ")" rest).
  change (lit ++ ")") with (lit ++ String ")" "").
  change ("/" ++ lit ++ String ")" "") with (String "/" lit ++ String ")" "").
  rewrite (strip_prefix_delimited ")" lit target "" rest Hlit Htarget).
  assert (Hslash : units no_paren (String "/" lit)) by (split; [discriminate|assumption]).
  rewrite (strip_prefix_delimited ")" (String "/" lit) target "" rest Hslash Htarget).
  destruct optSlash; cbn [andb].
  - destruct (String "/" lit =? target); [reflexivity|].
    destruct (lit =? target); reflexivity.
  - destruct (lit =? target); reflexivity.
Qed.

Definition no_dollar (c : ascii) : Prop := c <> "$"%char.

Lemma GetSubstitution_plain m b a caps s t :
  units no_dollar s ->
  Js.GetSubstitution m b a caps (s ++ t) = s ++ Js.GetSubstitution m b a caps t.
Proof.
  induction s as [|c s IH]; intros Hs; [reflexivity|].
  destruct Hs as [Hc Hs]. cbn [append]. rewrite <- (IH Hs).
  cbn [Js.GetSubstitution].
  destruct (Ascii.eqb_spec c "$") as [->|_]; [now exfalso; apply Hc|reflexivity].
Qed.

Lemma GetSubstitution_group1 m b a cap t :
  units no_dollar t ->
  Js.GetSubstitution m b a [cap] (String "$" (String "1" (String "]" t))) =
  match cap with Some g => g | None => "" end ++ String "]" t.
Proof.
  intros Ht.
  pose proof (GetSubstitution_plain m b a [cap] (String "]" t) "") as H.
  rewrite append_nil_r in H.
  cbn -[Js.GetSubstitution append] in H.
  change (Js.GetSubstitution m b a [cap] (String "$" (String "1" (String "]" t))))
    with (Js.capture_text [cap] 1 ++ Js.GetSubstitution m b a [cap] (String "]" t)).
  rewrite H.
  - rewrite append_nil_r. unfold Js.capture_text. simpl. now destruct cap.
  - split; [discriminate|assumption].
Qed.

Lemma wikilink_template m b a cap newPath :
  units no_dollar newPath ->
  Js.GetSubstitution m b a [cap] ("![[" ++ newPath ++ "$1]]") =
  "![[" ++ newPath ++ match cap with Some g => g | None => "" end ++ "]]".
Proof.
  intros Hnew.
  replace ("![[" ++ newPath ++ "$1]]") with (("![[" ++ newPath) ++ "$1]]")
    by now rewrite append_assoc.
  rewrite GetSubstitution_plain.
  - change "$1]]" with (String "$" (String "1" (String "]" "]"))).
    rewrite (GetSubstitution_group1 m b a cap "]")
      by (simpl; split; [discriminate|exact I]).
    now rewrite append_assoc.
  - simpl. repeat (split; [discriminate|]). assumption.
Qed.

Lemma mdlink_template m b a alt target :
  units no_dollar target ->
  Js.GetSubstitution m b a [Some alt] ("![$1](" ++ target ++ ")") = mdlink alt target.
Proof.
  intros Htarget. unfold mdlink.
  change ("![$1](" ++ target ++ ")")
    with ("![" ++ String "$" (String "1" (String "]" ("(" ++ target ++ ")")))).
  rewrite GetSubstitution_plain by (simpl; repeat split; discriminate).
  rewrite GetSubstitution_group1; [reflexivity|].
  simpl. split; [discriminate|]. apply units_append. split; [assumption|].
  simpl. split; [discriminate|exact I].
Qed.

Lemma GetSubstitution_literal m b a caps s :
  units no_dollar s -> Js.GetSubstitution m b a caps s = s.
Proof.
  intros Hs. pose proof (GetSubstitution_plain m b a caps s "" Hs) as H.
  now rewrite !append_nil_r in H.
Qed.

(** [match.replace(oldName, newName)] on a wikilink to [oldName]. *)
Lemma replace_first_in_wikilink oldName newName alias :
  oldName <> "" -> units (fun c => c <> "!"%char /\ c <> "["%char) oldName ->
  units no_dollar newName ->
  Js.replace_first oldName newName (wikilink oldName alias) = wikilink newName alias.
Proof.
  intros Hne Hold Hnew. destruct oldName as [|c rest]; [contradiction|].
  destruct Hold as [[Hc1 Hc2] _].
  unfold Js.replace_first, wikilink.
  change ("![[" ++ String c rest ++ alias_text alias ++ "]]")
    with (String "!" (String "[" (String "[" (String c rest ++ alias_text alias ++ "]]")))).
  assert (Hskip : forall d s before, d <> c ->
            Js.replace_first_from (String c rest) newName before (String d s) =
            String d (Js.replace_first_from (String c rest) newName
                        (before ++ String d "") s)).
  { intros d s before Hd. cbn [Js.replace_first_from Js.strip_prefix].
    destruct (Ascii.eqb_spec c d) as [->|_]; [contradiction|reflexivity]. }
  rewrite !Hskip by congruence.
  unfold Js.replace_first_from at 1.
  destruct (String c rest ++ alias_text alias ++ "]]") eqn:E; [discriminate|].
  rewrite <- E. rewrite strip_prefix_app.
  rewrite (GetSubstitution_literal _ _ _ _ _ Hnew). reflexivity.
Qed.

(** Paths and labels the round trip is stated for: a path has none of the
    characters the link syntax and the replacement patterns give a meaning
    to; an alias or alt text has no '!' and no ']'. *)
Definition path_unit (c : ascii) : Prop :=
  c <> "!"%char /\ c <> "["%char /\ c <> "]"%char /\ c <> "|"%char /\
  c <> "("%char /\ c <> ")"%char /\ c <> "$"%char.

Definition label_unit (c : ascii) : Prop := c <> "!"%char /\ c <> "]"%char.

(** A note as a sequence of plain text and embeds of one image. *)
Inductive Embed :=
| Text (t : string)
| FullPath (alias : option string)
| NameOnly (alias : option string)
| Absolute (alt : string)
| Relative (alt : string).

(** What each kind of embed is written with. *)
Record Targets := mkTargets {
  full : string;
  bare : string;
  absolute : string;
  relative : string
}.

Definition render (tg : Targets) (e : Embed) : string :=
  match e with
  | Text t => t
  | FullPath alias => wikilink (full tg) alias
  | NameOnly alias => wikilink (bare tg) alias
  | Absolute alt => mdlink alt (String "/" (absolute tg))
  | Relative alt => mdlink alt (relative tg)
  end.

Fixpoint render_all (tg : Targets) (es : list Embed) : string :=
  match es with
  | [] => ""
  | e :: es' => render tg e ++ render_all tg es'
  end.

Definition label_ok (alias : option string) : Prop :=
  match alias with
  | Some a => units label_unit a
  | None => True
  end.

Definition embed_ok (e : Embed) : Prop :=
  match e with
  | Text t => units (fun c => c <> "!"%char) t
  | FullPath alias | NameOnly alias => label_ok alias
  | Absolute alt | Relative alt => units label_unit alt
  end.

Definition is_name_only (e : Embed) : bool :=
  match e with
  | NameOnly _ => true
  | _ => false
  end.

Definition targets_ok (tg : Targets) : Prop :=
  units path_unit (full tg) /\ units path_unit (bare tg) /\
  units path_unit (absolute tg) /\ units path_unit (relative tg).

(** One replacement turns the rendering with [tg] into the rendering with
    [tg'], embed by embed. *)
Definition rewrites_embed exec v (tg tg' : Targets) (e : Embed) : Prop :=
  forall before rest,
    Js.replace_loop exec v 0 before (render tg e ++ rest) =
    render tg' e ++ Js.replace_loop exec v 0 (before ++ render tg e) rest.

Lemma rewrites_all exec v tg tg' es :
  (forall e, In e es -> rewrites_embed exec v tg tg' e) ->
  forall before, Js.replace_loop exec v 0 before (render_all tg es) = render_all tg' es.
Proof.
  induction es as [|e es IH]; intros H before; [reflexivity|].
  cbn [render_all]. rewrite (H e (or_introl eq_refl)). f_equal.
  apply IH. intros e' He'. apply H. now right.
Qed.

Lemma path_unit_weaken (P : ascii -> Prop) s :
  (forall c, path_unit c -> P c) -> units path_unit s -> units P s.
Proof. apply units_impl. Qed.

Lemma wikilink_shape x alias :
  units path_unit x -> label_ok alias ->
  exists t, wikilink x alias = String "!" t /\ units (fun c => c <> "!"%char) t.
Proof.
  intros Hx Ha. exists ("[[" ++ x ++ alias_text alias ++ "]]"). split; [reflexivity|].
  cbn [append units]. split; [discriminate|]. split; [discriminate|].
  apply units_append. split.
  - apply (path_unit_weaken _ _ (fun c H => proj1 H) Hx).
  - apply units_append. split.
    + destruct alias as [a|]; simpl; [|exact I]. split; [discriminate|].
      apply (units_impl label_unit _ a (fun c H => proj1 H) Ha).
    + simpl. repeat split; discriminate.
Qed.

Lemma mdlink_shape alt target :
  units label_unit alt -> units (fun c => c <> "!"%char) target ->
  exists t, mdlink alt target = String "!" t /\ units (fun c => c <> "!"%char) t.
Proof.
  intros Ha Ht. exists ("[" ++ alt ++ "](" ++ target ++ ")"). split; [reflexivity|].
  cbn [append units]. split; [discriminate|].
  apply units_append. split.
  - apply (units_impl label_unit _ alt (fun c H => proj1 H) Ha).
  - cbn [append units]. split; [discriminate|]. split; [discriminate|].
    apply units_append. split; [assumption|]. simpl. split; [discriminate|exact I].
Qed.

(** A token on which the expression does not match stays; a token it
    matches as a whole is replaced. *)
Lemma token_unmatched exec v token t :
  starts_with_bang exec -> token = String "!" t ->
  units (fun c => c <> "!"%char) t ->
  (forall rest, exec (token ++ rest) = None) ->
  forall before rest,
    Js.replace_loop exec v 0 before (token ++ rest) =
    token ++ Js.replace_loop exec v 0 (before ++ token) rest.
Proof.
  intros Hexec -> Ht Hnone before rest.
  apply (replace_loop_unmatched exec v t Hexec Ht). apply (Hnone rest).
Qed.

Lemma token_matched exec v token token' t :
  token = String "!" t ->
  (forall before rest,
     exists m, exec (token ++ rest) = Some m /\ Js.matched m = token /\
               Js.replacement v m before rest = token') ->
  forall before rest,
    Js.replace_loop exec v 0 before (token ++ rest) =
    token' ++ Js.replace_loop exec v 0 (before ++ token) rest.
Proof.
  intros -> H before rest. destruct (H before rest) as (m & Hm & Hmatched & Hrepl).
  rewrite (replace_loop_matched exec v t m before rest Hm Hmatched), Hrepl.
  reflexivity.
Qed.

Lemma path_unit_name c : path_unit c -> name_unit c.
Proof. unfold path_unit, name_unit. tauto. Qed.

Lemma path_unit_no_bracket c : path_unit c -> no_bracket c.
Proof. unfold path_unit, no_bracket. tauto. Qed.

Lemma path_unit_no_paren c : path_unit c -> no_paren c.
Proof. unfold path_unit, no_paren. tauto. Qed.

Lemma path_unit_no_dollar c : path_unit c -> no_dollar c.
Proof. unfold path_unit, no_dollar. tauto. Qed.

Lemma path_unit_no_bang c : path_unit c -> c <> "!"%char.
Proof. unfold path_unit. tauto. Qed.

Lemma label_ok_alias alias : label_ok alias -> alias_ok alias.
Proof.
  destruct alias as [a|]; simpl; [|auto].
  apply units_impl. unfold label_unit, no_bracket. tauto.
Qed.

Lemma label_no_bracket alt : units label_unit alt -> units no_bracket alt.
Proof. apply units_impl. unfold label_unit, no_bracket. tauto. Qed.

(** A wikilink rule with literal [lit] whose replacement writes [repl] in
    place of [lit]: the wikilinks to [lit] change, everything else stays. *)
Lemma wikilink_rule lit v repl tg tg' e :
  targets_ok tg -> units path_unit lit -> embed_ok e ->
  (forall alias before rest,
     label_ok alias ->
     Js.replacement v
       (Js.mkMatch (wikilink lit alias) [option_map (fun a => "|" ++ a) alias])
       before rest = wikilink repl alias) ->
  full tg' = (if lit =? full tg then repl else full tg) ->
  (is_name_only e = true -> bare tg' = (if lit =? bare tg then repl else bare tg)) ->
  absolute tg' = absolute tg -> relative tg' = relative tg ->
  rewrites_embed (exec_wikilink lit) v tg tg' e.
Proof.
  intros (Hfull & Hbare & Habs & Hrel) Hlit He Hrepl Efull Ebare Eabs Erel.
  assert (Hwiki : forall x x' alias,
            units path_unit x -> label_ok alias ->
            x' = (if lit =? x then repl else x) ->
            forall before rest,
              Js.replace_loop (exec_wikilink lit) v 0 before (wikilink x alias ++ rest) =
              wikilink x' alias
                ++ Js.replace_loop (exec_wikilink lit) v 0 (before ++ wikilink x alias) rest).
  { intros x x' alias Hx Ha Ex'.
    destruct (wikilink_shape x alias Hx Ha) as (t & Et & Ht).
    pose proof (fun rest =>
      exec_wikilink_on_wikilink lit x alias rest
        (units_impl _ _ _ path_unit_name Hlit) (units_impl _ _ _ path_unit_name Hx)
        (label_ok_alias _ Ha)) as Hexec.
    destruct (String.eqb_spec lit x) as [<-|Hne]; subst x'.
    - apply (token_matched _ v _ _ t Et). intros before rest.
      eexists. split; [apply Hexec|]. split; [reflexivity|]. now apply Hrepl.
    - apply (token_unmatched _ v _ t (exec_wikilink_starts_with_bang lit) Et Ht Hexec). }
  assert (Hmd : forall alt target,
            units label_unit alt -> units path_unit target ->
            forall before rest,
              Js.replace_loop (exec_wikilink lit) v 0 before (mdlink alt target ++ rest) =
              mdlink alt target
                ++ Js.replace_loop (exec_wikilink lit) v 0 (before ++ mdlink alt target) rest).
  { intros alt target Halt Htarget.
    destruct (mdlink_shape alt target Halt (units_impl _ _ _ path_unit_no_bang Htarget))
      as (t & Et & Ht).
    apply (token_unmatched _ v _ t (exec_wikilink_starts_with_bang lit) Et Ht).
    intros rest. apply exec_wikilink_on_mdlink.
    - apply (units_impl _ _ _ path_unit_no_bracket Hlit).
    - now apply label_no_bracket. }
  destruct e as [t|alias|alias|alt|alt]; intros before rest; cbn [render].
  - apply (replace_loop_plain _ v t (exec_wikilink_starts_with_bang lit) He).
  - now apply Hwiki.
  - apply Hwiki; auto.
  - rewrite Eabs. apply Hmd; [assumption|]. split; [|assumption].
    unfold path_unit. repeat split; discriminate.
  - rewrite Erel. now apply Hmd.
Qed.

(** A markdown rule with literal [lit] whose replacement writes
    [newTarget]: the links whose target is [lit] (or "/" followed by [lit]
    when the '/' is optional) change, everything else stays. *)
Definition mdlink_hit (optSlash : bool) (lit target : string) : bool :=
  (optSlash && (String "/" lit =? target)) || (lit =? target).

Lemma mdlink_rule optSlash lit newTarget tg tg' e :
  targets_ok tg -> units no_paren lit -> units no_dollar newTarget -> embed_ok e ->
  String "/" (absolute tg') =
    (if mdlink_hit optSlash lit (String "/" (absolute tg)) then newTarget
     else String "/" (absolute tg)) ->
  relative tg' =
    (if mdlink_hit optSlash lit (relative tg) then newTarget else relative tg) ->
  full tg' = full tg -> bare tg' = bare tg ->
  rewrites_embed (exec_mdlink optSlash lit)
    (Js.Template ("![$1](" ++ newTarget ++ ")")) tg tg' e.
Proof.
  intros (Hfull & Hbare & Habs & Hrel) Hlit Hnew He Eabs Erel Efull Ebare.
  set (v := Js.Template ("![$1](" ++ newTarget ++ ")")).
  assert (Hwiki : forall x alias,
            units path_unit x -> label_ok alias ->
            forall before rest,
              Js.replace_loop (exec_mdlink optSlash lit) v 0 before (wikilink x alias ++ rest) =
              wikilink x alias
                ++ Js.replace_loop (exec_mdlink optSlash lit) v 0
                     (before ++ wikilink x alias) rest).
  { intros x alias Hx Ha.
    destruct (wikilink_shape x alias Hx Ha) as (t & Et & Ht).
    apply (token_unmatched _ v _ t (exec_mdlink_starts_with_bang optSlash lit) Et Ht).
    intros rest. apply exec_mdlink_on_wikilink.
    - apply (units_impl _ _ _ path_unit_no_bracket Hx).
    - now apply label_ok_alias. }
  assert (Hmd : forall alt target target',
            units label_unit alt -> units path_unit target ->
            target' = (if mdlink_hit optSlash lit target then newTarget else target) ->
            forall before rest,
              Js.replace_loop (exec_mdlink optSlash lit) v 0 before (mdlink alt target ++ rest) =
              mdlink alt target'
                ++ Js.replace_loop (exec_mdlink optSlash lit) v 0
                     (before ++ mdlink alt target) rest).
  { intros alt target target' Halt Htarget Etarget.
    destruct (mdlink_shape alt target Halt (units_impl _ _ _ path_unit_no_bang Htarget))
      as (t & Et & Ht).
    pose proof (fun rest =>
      exec_mdlink_on_mdlink optSlash lit alt target rest (label_no_bracket _ Halt) Hlit
        (units_impl _ _ _ path_unit_no_paren Htarget)) as Hexec.
    unfold mdlink_hit in Etarget.
    destruct (optSlash && (String "/" lit =? target)) eqn:Eslash.
    - apply andb_true_iff in Eslash. destruct Eslash as [_ Eslash].
      apply String.eqb_eq in Eslash. subst target'. cbn [orb].
      apply (token_matched _ v _ _ t Et). intros before rest.
      eexists. split; [apply Hexec|]. rewrite Eslash. split; [reflexivity|].
      unfold v. cbn [Js.replacement Js.matched Js.captures].
      now apply mdlink_template.
    - cbn [orb] in Etarget. destruct (String.eqb_spec lit target) as [Elit|Hne]; subst target'.
      + apply (token_matched _ v _ _ t Et). intros before rest.
        eexists. split; [apply Hexec|]. rewrite Elit. split; [reflexivity|].
        unfold v. cbn [Js.replacement Js.matched Js.captures].
        now apply mdlink_template.
      + apply (token_unmatched _ v _ t (exec_mdlink_starts_with_bang optSlash lit) Et Ht Hexec). }
  destruct e as [t|alias|alias|alt|alt]; intros before rest; cbn [render].
  - apply (replace_loop_plain _ v t (exec_mdlink_starts_with_bang optSlash lit) He).
  - rewrite Efull. now apply Hwiki.
  - rewrite Ebare. now apply Hwiki.
  - apply Hmd; [assumption| |assumption]. split; [|assumption].
    unfold path_unit. repeat split; discriminate.
  - now apply Hmd.
Qed.

(** Segments, names and relative paths inherit the units of the path. *)
Lemma split_units (P : ascii -> Prop) sep s :
  units P s -> Forall (units P) (Js.split sep s).
Proof.
  induction s as [|c s IH]; simpl.
  - intros _. repeat constructor.
  - intros [Hc Hs]. specialize (IH Hs).
    destruct (Ascii.eqb c sep); [constructor; [exact I|assumption]|].
    destruct (Js.split sep s) as [|seg segs].
    + repeat constructor. assumption.
    + inversion IH; subst. constructor; [split|]; assumption.
Qed.

Lemma split_no_separator sep s :
  Forall (units (fun c => c <> sep)) (Js.split sep s).
Proof.
  induction s as [|c s IH]; simpl.
  - repeat constructor.
  - destruct (Ascii.eqb_spec c sep) as [->|Hne]; [constructor; [exact I|assumption]|].
    destruct (Js.split sep s) as [|seg segs].
    + repeat constructor. assumption.
    + inversion IH; subst. constructor; [split|]; assumption.
Qed.

Lemma last_Forall {A} (Q : A -> Prop) (l : list A) d :
  Forall Q l -> Q d -> Q (last l d).
Proof.
  induction l as [|x l IH]; simpl; [auto|]. intros H Hd.
  inversion H; subst. destruct l; [assumption|]. now apply IH.
Qed.

Definition name_of (p : string) : string := Js.pop_or_empty (Js.split "/" p).

Lemma name_of_units (P : ascii -> Prop) p : units P p -> units P (name_of p).
Proof.
  intros H. unfold name_of, Js.pop_or_empty.
  apply last_Forall; [now apply split_units | exact I].
Qed.

Lemma name_of_no_slash p : units (fun c => c <> "/"%char) (name_of p).
Proof.
  unfold name_of, Js.pop_or_empty. apply last_Forall; [apply split_no_separator | exact I].
Qed.

Lemma name_of_plain p : units (fun c => c <> "/"%char) p -> name_of p = p.
Proof.
  intros H. unfold name_of. now rewrite (split_without_separator _ _ H).
Qed.

(** A path that is the filename of another path is its own filename. *)
Lemma path_is_not_other_name p q : name_of p <> name_of q -> q <> name_of p.
Proof.
  intros Hne E. apply Hne. rewrite E. symmetry. apply name_of_plain.
  apply name_of_no_slash.
Qed.

Lemma join_units (P : ascii -> Prop) sep l :
  units P sep -> Forall (units P) l -> units P (Js.join sep l).
Proof.
  intros Hsep. unfold Js.join. induction l as [|x l IH]; simpl; [auto|].
  intros H. inversion H as [|? ? Hx Hl]; subst.
  destruct l; [assumption|].
  apply units_append. split; [assumption|]. apply units_append. split; auto.
Qed.

Lemma repeat_units (P : ascii -> Prop) s n : units P s -> units P (Js.repeat s n).
Proof.
  intros H. induction n; simpl; [exact I|]. apply units_append. auto.
Qed.

Lemma Forall_skipn_units {A} (Q : A -> Prop) n (l : list A) :
  Forall Q l -> Forall Q (skipn n l).
Proof.
  revert l. induction n; intros l H; simpl; [assumption|].
  destruct l; [constructor|]. inversion H; subst. auto.
Qed.

Lemma getRelativePath_units (P : ascii -> Prop) fromFolder toPath :
  P "."%char -> P "/"%char -> units P toPath ->
  units P (getRelativePath fromFolder toPath).
Proof.
  intros Hdot Hslash Hp. unfold getRelativePath.
  assert (Hdown : forall n, units P (Js.join "/"
            (skipn n (Js.filter_truthy (Js.split "/" toPath))))).
  { intros n. apply join_units; [simpl; auto|]. apply Forall_skipn_units.
    unfold Js.filter_truthy. apply Forall_forall. intros x Hx.
    apply filter_In in Hx. destruct Hx as [Hx _].
    pose proof (split_units P "/" toPath Hp) as H. rewrite Forall_forall in H. auto. }
  destruct (_ =? 0)%nat.
  - cbn [append units]. repeat split; auto.
  - apply units_append. split; [|apply Hdown].
    apply repeat_units. simpl. auto.
Qed.

Lemma getRelativePath_dotted fromFolder toPath :
  exists t, getRelativePath fromFolder toPath = "./" ++ t \/
            getRelativePath fromFolder toPath = "../" ++ t.
Proof.
  unfold getRelativePath.
  destruct (List.length _ - _)%nat as [|n]; cbn [Nat.eqb Js.repeat].
  - eexists. left. reflexivity.
  - eexists. right. rewrite append_assoc. reflexivity.
Qed.

Lemma path_is_not_relative fromFolder toPath :
  Js.strip_prefix "./" toPath = None -> Js.strip_prefix "../" toPath = None ->
  (toPath =? getRelativePath fromFolder toPath) = false.
Proof.
  intros H1 H2. apply String.eqb_neq. intros E.
  destruct (getRelativePath_dotted fromFolder toPath) as (t & [Et|Et]);
    rewrite Et in E; rewrite E in *.
  - now rewrite strip_prefix_app in H1.
  - now rewrite strip_prefix_app in H2.
Qed.

Lemma slash_is_not_relative fromFolder toPath x :
  (String "/" x =? getRelativePath fromFolder toPath) = false /\
  (getRelativePath fromFolder toPath =? String "/" x) = false.
Proof.
  destruct (getRelativePath_dotted fromFolder toPath) as (t & [Et|Et]);
    rewrite Et; split; reflexivity.
Qed.

Lemma render_without_name_only f b b' ab r es :
  existsb is_name_only es = false ->
  render_all (mkTargets f b ab r) es = render_all (mkTargets f b' ab r) es.
Proof.
  induction es as [|e es IH]; simpl; [reflexivity|].
  intros H. apply orb_false_iff in H. destruct H as [He Hes].
  rewrite (IH Hes). destruct e; try reflexivity. discriminate.
Qed.

(** The host resolves the bare name [name] from the note to [path]. *)
Definition resolves (a : App) (notePath name path : string) : bool :=
  match getFirstLinkpathDest a name notePath with
  | Some resolvedPath => resolvedPath =? path
  | None => false
  end.

(** What a name-only wikilink is written with after a rewrite. *)
Definition rewritten_bare (a : App) (notePath oldPath newPath bare : string) : string :=
  if negb (name_of oldPath =? name_of newPath) && (bare =? name_of oldPath)
     && resolves a notePath (name_of oldPath) oldPath
  then name_of newPath else bare.

Definition relative_to (notePath imagePath : string) : string :=
  getRelativePath (Js.substring_to_last "/" notePath) imagePath.

(** One call of the rewriting on a note made of text and embeds of
    [oldPath]: every embed is written for [newPath]. *)
Lemma rewriteLinks_pass (a : App) (notePath oldPath newPath written : string)
    (es : list Embed) :
  units path_unit oldPath -> units path_unit newPath ->
  name_of oldPath <> "" ->
  Js.strip_prefix "./" oldPath = None -> Js.strip_prefix "../" oldPath = None ->
  units path_unit written -> Forall embed_ok es ->
  (existsb is_name_only es = true -> oldPath <> written) ->
  rewriteLinks a notePath oldPath newPath
    (render_all (mkTargets oldPath written oldPath (relative_to notePath oldPath)) es) =
  render_all
    (mkTargets newPath (rewritten_bare a notePath oldPath newPath written) newPath
               (relative_to notePath newPath)) es.
Proof.
  intros Hold Hnew Hname Hdot1 Hdot2 Hbare Hes Hne.
  rewrite Forall_forall in Hes.
  assert (Hdot : path_unit ".") by (unfold path_unit; repeat split; discriminate).
  assert (Hslash : path_unit "/") by (unfold path_unit; repeat split; discriminate).
  pose proof (getRelativePath_units path_unit (Js.substring_to_last "/" notePath)
                oldPath Hdot Hslash Hold) as HrelOld.
  pose proof (getRelativePath_units path_unit (Js.substring_to_last "/" notePath)
                newPath Hdot Hslash Hnew) as HrelNew.
  pose proof (name_of_units path_unit oldPath Hold) as HoldName.
  pose proof (name_of_units path_unit newPath Hnew) as HnewName.
  fold (relative_to notePath oldPath) in HrelOld.
  fold (relative_to notePath newPath) in HrelNew.
  unfold rewriteLinks. fold (name_of oldPath) (name_of newPath).
  fold (relative_to notePath oldPath) (relative_to notePath newPath).
  (* the full-path wikilinks *)
  unfold replaceFullPathWikilinks, Js.replace_global.
  rewrite (rewrites_all _ _ _
             (mkTargets newPath written oldPath (relative_to notePath oldPath))).
  2:{ intros e He. apply (wikilink_rule oldPath _ newPath); auto.
      - repeat split; assumption.
      - intros alias before rest Halias. cbn [Js.replacement Js.matched Js.captures].
        rewrite wikilink_template by (apply (units_impl _ _ _ path_unit_no_dollar Hnew)).
        unfold wikilink. now destruct alias.
      - cbn [full]. now rewrite String.eqb_refl.
      - intros Hn. cbn [bare].
        destruct (String.eqb_spec oldPath written) as [E|_]; [|reflexivity].
        exfalso. apply Hne; [|assumption]. apply existsb_exists. eauto. }
  (* the name-only wikilinks *)
  set (bare2 := rewritten_bare a notePath oldPath newPath written).
  assert (Hbare2 : units path_unit bare2).
  { unfold bare2, rewritten_bare. now destruct (_ && _). }
  assert (Hstep2 :
    (if negb (name_of oldPath =? name_of newPath)
     then replaceNameOnlyWikilinks a notePath oldPath (name_of oldPath) (name_of newPath)
            (render_all (mkTargets newPath written oldPath (relative_to notePath oldPath)) es)
     else render_all (mkTargets newPath written oldPath (relative_to notePath oldPath)) es) =
    render_all (mkTargets newPath bare2 oldPath (relative_to notePath oldPath)) es).
  { unfold bare2, rewritten_bare.
    destruct (String.eqb_spec (name_of oldPath) (name_of newPath)) as [E|Hnames];
      cbn [negb andb]; [reflexivity|].
    unfold replaceNameOnlyWikilinks, Js.replace_global.
    apply rewrites_all. intros e He.
    apply (wikilink_rule (name_of oldPath) _
             (if resolves a notePath (name_of oldPath) oldPath
              then name_of newPath else name_of oldPath)); auto.
    - repeat split; assumption.
    - intros alias before rest Halias. cbn [Js.replacement Js.matched].
      unfold resolves.
      destruct (getFirstLinkpathDest a (name_of oldPath) notePath) as [r|]; [|reflexivity].
      destruct (r =? oldPath); [|reflexivity].
      apply replace_first_in_wikilink; [assumption| |].
      + apply (units_impl path_unit _ _ (fun c H => conj (proj1 H) (proj1 (proj2 H))) HoldName).
      + apply (units_impl _ _ _ path_unit_no_dollar HnewName).
    - cbn [full].
      destruct (String.eqb_spec (name_of oldPath) newPath) as [E|_]; [|reflexivity].
      exfalso. apply (path_is_not_other_name _ _ Hnames). now symmetry.
    - intros _. cbn [bare]. rewrite (String.eqb_sym written).
      destruct (name_of oldPath =? written) eqn:Eb; cbn [andb]; [|reflexivity].
      apply String.eqb_eq in Eb. rewrite <- Eb.
      now destruct (resolves a notePath (name_of oldPath) oldPath). }
  rewrite Hstep2.
  (* the absolute markdown links *)
  unfold replaceAbsoluteMarkdownLinks, Js.replace_global.
  change ("![$1](/" ++ newPath ++ ")") with ("![$1](" ++ String "/" newPath ++ ")").
  rewrite (rewrites_all _ _ _
             (mkTargets newPath bare2 newPath (relative_to notePath oldPath))).
  2:{ intros e He. apply mdlink_rule; auto.
      - repeat split; assumption.
      - apply (units_impl _ _ _ path_unit_no_paren Hold).
      - split; [discriminate|]. apply (units_impl _ _ _ path_unit_no_dollar Hnew).
      - cbn [absolute]. unfold mdlink_hit. now rewrite String.eqb_refl.
      - cbn [relative]. unfold mdlink_hit, relative_to.
        rewrite (proj1 (slash_is_not_relative _ _ _)).
        now rewrite path_is_not_relative. }
  (* the relative markdown links *)
  unfold replaceRelativeMarkdownLinks, Js.replace_global.
  apply rewrites_all. intros e He. apply mdlink_rule; auto.
  - repeat split; assumption.
  - apply (units_impl _ _ _ path_unit_no_paren HrelOld).
  - apply (units_impl _ _ _ path_unit_no_dollar HrelNew).
  - cbn [absolute]. unfold mdlink_hit, relative_to. cbn [andb orb].
    now rewrite (proj2 (slash_is_not_relative _ _ _)).
  - cbn [relative]. unfold mdlink_hit. cbn [andb orb]. now rewrite String.eqb_refl.
Qed.

(** The note text for a sequence of text and embeds of [imagePath], as the
    plugin writes the four syntaxes. *)
Definition note_of (notePath imagePath : string) (es : list Embed) : string :=
  render_all
    (mkTargets imagePath (name_of imagePath) imagePath (relative_to notePath imagePath))
    es.

Lemma rewriteLinks_same_resolver a a' notePath oldPath newPath content :
  getFirstLinkpathDest a' = getFirstLinkpathDest a ->
  rewriteLinks a' notePath oldPath newPath content =
  rewriteLinks a notePath oldPath newPath content.
Proof.
  intros E. unfold rewriteLinks, replaceNameOnlyWikilinks. now rewrite E.
Qed.

Lemma content_after_modification notePath content a :
  content_of notePath a <> None ->
  content_of notePath
    (with_modification notePath content (map (set_data notePath content) (files a)) a)
  = Some content.
Proof.
  unfold content_of, getAbstractFileByPath. simpl.
  induction (files a) as [|f fs IH]; simpl; [congruence|].
  destruct f as [q t d|q]; simpl.
  - destruct (String.eqb_spec q notePath) as [->|Hq]; simpl.
    + now rewrite String.eqb_refl.
    + apply String.eqb_neq in Hq. now rewrite Hq.
  - destruct (q =? notePath); [congruence|assumption].
Qed.

(** A call on a note that loads and can be written returns, and leaves the
    note with the rewritten content. *)
Lemma updateLinksInNote_runs notePath oldPath newPath content a :
  read notePath a = Returned content a -> modifyThrows a notePath = false ->
  exists updated a',
    updateLinksInNote notePath oldPath newPath a = Returned updated a' /\
    read notePath a' = Returned (rewriteLinks a notePath oldPath newPath content) a' /\
    getFirstLinkpathDest a' = getFirstLinkpathDest a /\
    modifyThrows a' = modifyThrows a.
Proof.
  intros Hread Hm.
  assert (Hr : readThrows a notePath = false /\ content_of notePath a = Some content).
  { unfold read in Hread. destruct (readThrows a notePath); [discriminate|].
    destruct (content_of notePath a); [|discriminate]. injection Hread as ->. auto. }
  destruct Hr as [Hr Hc].
  unfold updateLinksInNote, bind. rewrite Hread.
  destruct (String.eqb_spec (rewriteLinks a notePath oldPath newPath content) content)
    as [E|Ne]; cbn [negb].
  - exists false, a. unfold ret. rewrite E. auto.
  - unfold modify, ret. rewrite Hm, Hc. eexists. eexists. split; [reflexivity|].
    split; [|split; reflexivity].
    unfold read. cbn [readThrows with_modification]. rewrite Hr.
    rewrite content_after_modification by congruence. reflexivity.
Qed.

(** The claim of C2 at two notes: an absolute markdown link written without
    the leading '/' comes back with one, and a link the note already had to
    the new path comes back as a link to the old one. *)
Definition round_trip_example : App :=
  mkApp [TFile "n.md" 1 "![alt](a.png)"] [("n.md", ["a.png"])]
        (fun _ _ => None) (fun p => p)
        (fun _ => false) (fun _ => false) (fun _ => false) (fun _ => false)
        (fun _ => false) [].

Lemma there_and_back_does_not_restore :
  content_of "n.md" round_trip_example = Some "![alt](a.png)" /\
  value_of
    ((updated1 <- updateLinksInNote "n.md" "a.png" "b.png" ;;
      content1 <- read "n.md" ;;
      updated2 <- updateLinksInNote "n.md" "b.png" "a.png" ;;
      content2 <- read "n.md" ;;
      ret (updated1, content1, updated2, content2))%js round_trip_example)
  = Some (true, "![alt](/b.png)", true, "![alt](/a.png)") /\
  "![alt](/a.png)" <> "![alt](a.png)" /\
  rewriteLinks round_trip_example "n.md" "b.png" "a.png"
    (rewriteLinks round_trip_example "n.md" "a.png" "b.png" "![[a.png]] ![[b.png]]")
  = "![[a.png]] ![[a.png]]".
Proof.
  split; [reflexivity|]. split; [vm_compute; reflexivity|].
  split; [discriminate | vm_compute; reflexivity].
Qed.

(** The note "a/b/note.md" with the four syntaxes, the image moving from
    "a/b/img/x.png" to "c/y.png"; the host resolves each bare name to the
    file that bears it. *)
Definition four_syntaxes : list Embed :=
  [Text "Intro "; FullPath None; Text " and "; FullPath (Some "200");
   NameOnly None; Text ", "; Absolute "pic"; Text " / "; Relative "rel"].

Definition resolving_app : App :=
  mkApp [TFile "a/b/note.md" 1 (note_of "a/b/note.md" "a/b/img/x.png" four_syntaxes)]
        [("a/b/note.md", ["a/b/img/x.png"])]
        (fun linkpath _ =>
           if linkpath =? "x.png" then Some "a/b/img/x.png"
           else if linkpath =? "y.png" then Some "c/y.png" else None)
        (fun p => p)
        (fun _ => false) (fun _ => false) (fun _ => false) (fun _ => false)
        (fun _ => false) [].

(** For an image inside a folder the guard of the name-only rule decides
    alone: in a note of embeds of [oldPath], the bare-filename wikilinks are
    written with the new filename exactly when the filename changed and the
    host resolves the bare name from this note to [oldPath]. *)
Lemma bare_wikilinks_guarded_inside_folder (a : App)
    (notePath oldPath newPath : string) (es : list Embed) :
  units path_unit oldPath -> units path_unit newPath ->
  name_of oldPath <> "" -> oldPath <> name_of oldPath ->
  Js.strip_prefix "./" oldPath = None -> Js.strip_prefix "../" oldPath = None ->
  Forall embed_ok es ->
  rewriteLinks a notePath oldPath newPath (note_of notePath oldPath es) =
  render_all
    (mkTargets newPath
       (if negb (name_of oldPath =? name_of newPath)
           && resolves a notePath (name_of oldPath) oldPath
        then name_of newPath else name_of oldPath)
       newPath (relative_to notePath newPath)) es.
Proof.
  intros Hold Hnew Hname Hfolder Hdot1 Hdot2 Hes. unfold note_of.
  rewrite (rewriteLinks_pass a notePath oldPath newPath (name_of oldPath) es); auto.
  - unfold rewritten_bare. now rewrite String.eqb_refl, andb_true_r.
  - now apply name_of_units.
Qed.

(** *** Rewriting there and back in any note *)

(** The characters of a link target: none of those that end a target or an
    alias, start an embed, or have a meaning in a replacement string. *)
Definition target_unit (c : ascii) : Prop :=
  c <> "!"%char /\ c <> "]"%char /\ c <> "|"%char /\ c <> "$"%char.

(** A text in which no embed starts: no '!' is followed by '['. *)
Fixpoint quiet (t : string) : Prop :=
  match t with
  | EmptyString => True
  | String c t' =>
      (c = "!"%char ->
       match t' with
       | String d _ => d <> "["%char
       | EmptyString => True
       end) /\ quiet t'
  end.

(** The rule matches nowhere in [t], whatever follows [t]. *)
Definition never_matches (exec : string -> option Js.RegExpMatch) (t : string) : Prop :=
  forall pre s rest, t = pre ++ s -> s <> "" -> exec (s ++ rest) = None.

(** A note as a sequence of parts: text, the embeds of one image in the
    four syntaxes, the embeds of other targets, and stretches of any text
    in which the rules match nothing. *)
Inductive Part :=
| Prose (t : string)
| Stretch (t : string)
| FullPathLink (alias : option string)
| NameOnlyLink (alias : option string)
| AbsoluteLink (alt : string)
| RelativeLink (alt : string)
| OtherWikilink (target : string) (alias : option string)
| OtherMarkdownLink (alt target : string).

Definition spell (tg : Targets) (p : Part) : string :=
  match p with
  | Prose t | Stretch t => t
  | FullPathLink alias => wikilink (full tg) alias
  | NameOnlyLink alias => wikilink (bare tg) alias
  | AbsoluteLink alt => mdlink alt (String "/" (absolute tg))
  | RelativeLink alt => mdlink alt (relative tg)
  | OtherWikilink target alias => wikilink target alias
  | OtherMarkdownLink alt target => mdlink alt target
  end.

Fixpoint spell_all (tg : Targets) (ps : list Part) : string :=
  match ps with
  | [] => ""
  | p :: ps' => spell tg p ++ spell_all tg ps'
  end.

Definition is_prose (p : Part) : bool :=
  match p with
  | Prose _ => true
  | _ => false
  end.

Definition is_embed (p : Part) : bool :=
  match p with
  | Prose _ | Stretch _ => false
  | _ => true
  end.

Definition is_name_only_link (p : Part) : bool :=
  match p with
  | NameOnlyLink _ => true
  | _ => false
  end.

Definition is_markdown (p : Part) : bool :=
  match p with
  | AbsoluteLink _ | RelativeLink _ | OtherMarkdownLink _ _ => true
  | _ => false
  end.

Definition part_ok (p : Part) : Prop :=
  match p with
  | Prose t => quiet t
  | Stretch _ => True
  | FullPathLink alias | NameOnlyLink alias => label_ok alias
  | AbsoluteLink alt | RelativeLink alt => units label_unit alt
  | OtherWikilink target alias => units target_unit target /\ label_ok alias
  | OtherMarkdownLink alt target =>
      units label_unit alt /\ units target_unit target /\ units no_paren target
  end.

(** A text in which no embed starts may end in '!': what follows it is an
    embed, or nothing. *)
Fixpoint separated (ps : list Part) : Prop :=
  match ps with
  | [] => True
  | p :: rest =>
      match rest with
      | q :: _ => is_prose p = true -> is_embed q = true
      | [] => True
      end /\ separated rest
  end.

(** An embed of another target is written with none of the forms the
    embeds of [imagePath] have, and none of the four rules for [imagePath]
    matches in a stretch. *)
Definition foreign_to (notePath imagePath : string) (p : Part) : Prop :=
  match p with
  | Stretch t =>
      never_matches (exec_wikilink imagePath) t /\
      never_matches (exec_wikilink (name_of imagePath)) t /\
      never_matches (exec_mdlink true imagePath) t /\
      never_matches (exec_mdlink false (relative_to notePath imagePath)) t
  | OtherWikilink target _ => target <> imagePath /\ target <> name_of imagePath
  | OtherMarkdownLink _ target =>
      target <> imagePath /\ target <> String "/" imagePath /\
      target <> relative_to notePath imagePath
  | _ => True
  end.

Definition targets_plain (tg : Targets) : Prop :=
  units target_unit (full tg) /\ units target_unit (bare tg) /\
  units target_unit (absolute tg) /\ units target_unit (relative tg).

(** Every rule begins with "![". *)
Definition starts_an_embed (exec : string -> option Js.RegExpMatch) : Prop :=
  forall s, Js.strip_prefix "![" s = None -> exec s = None.

Lemma strip_prefix_longer p q s :
  Js.strip_prefix p s = None -> Js.strip_prefix (p ++ q) s = None.
Proof.
  revert s. induction p as [|c p IH]; intros s; simpl; [discriminate|].
  destruct s as [|d s]; [reflexivity|]. destruct (Ascii.eqb c d); auto.
Qed.

Lemma exec_wikilink_starts_an_embed lit : starts_an_embed (exec_wikilink lit).
Proof.
  intros s Hs. unfold exec_wikilink.
  change ("![[" ++ lit) with ("![" ++ String "[" lit).
  now rewrite (strip_prefix_longer _ _ _ Hs).
Qed.

Lemma exec_mdlink_starts_an_embed optSlash lit :
  starts_an_embed (exec_mdlink optSlash lit).
Proof. intros s Hs. unfold exec_mdlink. now rewrite Hs. Qed.

Lemma replace_loop_quiet exec v t :
  starts_an_embed exec -> quiet t ->
  forall before rest,
    (forall r, rest <> String "[" r) ->
    Js.replace_loop exec v 0 before (t ++ rest) =
    t ++ Js.replace_loop exec v 0 (before ++ t) rest.
Proof.
  intros Hexec. induction t as [|c t IH]; intros Ht before rest Hrest.
  - cbn [append]. now rewrite append_nil_r.
  - destruct Ht as [Hc Ht].
    assert (Hnone : exec (String c (t ++ rest)) = None).
    { apply Hexec. cbn [Js.strip_prefix].
      destruct (Ascii.eqb_spec "!" c) as [<-|_]; [|reflexivity].
      specialize (Hc eq_refl).
      destruct t as [|d t].
      - cbn [append]. destruct rest as [|d r]; [reflexivity|].
        cbn [Js.strip_prefix].
        destruct (Ascii.eqb_spec "[" d) as [<-|_]; [|reflexivity].
        now destruct (Hrest r).
      - cbn [append Js.strip_prefix].
        destruct (Ascii.eqb_spec "[" d) as [<-|_]; [contradiction|reflexivity]. }
    cbn [append Js.replace_loop]. rewrite Hnone.
    rewrite (IH Ht _ _ Hrest), append_assoc. reflexivity.
Qed.

Lemma replace_loop_never exec v t :
  never_matches exec t ->
  forall before rest,
    Js.replace_loop exec v 0 before (t ++ rest) =
    t ++ Js.replace_loop exec v 0 (before ++ t) rest.
Proof.
  induction t as [|c t IH]; intros Ht before rest.
  - cbn [append]. now rewrite append_nil_r.
  - cbn [append Js.replace_loop].
    change (String c (t ++ rest)) with (String c t ++ rest).
    rewrite (Ht "" (String c t) rest eq_refl) by discriminate.
    rewrite IH, append_assoc; [reflexivity|].
    intros pre s rest' E Hs. apply (Ht (String c pre) s rest'); [|assumption].
    now rewrite E.
Qed.

(** One replacement turns the spelling with [tg] into the spelling with
    [tg'], part by part; after a text, what follows does not begin with
    '['. *)
Definition rewrites_part exec v (tg tg' : Targets) (p : Part) : Prop :=
  forall before rest,
    (is_prose p = true -> forall r, rest <> String "[" r) ->
    Js.replace_loop exec v 0 before (spell tg p ++ rest) =
    spell tg' p ++ Js.replace_loop exec v 0 (before ++ spell tg p) rest.

Lemma spell_starts tg p :
  is_embed p = true -> exists r, spell tg p = String "!" r.
Proof.
  destruct p; cbn [is_embed spell]; try discriminate; intros _;
    unfold wikilink, mdlink; eexists; reflexivity.
Qed.

Lemma rewrites_parts exec v tg tg' ps :
  separated ps ->
  (forall p, In p ps -> rewrites_part exec v tg tg' p) ->
  forall before, Js.replace_loop exec v 0 before (spell_all tg ps) = spell_all tg' ps.
Proof.
  induction ps as [|p ps IH]; intros Hsep H before; [reflexivity|].
  cbn [spell_all]. destruct Hsep as [Hnext Hsep].
  rewrite (H p (or_introl eq_refl)).
  - f_equal. apply IH; [assumption|]. intros q Hq. apply H. now right.
  - intros Hp r. destruct ps as [|q ps]; [discriminate|].
    cbn [spell_all]. destruct (spell_starts tg q (Hnext Hp)) as (r' & ->).
    discriminate.
Qed.

Lemma target_unit_name c : target_unit c -> name_unit c.
Proof. unfold target_unit, name_unit. tauto. Qed.

Lemma target_unit_no_bracket c : target_unit c -> no_bracket c.
Proof. unfold target_unit, no_bracket. tauto. Qed.

Lemma target_unit_no_dollar c : target_unit c -> no_dollar c.
Proof. unfold target_unit, no_dollar. tauto. Qed.

Lemma target_unit_no_bang c : target_unit c -> c <> "!"%char.
Proof. unfold target_unit. tauto. Qed.

Lemma wikilink_token x alias :
  units (fun c => c <> "!"%char) x -> label_ok alias ->
  exists t, wikilink x alias = String "!" t /\ units (fun c => c <> "!"%char) t.
Proof.
  intros Hx Ha. exists ("[[" ++ x ++ alias_text alias ++ "]]"). split; [reflexivity|].
  cbn [append units]. split; [discriminate|]. split; [discriminate|].
  apply units_append. split; [assumption|].
  apply units_append. split.
  - destruct alias as [a|]; simpl; [|exact I]. split; [discriminate|].
    apply (units_impl label_unit _ a (fun c H => proj1 H) Ha).
  - simpl. repeat split; discriminate.
Qed.

(** What a wikilink rule with literal [lit] matches among the parts. *)
Definition wikilink_hit (lit : string) (tg : Targets) (p : Part) : Prop :=
  match p with
  | FullPathLink _ => lit = full tg
  | NameOnlyLink _ => lit = bare tg
  | _ => False
  end.

(** A wikilink rule with literal [lit] whose replacement writes [repl] in
    place of [lit]: the wikilinks to [lit] change, every other part
    stays. *)
Lemma wikilink_rule_any lit v repl tg tg' p :
  targets_plain tg -> units target_unit lit -> part_ok p ->
  (wikilink_hit lit tg p ->
   forall alias before rest,
     label_ok alias ->
     Js.replacement v
       (Js.mkMatch (wikilink lit alias) [option_map (fun a => "|" ++ a) alias])
       before rest = wikilink repl alias) ->
  full tg' = (if lit =? full tg then repl else full tg) ->
  (is_name_only_link p = true -> bare tg' = (if lit =? bare tg then repl else bare tg)) ->
  absolute tg' = absolute tg -> relative tg' = relative tg ->
  (forall target alias, p = OtherWikilink target alias -> lit <> target) ->
  (forall t, p = Stretch t -> never_matches (exec_wikilink lit) t) ->
  rewrites_part (exec_wikilink lit) v tg tg' p.
Proof.
  intros (Hfull & Hbare & Habs & Hrel) Hlit Hp Hrepl Efull Ebare Eabs Erel Hother
    Hstretch.
  assert (Hwiki : forall x x' alias,
            units target_unit x -> label_ok alias ->
            (lit = x ->
             forall alias before rest,
               label_ok alias ->
               Js.replacement v
                 (Js.mkMatch (wikilink lit alias) [option_map (fun a => "|" ++ a) alias])
                 before rest = wikilink repl alias) ->
            x' = (if lit =? x then repl else x) ->
            forall before rest,
              Js.replace_loop (exec_wikilink lit) v 0 before (wikilink x alias ++ rest) =
              wikilink x' alias
                ++ Js.replace_loop (exec_wikilink lit) v 0 (before ++ wikilink x alias) rest).
  { intros x x' alias Hx Ha Hr Ex'.
    destruct (wikilink_token x alias (units_impl _ _ _ target_unit_no_bang Hx) Ha)
      as (t & Et & Ht).
    pose proof (fun rest =>
      exec_wikilink_on_wikilink lit x alias rest
        (units_impl _ _ _ target_unit_name Hlit) (units_impl _ _ _ target_unit_name Hx)
        (label_ok_alias _ Ha)) as Hexec.
    destruct (String.eqb_spec lit x) as [E|Hne]; subst x'.
    - subst x. apply (token_matched _ v _ _ t Et). intros before rest.
      eexists. split; [apply Hexec|]. split; [reflexivity|]. now apply Hr.
    - apply (token_unmatched _ v _ t (exec_wikilink_starts_with_bang lit) Et Ht Hexec). }
  assert (Hmd : forall alt target,
            units label_unit alt -> units (fun c => c <> "!"%char) target ->
            forall before rest,
              Js.replace_loop (exec_wikilink lit) v 0 before (mdlink alt target ++ rest) =
              mdlink alt target
                ++ Js.replace_loop (exec_wikilink lit) v 0 (before ++ mdlink alt target) rest).
  { intros alt target Halt Htarget.
    destruct (mdlink_shape alt target Halt Htarget) as (t & Et & Ht).
    apply (token_unmatched _ v _ t (exec_wikilink_starts_with_bang lit) Et Ht).
    intros rest. apply exec_wikilink_on_mdlink.
    - apply (units_impl _ _ _ target_unit_no_bracket Hlit).
    - now apply label_no_bracket. }
  destruct p as [t|t|alias|alias|alt|alt|x alias|alt x]; intros before rest Hrest;
    cbn [spell].
  - apply (replace_loop_quiet _ v t (exec_wikilink_starts_an_embed lit) Hp).
    now apply Hrest.
  - apply replace_loop_never. now apply Hstretch.
  - apply Hwiki; auto.
  - apply Hwiki; auto.
  - rewrite Eabs. apply Hmd; [assumption|]. split; [discriminate|].
    apply (units_impl _ _ _ target_unit_no_bang Habs).
  - rewrite Erel. apply Hmd; [assumption|].
    apply (units_impl _ _ _ target_unit_no_bang Hrel).
  - destruct Hp as [Hx Ha]. apply Hwiki; auto.
    + intros E. now destruct (Hother x alias eq_refl).
    + destruct (String.eqb_spec lit x) as [E|_]; [|reflexivity].
      now destruct (Hother x alias eq_refl).
  - destruct Hp as (Halt & Hx & _). apply Hmd; [assumption|].
    apply (units_impl _ _ _ target_unit_no_bang Hx).
Qed.

(** A markdown rule with literal [lit] whose replacement writes
    [newTarget]: the links whose target is [lit] (or "/" followed by [lit]
    when the '/' is optional) change, every other part stays. *)
Lemma mdlink_rule_any optSlash lit newTarget tg tg' p :
  targets_plain tg -> units no_dollar newTarget -> part_ok p ->
  (is_markdown p = true ->
   units no_paren lit /\ units no_paren (absolute tg) /\ units no_paren (relative tg)) ->
  String "/" (absolute tg') =
    (if mdlink_hit optSlash lit (String "/" (absolute tg)) then newTarget
     else String "/" (absolute tg)) ->
  relative tg' =
    (if mdlink_hit optSlash lit (relative tg) then newTarget else relative tg) ->
  full tg' = full tg -> bare tg' = bare tg ->
  (forall alt target, p = OtherMarkdownLink alt target ->
                      mdlink_hit optSlash lit target = false) ->
  (forall t, p = Stretch t -> never_matches (exec_mdlink optSlash lit) t) ->
  rewrites_part (exec_mdlink optSlash lit)
    (Js.Template ("![$1](" ++ newTarget ++ ")")) tg tg' p.
Proof.
  intros (Hfull & Hbare & Habs & Hrel) Hnew Hp Hparen Eabs Erel Efull Ebare Hother
    Hstretch.
  set (v := Js.Template ("![$1](" ++ newTarget ++ ")")).
  assert (Hwiki : forall x alias,
            units target_unit x -> label_ok alias ->
            forall before rest,
              Js.replace_loop (exec_mdlink optSlash lit) v 0 before (wikilink x alias ++ rest) =
              wikilink x alias
                ++ Js.replace_loop (exec_mdlink optSlash lit) v 0
                     (before ++ wikilink x alias) rest).
  { intros x alias Hx Ha.
    destruct (wikilink_token x alias (units_impl _ _ _ target_unit_no_bang Hx) Ha)
      as (t & Et & Ht).
    apply (token_unmatched _ v _ t (exec_mdlink_starts_with_bang optSlash lit) Et Ht).
    intros rest. apply exec_mdlink_on_wikilink.
    - apply (units_impl _ _ _ target_unit_no_bracket Hx).
    - now apply label_ok_alias. }
  assert (Hmd : forall alt target target',
            units no_paren lit ->
            units label_unit alt -> units (fun c => c <> "!"%char) target ->
            units no_paren target ->
            target' = (if mdlink_hit optSlash lit target then newTarget else target) ->
            forall before rest,
              Js.replace_loop (exec_mdlink optSlash lit) v 0 before (mdlink alt target ++ rest) =
              mdlink alt target'
                ++ Js.replace_loop (exec_mdlink optSlash lit) v 0
                     (before ++ mdlink alt target) rest).
  { intros alt target target' Hlit Halt Htarget Hparens Etarget.
    destruct (mdlink_shape alt target Halt Htarget) as (t & Et & Ht).
    pose proof (fun rest =>
      exec_mdlink_on_mdlink optSlash lit alt target rest (label_no_bracket _ Halt) Hlit
        Hparens) as Hexec.
    unfold mdlink_hit in Etarget.
    destruct (optSlash && (String "/" lit =? target)) eqn:Eslash.
    - apply andb_true_iff in Eslash. destruct Eslash as [_ Eslash].
      apply String.eqb_eq in Eslash. subst target'. cbn [orb].
      apply (token_matched _ v _ _ t Et). intros before rest.
      eexists. split; [apply Hexec|]. rewrite Eslash. split; [reflexivity|].
      unfold v. cbn [Js.replacement Js.matched Js.captures].
      now apply mdlink_template.
    - cbn [orb] in Etarget. destruct (String.eqb_spec lit target) as [Elit|Hne]; subst target'.
      + apply (token_matched _ v _ _ t Et). intros before rest.
        eexists. split; [apply Hexec|]. rewrite Elit. split; [reflexivity|].
        unfold v. cbn [Js.replacement Js.matched Js.captures].
        now apply mdlink_template.
      + apply (token_unmatched _ v _ t (exec_mdlink_starts_with_bang optSlash lit) Et Ht Hexec). }
  destruct p as [t|t|alias|alias|alt|alt|x alias|alt x]; intros before rest Hrest;
    cbn [spell].
  - apply (replace_loop_quiet _ v t (exec_mdlink_starts_an_embed optSlash lit) Hp).
    now apply Hrest.
  - apply replace_loop_never. now apply Hstretch.
  - rewrite Efull. now apply Hwiki.
  - rewrite Ebare. now apply Hwiki.
  - destruct (Hparen eq_refl) as (Hl & Ha & Hr).
    apply Hmd; auto.
    + split; [discriminate|]. apply (units_impl _ _ _ target_unit_no_bang Habs).
    + split; [discriminate|assumption].
  - destruct (Hparen eq_refl) as (Hl & Ha & Hr).
    apply Hmd; auto. apply (units_impl _ _ _ target_unit_no_bang Hrel).
  - destruct Hp as [Hx Ha]. now apply Hwiki.
  - destruct Hp as (Halt & Hx & Hxp). destruct (Hparen eq_refl) as (Hl & _).
    apply Hmd; auto.
    + apply (units_impl _ _ _ target_unit_no_bang Hx).
    + now rewrite (Hother alt x eq_refl).
Qed.

(** [match.replace(oldName, newName)] on a wikilink to [oldName]: the first
    occurrence of the name is the target when the name does not begin with
    '!' or '['. *)
Lemma replace_first_in_wikilink_any oldName newName alias :
  oldName <> "" -> units target_unit oldName -> (forall r, oldName <> String "[" r) ->
  units no_dollar newName ->
  Js.replace_first oldName newName (wikilink oldName alias) = wikilink newName alias.
Proof.
  intros Hne Hold Hfirst Hnew. destruct oldName as [|c rest]; [contradiction|].
  destruct Hold as [[Hc1 _] _].
  assert (Hc2 : c <> "["%char) by (intros ->; now destruct (Hfirst rest)).
  unfold Js.replace_first, wikilink.
  change ("![[" ++ String c rest ++ alias_text alias ++ "]]")
    with (String "!" (String "[" (String "[" (String c rest ++ alias_text alias ++ "]]")))).
  assert (Hskip : forall d s before, d <> c ->
            Js.replace_first_from (String c rest) newName before (String d s) =
            String d (Js.replace_first_from (String c rest) newName
                        (before ++ String d "") s)).
  { intros d s before Hd. cbn [Js.replace_first_from Js.strip_prefix].
    destruct (Ascii.eqb_spec c d) as [->|_]; [contradiction|reflexivity]. }
  rewrite !Hskip by congruence.
  unfold Js.replace_first_from at 1.
  destruct (String c rest ++ alias_text alias ++ "]]") eqn:E; [discriminate|].
  rewrite <- E. rewrite strip_prefix_app.
  rewrite (GetSubstitution_literal _ _ _ _ _ Hnew). reflexivity.
Qed.

Lemma existsb_In {A} (f : A -> bool) (l : list A) x :
  In x l -> f x = true -> existsb f l = true.
Proof. intros Hin Hx. apply existsb_exists. eauto. Qed.

(** One call of the rewriting on a note made of text, embeds of [oldPath]
    and embeds of other targets: every embed of [oldPath] is written for
    [newPath], everything else stays. *)
Lemma rewriteLinks_any_note (a : App) (notePath oldPath newPath written : string)
    (ps : list Part) :
  units target_unit oldPath -> units target_unit newPath ->
  name_of oldPath <> "" ->
  Js.strip_prefix "./" oldPath = None -> Js.strip_prefix "../" oldPath = None ->
  units target_unit written -> Forall part_ok ps -> separated ps ->
  Forall (foreign_to notePath oldPath) ps ->
  (existsb is_markdown ps = true -> units no_paren oldPath /\ units no_paren newPath) ->
  (existsb is_name_only_link ps = true ->
   oldPath <> written /\ forall r, name_of oldPath <> String "[" r) ->
  rewriteLinks a notePath oldPath newPath
    (spell_all (mkTargets oldPath written oldPath (relative_to notePath oldPath)) ps) =
  spell_all
    (mkTargets newPath (rewritten_bare a notePath oldPath newPath written) newPath
               (relative_to notePath newPath)) ps.
Proof.
  intros Hold Hnew Hname Hdot1 Hdot2 Hbare Hps Hsep Hforeign Hmd Hne.
  rewrite Forall_forall in Hps, Hforeign.
  assert (Hdot : target_unit ".") by (unfold target_unit; repeat split; discriminate).
  assert (Hslash : target_unit "/") by (unfold target_unit; repeat split; discriminate).
  pose proof (getRelativePath_units target_unit (Js.substring_to_last "/" notePath)
                oldPath Hdot Hslash Hold) as HrelOld.
  pose proof (getRelativePath_units target_unit (Js.substring_to_last "/" notePath)
                newPath Hdot Hslash Hnew) as HrelNew.
  pose proof (name_of_units target_unit oldPath Hold) as HoldName.
  pose proof (name_of_units target_unit newPath Hnew) as HnewName.
  fold (relative_to notePath oldPath) in HrelOld.
  fold (relative_to notePath newPath) in HrelNew.
  assert (Hparens : forall p, In p ps -> is_markdown p = true ->
            units no_paren oldPath /\ units no_paren newPath /\
            units no_paren (relative_to notePath oldPath)).
  { intros p Hp Hk. destruct (Hmd (existsb_In _ _ _ Hp Hk)) as [H1 H2].
    split; [assumption|]. split; [assumption|].
    apply getRelativePath_units; [discriminate|discriminate|assumption]. }
  unfold rewriteLinks. fold (name_of oldPath) (name_of newPath).
  fold (relative_to notePath oldPath) (relative_to notePath newPath).
  (* the full-path wikilinks *)
  unfold replaceFullPathWikilinks, Js.replace_global.
  rewrite (rewrites_parts _ _ _
             (mkTargets newPath written oldPath (relative_to notePath oldPath)) ps Hsep).
  2:{ intros p Hp. apply (wikilink_rule_any oldPath _ newPath); auto.
      - repeat split; assumption.
      - intros _ alias before rest Halias. cbn [Js.replacement Js.matched Js.captures].
        rewrite wikilink_template by (apply (units_impl _ _ _ target_unit_no_dollar Hnew)).
        unfold wikilink. now destruct alias.
      - cbn [full]. now rewrite String.eqb_refl.
      - intros Hn. cbn [bare].
        destruct (String.eqb_spec oldPath written) as [E|_]; [|reflexivity].
        now destruct (proj1 (Hne (existsb_In _ _ _ Hp Hn))).
      - intros x alias -> E. apply (proj1 (Hforeign _ Hp)). now symmetry.
      - intros t ->. apply (Hforeign _ Hp). }
  (* the name-only wikilinks *)
  set (bare2 := rewritten_bare a notePath oldPath newPath written).
  assert (Hbare2 : units target_unit bare2).
  { unfold bare2, rewritten_bare. now destruct (_ && _). }
  assert (Hstep2 :
    (if negb (name_of oldPath =? name_of newPath)
     then replaceNameOnlyWikilinks a notePath oldPath (name_of oldPath) (name_of newPath)
            (spell_all (mkTargets newPath written oldPath (relative_to notePath oldPath)) ps)
     else spell_all (mkTargets newPath written oldPath (relative_to notePath oldPath)) ps) =
    spell_all (mkTargets newPath bare2 oldPath (relative_to notePath oldPath)) ps).
  { unfold bare2, rewritten_bare.
    destruct (String.eqb_spec (name_of oldPath) (name_of newPath)) as [E|Hnames];
      cbn [negb andb]; [reflexivity|].
    unfold replaceNameOnlyWikilinks, Js.replace_global.
    apply rewrites_parts; [assumption|]. intros p Hp.
    apply (wikilink_rule_any (name_of oldPath) _
             (if resolves a notePath (name_of oldPath) oldPath
              then name_of newPath else name_of oldPath)); auto.
    - repeat split; assumption.
    - intros Hhit alias before rest Halias. cbn [Js.replacement Js.matched].
      unfold resolves.
      destruct (getFirstLinkpathDest a (name_of oldPath) notePath) as [r|]; [|reflexivity].
      destruct (r =? oldPath); [|reflexivity].
      destruct p; cbn [wikilink_hit full bare] in Hhit; try contradiction.
      + exfalso. apply (path_is_not_other_name _ _ Hnames). now symmetry.
      + apply replace_first_in_wikilink_any; [assumption|assumption| |].
        * apply (Hne (existsb_In _ _ _ Hp eq_refl)).
        * apply (units_impl _ _ _ target_unit_no_dollar HnewName).
    - cbn [full].
      destruct (String.eqb_spec (name_of oldPath) newPath) as [E|_]; [|reflexivity].
      exfalso. apply (path_is_not_other_name _ _ Hnames). now symmetry.
    - intros _. cbn [bare]. rewrite (String.eqb_sym written).
      destruct (name_of oldPath =? written) eqn:Eb; cbn [andb]; [|reflexivity].
      apply String.eqb_eq in Eb. rewrite <- Eb.
      now destruct (resolves a notePath (name_of oldPath) oldPath).
    - intros x alias -> E. apply (proj2 (Hforeign _ Hp)). now symmetry.
    - intros t ->. apply (Hforeign _ Hp). }
  rewrite Hstep2.
  (* the absolute markdown links *)
  unfold replaceAbsoluteMarkdownLinks, Js.replace_global.
  change ("![$1](/" ++ newPath ++ ")") with ("![$1](" ++ String "/" newPath ++ ")").
  rewrite (rewrites_parts _ _ _
             (mkTargets newPath bare2 newPath (relative_to notePath oldPath)) ps Hsep).
  2:{ intros p Hp. apply mdlink_rule_any; auto.
      - repeat split; assumption.
      - split; [discriminate|]. apply (units_impl _ _ _ target_unit_no_dollar Hnew).
      - intros Hk. destruct (Hparens p Hp Hk) as (H1 & H2 & H3). cbn [absolute relative].
        auto.
      - cbn [absolute]. unfold mdlink_hit. now rewrite String.eqb_refl.
      - cbn [relative]. unfold mdlink_hit, relative_to.
        rewrite (proj1 (slash_is_not_relative _ _ _)).
        now rewrite path_is_not_relative.
      - intros alt x ->. destruct (Hforeign _ Hp) as (H1 & H2 & _).
        unfold mdlink_hit. cbn [andb].
        destruct (String.eqb_spec (String "/" oldPath) x); [congruence|].
        destruct (String.eqb_spec oldPath x); [congruence|reflexivity].
      - intros t ->. apply (Hforeign _ Hp). }
  (* the relative markdown links *)
  unfold replaceRelativeMarkdownLinks, Js.replace_global.
  apply rewrites_parts; [assumption|]. intros p Hp. apply mdlink_rule_any; auto.
  - repeat split; assumption.
  - apply (units_impl _ _ _ target_unit_no_dollar HrelNew).
  - intros Hk. destruct (Hparens p Hp Hk) as (H1 & H2 & H3). cbn [absolute relative].
    auto.
  - cbn [absolute]. unfold mdlink_hit, relative_to. cbn [andb orb].
    now rewrite (proj2 (slash_is_not_relative _ _ _)).
  - cbn [relative]. unfold mdlink_hit. cbn [andb orb]. now rewrite String.eqb_refl.
  - intros alt x ->. destruct (Hforeign _ Hp) as (_ & _ & H3).
    unfold mdlink_hit. cbn [andb orb].
    destruct (String.eqb_spec (relative_to notePath oldPath) x); [congruence|reflexivity].
  - intros t ->. apply (Hforeign _ Hp).
Qed.

Lemma spell_without_name_only f b b' ab r ps :
  existsb is_name_only_link ps = false ->
  spell_all (mkTargets f b ab r) ps = spell_all (mkTargets f b' ab r) ps.
Proof.
  induction ps as [|p ps IH]; simpl; [reflexivity|].
  intros H. apply orb_false_iff in H. destruct H as [Hp Hps].
  rewrite (IH Hps). destruct p; try reflexivity. discriminate.
Qed.

(** The note text for a sequence of parts around the image [imagePath],
    whose embeds are written as the plugin writes the four syntaxes. *)
Definition note_with (notePath imagePath : string) (ps : list Part) : string :=
  spell_all
    (mkTargets imagePath (name_of imagePath) imagePath (relative_to notePath imagePath))
    ps.

(** The paths of images: a path ends in a filename, does not begin with
    "./" or "../", and has none of the characters [! ] | $]. *)
Definition image_path (p : string) : Prop :=
  units target_unit p /\ name_of p <> "" /\
  Js.strip_prefix "./" p = None /\ Js.strip_prefix "../" p = None.

(** C2, amended.  Take image paths [A] and [B] (ending in a filename, not
    beginning with "./" or "../", free of the characters [! ] | $]) and a
    note made of these parts: embeds of [A] in the four syntaxes as the
    plugin writes them (full-path wikilink, bare-filename wikilink,
    absolute markdown link with its leading '/', relative markdown link);
    embeds of other targets, wikilinks or markdown links, written with
    none of the forms of [A] or of [B]; text in which no '!' is followed by
    '[', each such text being followed by an embed or ending the note; and
    stretches of any text in which no rule for [A] or for [B] matches,
    whatever follows them.  Aliases and alt texts are free of '!' and ']'.
    If the note has markdown embeds, let [A] and [B] have no ')'.  If it has bare-filename wikilinks of [A], let [A] and [B] lie in
    a folder, let their filenames not begin with '[', and let the host
    resolve the bare name of [B] to [B] at the second call whenever it
    resolved the bare name of [A] to [A] at the first.  Then rewriting for
    [(A, B)] and then for [(B, A)] restores the content, and two
    successive calls of [updateLinksInNote] on a note that loads and can
    be written leave it with its original content. *)
Theorem rewriteLinks_there_and_back (a1 a2 : App) (notePath A B : string)
    (ps : list Part) :
  image_path A -> image_path B ->
  Forall part_ok ps -> separated ps ->
  Forall (foreign_to notePath A) ps -> Forall (foreign_to notePath B) ps ->
  (existsb is_markdown ps = true -> units no_paren A /\ units no_paren B) ->
  (existsb is_name_only_link ps = true ->
   A <> name_of A /\ B <> name_of B /\
   (forall r, name_of A <> String "[" r) /\ (forall r, name_of B <> String "[" r) /\
   (resolves a1 notePath (name_of A) A = true ->
    resolves a2 notePath (name_of B) B = true)) ->
  rewriteLinks a2 notePath B A (rewriteLinks a1 notePath A B (note_with notePath A ps))
    = note_with notePath A ps /\
  (getFirstLinkpathDest a2 = getFirstLinkpathDest a1 ->
   read notePath a1 = Returned (note_with notePath A ps) a1 ->
   modifyThrows a1 notePath = false ->
   exists u1 u2 a' a'',
     updateLinksInNote notePath A B a1 = Returned u1 a' /\
     updateLinksInNote notePath B A a' = Returned u2 a'' /\
     read notePath a'' = Returned (note_with notePath A ps) a'').
Proof.
  intros (HA & HnA & HA1 & HA2) (HB & HnB & HB1 & HB2) Hps Hsep HfA HfB Hmd Hbare.
  assert (Hback : forall a2',
            getFirstLinkpathDest a2' = getFirstLinkpathDest a2 ->
            rewriteLinks a2' notePath B A
              (rewriteLinks a1 notePath A B (note_with notePath A ps))
            = note_with notePath A ps).
  { intros a2' Eres. rewrite (rewriteLinks_same_resolver a2 a2' _ _ _ _ Eres).
    unfold note_with.
    rewrite (rewriteLinks_any_note a1 notePath A B (name_of A) ps); auto.
    2:{ now apply name_of_units. }
    2:{ intros Hn. destruct (Hbare Hn) as (H1 & _ & H3 & _). auto. }
    set (written := rewritten_bare a1 notePath A B (name_of A)).
    assert (Hwritten : units target_unit written).
    { unfold written, rewritten_bare. destruct (_ && _); now apply name_of_units. }
    rewrite (rewriteLinks_any_note a2 notePath B A written ps); auto.
    2:{ intros Hn. destruct (Hmd Hn). auto. }
    2:{ intros Hn. destruct (Hbare Hn) as (HAn & HBn & _ & H4 & _).
        split; [|assumption].
        unfold written, rewritten_bare.
        destruct (String.eqb_spec (name_of A) (name_of B)) as [E|Hnames]; cbn [negb andb].
        - now rewrite E.
        - destruct (_ && _); [assumption|].
          now apply path_is_not_other_name. }
    destruct (existsb is_name_only_link ps) eqn:Hn.
    - destruct (Hbare eq_refl) as (_ & _ & _ & _ & Hres).
      f_equal. f_equal.
      unfold rewritten_bare at 1. unfold written, rewritten_bare.
      rewrite (String.eqb_sym (name_of B) (name_of A)), String.eqb_refl.
      destruct (String.eqb_spec (name_of A) (name_of B)) as [E|Hnames];
        cbn [negb andb]; [reflexivity|].
      destruct (resolves a1 notePath (name_of A) A) eqn:R1.
      + rewrite String.eqb_refl, (Hres eq_refl). reflexivity.
      + apply String.eqb_neq in Hnames. now rewrite Hnames.
    - apply spell_without_name_only. assumption. }
  split; [now apply Hback|].
  intros Eres Hread Hm.
  destruct (updateLinksInNote_runs notePath A B _ a1 Hread Hm)
    as (u1 & a' & Hrun1 & Hread1 & Eres1 & Hm1).
  assert (Hm' : modifyThrows a' notePath = false) by now rewrite Hm1.
  destruct (updateLinksInNote_runs notePath B A _ a' Hread1 Hm')
    as (u2 & a'' & Hrun2 & Hread2 & _ & _).
  exists u1, u2, a', a''. split; [assumption|]. split; [assumption|].
  rewrite Hback in Hread2; [assumption|]. congruence.
Qed.

(** The note "a/b/note.md": text with exclamation marks, the four syntaxes
    for the image that moves from "a/b/img/x.png" to "c/y.png", a stretch
    with brackets that are no embed, and embeds of two other images; the
    host resolves each bare name to the file that bears it. *)
Definition busy_note : list Part :=
  [Prose "Look!! "; FullPathLink None; Prose " and "; FullPathLink (Some "200");
   NameOnlyLink None; Prose ", "; AbsoluteLink "pic"; Prose " / "; RelativeLink "rel";
   Stretch " but ![x] is none; "; Stretch "nor is [y]"; Prose "! ";
   OtherWikilink "a/b/img/other (1).png" None;
   OtherMarkdownLink "map" "/maps/town.png"; Prose " done!"].

(** A note with wikilinks only, for an image whose name has parentheses. *)
Definition album_note : list Part :=
  [Prose "Album! "; FullPathLink None; Prose " (first) "; NameOnlyLink (Some "thumb");
   OtherWikilink "img/photo (3).png" None].

Definition album_app : App :=
  mkApp [] []
        (fun linkpath _ =>
           if linkpath =? "photo (1).png" then Some "img/photo (1).png"
           else if linkpath =? "photo (2).png" then Some "archive/photo (2).png"
           else None)
        (fun p => p)
        (fun _ => false) (fun _ => false) (fun _ => false) (fun _ => false)
        (fun _ => false) [].

Ltac plain_units :=
  repeat (cbn [units]; split); try exact I;
  unfold target_unit, label_unit, no_paren; repeat split; discriminate.

(** A rule that matches at no position of a given text. *)
Ltac matches_nothing :=
  intros pre s rest E Hs;
  repeat (destruct pre as [|? pre]; cbn [append] in E;
          [ subst s; first [reflexivity | congruence]
          | first [discriminate E | injection E as <- E] ]).

Ltac foreign_parts :=
  repeat (apply Forall_cons || apply Forall_nil);
  first [ exact I
        | solve [vm_compute; repeat split; discriminate]
        | solve [repeat split; matches_nothing] ].

Lemma rewriteLinks_there_and_back_witness :
  (note_with "a/b/note.md" "a/b/img/x.png" busy_note =
     "Look!! ![[a/b/img/x.png]] and ![[a/b/img/x.png|200]]![[x.png]], ![pic](/a/b/img/x.png) / ![rel](./img/x.png) but ![x] is none; nor is [y]! ![[a/b/img/other (1).png]]![map](/maps/town.png) done!" /\
   rewriteLinks resolving_app "a/b/note.md" "a/b/img/x.png" "c/y.png"
     (note_with "a/b/note.md" "a/b/img/x.png" busy_note) =
     "Look!! ![[c/y.png]] and ![[c/y.png|200]]![[y.png]], ![pic](/c/y.png) / ![rel](../../c/y.png) but ![x] is none; nor is [y]! ![[a/b/img/other (1).png]]![map](/maps/town.png) done!" /\
   rewriteLinks resolving_app "a/b/note.md" "c/y.png" "a/b/img/x.png"
     (rewriteLinks resolving_app "a/b/note.md" "a/b/img/x.png" "c/y.png"
        (note_with "a/b/note.md" "a/b/img/x.png" busy_note)) =
     note_with "a/b/note.md" "a/b/img/x.png" busy_note) /\
  (note_with "n.md" "img/photo (1).png" album_note =
     "Album! ![[img/photo (1).png]] (first) ![[photo (1).png|thumb]]![[img/photo (3).png]]" /\
   rewriteLinks album_app "n.md" "archive/photo (2).png" "img/photo (1).png"
     (rewriteLinks album_app "n.md" "img/photo (1).png" "archive/photo (2).png"
        (note_with "n.md" "img/photo (1).png" album_note)) =
     note_with "n.md" "img/photo (1).png" album_note).
Proof.
  split.
  - split; [vm_compute; reflexivity|]. split; [vm_compute; reflexivity|].
    apply (rewriteLinks_there_and_back resolving_app resolving_app
             "a/b/note.md" "a/b/img/x.png" "c/y.png" busy_note).
    + split; [plain_units|]. split; [vm_compute; discriminate|]. split; reflexivity.
    + split; [plain_units|]. split; [vm_compute; discriminate|]. split; reflexivity.
    + repeat constructor; plain_units.
    + cbn. repeat split; discriminate.
    + foreign_parts.
    + foreign_parts.
    + intros _. split; plain_units.
    + intros _. split; [vm_compute; discriminate|].
      split; [vm_compute; discriminate|].
      split; [intros r; vm_compute; discriminate|].
      split; [intros r; vm_compute; discriminate|].
      intros _. vm_compute. reflexivity.
  - split; [vm_compute; reflexivity|].
    apply (rewriteLinks_there_and_back album_app album_app
             "n.md" "img/photo (1).png" "archive/photo (2).png" album_note).
    + split; [plain_units|]. split; [vm_compute; discriminate|]. split; reflexivity.
    + split; [plain_units|]. split; [vm_compute; discriminate|]. split; reflexivity.
    + repeat constructor; plain_units.
    + cbn. repeat split; discriminate.
    + foreign_parts.
    + foreign_parts.
    + discriminate.
    + intros _. split; [vm_compute; discriminate|].
      split; [vm_compute; discriminate|].
      split; [intros r; vm_compute; discriminate|].
      split; [intros r; vm_compute; discriminate|].
      intros _. vm_compute. reflexivity.
Defined.

(** The characters the paths are kept free of matter.  With a ']' in [A], a
    note in which no rule for [B] matches anywhere is not restored: the
    alias of a broken embed swallows the rewritten one.  A '$' in [B] is
    read as a replacement pattern. *)
Lemma excluded_characters_matter :
  matches_nowhere (exec_wikilink "c.png") "![[c.png|x![[a]b.png]]" = true /\
  rewriteLinks album_app "n.md" "c.png" "a]b.png"
    (rewriteLinks album_app "n.md" "a]b.png" "c.png" "![[c.png|x![[a]b.png]]")
  = "![[a]b.png|x![[c.png]]" /\
  rewriteLinks album_app "n.md" "a.png" "c$&.png" "![[a.png]]" = "![[c![[a.png]].png]]".
Proof. repeat split; vm_compute; reflexivity. Qed.

End LinkUpdaterFacts.

(* ================================================================== *)
(** * Further properties of the core *)
(* ================================================================== *)

(** ** File names and extensions *)

Lemma last_app_not_nil {A} (l l' : list A) d :
  l' <> [] -> last (l ++ l') d = last l' d.
Proof.
  intros Hl'. induction l as [|x l IH]; [reflexivity|].
  simpl. destruct (l ++ l')%list eqn:E; [|assumption].
  apply app_eq_nil in E. destruct E as [_ E]. contradiction.
Qed.

(** The text after the last '.' of a name that ends in '.' and a text
    without '.'. *)
Lemma extension_of_dotted stem e :
  units (fun c => c <> "."%char) e ->
  Js.pop_or_empty (Js.split "." (stem ++ String "." e)) = e.
Proof.
  intros He. unfold Js.pop_or_empty.
  rewrite split_app, last_app_not_nil by apply split_not_nil.
  now rewrite (split_without_separator _ _ He).
Qed.

Lemma isImageFile_dotted (stem e : string) :
  units (fun c => c <> "."%char) e ->
  Types.isImageFile (stem ++ String "." e) =
  Js.includes Types.SUPPORTED_IMAGE_EXTENSIONS (Js.toLowerCase e).
Proof.
  intros He. unfold Types.isImageFile.
  rewrite (extension_of_dotted _ _ He).
  destruct (String.eqb_spec (Js.toLowerCase e) "") as [E|_]; [|reflexivity].
  now rewrite E.
Qed.

(** X1.  [isImageFile] decides on the text after the last '.' alone, read
    without regard to letter case: whatever precedes the last '.' (folders,
    other dots), a name ending in '.' and an extension [e] is an image file
    exactly when the lower-cased [e] is one of the supported extensions. *)
Theorem isImageFile_decided_by_last_extension (stem e : string) :
  units (fun c => c <> "."%char) e ->
  Types.isImageFile (stem ++ "." ++ e) =
  Js.includes Types.SUPPORTED_IMAGE_EXTENSIONS (Js.toLowerCase e).
Proof. apply isImageFile_dotted. Qed.

Lemma isImageFile_decided_by_last_extension_witness :
  Types.isImageFile ("shots/2024.05/IMG_0001" ++ "." ++ "JPeG") = true /\
  Types.isImageFile ("photo.png" ++ "." ++ "bak") = false.
Proof.
  split.
  - rewrite (isImageFile_decided_by_last_extension "shots/2024.05/IMG_0001" "JPeG");
      [reflexivity|].
    simpl. repeat split; discriminate.
  - rewrite (isImageFile_decided_by_last_extension "photo.png" "bak");
      [reflexivity|].
    simpl. repeat split; discriminate.
Defined.

(** ** escapeRegex *)

(** The grammar of regular expressions (ECMAScript, the production
    SyntaxCharacter): the characters that have a meaning in a pattern.
    Every other character is a PatternCharacter and matches itself; a
    backslash followed by a syntax character is an identity escape and
    matches that character. *)
Definition SyntaxCharacter : list ascii :=
  ["^"; "$"; "\"; "."; "*"; "+"; "?"; "("; ")"; "["; "]"; "{"; "}"; "|"]%char.

Definition is_syntax_character (c : ascii) : bool :=
  existsb (Ascii.eqb c) SyntaxCharacter.

(** The text a pattern made of pattern characters and identity escapes
    matches, and nothing for a pattern in which a syntax character stands
    outside an escape, or a backslash before another character. *)
Fixpoint literal_of_pattern (p : string) : option string :=
  match p with
  | EmptyString => Some EmptyString
  | String c rest =>
      if Ascii.eqb c "\" then
        match rest with
        | String d rest' =>
            if is_syntax_character d
            then option_map (String d) (literal_of_pattern rest')
            else None
        | EmptyString => None
        end
      else if is_syntax_character c then None
      else option_map (String c) (literal_of_pattern rest)
  end.

Definition all_ascii : list ascii := map ascii_of_nat (seq 0 256).

Lemma all_ascii_complete (c : ascii) : In c all_ascii.
Proof.
  unfold all_ascii. apply in_map_iff. exists (nat_of_ascii c).
  split; [apply ascii_nat_embedding|].
  apply in_seq. pose proof (nat_ascii_bounded c). lia.
Qed.

(** The class of [escapeRegex] holds every syntax character, and nothing
    else. *)
Lemma special_characters_are_the_syntax_characters (c : ascii) :
  LinkQueries.is_special c = is_syntax_character c.
Proof.
  assert (H : forallb (fun c => Bool.eqb (LinkQueries.is_special c)
                                          (is_syntax_character c)) all_ascii = true)
    by (vm_compute; reflexivity).
  rewrite forallb_forall in H. apply Bool.eqb_prop, H, all_ascii_complete.
Qed.

Lemma escape_loop_reads_back (s : string) :
  forall before,
    literal_of_pattern
      (Js.replace_loop LinkQueries.exec_special (Js.Template "\$&") 0 before s)
    = Some s.
Proof.
  induction s as [|c s IH]; intros before; [reflexivity|].
  cbn [Js.replace_loop LinkQueries.exec_special].
  destruct (LinkQueries.is_special c) eqn:Ec.
  - cbn [Js.matched String.length Nat.sub].
    replace (Js.replacement (Js.Template "\$&")
               (Js.mkMatch (String c "") []) before (Js.drop 1 (String c s)))
      with (String "\" (String c "")) by reflexivity.
    cbn [append literal_of_pattern].
    change (Ascii.eqb "\" "\") with true. cbn iota.
    rewrite <- special_characters_are_the_syntax_characters, Ec, IH. reflexivity.
  - cbn [literal_of_pattern].
    destruct (Ascii.eqb_spec c "\") as [->|_]; [discriminate Ec|].
    rewrite <- special_characters_are_the_syntax_characters, Ec, IH. reflexivity.
Qed.

(** X2.  [escapeRegex] escapes every character that has a meaning in a
    regular expression, and only those: its class is the set of the syntax
    characters of the grammar.  So the pattern it yields is made of
    pattern characters and of identity escapes, no syntax character stands
    in it outside an escape, and the text that pattern matches literally
    is the argument itself. *)
Theorem escapeRegex_reads_back (s : string) :
  (forall c, LinkQueries.is_special c = is_syntax_character c) /\
  literal_of_pattern (LinkQueries.escapeRegex s) = Some s.
Proof.
  split; [apply special_characters_are_the_syntax_characters|].
  apply escape_loop_reads_back.
Qed.

(** ** The queries of LinkUpdater *)

Lemma findNotesReferencingImage_length p (rl : list (string * list string)) :
  List.length
    (map fst (filter (fun entry => existsb (fun linkedPath => linkedPath =? p) (snd entry)) rl))
  <= List.length rl.
Proof. rewrite length_map. apply filter_length_le. Qed.

Lemma flat_map_file_paths (a : Obsidian.App) (notes : list string) :
  map Obsidian.path_of
    (flat_map
       (fun path =>
          match Obsidian.getAbstractFileByPath path a with
          | Some (Obsidian.TFile q t d) => [Obsidian.TFile q t d]
          | _ => []
          end) notes) =
  filter (fun path => is_file path a) notes.
Proof.
  induction notes as [|n notes IH]; [reflexivity|].
  cbn [flat_map filter]. rewrite map_app, IH. unfold is_file.
  destruct (Obsidian.getAbstractFileByPath n a) as [[q t d|q]|] eqn:E; try reflexivity.
  unfold Obsidian.getAbstractFileByPath in E. apply find_some in E.
  destruct E as [_ E]. apply String.eqb_eq in E. simpl in E. now subst q.
Qed.

Lemma isImageReferenced_spec (a : Obsidian.App) (p : string) :
  LinkQueries.isImageReferenced p a = true <->
  exists links, In links (map snd (Obsidian.resolvedLinks a)) /\ In p links.
Proof.
  unfold LinkQueries.isImageReferenced.
  destruct (LinkUpdater.findNotesReferencingImage p a) as [|n ns] eqn:E.
  - apply findNotesReferencingImage_nil in E. simpl. split; [discriminate|].
    intros H. contradiction.
  - simpl. split; [intros _|reflexivity].
    assert (Hn : In n (LinkUpdater.findNotesReferencingImage p a))
      by (rewrite E; now left).
    unfold LinkUpdater.findNotesReferencingImage in Hn.
    apply in_map_iff in Hn. destruct Hn as ([note links] & _ & Hn).
    apply filter_In in Hn. destruct Hn as [Hin Hex].
    apply existsb_exists in Hex. destruct Hex as (x & Hx & Ex).
    apply String.eqb_eq in Ex. subst x.
    exists links. split; [|assumption].
    apply in_map_iff. now exists (note, links).
Qed.

(** The set of the orphan detector holds the image paths that are
    referenced. *)
Lemma referenced_set_spec (a : Obsidian.App) (p : string) :
  OrphanDetector.set_has p (OrphanDetector.getAllReferencedImages a) =
  Types.isImageFile p && LinkQueries.isImageReferenced p a.
Proof.
  apply eq_true_iff_eq.
  rewrite set_has_In, getAllReferencedImages_In, andb_true_iff, isImageReferenced_spec.
  tauto.
Qed.

(** X3.  The queries agree with each other and with the orphan detector:
    a path is in the set [getAllReferencedImages] builds exactly when it is
    an image path and [isImageReferenced] holds of it; [isImageReferenced]
    holds exactly when some note links to the path; a note counts once
    however often it links, so the count is at most the number of notes;
    [getReferencingNotes] lists, in the same order, the referencing notes
    that resolve to a file. *)
Theorem link_queries_agree (a : Obsidian.App) (p : string) :
  OrphanDetector.set_has p (OrphanDetector.getAllReferencedImages a) =
    Types.isImageFile p && LinkQueries.isImageReferenced p a /\
  (LinkQueries.isImageReferenced p a = true <->
   exists links, In links (map snd (Obsidian.resolvedLinks a)) /\ In p links) /\
  (LinkQueries.getReferenceCount p a <= List.length (Obsidian.resolvedLinks a))%nat /\
  map Obsidian.path_of (LinkQueries.getReferencingNotes p a) =
    filter (fun notePath => is_file notePath a)
           (LinkUpdater.findNotesReferencingImage p a) /\
  (List.length (LinkQueries.getReferencingNotes p a)
   <= LinkQueries.getReferenceCount p a)%nat.
Proof.
  split; [apply referenced_set_spec|].
  split; [apply isImageReferenced_spec|].
  split; [apply findNotesReferencingImage_length|].
  split; [apply flat_map_file_paths|].
  unfold LinkQueries.getReferenceCount.
  rewrite <- (length_map Obsidian.path_of).
  unfold LinkQueries.getReferencingNotes. rewrite flat_map_file_paths.
  apply filter_length_le.
Qed.

(** ** core/HashService.ts: the cache under renames and removals *)

Section HashMaintenanceFacts.
Import Obsidian HashService HashMaintenance.

Lemma cache_get_set_same p e c : cache_get p (cache_set p e c) = Some e.
Proof.
  induction c as [|[k e'] c IH]; simpl.
  - now rewrite String.eqb_refl.
  - destruct (String.eqb_spec k p) as [->|Hne]; simpl.
    + now rewrite String.eqb_refl.
    + destruct (String.eqb_spec k p); [contradiction|assumption].
Qed.

Lemma cache_get_delete p q c :
  cache_get p (cache_delete q c) = if p =? q then None else cache_get p c.
Proof.
  unfold cache_delete. induction c as [|[k e] c IH]; simpl.
  - now destruct (p =? q).
  - destruct (String.eqb_spec k q) as [->|Hkq]; simpl.
    + rewrite IH. destruct (String.eqb_spec p q) as [->|Hpq]; [reflexivity|].
      destruct (String.eqb_spec q p); [congruence|reflexivity].
    + destruct (String.eqb_spec k p) as [->|Hkp].
      * destruct (String.eqb_spec p q); [contradiction|reflexivity].
      * apply IH.
Qed.

Lemma cache_set_keys p e c :
  map fst (cache_set p e c) =
  if is_cached p c then map fst c else (map fst c ++ [p])%list.
Proof.
  unfold is_cached. induction c as [|[k e'] c IH]; simpl.
  - reflexivity.
  - destruct (String.eqb_spec k p) as [->|Hne]; simpl; [reflexivity|].
    rewrite IH. now destruct (cache_get p c).
Qed.

Lemma cache_get_In p c : cache_get p c = None <-> ~ In p (map fst c).
Proof.
  induction c as [|[k e] c IH]; simpl; [tauto|].
  destruct (String.eqb_spec k p) as [->|Hne].
  - split; [discriminate|]. intros H. exfalso. apply H. now left.
  - rewrite IH. tauto.
Qed.

Lemma cache_set_NoDup p e c : NoDup (map fst c) -> NoDup (map fst (cache_set p e c)).
Proof.
  intros H. rewrite cache_set_keys. unfold is_cached.
  destruct (cache_get p c) eqn:E; [assumption|].
  apply cache_get_In in E.
  apply NoDup_app; [assumption|repeat constructor; intros []|].
  intros x Hx [<-|[]]. contradiction.
Qed.

Lemma cache_delete_NoDup p c : NoDup (map fst c) -> NoDup (map fst (cache_delete p c)).
Proof. intros H. unfold cache_delete. now apply NoDup_map_filter. Qed.

Lemma calculateHash_frame path fileMtime data st :
  app (snd (calculateHash path fileMtime data st)) = app st /\
  forall q, q <> path ->
    cache_get q (cache (snd (calculateHash path fileMtime data st))) =
    cache_get q (cache st).
Proof.
  unfold calculateHash.
  destruct (cache_get path (cache st)) as [[h t]|]; cbn [mtime hash];
    [destruct (t =? fileMtime)%Z|]; cbn [snd cache app];
    (split; [reflexivity|]); intros q Hq; auto using cache_get_set_other.
Qed.

(** X4.  [calculateHash] leaves the cache with an entry for the path that
    holds the digest it returned and the [mtime] of the file, and leaves
    every other key as it was; so a second call for the same [mtime]
    returns the same digest and changes nothing, whatever the bytes of the
    file have become: a change of content under an unchanged [mtime] goes
    unnoticed.  Without an entry of that [mtime] the digest is the one of
    the bytes read.  The keys of the cache stay distinct. *)
Theorem calculateHash_settles_the_entry (path : string) (fileMtime : Z)
    (data : string) (st : State) :
  cache_get path (cache (snd (calculateHash path fileMtime data st))) =
    Some (mkEntry (fst (calculateHash path fileMtime data st)) fileMtime) /\
  (forall q, q <> path ->
     cache_get q (cache (snd (calculateHash path fileMtime data st))) =
     cache_get q (cache st)) /\
  (forall data',
     calculateHash path fileMtime data' (snd (calculateHash path fileMtime data st)) =
     calculateHash path fileMtime data st) /\
  (option_map mtime (cache_get path (cache st)) <> Some fileMtime ->
   fst (calculateHash path fileMtime data st) = computeHash data) /\
  app (snd (calculateHash path fileMtime data st)) = app st /\
  (NoDup (map fst (cache st)) ->
   NoDup (map fst (cache (snd (calculateHash path fileMtime data st))))).
Proof.
  unfold calculateHash.
  destruct (cache_get path (cache st)) as [[h t]|] eqn:E; cbn [mtime hash].
  - destruct (Z.eqb_spec t fileMtime) as [->|Hne]; cbn [fst snd cache app].
    + repeat split; auto.
      * intros data'. rewrite E. cbn [mtime hash]. now rewrite Z.eqb_refl.
      * simpl. congruence.
    + rewrite cache_get_set_same. repeat split; auto.
      * intros q Hq. now apply cache_get_set_other.
      * intros data'. cbn [mtime hash]. now rewrite Z.eqb_refl.
      * intros H. now apply cache_set_NoDup.
  - cbn [fst snd cache app]. rewrite cache_get_set_same. repeat split; auto.
    + intros q Hq. now apply cache_get_set_other.
    + intros data'. cbn [mtime hash]. now rewrite Z.eqb_refl.
    + intros H. now apply cache_set_NoDup.
Qed.

(** X5.  [updateCachePath] moves the entry of a renamed file: once an entry
    is stored under [oldPath], the key [oldPath] is gone afterwards, the
    entry sits under [newPath] (replacing what was there), the other keys
    are untouched and stay distinct, and [calculateHash] serves the moved
    digest for the file at its new path without hashing again as long as
    the [mtime] is the same.  Called with twice the same path the entry is
    lost, since the key is deleted after the assignment. *)
Theorem updateCachePath_moves_the_entry (oldPath newPath : string)
    (entry : HashCacheEntry) (st : State) :
  cache_get oldPath (cache st) = Some entry ->
  exists st',
    updateCachePath oldPath newPath st = Some st' /\
    cache_get oldPath (cache st') = None /\
    cache_get newPath (cache st') =
      (if oldPath =? newPath then None else Some entry) /\
    (forall q, q <> oldPath -> q <> newPath ->
       cache_get q (cache st') = cache_get q (cache st)) /\
    (oldPath <> newPath ->
     forall data, calculateHash newPath (mtime entry) data st' = (hash entry, st')) /\
    app st' = app st /\
    (NoDup (map fst (cache st)) -> NoDup (map fst (cache st'))).
Proof.
  intros E. unfold updateCachePath, cache_read. rewrite E.
  eexists. split; [reflexivity|]. cbn [cache app].
  assert (Hnew : cache_get newPath
                   (cache_delete oldPath (cache_set newPath entry (cache st))) =
                 (if oldPath =? newPath then None else Some entry)).
  { rewrite cache_get_delete, cache_get_set_same, (String.eqb_sym newPath oldPath).
    reflexivity. }
  split; [rewrite cache_get_delete, String.eqb_refl; reflexivity|].
  split; [exact Hnew|].
  split.
  { intros q Hold Hnewq. rewrite cache_get_delete.
    destruct (String.eqb_spec q oldPath); [contradiction|].
    now apply cache_get_set_other. }
  split.
  { intros Hne data. unfold calculateHash. cbn [cache]. rewrite Hnew.
    destruct (String.eqb_spec oldPath newPath); [contradiction|].
    now rewrite Z.eqb_refl. }
  split; [reflexivity|].
  intros H. now apply cache_delete_NoDup, cache_set_NoDup.
Qed.

Definition renamed_image_example : State :=
  HashService.mkState (plain_app [TFile "new/a.png" 7 "bytes"])
    [("old/a.png", mkEntry "0123456789abcdef" 7)].

Lemma updateCachePath_moves_the_entry_witness :
  exists st',
    updateCachePath "old/a.png" "new/a.png" renamed_image_example = Some st' /\
    cache_get "old/a.png" (cache st') = None /\
    cache_get "new/a.png" (cache st') = Some (mkEntry "0123456789abcdef" 7) /\
    calculateHash "new/a.png" 7 "bytes" st' = ("0123456789abcdef", st').
Proof.
  destruct (updateCachePath_moves_the_entry "old/a.png" "new/a.png"
              (mkEntry "0123456789abcdef" 7) renamed_image_example eq_refl)
    as (st' & H0 & H1 & H2 & _ & H4 & _).
  exists st'. split; [exact H0|]. split; [exact H1|]. split; [exact H2|].
  apply (H4 ltac:(discriminate) "bytes").
Defined.

(** X6.  [getHash] answers [null] and leaves the cache alone for a path
    that is no existing image file; and once [removeFromCache] has dropped
    the entry of an existing image file, [getHash] hashes the bytes the
    file holds now and stores that digest with the current [mtime],
    whatever the dropped entry said. *)
Theorem getHash_after_removeFromCache (path : string) (st : State) :
  (is_file path (app st) && Types.isImageFile path = false ->
   getHash path st = (None, st)) /\
  (forall fileMtime data,
     getAbstractFileByPath path (app st) = Some (TFile path fileMtime data) ->
     Types.isImageFile path = true ->
     fst (getHash path (removeFromCache path st)) = Some (computeHash data) /\
     cache_get path (cache (snd (getHash path (removeFromCache path st)))) =
       Some (mkEntry (computeHash data) fileMtime) /\
     (forall q, q <> path ->
        cache_get q (cache (snd (getHash path (removeFromCache path st)))) =
        cache_get q (cache st))).
Proof.
  split.
  - unfold getHash, is_file.
    destruct (getAbstractFileByPath path (app st)) as [[q t d|q]|] eqn:E;
      try reflexivity.
    assert (q = path) as ->.
    { unfold getAbstractFileByPath in E. apply find_some in E.
      destruct E as [_ E]. now apply String.eqb_eq in E. }
    cbn [andb]. now intros ->.
  - intros fileMtime data Hfile Himg.
    unfold getHash, removeFromCache. cbn [app]. rewrite Hfile, Himg.
    unfold calculateHash. cbn [cache app].
    rewrite cache_get_delete, String.eqb_refl. cbn [fst snd cache].
    rewrite cache_get_set_same. repeat split.
    intros q Hq. rewrite cache_get_set_other by assumption.
    rewrite cache_get_delete. now destruct (String.eqb_spec q path).
Qed.

(** *** findAllDuplicates *)

(** The digest [calculateHash] serves for a file from a cache: the stored
    one when its [mtime] is that of the file, the digest of the bytes
    otherwise. *)
Definition served_digest (c : HashCache) (f : TAbstractFile) : string :=
  match f with
  | TFile p t d =>
      match cache_get p c with
      | Some cached => if (mtime cached =? t)%Z then hash cached else computeHash d
      | None => computeHash d
      end
  | TFolder _ => ""
  end.

(** The array stored under a digest, empty when there is none. *)
Definition files_of (h : string) (m : list (string * list string)) : list string :=
  match find (fun group => fst group =? h) m with
  | Some group => snd group
  | None => []
  end.

Lemma files_of_map_push h' h p m :
  files_of h' (map_push h p m) =
  if h =? h' then (files_of h' m ++ [p])%list else files_of h' m.
Proof.
  unfold files_of. induction m as [|[k fs] m IH]; simpl.
  - destruct (h =? h'); reflexivity.
  - destruct (String.eqb_spec k h) as [->|Hkh]; simpl.
    + destruct (h =? h'); reflexivity.
    + destruct (String.eqb_spec k h') as [->|Hkh'].
      * destruct (String.eqb_spec h h'); [congruence|reflexivity].
      * apply IH.
Qed.

Lemma map_push_keys h p m :
  map fst (map_push h p m) =
  if existsb (String.eqb h) (map fst m) then map fst m else (map fst m ++ [h])%list.
Proof.
  induction m as [|[k fs] m IH]; simpl; [reflexivity|].
  rewrite (String.eqb_sym h k).
  destruct (String.eqb_spec k h) as [->|Hkh]; simpl; [reflexivity|].
  rewrite IH. now destruct (existsb (String.eqb h) (map fst m)).
Qed.

(** The entries of the map have distinct keys, and each holds the array
    [files_of] finds. *)
Definition well_keyed (m : list (string * list string)) : Prop :=
  NoDup (map fst m) /\ forall h fs, In (h, fs) m -> files_of h m = fs /\ fs <> [].

Lemma files_of_In h m : files_of h m <> [] -> In (h, files_of h m) m.
Proof.
  unfold files_of. destruct (find _ m) as [[k fs]|] eqn:E; [|congruence].
  intros _. apply find_some in E. destruct E as [Hin Hk].
  apply String.eqb_eq in Hk. simpl in *. now subst k.
Qed.

Lemma files_of_unique h fs m : NoDup (map fst m) -> In (h, fs) m -> files_of h m = fs.
Proof.
  unfold files_of. induction m as [|[k gs] m IH]; simpl; [contradiction|].
  intros Hnd [E|Hin].
  - injection E as -> ->. now rewrite String.eqb_refl.
  - inversion Hnd as [|? ? Hk Hnd']; subst.
    destruct (String.eqb_spec k h) as [->|_]; [|now apply IH].
    exfalso. apply Hk. apply in_map_iff. now exists (h, fs).
Qed.

Lemma map_push_well_keyed h p m : well_keyed m -> well_keyed (map_push h p m).
Proof.
  intros [Hnd Hall].
  assert (Hnd' : NoDup (map fst (map_push h p m))).
  { rewrite map_push_keys. destruct (existsb (String.eqb h) (map fst m)) eqn:E;
      [assumption|].
    apply NoDup_app; [assumption|repeat constructor; intros []|].
    intros x Hx [<-|[]].
    assert (existsb (String.eqb h) (map fst m) = true); [|congruence].
    apply existsb_exists. exists h. split; [assumption|apply String.eqb_refl]. }
  split; [exact Hnd'|].
  intros k fs Hin. split; [now apply files_of_unique|].
  clear Hnd'. induction m as [|[k' gs] m IH]; simpl in Hin.
  - destruct Hin as [[= <- <-]|[]]. discriminate.
  - destruct (String.eqb_spec k' h) as [->|Hne]; simpl in Hin.
    + destruct Hin as [[= <- <-]|Hin].
      * intros E. now apply app_eq_nil in E.
      * apply (Hall k fs). now right.
    + destruct Hin as [[= <- <-]|Hin].
      * apply (Hall k' gs). now left.
      * inversion Hnd; subst. apply IH; auto.
        intros h0 fs0 H0. split; [now apply files_of_unique|].
        apply (Hall h0 fs0). now right.
Qed.

(** The map the first loop builds, with the digests taken from the cache
    [c0] the call started with. *)
Definition grouped (c0 : HashCache) (images : list TAbstractFile)
    (m : list (string * list string)) : list (string * list string) :=
  fold_left
    (fun m f => if isTFile f then map_push (served_digest c0 f) (path_of f) m else m)
    images m.

Lemma groupByHash_grouped (c0 : HashCache) (images : list TAbstractFile) :
  NoDup (map path_of images) ->
  forall m st,
    (forall f, In f images -> cache_get (path_of f) (cache st) = cache_get (path_of f) c0) ->
    fst (groupByHash images m st) = grouped c0 images m /\
    app (snd (groupByHash images m st)) = app st.
Proof.
  induction images as [|f images IH]; intros Hnd m st Hsame; [split; reflexivity|].
  inversion Hnd as [|? ? Hf Hnd']; subst.
  destruct f as [p t d|p]; cbn [groupByHash grouped fold_left isTFile].
  - destruct (calculateHash p t d st) as [h st'] eqn:Ecalc.
    pose proof (calculateHash_checks_mtime p t d st) as Hh.
    pose proof (calculateHash_frame p t d st) as (Happ & Hother).
    rewrite Ecalc in Hh, Hother, Happ. cbn [fst snd] in Hh, Hother, Happ.
    assert (Hdigest : h = served_digest c0 (TFile p t d)).
    { rewrite Hh. cbn [served_digest].
      pose proof (Hsame (TFile p t d) (or_introl eq_refl)) as Hs.
      cbn [path_of] in Hs. now rewrite Hs. }
    rewrite Hdigest. cbn [path_of].
    destruct (IH Hnd' (map_push (served_digest c0 (TFile p t d)) p m) st') as [H1 H2].
    { intros f Hin. rewrite Hother; [apply Hsame; now right|].
      intros E. apply Hf. cbn [path_of]. rewrite <- E. now apply in_map. }
    split; [exact H1|]. now rewrite H2.
  - apply IH; [assumption|]. intros f Hin. apply Hsame. now right.
Qed.

Lemma grouped_files_of (c0 : HashCache) (images : list TAbstractFile) h :
  forall m,
    files_of h (grouped c0 images m) =
    (files_of h m
     ++ map path_of (filter (fun f => isTFile f && (served_digest c0 f =? h)) images))%list.
Proof.
  induction images as [|f images IH]; intros m; cbn [grouped fold_left filter map].
  - now rewrite app_nil_r.
  - fold (grouped c0 images
            (if isTFile f then map_push (served_digest c0 f) (path_of f) m else m)).
    rewrite IH. destruct (isTFile f); cbn [andb]; [|reflexivity].
    rewrite files_of_map_push.
    destruct (served_digest c0 f =? h); cbn [map]; [|reflexivity].
    now rewrite <- app_assoc.
Qed.

Lemma grouped_well_keyed (c0 : HashCache) (images : list TAbstractFile) :
  forall m, well_keyed m -> well_keyed (grouped c0 images m).
Proof.
  induction images as [|f images IH]; intros m Hm; [exact Hm|].
  cbn [grouped fold_left]. apply IH. destruct (isTFile f); [|exact Hm].
  now apply map_push_well_keyed.
Qed.

(** X7.  In a vault with one entry per path, [findAllDuplicates] reports
    the image files grouped by the digest [calculateHash] serves for them
    from the cache the call started with: a reported group has at least
    two paths, its paths are exactly the image files with that digest, no
    digest is reported twice, and two different image files with the same
    digest are always reported together.  With an empty cache the digest is
    that of the bytes, so byte-identical images end up in one group. *)
Theorem findAllDuplicates_groups_by_digest (st : State) :
  NoDup (map path_of (files (app st))) ->
  (forall h paths,
     In (h, paths) (fst (findAllDuplicates st)) ->
     (2 <= List.length paths)%nat /\
     forall p, In p paths <->
               exists f, In f (files (app st)) /\ isTFile f = true /\
                         Types.isImageFile (path_of f) = true /\
                         path_of f = p /\ served_digest (cache st) f = h) /\
  NoDup (map fst (fst (findAllDuplicates st))) /\
  (forall f1 f2,
     In f1 (files (app st)) -> In f2 (files (app st)) ->
     isTFile f1 = true -> isTFile f2 = true ->
     Types.isImageFile (path_of f1) = true -> Types.isImageFile (path_of f2) = true ->
     path_of f1 <> path_of f2 ->
     served_digest (cache st) f1 = served_digest (cache st) f2 ->
     exists paths,
       In (served_digest (cache st) f1, paths) (fst (findAllDuplicates st)) /\
       In (path_of f1) paths /\ In (path_of f2) paths) /\
  (cache st = [] ->
   forall p t d, served_digest (cache st) (TFile p t d) = computeHash d) /\
  app (snd (findAllDuplicates st)) = app st.
Proof.
  intros Hnd. unfold findAllDuplicates.
  set (images := filter (fun f => Types.isImageFile (path_of f)) (getFiles (app st))).
  assert (Himages : forall f, In f images <->
            In f (files (app st)) /\ isTFile f = true /\
            Types.isImageFile (path_of f) = true).
  { intros f. unfold images, getFiles. rewrite !filter_In. tauto. }
  assert (Hnd' : NoDup (map path_of images)).
  { unfold images, getFiles. now apply NoDup_map_filter, NoDup_map_filter. }
  destruct (groupByHash_grouped (cache st) images Hnd' [] st (fun _ _ => eq_refl))
    as [Hgroups Happ].
  destruct (groupByHash images [] st) as [hashToFiles st'] eqn:Erun.
  cbn [fst snd] in *. subst hashToFiles.
  assert (Hwk : well_keyed (grouped (cache st) images [])).
  { apply grouped_well_keyed. split; [constructor|]. intros h fs []. }
  assert (Hfiles : forall h, files_of h (grouped (cache st) images []) =
            map path_of (filter (fun f => isTFile f && (served_digest (cache st) f =? h))
                                images)).
  { intros h. now rewrite grouped_files_of. }
  assert (Hmember : forall h p,
            In p (files_of h (grouped (cache st) images [])) <->
            exists f, In f (files (app st)) /\ isTFile f = true /\
                      Types.isImageFile (path_of f) = true /\
                      path_of f = p /\ served_digest (cache st) f = h).
  { intros h p. rewrite Hfiles, in_map_iff. split.
    - intros (f & <- & Hf). apply filter_In in Hf. destruct Hf as [Hin Hf].
      apply andb_true_iff in Hf. destruct Hf as [Hfile Hd].
      apply String.eqb_eq in Hd. apply Himages in Hin.
      exists f. tauto.
    - intros (f & Hin & Hfile & Himg & <- & Hd). exists f. split; [reflexivity|].
      apply filter_In. split; [apply Himages; tauto|].
      rewrite Hfile, Hd, String.eqb_refl. reflexivity. }
  split; [|split; [|split; [|split]]].
  - intros h paths Hin. apply filter_In in Hin. destruct Hin as [Hin Hlen].
    cbn [snd] in Hlen. apply Nat.ltb_lt in Hlen. split; [lia|].
    intros p. destruct Hwk as [_ Hall]. destruct (Hall h paths Hin) as [<- _].
    apply Hmember.
  - destruct Hwk as [Hkeys _]. now apply NoDup_map_filter.
  - intros f1 f2 Hin1 Hin2 Hfile1 Hfile2 Himg1 Himg2 Hne Hd.
    set (h := served_digest (cache st) f1) in *.
    set (paths := files_of h (grouped (cache st) images [])).
    assert (H1 : In (path_of f1) paths) by (apply Hmember; exists f1; tauto).
    assert (H2 : In (path_of f2) paths).
    { apply Hmember. exists f2. repeat split; auto. }
    exists paths. split; [|tauto].
    apply filter_In. split.
    + apply files_of_In. fold paths. intros E. rewrite E in H1. destruct H1.
    + cbn [snd]. apply Nat.ltb_lt.
      destruct paths as [|x [|y paths]]; simpl in *; [tauto| |lia].
      destruct H1 as [E1|[]]. destruct H2 as [E2|[]]. congruence.
  - intros Hempty p t d. now rewrite Hempty.
  - exact Happ.
Qed.

Definition duplicates_example : State :=
  HashService.mkState
    (plain_app [TFile "a.png" 1 "same"; TFile "note.md" 2 "same";
                TFile "b/c.jpg" 3 "same"; TFile "d.gif" 4 "other"])
    [].

Lemma findAllDuplicates_groups_by_digest_witness :
  fst (findAllDuplicates duplicates_example) =
    [(computeHash "same", ["a.png"; "b/c.jpg"])] /\
  NoDup (map fst (fst (findAllDuplicates duplicates_example))).
Proof.
  split; [vm_compute; reflexivity|].
  apply (findAllDuplicates_groups_by_digest duplicates_example).
  vm_compute. repeat constructor; simpl; intuition discriminate.
Defined.

End HashMaintenanceFacts.

(** ** core/OrphanDetector.ts: the orphan set between scans *)

Section OrphanViewsFacts.
Import Obsidian OrphanDetector.

Lemma set_has_after_delete p s : set_has p (set_delete p s) = false.
Proof.
  apply set_has_false. rewrite set_delete_In. tauto.
Qed.

(** X8.  [isOrphan] trusts the set before the links.  A second call gives
    the same answer and changes nothing more; the call adds at most the
    queried path, and only with the answer true; once it has answered
    true, it answers true for that path whatever the resolved links become
    afterwards; [markAsReferenced] and [clearCache] undo this: right after
    either the answer is read off the links alone, so a path that no note
    links to is an orphan again at the next question. *)
Theorem isOrphan_trusts_the_set_first (p : string) (st : State) :
  isOrphan p (snd (isOrphan p st)) = isOrphan p st /\
  (forall q, In q (orphanImages (snd (isOrphan p st))) <->
             In q (orphanImages st) \/ (q = p /\ fst (isOrphan p st) = true)) /\
  (fst (isOrphan p st) = true ->
   forall a', fst (isOrphan p (with_app a' (snd (isOrphan p st)))) = true) /\
  fst (isOrphan p (OrphanViews.markAsReferenced p st)) =
    negb (existsb (js_in p) (map snd (resolvedLinks (app st)))) /\
  fst (isOrphan p (OrphanViews.clearCache st)) =
    negb (existsb (js_in p) (map snd (resolvedLinks (app st)))) /\
  app (snd (isOrphan p st)) = app st.
Proof.
  assert (Hclear : fst (isOrphan p (OrphanViews.clearCache st)) =
                   negb (existsb (js_in p) (map snd (resolvedLinks (app st))))).
  { unfold isOrphan, OrphanViews.clearCache. cbn [with_orphans orphanImages app set_has existsb].
    now destruct (existsb (js_in p) (map snd (resolvedLinks (app st)))). }
  assert (Hmark : fst (isOrphan p (OrphanViews.markAsReferenced p st)) =
                  negb (existsb (js_in p) (map snd (resolvedLinks (app st))))).
  { unfold isOrphan, OrphanViews.markAsReferenced. cbn [with_orphans orphanImages app].
    rewrite set_has_after_delete.
    now destruct (existsb (js_in p) (map snd (resolvedLinks (app st)))). }
  assert (Hcases :
    (set_has p (orphanImages st) = true /\ isOrphan p st = (true, st)) \/
    (set_has p (orphanImages st) = false /\ isOrphan p st = (false, st) /\
     existsb (js_in p) (map snd (resolvedLinks (app st))) = true) \/
    (set_has p (orphanImages st) = false /\
     isOrphan p st = (true, with_orphans (set_add p (orphanImages st)) st))).
  { unfold isOrphan. destruct (set_has p (orphanImages st)); [now left|right].
    destruct (existsb (js_in p) (map snd (resolvedLinks (app st)))); [left|right]; auto. }
  destruct Hcases as [[Ecache E]|[(Ecache & E & Elinks)|[Ecache E]]];
    rewrite E; cbn [fst snd].
  - split; [exact E|].
    split.
    { intros q. split; [auto|]. intros [H|[-> _]]; [assumption|].
      now apply set_has_In. }
    split.
    { intros _ a'. unfold isOrphan. cbn [with_app orphanImages]. now rewrite Ecache. }
    split; [exact Hmark|]. split; [exact Hclear|reflexivity].
  - split; [exact E|].
    split; [intros q; split; [auto|]; intros [H|[_ H]]; [assumption|discriminate]|].
    split; [discriminate|]. split; [exact Hmark|]. split; [exact Hclear|reflexivity].
  - assert (Hin : set_has p (set_add p (orphanImages st)) = true)
      by (apply set_has_In, set_add_In; now left).
    split.
    { unfold isOrphan. cbn [with_orphans orphanImages app]. now rewrite Hin. }
    split.
    { intros q. cbn [with_orphans orphanImages]. rewrite set_add_In. tauto. }
    split.
    { intros _ a'. unfold isOrphan. cbn [with_app with_orphans orphanImages].
      now rewrite Hin. }
    split; [exact Hmark|]. split; [exact Hclear|reflexivity].
Qed.

(** *** getAllImageInfos *)

Lemma imageInfos_spec (images : list TAbstractFile) :
  forall st,
    map OrphanViews.path (fst (OrphanViews.imageInfos images st)) =
      map path_of (filter isTFile images) /\
    Forall (fun i =>
              OrphanViews.referencedBy i =
                LinkUpdater.findNotesReferencingImage (OrphanViews.path i) (app st) /\
              OrphanViews.isOrphan i =
                (List.length (OrphanViews.referencedBy i) =? 0)%nat)
           (fst (OrphanViews.imageInfos images st)) /\
    app (snd (OrphanViews.imageInfos images st)) = app st /\
    orphanImages (snd (OrphanViews.imageInfos images st)) =
      fold_left (fun s p => set_add p s)
        (map OrphanViews.path
           (filter OrphanViews.isOrphan (fst (OrphanViews.imageInfos images st))))
        (orphanImages st).
Proof.
  induction images as [|f images IH]; intros st.
  - repeat split. constructor.
  - destruct f as [p t d|p]; cbn [OrphanViews.imageInfos filter isTFile]; [|apply IH].
    set (notes := LinkUpdater.findNotesReferencingImage p (app st)).
    set (st1 := if (List.length notes =? 0)%nat
                then with_orphans (set_add p (orphanImages st)) st else st).
    assert (Happ1 : app st1 = app st) by (unfold st1; now destruct (List.length notes =? 0)%nat).
    destruct (IH st1) as (Hpaths & Hall & Happ & Hset).
    destruct (OrphanViews.imageInfos images st1) as [infos st'].
    cbn [fst snd] in *. cbn [map OrphanViews.path path_of filter OrphanViews.isOrphan].
    split; [now rewrite Hpaths|].
    split.
    { constructor; [split; reflexivity|]. now rewrite <- Happ1. }
    split; [now rewrite Happ|].
    rewrite Hset. unfold st1.
    destruct (List.length notes =? 0)%nat; reflexivity.
Qed.

(** X9.  [getAllImageInfos] returns one entry per image file, in the order
    of [getAllImages]; each carries the notes [findNotesReferencingImage] finds
    and is flagged an orphan exactly when there are none; the flagged paths
    are added to the orphan set, which otherwise keeps what it held (a
    path that has gained a link since stays in it); afterwards [isOrphan]
    confirms every flag it raised; and the flagged paths are the list a
    scan of the same vault returns. *)
Theorem getAllImageInfos_flags_unreferenced (st : State) :
  map OrphanViews.path (fst (OrphanViews.getAllImageInfos st)) =
    map path_of (FileNaming.getAllImages (app st)) /\
  (forall i, In i (fst (OrphanViews.getAllImageInfos st)) ->
     OrphanViews.referencedBy i =
       LinkUpdater.findNotesReferencingImage (OrphanViews.path i) (app st) /\
     (OrphanViews.isOrphan i = true <-> OrphanViews.referencedBy i = []) /\
     Types.isImageFile (OrphanViews.path i) = true) /\
  (forall p, In p (orphanImages (snd (OrphanViews.getAllImageInfos st))) <->
     In p (orphanImages st) \/
     exists i, In i (fst (OrphanViews.getAllImageInfos st)) /\
               OrphanViews.path i = p /\ OrphanViews.isOrphan i = true) /\
  (forall i, In i (fst (OrphanViews.getAllImageInfos st)) ->
     OrphanViews.isOrphan i = true ->
     fst (isOrphan (OrphanViews.path i) (snd (OrphanViews.getAllImageInfos st))) = true) /\
  (forall fuel orphans st2,
     scanOrphanImages fuel st = Returned orphans st2 ->
     orphans =
       map OrphanViews.path
         (filter OrphanViews.isOrphan (fst (OrphanViews.getAllImageInfos st)))) /\
  app (snd (OrphanViews.getAllImageInfos st)) = app st.
Proof.
  unfold OrphanViews.getAllImageInfos, FileNaming.getAllImages.
  set (images := filter (fun f => Types.isImageFile (path_of f)) (getFiles (app st))).
  destruct (imageInfos_spec images st) as (Hpaths & Hall & Happ & Hset).
  assert (Hfiles : filter isTFile images = images).
  { unfold images, getFiles. clear. induction (files (app st)) as [|f fs IH]; [reflexivity|].
    simpl. destruct (isTFile f) eqn:Ef; simpl; [|assumption].
    destruct (Types.isImageFile (path_of f)); simpl; [|assumption].
    rewrite Ef. now f_equal. }
  rewrite Hfiles in Hpaths. rewrite Forall_forall in Hall.
  set (infos := fst (OrphanViews.imageInfos images st)) in *.
  assert (Himg : forall i, In i infos -> Types.isImageFile (OrphanViews.path i) = true).
  { intros i Hi. apply (in_map OrphanViews.path) in Hi. rewrite Hpaths in Hi.
    apply in_map_iff in Hi. destruct Hi as (f & <- & Hf).
    unfold images in Hf. apply filter_In in Hf. tauto. }
  assert (Hflag : forall i, In i infos ->
            (OrphanViews.isOrphan i = true <-> OrphanViews.referencedBy i = [])).
  { intros i Hi. destruct (Hall i Hi) as [_ ->].
    rewrite Nat.eqb_eq. apply length_zero_iff_nil. }
  assert (Hmember : forall p,
            In p (orphanImages (snd (OrphanViews.imageInfos images st))) <->
            In p (orphanImages st) \/
            exists i, In i infos /\ OrphanViews.path i = p /\ OrphanViews.isOrphan i = true).
  { intros p. rewrite Hset, fold_set_add_In, in_map_iff.
    split; (intros [H|(i & H)]; [now left|right; exists i]).
    - destruct H as [<- H]. apply filter_In in H. tauto.
    - split; [tauto|]. apply filter_In. tauto. }
  split; [exact Hpaths|].
  split; [intros i Hi; destruct (Hall i Hi) as [H _]; auto|].
  split; [exact Hmember|].
  split.
  { intros i Hi Ho. unfold isOrphan.
    assert (E : set_has (OrphanViews.path i)
                  (orphanImages (snd (OrphanViews.imageInfos images st))) = true).
    { apply set_has_In, Hmember. right. now exists i. }
    now rewrite E. }
  split; [|exact Happ].
  intros fuel orphans st2 Hscan.
  apply scanOrphanImages_state in Hscan. destruct Hscan as (-> & _ & _).
  fold images. rewrite <- Hpaths.
  clear Hpaths Hset Hmember Happ Hfiles.
  induction infos as [|i infos IH]; [reflexivity|].
  cbn [map filter].
  assert (Hi : In i (i :: infos)) by now left.
  assert (E : negb (set_has (OrphanViews.path i) (getAllReferencedImages (app st))) =
              OrphanViews.isOrphan i).
  { apply eq_true_iff_eq.
    rewrite negb_true_iff, set_has_false, getAllReferencedImages_In, (Hflag i Hi).
    destruct (Hall i Hi) as [-> _]. rewrite findNotesReferencingImage_nil.
    specialize (Himg i Hi). tauto. }
  rewrite E.
  assert (IH' : filter (fun p => negb (set_has p (getAllReferencedImages (app st))))
                  (map OrphanViews.path infos) =
                map OrphanViews.path (filter OrphanViews.isOrphan infos)).
  { apply IH; intros j Hj; [apply Hall|apply Himg|apply Hflag]; now right. }
  rewrite IH'. now destruct (OrphanViews.isOrphan i).
Qed.

Lemma NoDup_fold_set_add (l : list string) :
  NoDup l -> fold_left (fun s p => set_add p s) l [] = l.
Proof.
  intros Hnd.
  assert (H : forall acc, NoDup (acc ++ l) ->
            fold_left (fun s p => set_add p s) l acc = (acc ++ l)%list).
  { clear Hnd. induction l as [|x l IH]; intros acc Hacc; simpl.
    - now rewrite app_nil_r.
    - assert (Hx : set_has x acc = false).
      { apply set_has_false. intros Hin.
        apply NoDup_remove_2 in Hacc. apply Hacc. apply in_or_app. now left. }
      unfold set_add at 2. rewrite Hx. rewrite IH; rewrite <- app_assoc; auto. }
  now apply (H []).
Qed.

Lemma scan_without_move fuel (st st' : State) orphans :
  orphanHandling st <> moveToFolder ->
  scanOrphanImages fuel st = Returned orphans st' ->
  app st' = app st /\ orphanHandling st' = orphanHandling st.
Proof.
  unfold scanOrphanImages. cbn [with_orphans orphanHandling].
  intros Hmode.
  destruct (orphanHandling st) eqn:E; try contradiction;
    intros [= _ <-]; cbn; auto.
Qed.

(** In a vault with one entry per path, the paths a scan returns are
    distinct and were files when it looked. *)
Lemma scanned_orphans_are_files fuel (st st' : State) orphans :
  NoDup (map path_of (files (app st))) ->
  scanOrphanImages fuel st = Returned orphans st' ->
  NoDup orphans /\ forall p, In p orphans -> is_file p (app st) = true.
Proof.
  intros Hnd Hscan. apply scanOrphanImages_state in Hscan.
  destruct Hscan as (Horph & _ & _). split.
  - rewrite Horph. apply NoDup_filter. unfold getFiles.
    now apply NoDup_map_filter, NoDup_map_filter.
  - intros p Hp. rewrite Horph in Hp. apply filter_In in Hp. destruct Hp as [Hp _].
    apply in_map_iff in Hp. destruct Hp as (f & <- & Hf).
    apply filter_In in Hf. destruct Hf as [Hf _]. unfold getFiles in Hf.
    apply filter_In in Hf. destruct Hf as [Hin Hfile].
    now apply is_file_of_In.
Qed.

Lemma getOrphanImageInfos_paths (st : State) :
  map OrphanViews.path (OrphanViews.getOrphanImageInfos st) =
  filter (fun p => is_file p (app st)) (orphanImages st).
Proof.
  unfold OrphanViews.getOrphanImageInfos.
  induction (orphanImages st) as [|p ps IH]; [reflexivity|].
  cbn [flat_map filter]. rewrite map_app, IH. unfold is_file.
  destruct (getAbstractFileByPath p (app st)) as [[q t d|q]|] eqn:E; try reflexivity.
  unfold getAbstractFileByPath in E. apply find_some in E.
  destruct E as [_ E]. apply String.eqb_eq in E. simpl in E. now subst q.
Qed.

Lemma filter_all {A} (P : A -> bool) (l : list A) :
  (forall x, In x l -> P x = true) -> filter P l = l.
Proof.
  induction l as [|x l IH]; intros H; [reflexivity|]. simpl.
  rewrite (H x (or_introl eq_refl)). f_equal. apply IH. intros y Hy. apply H. now right.
Qed.

(** X10.  After a completed scan of a vault with one entry per path,
    [getOrphanImages] is the list the scan returned, in the same order and
    without repetition, and [getOrphanCount] is its length;
    [getOrphanImageInfos] describes those of them that still resolve to a
    file: all of them when the scan does not move the orphans. *)
Theorem scan_then_getOrphanImages (fuel : nat) (st st' : State)
    (orphans : list string) :
  NoDup (map path_of (files (app st))) ->
  scanOrphanImages fuel st = Returned orphans st' ->
  OrphanViews.getOrphanImages st' = orphans /\
  OrphanViews.getOrphanCount st' = List.length orphans /\
  NoDup orphans /\
  map OrphanViews.path (OrphanViews.getOrphanImageInfos st') =
    filter (fun p => is_file p (app st')) orphans /\
  (orphanHandling st <> moveToFolder ->
   map OrphanViews.path (OrphanViews.getOrphanImageInfos st') = orphans).
Proof.
  intros Hnd Hscan.
  destruct (scanned_orphans_are_files _ _ _ _ Hnd Hscan) as [Hnd' Hfiles].
  pose proof (scanOrphanImages_state _ _ _ _ Hscan) as (_ & Hset & _).
  rewrite (NoDup_fold_set_add _ Hnd') in Hset.
  unfold OrphanViews.getOrphanImages, OrphanViews.getOrphanCount.
  rewrite getOrphanImageInfos_paths, Hset.
  repeat split; auto.
  intros Hmode. destruct (scan_without_move _ _ _ _ Hmode Hscan) as [-> _].
  now apply filter_all.
Qed.

Lemma scan_then_getOrphanImages_witness :
  exists st',
    scanOrphanImages 4 scan_example
      = Returned ["img/lost.png"; "_orphaned/lost.png"] st' /\
    OrphanViews.getOrphanImages st' = ["img/lost.png"; "_orphaned/lost.png"] /\
    OrphanViews.getOrphanCount st' = 2%nat /\
    OrphanViews.getOrphanImageInfos st' = [].
Proof.
  eexists.
  match goal with
  | |- ?A /\ _ => assert (H : A) by (vm_compute; reflexivity)
  end.
  split; [exact H|].
  assert (Hnd : NoDup (map path_of (files (app scan_example)))).
  { vm_compute. repeat constructor; simpl; intuition discriminate. }
  destruct (scan_then_getOrphanImages 4 scan_example _ _ Hnd H) as (H1 & H2 & _).
  split; [exact H1|]. split; [exact H2|reflexivity].
Defined.

End OrphanViewsFacts.

(** ** Free names: resolveConflict and the loop of moveOrphansToFolder *)

Section FreeNames.
Import Obsidian OrphanDetector.

Lemma append_cancel_l (a x y : string) : a ++ x = a ++ y -> x = y.
Proof. induction a as [|c a IH]; simpl; [auto|]. intros [= H]. auto. Qed.

Lemma append_cancel_r (t : string) :
  forall x y, x ++ t = y ++ t -> x = y.
Proof.
  induction x as [|c x IH]; intros y H.
  - apply (f_equal String.length) in H. rewrite !length_append in H.
    destruct y; [reflexivity|]. simpl in H. lia.
  - destruct y as [|d y].
    + apply (f_equal String.length) in H. rewrite !length_append in H.
      simpl in H. lia.
    + simpl in H. injection H as -> H. f_equal. now apply IH.
Qed.

Lemma decimal_reads_back n :
  option_map Nat.of_uint (DecimalString.NilZero.uint_of_string (decimal n)) = Some n.
Proof.
  unfold decimal. pose proof (DecimalNat.Unsigned.of_to n) as Hn.
  destruct (Nat.to_uint n) eqn:E;
    try (rewrite DecimalString.NilZero.usu by discriminate; simpl; now f_equal).
  simpl in *. now f_equal.
Qed.

Lemma decimal_inj n m : decimal n = decimal m -> n = m.
Proof.
  intros H. pose proof (decimal_reads_back n) as Hn.
  rewrite H, decimal_reads_back in Hn. congruence.
Qed.

(** The candidate the loops try in round [counter]. *)
Definition candidate (a : App) (basePath stem ext : string) (counter : nat) : string :=
  normalizePath a (basePath ++ "/" ++ stem ++ "_" ++ decimal counter ++ "." ++ ext).

Lemma candidate_inj a basePath stem ext n m :
  (forall x y, normalizePath a x = normalizePath a y -> x = y) ->
  candidate a basePath stem ext n = candidate a basePath stem ext m -> n = m.
Proof.
  intros Hinj H. apply Hinj in H.
  apply append_cancel_l in H. change ("/" ++ ?x) with (String "/" x) in H.
  injection H as H. apply append_cancel_l in H.
  change ("_" ++ ?x) with (String "_" x) in H. injection H as H.
  apply append_cancel_r in H. now apply decimal_inj.
Qed.

Lemma freeName_conflictLoop fuel a targetFolder fileName :
  forall counter finalPath,
    freeName fuel a targetFolder fileName counter finalPath =
    FileNaming.conflictLoop fuel a targetFolder (nameWithoutExt fileName)
      (Js.pop_or_empty (Js.split "." fileName)) counter finalPath.
Proof.
  induction fuel as [|fuel IH]; intros counter finalPath; simpl.
  - reflexivity.
  - destruct (adapter_exists finalPath a); [apply IH|reflexivity].
Qed.

Lemma conflictLoop_free fuel a basePath stem ext :
  forall counter finalPath q,
    FileNaming.conflictLoop fuel a basePath stem ext counter finalPath = Some q ->
    adapter_exists q a = false.
Proof.
  induction fuel as [|fuel IH]; intros counter finalPath q; simpl;
    destruct (adapter_exists finalPath a) eqn:E; try discriminate;
    try (intros [= <-]; assumption).
  apply IH.
Qed.

Lemma conflictLoop_first_taken fuel a basePath stem ext counter finalPath :
  FileNaming.conflictLoop fuel a basePath stem ext counter finalPath = None ->
  adapter_exists finalPath a = true.
Proof.
  destruct fuel; simpl; destruct (adapter_exists finalPath a); congruence.
Qed.

Lemma conflictLoop_taken fuel a basePath stem ext :
  forall counter finalPath,
    FileNaming.conflictLoop fuel a basePath stem ext counter finalPath = None ->
    forall k, (counter <= k < counter + fuel)%nat ->
              adapter_exists (candidate a basePath stem ext k) a = true.
Proof.
  induction fuel as [|fuel IH]; intros counter finalPath H k Hk; [lia|].
  simpl in H. destruct (adapter_exists finalPath a); [|discriminate].
  destruct (Nat.eq_dec k counter) as [->|Hne].
  - apply conflictLoop_first_taken in H. exact H.
  - apply (IH (S counter) _ H). lia.
Qed.

Lemma adapter_exists_In q a : adapter_exists q a = true <-> In q (map path_of (files a)).
Proof.
  unfold adapter_exists. rewrite existsb_exists, in_map_iff. split.
  - intros (f & Hf & E). apply String.eqb_eq in E. now exists f.
  - intros (f & E & Hf). exists f. split; [assumption|]. now apply String.eqb_eq.
Qed.

Lemma NoDup_map_injective {A B} (f : A -> B) (l : list A) :
  (forall x y, f x = f y -> x = y) -> NoDup l -> NoDup (map f l).
Proof.
  intros Hinj Hnd. induction Hnd as [|x l Hx Hnd IH]; simpl; constructor; auto.
  intros Hin. apply in_map_iff in Hin. destruct Hin as (y & E & Hy).
  apply Hinj in E. now subst y.
Qed.

(** With more rounds than the vault has entries, the loop ends: the
    candidates of the rounds are all different, so they cannot all be
    taken. *)
Lemma conflictLoop_ends fuel a basePath stem ext counter finalPath :
  (forall i j, candidate a basePath stem ext i = candidate a basePath stem ext j ->
               i = j) ->
  (List.length (files a) < fuel)%nat ->
  exists q,
    FileNaming.conflictLoop fuel a basePath stem ext counter finalPath = Some q.
Proof.
  intros Hinj Hfuel.
  destruct (FileNaming.conflictLoop fuel a basePath stem ext counter finalPath)
    as [q|] eqn:E; [now exists q|].
  exfalso.
  pose proof (conflictLoop_taken _ _ _ _ _ _ _ E) as Htaken.
  set (cands := map (candidate a basePath stem ext) (seq counter fuel)).
  assert (Hnd : NoDup cands).
  { unfold cands. apply NoDup_map_injective; [|apply seq_NoDup].
    intros n m. apply Hinj. }
  assert (Hincl : incl cands (map path_of (files a))).
  { intros q Hq. unfold cands in Hq. apply in_map_iff in Hq.
    destruct Hq as (k & <- & Hk). apply in_seq in Hk.
    apply adapter_exists_In, Htaken. lia. }
  pose proof (NoDup_incl_length Hnd Hincl) as Hlen.
  unfold cands in Hlen. rewrite !length_map, length_seq in Hlen. lia.
Qed.

(** The path the loop returns: the first path when it is free, otherwise
    the candidate of the least counter from [counter] on that is free. *)
Lemma conflictLoop_least fuel a basePath stem ext :
  forall counter finalPath q,
    FileNaming.conflictLoop fuel a basePath stem ext counter finalPath = Some q ->
    (q = finalPath /\ adapter_exists finalPath a = false) \/
    (adapter_exists finalPath a = true /\
     exists k, (counter <= k)%nat /\ q = candidate a basePath stem ext k /\
               adapter_exists q a = false /\
               forall j, (counter <= j < k)%nat ->
                         adapter_exists (candidate a basePath stem ext j) a = true).
Proof.
  induction fuel as [|fuel IH]; intros counter finalPath q; cbn [FileNaming.conflictLoop];
    destruct (adapter_exists finalPath a) eqn:E; try discriminate;
    try (intros [= <-]; now left).
  intros H. right. split; [reflexivity|].
  destruct (IH _ _ _ H) as [[-> Hfree]|(Htaken & k & Hk & -> & Hfree & Hbelow)].
  - exists counter. split; [lia|]. split; [reflexivity|]. split; [assumption|].
    intros j Hj. lia.
  - exists k. split; [lia|]. split; [reflexivity|]. split; [assumption|].
    intros j Hj. destruct (Nat.eq_dec j counter) as [->|Hne]; [exact Htaken|].
    apply Hbelow. lia.
Qed.

(** A host that, like the real one, drops a '/' at the start of a path: the
    candidates of a search stay apart. *)
Definition strip_leading_slash (p : string) : string :=
  match p with
  | String c r => if Ascii.eqb c "/" then r else p
  | EmptyString => p
  end.

Lemma strip_leading_slash_app c pre t :
  strip_leading_slash (String c pre ++ t) = strip_leading_slash (String c pre) ++ t.
Proof. cbn [append strip_leading_slash]. now destruct (Ascii.eqb c "/"). Qed.

Lemma stripping_candidates_apart a basePath stem ext i j :
  normalizePath a = strip_leading_slash ->
  candidate a basePath stem ext i = candidate a basePath stem ext j -> i = j.
Proof.
  intros Hnorm. unfold candidate. rewrite Hnorm.
  assert (Hpre : exists c pre,
            forall n, basePath ++ "/" ++ stem ++ "_" ++ decimal n ++ "." ++ ext =
                      String c pre ++ decimal n ++ "." ++ ext).
  { destruct basePath as [|c b].
    - exists "/"%char, (stem ++ "_"). intros n.
      change ("" ++ "/" ++ ?x) with (String "/" x).
      change (String "/" ?x ++ ?y) with (String "/" (x ++ y)).
      now rewrite append_assoc.
    - exists c, (b ++ "/" ++ stem ++ "_"). intros n.
      change (String c ?x ++ ?y) with (String c (x ++ y)).
      now rewrite !append_assoc. }
  destruct Hpre as (c & pre & Hpre). rewrite !Hpre, !strip_leading_slash_app.
  intros H. apply append_cancel_l, append_cancel_r in H. now apply decimal_inj.
Qed.

(** X11.  [resolveConflict] never proposes a taken path: what it returns
    does not exist in the vault; it is the normalised "basePath/filename"
    itself when that is free.  The loop inside [moveOrphansToFolder], which
    recomputes the stem and the extension in every round, finds the same
    name. *)
Theorem resolveConflict_returns_a_free_path (fuel : nat) (a : App)
    (basePath filename : string) :
  (forall q, FileNaming.resolveConflict fuel a basePath filename = Some q ->
             adapter_exists q a = false) /\
  (adapter_exists (normalizePath a (basePath ++ "/" ++ filename)) a = false ->
   FileNaming.resolveConflict fuel a basePath filename =
   Some (normalizePath a (basePath ++ "/" ++ filename))) /\
  freeName fuel a basePath filename 1 (normalizePath a (basePath ++ "/" ++ filename)) =
    FileNaming.resolveConflict fuel a basePath filename.
Proof.
  split; [|split].
  - intros q. apply conflictLoop_free.
  - intros H. unfold FileNaming.resolveConflict.
    destruct fuel; cbn [FileNaming.conflictLoop]; now rewrite H.
  - apply freeName_conflictLoop.
Qed.

(** X12.  The search for a free name ends.  When [normalizePath] keeps the
    candidates of the search apart (the names with the counters 1, 2, ...
    under this folder; the real host, which drops a leading '/', does),
    [resolveConflict] returns as soon as it may run more rounds than the
    vault has entries, and so does the loop inside [moveOrphansToFolder];
    the path found is free. *)
Theorem resolveConflict_ends (fuel : nat) (a : App) (basePath filename : string) :
  (forall i j,
     candidate a basePath (nameWithoutExt filename)
       (Js.pop_or_empty (Js.split "." filename)) i =
     candidate a basePath (nameWithoutExt filename)
       (Js.pop_or_empty (Js.split "." filename)) j -> i = j) ->
  (List.length (files a) < fuel)%nat ->
  exists q,
    FileNaming.resolveConflict fuel a basePath filename = Some q /\
    freeName fuel a basePath filename 1
      (normalizePath a (basePath ++ "/" ++ filename)) = Some q /\
    adapter_exists q a = false.
Proof.
  intros Hinj Hfuel. unfold FileNaming.resolveConflict.
  destruct (conflictLoop_ends fuel a basePath (nameWithoutExt filename)
              (Js.pop_or_empty (Js.split "." filename)) 1
              (normalizePath a (basePath ++ "/" ++ filename)) Hinj Hfuel) as [q Hq].
  exists q. split; [exact Hq|]. split.
  - now rewrite freeName_conflictLoop.
  - now apply conflictLoop_free in Hq.
Qed.

(** The root of a vault in which "x.png" and "x_1.png" are taken, on a
    host that drops the leading '/' of "/x.png". *)
Definition crowded_root : App :=
  mkApp [TFile "x.png" 1 "a"; TFile "x_1.png" 2 "b"] []
        (fun _ _ => None) strip_leading_slash
        (fun _ => false) (fun _ => false) (fun _ => false) (fun _ => false)
        (fun _ => false) [].

Lemma resolveConflict_ends_witness :
  FileNaming.resolveConflict 3 crowded_root "" "x.png" = Some "x_2.png" /\
  exists q,
    FileNaming.resolveConflict 3 crowded_root "" "x.png" = Some q /\
    freeName 3 crowded_root "" "x.png" 1 "x.png" = Some q /\
    adapter_exists q crowded_root = false.
Proof.
  split; [reflexivity|].
  apply (resolveConflict_ends 3 crowded_root "" "x.png").
  - intros i j. now apply stripping_candidates_apart.
  - simpl. lia.
Defined.

End FreeNames.

(** ** Moving files: moveOrphansToFolder, determineSavePath, moveImage *)

Section MovingFiles.
Import Obsidian OrphanDetector.

(** What an entry of the vault holds, whatever its path. *)
Definition entry_content (f : TAbstractFile) : option (Z * string) :=
  match f with
  | TFile _ t d => Some (t, d)
  | TFolder _ => None
  end.

Lemma set_path_content p q fs :
  map entry_content (map (set_path p q) fs) = map entry_content fs.
Proof.
  induction fs as [|f fs IH]; [reflexivity|]. simpl. rewrite IH. f_equal.
  destruct f as [r t d|r]; simpl; [|reflexivity]. now destruct (r =? p).
Qed.

Lemma set_path_other p q f : path_of f <> p -> set_path p q f = f.
Proof.
  destruct f as [r t d|r]; simpl; [|reflexivity].
  intros H. now destruct (String.eqb_spec r p).
Qed.

Lemma set_path_absent p q fs :
  ~ In p (map path_of fs) -> map (set_path p q) fs = fs.
Proof.
  induction fs as [|f fs IH]; [reflexivity|]. simpl. intros H.
  rewrite IH by tauto. f_equal. apply set_path_other. tauto.
Qed.

Lemma set_path_paths p q fs x :
  In x (map path_of (map (set_path p q) fs)) -> x = q \/ In x (map path_of fs).
Proof.
  induction fs as [|f fs IH]; simpl; [tauto|].
  intros [H|H]; [|apply IH in H; tauto].
  destruct f as [r t d|r]; simpl in *; [|auto].
  destruct (r =? p); simpl in H; auto.
Qed.

(** A rename to a path that is not taken keeps the paths distinct. *)
Lemma set_path_NoDup p q fs :
  NoDup (map path_of fs) -> ~ In q (map path_of fs) ->
  NoDup (map path_of (map (set_path p q) fs)).
Proof.
  induction fs as [|f fs IH]; simpl; [constructor|].
  intros Hnd Hq. inversion Hnd as [|? ? Hf Hnd']; subst.
  destruct (String.eqb_spec (path_of f) p) as [Ep|Np].
  - subst p. rewrite (set_path_absent (path_of f) q fs Hf).
    constructor; [|assumption].
    destruct f as [r t d|r]; simpl in *; [|assumption].
    rewrite String.eqb_refl. simpl. tauto.
  - rewrite (set_path_other p q f Np). constructor; [|apply IH; tauto].
    intros H. apply set_path_paths in H. destruct H as [E|H]; tauto.
Qed.

Lemma find_path p fs f :
  find (fun g => path_of g =? p) fs = Some f -> path_of f = p /\ In f fs.
Proof.
  intros H. apply find_some in H. destruct H as [Hin H].
  now apply String.eqb_eq in H.
Qed.

Lemma find_none_absent p a :
  getAbstractFileByPath p a = None -> adapter_exists p a = false.
Proof.
  unfold getAbstractFileByPath, adapter_exists. intros H.
  apply not_true_iff_false. intros E. apply existsb_exists in E.
  destruct E as (f & Hf & E). now rewrite (find_none _ _ H f Hf) in E.
Qed.

(** What [ensureFolderExists] does to the vault: nothing, or one folder
    more at a path that was free; it rejects when the folder is missing and
    the host refuses to create it, and the vault is then as it was. *)
Lemma ensureFolderExists_outcome folderPath a :
  (exists created,
     ensureFolderExists folderPath a =
       Returned tt (with_files (files a ++ created)%list a) /\
     (created = [] \/
      created = [TFolder (normalizePath a folderPath)] /\
      adapter_exists (normalizePath a folderPath) a = false)) \/
  (ensureFolderExists folderPath a = Thrown a /\
   folderPath <> "" /\
   getAbstractFileByPath (normalizePath a folderPath) a = None /\
   createFolderThrows a (normalizePath a folderPath) = true).
Proof.
  unfold ensureFolderExists, createFolder.
  assert (Hsame : with_files (files a ++ [])%list a = a)
    by (rewrite app_nil_r; now destruct a).
  destruct (String.eqb_spec folderPath "") as [->|Hne];
    [left; exists []; rewrite Hsame; auto|].
  destruct (getAbstractFileByPath (normalizePath a folderPath) a) eqn:E;
    [left; exists []; rewrite Hsame; auto|].
  destruct (createFolderThrows a (normalizePath a folderPath)) eqn:Ethrow.
  - right. cbn [orb]. auto.
  - left. apply find_none_absent in E. rewrite E. cbn [orb].
    exists [TFolder (normalizePath a folderPath)]. auto.
Qed.

(** A move does not change the number of entries, and the loop of
    [moveOrphansToFolder] ends when it may run more rounds than the vault
    has entries and the candidates of every search stay apart. *)
Lemma moveLoop_ends fuel targetFolder (orphanPaths : list string) :
  forall movedCount a,
    (forall fileName i j,
       candidate a targetFolder (nameWithoutExt fileName)
         (Js.pop_or_empty (Js.split "." fileName)) i =
       candidate a targetFolder (nameWithoutExt fileName)
         (Js.pop_or_empty (Js.split "." fileName)) j -> i = j) ->
    (List.length (files a) < fuel)%nat ->
    exists n a', moveLoop fuel targetFolder orphanPaths movedCount a = Returned n a'.
Proof.
  induction orphanPaths as [|imagePath rest IH]; intros movedCount a Hinj Hfuel.
  - cbn [moveLoop]. unfold ret. eauto.
  - cbn [moveLoop].
    destruct (getAbstractFileByPath imagePath a) as [[q t d|q]|]; try now apply IH.
    rewrite freeName_conflictLoop.
    destruct (conflictLoop_ends fuel a targetFolder
                (nameWithoutExt (Js.pop_or_empty (Js.split "/" q)))
                (Js.pop_or_empty (Js.split "." (Js.pop_or_empty (Js.split "/" q)))) 1
                (normalizePath a (targetFolder ++ "/" ++ Js.pop_or_empty (Js.split "/" q)))
                (Hinj _) Hfuel) as [finalPath ->].
    unfold bind at 1, try_catch, bind at 1, rename.
    destruct (renameThrows a q || adapter_exists finalPath a).
    + unfold ret at 1. now apply IH.
    + unfold ret at 1. apply IH.
      * exact Hinj.
      * cbn [with_files files]. now rewrite length_map.
Qed.

Lemma moveLoop_keeps_contents fuel targetFolder (orphanPaths : list string) :
  forall movedCount a,
    match moveLoop fuel targetFolder orphanPaths movedCount a with
    | Returned n a' =>
        map entry_content (files a') = map entry_content (files a) /\
        (NoDup (map path_of (files a)) -> NoDup (map path_of (files a'))) /\
        (forall f, In f (files a) -> ~ In (path_of f) orphanPaths -> In f (files a')) /\
        (n <= movedCount + List.length orphanPaths)%nat
    | Thrown _ => False
    | Diverged => True
    end.
Proof.
  induction orphanPaths as [|imagePath rest IH]; intros movedCount a.
  - simpl. repeat split; auto. lia.
  - assert (Hskip :
      match moveLoop fuel targetFolder rest movedCount a with
      | Returned n a' =>
          map entry_content (files a') = map entry_content (files a) /\
          (NoDup (map path_of (files a)) -> NoDup (map path_of (files a'))) /\
          (forall f, In f (files a) -> ~ In (path_of f) (imagePath :: rest) ->
                     In f (files a')) /\
          (n <= movedCount + List.length (imagePath :: rest))%nat
      | Thrown _ => False
      | Diverged => True
      end).
    { specialize (IH movedCount a).
      destruct (moveLoop fuel targetFolder rest movedCount a); auto.
      destruct IH as (H1 & H2 & H3 & H4). repeat split; auto.
      - intros f Hf Hn. apply H3; [assumption|]. simpl in Hn. tauto.
      - simpl. lia. }
    cbn [moveLoop].
    destruct (getAbstractFileByPath imagePath a) as [[q t d|q]|] eqn:Efind;
      try exact Hskip.
    destruct (find_path _ _ _ Efind) as [Hq _]. simpl in Hq. subst q.
    destruct (freeName fuel a targetFolder _ 1 _) as [finalPath|]; [|exact I].
    unfold bind at 1, try_catch, bind at 1, rename.
    destruct (renameThrows a imagePath || adapter_exists finalPath a) eqn:Eren.
    + unfold ret at 1. exact Hskip.
    + unfold ret at 1. apply orb_false_iff in Eren. destruct Eren as [_ Efree].
      set (a1 := with_files (map (set_path imagePath finalPath) (files a)) a).
      specialize (IH (S movedCount) a1).
      destruct (moveLoop fuel targetFolder rest (S movedCount) a1); auto.
      destruct IH as (H1 & H2 & H3 & H4).
      assert (Hfree : ~ In finalPath (map path_of (files a))).
      { rewrite <- adapter_exists_In. congruence. }
      split; [rewrite H1; apply set_path_content|].
      split; [intros Hnd; apply H2; now apply set_path_NoDup|].
      split; [|simpl; lia].
      intros f Hf Hn. apply H3; [|simpl in Hn; tauto].
      simpl. rewrite <- (set_path_other imagePath finalPath f)
        by (intros E; apply Hn; left; now symmetry).
      now apply in_map.
Qed.

(** X13.  [moveOrphansToFolder] loses nothing and overwrites nothing.  A
    failed move is caught and the next one tried; the call rejects only
    when the orphan folder is missing and the host refuses to create it,
    and then nothing has been moved.  When it returns, the vault holds the
    same files with the same contents and modification times in the same
    order, followed at most by the orphan folder it created; a vault with
    one entry per path still has one entry per path; an entry whose path
    was not in the given list is still there, path included; and the
    orphan set and the resolved links are as they were, so the set goes on
    naming the paths the orphans had before the move.  When the host does
    create folders and keeps the candidates of every search for a free
    name apart, the call returns as soon as it may run two rounds more
    than the vault has entries. *)
Theorem moveOrphansToFolder_keeps_every_file (fuel : nat)
    (orphanPaths : list string) (st : State) :
  match moveOrphansToFolder fuel orphanPaths st with
  | Returned _ st' =>
      (exists created,
         map entry_content (files (app st')) =
           (map entry_content (files (app st)) ++ created)%list /\
         (created = [] \/ created = [None])) /\
      (NoDup (map path_of (files (app st))) -> NoDup (map path_of (files (app st')))) /\
      (forall f, In f (files (app st)) -> ~ In (path_of f) orphanPaths ->
                 In f (files (app st'))) /\
      orphanImages st' = orphanImages st /\
      resolvedLinks (app st') = resolvedLinks (app st)
  | Thrown st' =>
      st' = st /\ orphanFolder st <> "" /\
      getAbstractFileByPath (normalizePath (app st) (orphanFolder st)) (app st) = None /\
      createFolderThrows (app st) (normalizePath (app st) (orphanFolder st)) = true
  | Diverged => True
  end /\
  ((forall folder, createFolderThrows (app st) folder = false) ->
   (forall fileName i j,
      candidate (app st) (orphanFolder st) (nameWithoutExt fileName)
        (Js.pop_or_empty (Js.split "." fileName)) i =
      candidate (app st) (orphanFolder st) (nameWithoutExt fileName)
        (Js.pop_or_empty (Js.split "." fileName)) j -> i = j) ->
   (S (List.length (files (app st))) < fuel)%nat ->
   exists st', moveOrphansToFolder fuel orphanPaths st = Returned tt st').
Proof.
  unfold moveOrphansToFolder, liftApp, bind at 1 3.
  destruct (ensureFolderExists_outcome (orphanFolder st) (app st))
    as [(created & Hens & Hcreated)|(Hens & Hne & Hnone & Hthrow)]; rewrite Hens.
  2:{ split.
      - split; [now destruct st|]. auto.
      - intros Hmay. now rewrite Hmay in Hthrow. }
  unfold bind at 1 2.
  set (a1 := with_files (files (app st) ++ created)%list (app st)).
  split.
  - pose proof (moveLoop_keeps_contents fuel (orphanFolder st) orphanPaths 0 a1) as Hloop.
    pose proof (moveLoop_resolvedLinks fuel (orphanFolder st) orphanPaths 0 a1) as Hlinks.
    destruct (moveLoop fuel (orphanFolder st) orphanPaths 0 a1) as [n a2| |];
      [|contradiction|exact I].
    unfold ret. cbn [with_app app orphanImages].
    destruct Hloop as (H1 & H2 & H3 & _).
    split.
    { exists (map entry_content created). rewrite H1. unfold a1. cbn [with_files files].
      rewrite map_app. split; [reflexivity|].
      destruct Hcreated as [->|[-> _]]; [now left|now right]. }
    split.
    { intros Hnd. apply H2. unfold a1. cbn [with_files files]. rewrite map_app.
      destruct Hcreated as [->|[-> Hfree]]; [now rewrite app_nil_r|].
      apply NoDup_app; [assumption|repeat constructor; intros []|].
      intros x Hx [<-|[]]. apply adapter_exists_In in Hx. cbn [path_of] in Hx.
      congruence. }
    split.
    { intros f Hf Hn. apply H3; [|assumption].
      unfold a1. cbn [with_files files]. apply in_or_app. now left. }
    split; [reflexivity|].
    now rewrite (Hlinks n a2 eq_refl).
  - intros _ Hinj Hfuel.
    destruct (moveLoop_ends fuel (orphanFolder st) orphanPaths 0 a1) as (n & a2 & ->).
    + exact Hinj.
    + unfold a1. cbn [with_files files]. rewrite length_app.
      destruct Hcreated as [->|[-> _]]; simpl; lia.
    + unfold ret. eauto.
Qed.

Lemma content_after_rename p q t d fs :
  find (fun f => path_of f =? p) fs = Some (TFile p t d) ->
  ~ In q (map path_of fs) ->
  find (fun f => path_of f =? q) (map (set_path p q) fs) = Some (TFile q t d).
Proof.
  induction fs as [|f fs IH]; simpl; [discriminate|].
  intros Hfind Hq.
  destruct (String.eqb_spec (path_of f) p) as [Ep|Np].
  - injection Hfind as ->. simpl. rewrite String.eqb_refl. simpl.
    now rewrite String.eqb_refl.
  - rewrite (set_path_other p q f Np).
    destruct (String.eqb_spec (path_of f) q) as [Eq|_]; [tauto|].
    apply IH; tauto.
Qed.

Lemma absent_after_rename p q fs :
  p <> q ->
  match find (fun f => path_of f =? p) (map (set_path p q) fs) with
  | Some (TFile _ _ _) => False
  | _ => True
  end.
Proof.
  intros Hne. induction fs as [|f fs IH]; simpl; [exact I|].
  destruct f as [r t d|r]; simpl.
  - destruct (String.eqb_spec r p) as [->|Nr]; simpl.
    + destruct (String.eqb_spec q p); [congruence|assumption].
    + destruct (String.eqb_spec r p); [contradiction|assumption].
  - now destruct (r =? p).
Qed.

(** X14.  An orphan that already lies in the orphan folder under its own
    name is renamed all the same: its own path is the first candidate, it
    is taken (by the file itself), so the file goes to the name with the
    least counter from 1 on that is free.  When the host does not refuse
    the move and keeps the candidates apart, the loop returns the count 1
    as soon as it may run more rounds than the vault has entries; the
    vault is the old one with this one path changed, the old path holds no
    file any more although the orphan set still names it, and the content
    is found under the new path; a scan in the mode "moveToFolder"
    therefore renames the orphans moved by the previous scan once more. *)
Theorem moveOrphansToFolder_renames_settled_orphans (fuel : nat) (a : App)
    (targetFolder fileName : string) (t : Z) (d : string) :
  let p := normalizePath a (targetFolder ++ "/" ++ fileName) in
  let numbered :=
    candidate a targetFolder (nameWithoutExt fileName)
      (Js.pop_or_empty (Js.split "." fileName)) in
  getAbstractFileByPath p a = Some (TFile p t d) ->
  Js.pop_or_empty (Js.split "/" p) = fileName ->
  renameThrows a p = false ->
  (forall i j, numbered i = numbered j -> i = j) ->
  (List.length (files a) < fuel)%nat ->
  exists k,
    (1 <= k)%nat /\
    (forall j, (1 <= j < k)%nat -> adapter_exists (numbered j) a = true) /\
    adapter_exists (numbered k) a = false /\
    numbered k <> p /\
    moveLoop fuel targetFolder [p] 0 a =
      Returned 1%nat (with_files (map (set_path p (numbered k)) (files a)) a) /\
    is_file p (with_files (map (set_path p (numbered k)) (files a)) a) = false /\
    getAbstractFileByPath (numbered k)
      (with_files (map (set_path p (numbered k)) (files a)) a)
      = Some (TFile (numbered k) t d).
Proof.
  intros p numbered Hfind Hname Hthrow Hinj Hfuel.
  assert (Htaken : adapter_exists p a = true).
  { apply adapter_exists_In. destruct (find_path _ _ _ Hfind) as [_ Hin].
    apply (in_map path_of) in Hin. exact Hin. }
  destruct (conflictLoop_ends fuel a targetFolder (nameWithoutExt fileName)
              (Js.pop_or_empty (Js.split "." fileName)) 1 p Hinj Hfuel) as [q Efree].
  destruct (conflictLoop_least _ _ _ _ _ _ _ _ Efree)
    as [[_ Hfree]|(_ & k & Hk & Eq & Hq & Hbelow)]; [congruence|].
  fold numbered in Eq, Hbelow. subst q.
  assert (Hne : numbered k <> p) by congruence.
  assert (Hfree : ~ In (numbered k) (map path_of (files a)))
    by (rewrite <- adapter_exists_In; congruence).
  exists k. split; [assumption|]. split; [assumption|]. split; [assumption|].
  split; [assumption|]. split; [|split].
  - cbn [moveLoop]. rewrite Hfind, Hname. fold p.
    rewrite freeName_conflictLoop, Efree.
    unfold bind at 1, try_catch, bind at 1, rename. rewrite Hthrow, Hq.
    reflexivity.
  - unfold is_file, getAbstractFileByPath. cbn [with_files files].
    pose proof (absent_after_rename p (numbered k) (files a) (not_eq_sym Hne)) as H.
    destruct (find _ (map (set_path p (numbered k)) (files a))) as [[r t' d'|r]|];
      [contradiction|reflexivity|reflexivity].
  - unfold getAbstractFileByPath. cbn [with_files files].
    now apply content_after_rename.
Qed.

(** An orphan folder that already holds "lost.png" and "lost_1.png". *)
Definition settled_orphan_example : App :=
  plain_app [TFolder "_orphaned"; TFile "_orphaned/lost.png" 13 "o";
             TFile "_orphaned/lost_1.png" 14 "p"].

Lemma moveOrphansToFolder_renames_settled_orphans_witness :
  exists a',
    moveLoop 4 "_orphaned" ["_orphaned/lost.png"] 0 settled_orphan_example
      = Returned 1%nat a' /\
    is_file "_orphaned/lost.png" a' = false /\
    getAbstractFileByPath "_orphaned/lost_2.png" a'
      = Some (TFile "_orphaned/lost_2.png" 13 "o").
Proof.
  destruct (moveOrphansToFolder_renames_settled_orphans 4 settled_orphan_example
              "_orphaned" "lost.png" 13 "o" eq_refl eq_refl eq_refl)
    as (k & Hk & Hbelow & Hfree & _ & Hrun & Hgone & Hfound).
  - intros i j. apply candidate_inj. intros x y H. exact H.
  - simpl. lia.
  - assert (Ek : k = 2%nat).
    { destruct k as [|[|[|k]]]; [lia| |reflexivity|].
      - discriminate Hfree.
      - discriminate (Hbelow 2%nat ltac:(lia)). }
    subst k. eexists. split; [exact Hrun|]. split; [exact Hgone|exact Hfound].
Defined.

End MovingFiles.

(** ** core/FileManager.ts: the name and the place of a new image *)

Section NewImages.
Import Obsidian.

Lemma before_last_absent c s : units (fun u => u <> c) s -> Js.before_last c s = None.
Proof.
  induction s as [|a s IH]; simpl; [reflexivity|].
  intros [Ha Hs]. rewrite (IH Hs).
  destruct (Ascii.eqb_spec a c); [contradiction|reflexivity].
Qed.

Lemma before_last_dotted c stem e :
  units (fun u => u <> c) e -> Js.before_last c (stem ++ String c e) = Some stem.
Proof.
  intros He. induction stem as [|a stem IH]; simpl.
  - now rewrite (before_last_absent _ _ He), Ascii.eqb_refl.
  - now rewrite IH.
Qed.

(** The two halves [generateFilename], [resolveConflict] and the loop of
    [moveOrphansToFolder] cut a file name into. *)
Lemma stem_and_extension stem e :
  e <> "" -> units (fun c => c <> "."%char) e ->
  OrphanDetector.nameWithoutExt (stem ++ String "." e) = stem /\
  Js.pop_or_empty (Js.split "." (stem ++ String "." e)) = e.
Proof.
  intros Hne He. split; [|now apply extension_of_dotted].
  unfold OrphanDetector.nameWithoutExt. rewrite (before_last_dotted _ _ _ He).
  rewrite length_append. simpl.
  destruct e as [|c e]; [contradiction|]. simpl.
  destruct (Nat.ltb_spec (String.length stem + 1)
              (String.length stem + S (S (String.length e)))); [reflexivity|lia].
Qed.

Lemma toLowerCase_nil s : Js.toLowerCase s = "" -> s = "".
Proof. destruct s; [reflexivity|discriminate]. Qed.



(** X16.  With the pattern "timestamp" (the default) the name of a file
    with a non-empty extension is the timestamp, '_' and the original
    name.  A name without '.' is taken for its own extension, so it is
    written twice; a name that ends in '.' gets the extension "png" after
    its dot. *)
Theorem generateFilename_timestamp_names
    (settings : Settings.ImageMasterSettings) (now : FileNaming.Date)
    (random : string) (activeFile : FileNaming.NoteFile) :
  Settings.filenamePattern settings = Settings.timestamp ->
  (forall stem e,
     e <> "" -> units (fun c => c <> "."%char) e ->
     FileNaming.generateFilename settings now random (stem ++ "." ++ e) activeFile =
     FileNaming.formatTimestamp now ++ "_" ++ stem ++ "." ++ e) /\
  (forall name,
     name <> "" -> units (fun c => c <> "."%char) name ->
     FileNaming.generateFilename settings now random name activeFile =
     FileNaming.formatTimestamp now ++ "_" ++ name ++ "." ++ name) /\
  (forall stem,
     FileNaming.generateFilename settings now random (stem ++ ".") activeFile =
     FileNaming.formatTimestamp now ++ "_" ++ (stem ++ ".") ++ ".png").
Proof.
  intros Hpattern. unfold FileNaming.generateFilename. rewrite Hpattern.
  cbn [FileNaming.timestamp FileNaming.getPatternVariables].
  split; [|split].
  - intros stem e Hne He. change (stem ++ "." ++ e) with (stem ++ String "." e).
    destruct (stem_and_extension stem e Hne He) as [-> ->].
    destruct (String.eqb_spec e ""); [contradiction|reflexivity].
  - intros name Hne Hname.
    rewrite (split_without_separator _ _ Hname). cbn [Js.pop_or_empty last].
    unfold OrphanDetector.nameWithoutExt. rewrite (before_last_absent _ _ Hname).
    destruct (String.eqb_spec name ""); [contradiction|reflexivity].
  - intros stem. change (stem ++ ".") with (stem ++ String "." "").
    rewrite (extension_of_dotted stem "" I). cbn [String.eqb].
    unfold OrphanDetector.nameWithoutExt. rewrite (before_last_dotted _ stem "" I).
    rewrite length_append. simpl.
    destruct (Nat.ltb_spec (String.length stem + 1) (String.length stem + 1));
      [lia|reflexivity].
Qed.

Lemma generateFilename_timestamp_names_witness :
  FileNaming.generateFilename Settings.DEFAULT_SETTINGS
    (FileNaming.mkDate 2024 11 31 23 59 58) "" ("image" ++ "." ++ "png")
    (FileNaming.mkNote "n.md" "n") = "20241231_235958_image.png" /\
  FileNaming.generateFilename Settings.DEFAULT_SETTINGS
    (FileNaming.mkDate 2024 11 31 23 59 58) "" "image"
    (FileNaming.mkNote "n.md" "n") = "20241231_235958_image.image" /\
  FileNaming.generateFilename Settings.DEFAULT_SETTINGS
    (FileNaming.mkDate 2024 11 31 23 59 58) "" ("image" ++ ".")
    (FileNaming.mkNote "n.md" "n") = "20241231_235958_image..png".
Proof.
  destruct (generateFilename_timestamp_names Settings.DEFAULT_SETTINGS
              (FileNaming.mkDate 2024 11 31 23 59 58) ""
              (FileNaming.mkNote "n.md" "n") eq_refl) as (H1 & H2 & H3).
  split; [|split].
  - rewrite (H1 "image" "png"); [reflexivity|discriminate|].
    simpl. repeat split; discriminate.
  - rewrite (H2 "image"); [reflexivity|discriminate|].
    simpl. repeat split; discriminate.
  - rewrite (H3 "image"). reflexivity.
Defined.

Lemma FileNaming_ensureFolderExists folderPath a :
  FileNaming.ensureFolderExists folderPath a =
  OrphanDetector.ensureFolderExists folderPath a.
Proof. reflexivity. Qed.

(** X17.  [determineSavePath] proposes a path that is not taken.  In every
    storage mode, when the call returns, no entry of the vault has the
    returned path, and the vault is as before except for the image folder,
    created when it was missing; the call rejects only when that folder is
    missing and the host refuses to create it, and the vault is then as it
    was.  When the host does create folders and keeps the candidates of
    the search for a free name apart, the call returns as soon as it may
    run two rounds more than the vault has entries. *)
Theorem determineSavePath_proposes_a_free_path
    (settings : Settings.ImageMasterSettings) (today now : FileNaming.Date)
    (random : string) (fuel : nat) (activeFile : FileNaming.NoteFile)
    (originalFilename : string) (a : App) :
  match FileNaming.determineSavePath settings today now random fuel activeFile
          originalFilename a with
  | Returned finalPath a' =>
      adapter_exists finalPath a' = false /\
      exists created,
        a' = with_files (files a ++ created)%list a /\
        (created = [] \/ exists folder, created = [TFolder folder])
  | Thrown a' =>
      a' = a /\
      exists folder, getAbstractFileByPath folder a = None /\
                     createFolderThrows a folder = true
  | Diverged => True
  end /\
  ((forall folder, createFolderThrows a folder = false) ->
   (forall basePath i j,
      candidate a basePath
        (OrphanDetector.nameWithoutExt
           (FileNaming.generateFilename settings now random originalFilename activeFile))
        (Js.pop_or_empty
           (Js.split "."
              (FileNaming.generateFilename settings now random originalFilename
                 activeFile))) i =
      candidate a basePath
        (OrphanDetector.nameWithoutExt
           (FileNaming.generateFilename settings now random originalFilename activeFile))
        (Js.pop_or_empty
           (Js.split "."
              (FileNaming.generateFilename settings now random originalFilename
                 activeFile))) j -> i = j) ->
   (S (List.length (files a)) < fuel)%nat ->
   exists finalPath a',
     FileNaming.determineSavePath settings today now random fuel activeFile
       originalFilename a
     = Returned finalPath a').
Proof.
  unfold FileNaming.determineSavePath.
  set (basePath := match Settings.storageMode settings with
                   | Settings.folderBased => _
                   | _ => _
                   end).
  set (filename := FileNaming.generateFilename settings now random originalFilename
                     activeFile).
  unfold bind. rewrite FileNaming_ensureFolderExists.
  destruct (ensureFolderExists_outcome basePath a)
    as [(created & -> & Hcreated)|(-> & Hne & Hnone & Hthrow)].
  2:{ split; [split; [reflexivity|eauto]|].
      intros Hmay. now rewrite Hmay in Hthrow. }
  set (a1 := with_files (files a ++ created)%list a).
  split.
  - destruct (FileNaming.resolveConflict fuel a1 basePath filename) as [q|] eqn:E;
      [|exact I].
    split; [now apply conflictLoop_free in E|].
    exists created. split; [reflexivity|].
    destruct Hcreated as [->|[-> _]]; [now left|right; eauto].
  - intros _ Hinj Hfuel.
    destruct (conflictLoop_ends fuel a1 basePath (OrphanDetector.nameWithoutExt filename)
                (Js.pop_or_empty (Js.split "." filename)) 1
                (normalizePath a1 (basePath ++ "/" ++ filename))) as [q Hq].
    + exact (Hinj basePath).
    + unfold a1. cbn [with_files files]. rewrite length_app.
      destruct Hcreated as [->|[-> _]]; simpl; lia.
    + unfold FileNaming.resolveConflict. rewrite Hq. eauto.
Qed.

(** A note at the root of a vault that holds nothing else, on a host that
    drops a leading '/'; the image folder is still to be created. *)
Definition lone_note : App :=
  mkApp [TFile "n.md" 1 "text"] []
        (fun _ _ => None) strip_leading_slash
        (fun _ => false) (fun _ => false) (fun _ => false) (fun _ => false)
        (fun _ => false) [].

Lemma determineSavePath_proposes_a_free_path_witness :
  value_of
    (FileNaming.determineSavePath Settings.DEFAULT_SETTINGS
       (FileNaming.mkDate 2024 11 31 23 59 58) (FileNaming.mkDate 2024 11 31 23 59 58)
       "" 3 (FileNaming.mkNote "n.md" "n") "image.png" lone_note)
    = Some "_img/20241231_235958_image.png" /\
  exists finalPath a',
    FileNaming.determineSavePath Settings.DEFAULT_SETTINGS
      (FileNaming.mkDate 2024 11 31 23 59 58) (FileNaming.mkDate 2024 11 31 23 59 58)
      "" 3 (FileNaming.mkNote "n.md" "n") "image.png" lone_note
    = Returned finalPath a'.
Proof.
  split; [vm_compute; reflexivity|].
  apply (proj2 (determineSavePath_proposes_a_free_path Settings.DEFAULT_SETTINGS
                  (FileNaming.mkDate 2024 11 31 23 59 58)
                  (FileNaming.mkDate 2024 11 31 23 59 58)
                  "" 3 (FileNaming.mkNote "n.md" "n") "image.png" lone_note)).
  - reflexivity.
  - intros basePath i j. now apply stripping_candidates_apart.
  - simpl. lia.
Defined.

Lemma find_app_found {A} (P : A -> bool) (l l' : list A) x :
  find P l = Some x -> find P (l ++ l') = Some x.
Proof.
  induction l as [|y l IH]; simpl; [discriminate|].
  destruct (P y); [auto|apply IH].
Qed.

(** X18.  [moveImage] moves without overwriting.  A path that is no file
    is left alone; a destination that is taken makes the call reject with
    no entry renamed; a completed call leaves every content in place
    (paths apart), keeps one entry per path, and has put the file under
    the normalised new path. *)
Theorem moveImage_never_overwrites (oldPath newPath : string) (a : App) :
  (is_file oldPath a = false -> FileNaming.moveImage oldPath newPath a = Returned tt a) /\
  (is_file oldPath a = true ->
   adapter_exists (normalizePath a newPath) a = true ->
   exists created,
     FileNaming.moveImage oldPath newPath a =
       Thrown (with_files (files a ++ created)%list a) /\
     (created = [] \/ exists folder, created = [TFolder folder])) /\
  match FileNaming.moveImage oldPath newPath a with
  | Returned _ a' =>
      (exists created,
         map entry_content (files a') = (map entry_content (files a) ++ created)%list /\
         (created = [] \/ created = [None])) /\
      (NoDup (map path_of (files a)) -> NoDup (map path_of (files a'))) /\
      (forall t d,
         getAbstractFileByPath oldPath a = Some (TFile oldPath t d) ->
         getAbstractFileByPath (normalizePath a newPath) a'
           = Some (TFile (normalizePath a newPath) t d))
  | Thrown _ => True
  | Diverged => False
  end.
Proof.
  unfold FileNaming.moveImage, is_file.
  destruct (getAbstractFileByPath oldPath a) as [[q t d|q]|] eqn:Efind.
  2,3: (split; [reflexivity|]; split; [discriminate|]; split;
        [exists []; rewrite app_nil_r; auto|]; split; [auto|discriminate]).
  destruct (find_path _ _ _ Efind) as [Hq _]. simpl in Hq. subst q.
  unfold bind. rewrite FileNaming_ensureFolderExists.
  destruct (ensureFolderExists_outcome
              (Js.substring_to_last "/" (normalizePath a newPath)) a)
    as [(created & -> & Hcreated)|(-> & _)].
  2:{ split; [discriminate|]. split; [|exact I].
      intros _ _. exists []. split; [|now left].
      rewrite app_nil_r. now destruct a. }
  set (a1 := with_files (files a ++ created)%list a).
  set (target := normalizePath a newPath).
  unfold rename. change (renameThrows a1 oldPath) with (renameThrows a oldPath).
  assert (Hexists : adapter_exists target a1 = adapter_exists target a || 
                    existsb (fun f => path_of f =? target) created).
  { unfold adapter_exists, a1. cbn [with_files files]. apply existsb_app. }
  split; [discriminate|]. split.
  - intros _ Htaken. rewrite Hexists, Htaken. cbn [orb].
    rewrite orb_true_r. exists created. split; [reflexivity|].
    destruct Hcreated as [->|[-> _]]; [now left|right; eauto].
  - destruct (renameThrows a oldPath || adapter_exists target a1) eqn:Eren; [exact I|].
    apply orb_false_iff in Eren. destruct Eren as [_ Efree].
    assert (Hfree : ~ In target (map path_of (files a1)))
      by (rewrite <- adapter_exists_In; congruence).
    cbn [with_files files]. split; [|split].
    + exists (map entry_content created). rewrite set_path_content.
      unfold a1. cbn [with_files files]. rewrite map_app. split; [reflexivity|].
      destruct Hcreated as [->|[-> _]]; [now left|now right].
    + intros Hnd. apply set_path_NoDup; [|assumption].
      unfold a1. cbn [with_files files]. rewrite map_app.
      destruct Hcreated as [->|[-> Hnew]]; [now rewrite app_nil_r|].
      apply NoDup_app; [assumption|repeat constructor; intros []|].
      intros x Hx [<-|[]]. apply adapter_exists_In in Hx. cbn [path_of] in Hx.
      congruence.
    + intros t' d' [= <- <-]. unfold getAbstractFileByPath. cbn [with_files files].
      apply content_after_rename; [|assumption].
      unfold a1. cbn [with_files files]. now apply find_app_found.
Qed.

End NewImages.

(** ** The links the plugin writes *)

Section WrittenLinks.
Import Obsidian LinkUpdater.

(** The embed [formatImageLink] writes in each link format. *)
Definition written_embed (format : Settings.LinkFormat) : Embed :=
  match format with
  | Settings.wikilink => NameOnly None
  | Settings.markdown_relative => Relative ""
  | Settings.markdown_absolute => Absolute ""
  | Settings.wikilink_path | Settings.other_format => FullPath None
  end.

Lemma formatImageLink_render settings imagePath notePath :
  name_of imagePath <> "" ->
  FileNaming.formatImageLink settings imagePath notePath =
  render (mkTargets imagePath (name_of imagePath) imagePath
                    (relative_to notePath imagePath))
         (written_embed (Settings.linkFormat settings)).
Proof.
  intros Hname. unfold FileNaming.formatImageLink.
  fold (name_of imagePath).
  destruct (String.eqb_spec (name_of imagePath) ""); [contradiction|].
  destruct (Settings.linkFormat settings); reflexivity.
Qed.





(** *** parseImageLinks *)

Lemma exec_loop_skip exec t :
  forall rest,
    LinkQueries.exec_loop exec (String.length t) (t ++ rest) =
    LinkQueries.exec_loop exec 0 rest.
Proof.
  induction t as [|c t IH]; intros rest; simpl.
  - destruct rest; reflexivity.
  - apply IH.
Qed.

Lemma exec_loop_plain exec t :
  starts_with_bang exec -> units (fun u => u <> "!"%char) t ->
  forall rest,
    LinkQueries.exec_loop exec 0 (t ++ rest) = LinkQueries.exec_loop exec 0 rest.
Proof.
  intros Hexec. induction t as [|c t IH]; intros Ht rest; [reflexivity|].
  destruct Ht as [Hc Ht]. cbn [append LinkQueries.exec_loop].
  rewrite (Hexec c (t ++ rest) Hc). now apply IH.
Qed.

Lemma exec_loop_token exec token t :
  starts_with_bang exec -> token = String "!" t ->
  units (fun c => c <> "!"%char) t ->
  forall rest,
    LinkQueries.exec_loop exec 0 (token ++ rest) =
    match exec (token ++ rest) with
    | Some m =>
        if Js.matched m =? token then m :: LinkQueries.exec_loop exec 0 rest
        else LinkQueries.exec_loop exec 0 (token ++ rest)
    | None => LinkQueries.exec_loop exec 0 rest
    end.
Proof.
  intros Hexec -> Ht rest.
  destruct (exec (String "!" t ++ rest)) as [m|] eqn:E.
  - destruct (String.eqb_spec (Js.matched m) (String "!" t)) as [Em|_]; [|reflexivity].
    cbn [append LinkQueries.exec_loop]. cbn [append] in E. rewrite E, Em.
    cbn [String.length Nat.sub]. rewrite Nat.sub_0_r. f_equal. apply exec_loop_skip.
  - cbn [append LinkQueries.exec_loop]. cbn [append] in E. rewrite E.
    now apply exec_loop_plain.
Qed.

Lemma span_name_app x c r :
  units name_unit x -> (c = "]"%char \/ c = "|"%char) ->
  LinkQueries.span_name (x ++ String c r) = (x, String c r).
Proof.
  intros Hx Hc. induction x as [|a x IH]; simpl.
  - destruct Hc as [->| ->]; reflexivity.
  - destruct Hx as [[H1 H2] Hx]. rewrite (IH Hx).
    destruct (Ascii.eqb_spec a "]"); [contradiction|].
    destruct (Ascii.eqb_spec a "|"); [contradiction|reflexivity].
Qed.

Lemma starts_with_bang_any_wikilink : starts_with_bang LinkQueries.exec_any_wikilink.
Proof.
  intros c s Hc. unfold LinkQueries.exec_any_wikilink. rewrite strip_prefix_cons.
  destruct (Ascii.eqb_spec "!" c); [congruence|reflexivity].
Qed.

Lemma starts_with_bang_any_mdlink : starts_with_bang LinkQueries.exec_any_mdlink.
Proof.
  intros c s Hc. unfold LinkQueries.exec_any_mdlink. rewrite strip_prefix_cons.
  destruct (Ascii.eqb_spec "!" c); [congruence|reflexivity].
Qed.

Lemma exec_any_wikilink_on_wikilink x rest :
  x <> "" -> units name_unit x ->
  LinkQueries.exec_any_wikilink (wikilink x None ++ rest) =
  Some (Js.mkMatch (wikilink x None) [Some x; None]).
Proof.
  intros Hne Hx. unfold LinkQueries.exec_any_wikilink, wikilink, alias_text.
  rewrite !append_assoc, strip_prefix_app.
  change ("" ++ "]]" ++ rest) with (String "]" (String "]" rest)).
  rewrite (span_name_app x "]" _ Hx (or_introl eq_refl)).
  destruct (String.eqb_spec x ""); [contradiction|]. reflexivity.
Qed.

Lemma exec_any_wikilink_on_mdlink target rest :
  LinkQueries.exec_any_wikilink (mdlink "" target ++ rest) = None.
Proof. reflexivity. Qed.

Lemma exec_any_mdlink_on_wikilink x rest :
  units no_bracket x ->
  LinkQueries.exec_any_mdlink (wikilink x None ++ rest) = None.
Proof.
  intros Hx. unfold LinkQueries.exec_any_mdlink, wikilink, alias_text.
  rewrite !append_assoc.
  change ("![[" ++ x ++ "" ++ "]]" ++ rest)
    with ("![" ++ String "[" x ++ String "]" (String "]" rest)).
  rewrite strip_prefix_app, span_not_app by (split; [discriminate|exact Hx]).
  reflexivity.
Qed.

Lemma exec_any_mdlink_on_mdlink target rest :
  target <> "" -> units no_paren target ->
  LinkQueries.exec_any_mdlink (mdlink "" target ++ rest) =
  Some (Js.mkMatch (mdlink "" target) [Some ""; Some target]).
Proof.
  intros Hne Ht. unfold LinkQueries.exec_any_mdlink, mdlink.
  rewrite !append_assoc.
  change ("![" ++ "" ++ "](" ++ target ++ ")" ++ rest)
    with ("![" ++ "" ++ String "]" (String "(" (target ++ String ")" rest))).
  rewrite strip_prefix_app, (span_not_app "]" "" _ I).
  change (String "]" (String "(" (target ++ String ")" rest)))
    with ("](" ++ target ++ String ")" rest).
  rewrite strip_prefix_app, (span_not_app ")" target rest Ht).
  destruct (String.eqb_spec target ""); [contradiction|]. reflexivity.
Qed.

(** The text of the link [formatImageLink] writes, by format. *)
Definition written_target (format : Settings.LinkFormat) (imagePath notePath : string)
    : string :=
  match format with
  | Settings.wikilink => name_of imagePath
  | Settings.markdown_relative => relative_to notePath imagePath
  | Settings.markdown_absolute => String "/" imagePath
  | Settings.wikilink_path | Settings.other_format => imagePath
  end.

Definition writes_wikilink (format : Settings.LinkFormat) : bool :=
  match format with
  | Settings.markdown_relative | Settings.markdown_absolute => false
  | _ => true
  end.

Lemma name_of_nonempty p : name_of p <> "" -> p <> "".
Proof. intros H ->. now apply H. Qed.

Lemma parseImageLinks_of_written_link (settings : Settings.ImageMasterSettings)
    (imagePath notePath pre post : string) :
  units path_unit imagePath -> name_of imagePath <> "" ->
  units (fun c => c <> "!"%char) pre -> units (fun c => c <> "!"%char) post ->
  LinkQueries.parseImageLinks
    (pre ++ FileNaming.formatImageLink settings imagePath notePath ++ post) =
  [LinkQueries.mkLink
     (written_target (Settings.linkFormat settings) imagePath notePath)
     (writes_wikilink (Settings.linkFormat settings))
     (FileNaming.formatImageLink settings imagePath notePath)].
Proof.
  intros Hpath Hname Hpre Hpost.
  pose proof (name_of_nonempty _ Hname) as Hne.
  assert (Hends : forall exec, starts_with_bang exec ->
            LinkQueries.exec_loop exec 0 post = []).
  { intros exec Hexec. rewrite <- (append_nil_r post).
    now rewrite (exec_loop_plain exec post Hexec Hpost). }
  assert (Hwiki : forall x, x <> "" -> units path_unit x ->
            LinkQueries.parseImageLinks (pre ++ wikilink x None ++ post) =
            [LinkQueries.mkLink x true (wikilink x None)]).
  { intros x Hx Hunits.
    destruct (wikilink_shape x None Hunits I) as (t & Et & Ht).
    unfold LinkQueries.parseImageLinks, LinkQueries.exec_all.
    rewrite (exec_loop_plain _ pre starts_with_bang_any_wikilink Hpre),
            (exec_loop_plain _ pre starts_with_bang_any_mdlink Hpre).
    rewrite (exec_loop_token _ _ t starts_with_bang_any_wikilink Et Ht),
            (exec_loop_token _ _ t starts_with_bang_any_mdlink Et Ht).
    rewrite exec_any_wikilink_on_wikilink
      by (assumption || apply (path_unit_weaken _ _ path_unit_name Hunits)).
    rewrite exec_any_mdlink_on_wikilink
      by apply (path_unit_weaken _ _ path_unit_no_bracket Hunits).
    cbn [Js.matched]. rewrite String.eqb_refl.
    rewrite (Hends _ starts_with_bang_any_wikilink),
            (Hends _ starts_with_bang_any_mdlink).
    reflexivity. }
  assert (Hmd : forall target, target <> "" -> units path_unit target ->
            LinkQueries.parseImageLinks (pre ++ mdlink "" target ++ post) =
            [LinkQueries.mkLink target false (mdlink "" target)]).
  { intros target Ht Hunits.
    destruct (mdlink_shape "" target I
                (path_unit_weaken _ _ path_unit_no_bang Hunits)) as (t & Et & Hbang).
    unfold LinkQueries.parseImageLinks, LinkQueries.exec_all.
    rewrite (exec_loop_plain _ pre starts_with_bang_any_wikilink Hpre),
            (exec_loop_plain _ pre starts_with_bang_any_mdlink Hpre).
    rewrite (exec_loop_token _ _ t starts_with_bang_any_wikilink Et Hbang),
            (exec_loop_token _ _ t starts_with_bang_any_mdlink Et Hbang).
    rewrite exec_any_wikilink_on_mdlink.
    rewrite exec_any_mdlink_on_mdlink
      by (assumption || apply (path_unit_weaken _ _ path_unit_no_paren Hunits)).
    cbn [Js.matched]. rewrite String.eqb_refl.
    rewrite (Hends _ starts_with_bang_any_wikilink),
            (Hends _ starts_with_bang_any_mdlink).
    reflexivity. }
  rewrite formatImageLink_render by assumption.
  destruct (Settings.linkFormat settings);
    cbn [written_embed render written_target writes_wikilink full bare absolute relative].
  - apply Hwiki; [assumption|now apply name_of_units].
  - now apply Hwiki.
  - apply Hmd.
    + destruct (getRelativePath_dotted (Js.substring_to_last "/" notePath) imagePath)
        as (t & [E|E]); unfold relative_to; rewrite E; discriminate.
    + unfold relative_to. apply getRelativePath_units; try assumption;
        unfold path_unit; repeat split; discriminate.
  - apply Hmd; [discriminate|].
    split; [unfold path_unit; repeat split; discriminate|assumption].
  - now apply Hwiki.
Qed.

(** X20.  [parseImageLinks] reads back what [formatImageLink] writes: from
    a text that holds, between texts without '!', the link written for an
    image in any link format, it returns that one link, with the text
    [formatImageLink] put in it (the bare name, the path, the relative
    path, or the path after a '/'), the kind of the link, and the whole
    link as the match.  On a note with that content [validateImageLinks]
    returns the one text with whether the host resolves it from the note,
    and leaves the vault as it is. *)
Theorem written_link_is_parsed_back (settings : Settings.ImageMasterSettings)
    (imagePath notePath pre post : string) :
  units path_unit imagePath -> name_of imagePath <> "" ->
  units (fun c => c <> "!"%char) pre -> units (fun c => c <> "!"%char) post ->
  LinkQueries.parseImageLinks
    (pre ++ FileNaming.formatImageLink settings imagePath notePath ++ post) =
  [LinkQueries.mkLink
     (written_target (Settings.linkFormat settings) imagePath notePath)
     (writes_wikilink (Settings.linkFormat settings))
     (FileNaming.formatImageLink settings imagePath notePath)] /\
  (forall a,
     read notePath a =
       Returned (pre ++ FileNaming.formatImageLink settings imagePath notePath ++ post) a ->
     LinkQueries.validateImageLinks notePath a =
     Returned
       [(written_target (Settings.linkFormat settings) imagePath notePath,
         match getFirstLinkpathDest a
                 (written_target (Settings.linkFormat settings) imagePath notePath)
                 notePath with
         | Some _ => true
         | None => false
         end)] a).
Proof.
  intros Hpath Hname Hpre Hpost.
  pose proof (parseImageLinks_of_written_link settings imagePath notePath pre post
                Hpath Hname Hpre Hpost) as Hparse.
  split; [exact Hparse|].
  intros a Hread. unfold LinkQueries.validateImageLinks, bind.
  rewrite Hread, Hparse. reflexivity.
Qed.

Definition relative_link_settings : Settings.ImageMasterSettings :=
  Settings.mkSettings Settings.central "" "attachments" ""
                      Settings.original "" Settings.markdown_relative.

Lemma written_link_is_parsed_back_witness :
  LinkQueries.parseImageLinks
    ("Seen: " ++ FileNaming.formatImageLink relative_link_settings
                   "attachments/Shot 1.png" "trips/rome.md" ++ " (fig. 1)") =
  [LinkQueries.mkLink "../attachments/Shot 1.png" false
     "![](../attachments/Shot 1.png)"].
Proof.
  apply (written_link_is_parsed_back relative_link_settings
           "attachments/Shot 1.png" "trips/rome.md" "Seen: " " (fig. 1)");
    try discriminate;
    simpl; unfold path_unit; repeat split; discriminate.
Defined.

End WrittenLinks.

(** ** getRelativePath leads to its target *)

(** The segments reached from the folder [stack] along a relative path:
    "." stays, ".." leaves the last folder, a name enters it. *)
Fixpoint resolve_relative (stack segments : list string) : list string :=
  match segments with
  | [] => stack
  | seg :: rest =>
      if seg =? "." then resolve_relative stack rest
      else if seg =? ".." then resolve_relative (removelast stack) rest
      else resolve_relative (stack ++ [seg]) rest
  end.

Definition proper_segment (seg : string) : Prop :=
  seg <> "" /\ units (fun c => c <> "/"%char) seg.

Lemma filter_truthy_proper sep s :
  sep = "/"%char -> Forall proper_segment (Js.filter_truthy (Js.split sep s)).
Proof.
  intros ->. unfold Js.filter_truthy.
  pose proof (split_no_separator "/" s) as H.
  induction (Js.split "/" s) as [|seg segs IH]; simpl; [constructor|].
  inversion H; subst.
  destruct (String.eqb_spec seg ""); simpl; [auto|].
  constructor; [split; assumption|auto].
Qed.

Lemma segments_of_join (l : list string) :
  Forall proper_segment l ->
  Js.filter_truthy (Js.split "/" (Js.join "/" l)) = l.
Proof.
  unfold Js.join. induction l as [|x l IH]; intros Hl; [reflexivity|].
  inversion Hl as [|? ? [Hne Hx] Hl']; subst.
  destruct l as [|y l].
  - cbn [String.concat]. rewrite (split_without_separator _ _ Hx). simpl.
    destruct (String.eqb_spec x ""); [contradiction|reflexivity].
  - change (String.concat "/" (x :: y :: l))
      with (x ++ String "/" (String.concat "/" (y :: l))).
    rewrite split_app, (split_without_separator _ _ Hx).
    unfold Js.filter_truthy in *. cbn [app filter].
    destruct (String.eqb_spec x ""); [contradiction|]. cbn [negb].
    f_equal. now apply IH.
Qed.

Lemma segments_after_dot (rest : string) :
  Js.filter_truthy (Js.split "/" ("./" ++ rest)) =
  "." :: Js.filter_truthy (Js.split "/" rest).
Proof.
  change ("./" ++ rest) with ("." ++ String "/" rest).
  rewrite split_app. reflexivity.
Qed.

Lemma segments_after_dots n (rest : string) :
  Js.filter_truthy (Js.split "/" (Js.repeat "../" n ++ rest)) =
  (List.repeat ".." n ++ Js.filter_truthy (Js.split "/" rest))%list.
Proof.
  induction n as [|n IH]; [reflexivity|].
  cbn [Js.repeat List.repeat]. rewrite append_assoc.
  change ("../" ++ Js.repeat "../" n ++ rest)
    with (".." ++ String "/" (Js.repeat "../" n ++ rest)).
  rewrite split_app. cbn [app]. unfold Js.filter_truthy in *.
  change (Js.split "/" "..") with [".."]. cbn [app filter String.eqb negb].
  rewrite IH. reflexivity.
Qed.

Lemma resolve_relative_names (names : list string) :
  Forall (fun seg => seg <> "." /\ seg <> "..") names ->
  forall stack, resolve_relative stack names = (stack ++ names)%list.
Proof.
  induction names as [|seg names IH]; intros Hn stack; simpl.
  - now rewrite app_nil_r.
  - inversion Hn as [|? ? [H1 H2] Hn']; subst.
    destruct (String.eqb_spec seg "."); [contradiction|].
    destruct (String.eqb_spec seg ".."); [contradiction|].
    rewrite (IH Hn'), <- app_assoc. reflexivity.
Qed.

Lemma resolve_relative_up (up : list string) :
  forall stack rest,
    resolve_relative (stack ++ up) (List.repeat ".." (List.length up) ++ rest) =
    resolve_relative stack rest.
Proof.
  induction up as [|x up IH] using rev_ind; intros stack rest.
  - now rewrite app_nil_r.
  - rewrite length_app, Nat.add_comm. cbn [List.length Nat.add List.repeat app].
    cbn [resolve_relative String.eqb Ascii.eqb Bool.eqb].
    rewrite app_assoc, removelast_last. apply IH.
Qed.

(** The shape of the result, by the common leading segments. *)
Lemma getRelativePath_parts fromFolder toPath :
  exists common up down,
    Js.filter_truthy (Js.split "/" fromFolder) = (common ++ up)%list /\
    Js.filter_truthy (Js.split "/" toPath) = (common ++ down)%list /\
    LinkUpdater.getRelativePath fromFolder toPath =
      (match up with
       | [] => "./"
       | _ :: _ => Js.repeat "../" (List.length up)
       end) ++ Js.join "/" down.
Proof.
  unfold LinkUpdater.getRelativePath.
  destruct (commonLength_spec (Js.filter_truthy (Js.split "/" fromFolder))
              (Js.filter_truthy (Js.split "/" toPath)))
    as (common & up & down & Hf & Ht & Hlen & _).
  exists common, up, down. repeat split; auto.
  rewrite <- Hlen, Hf, Ht.
  rewrite length_app, Nat.add_comm, Nat.add_sub.
  rewrite skipn_app, Nat.sub_diag, skipn_all. simpl.
  destruct up; reflexivity.
Qed.

(** X21.  The relative path leads to the image.  Followed from the folder
    of the note, segment by segment ("." stays, ".." goes up, a name goes
    down), the path [getRelativePath] returns arrives at the segments of
    the target path, provided no folder or file of the target is itself
    named "." or "..".  The same holds of the copy in [FileManager]. *)
Theorem getRelativePath_leads_to_the_target (fromFolder toPath : string) :
  Forall (fun seg => seg <> "." /\ seg <> "..")
         (Js.filter_truthy (Js.split "/" toPath)) ->
  resolve_relative (Js.filter_truthy (Js.split "/" fromFolder))
    (Js.filter_truthy (Js.split "/" (LinkUpdater.getRelativePath fromFolder toPath)))
  = Js.filter_truthy (Js.split "/" toPath) /\
  resolve_relative (Js.filter_truthy (Js.split "/" fromFolder))
    (Js.filter_truthy (Js.split "/" (FileManager.getRelativePath fromFolder toPath)))
  = Js.filter_truthy (Js.split "/" toPath).
Proof.
  intros Hnames.
  assert (H : resolve_relative (Js.filter_truthy (Js.split "/" fromFolder))
                (Js.filter_truthy
                   (Js.split "/" (LinkUpdater.getRelativePath fromFolder toPath)))
              = Js.filter_truthy (Js.split "/" toPath)).
  { destruct (getRelativePath_parts fromFolder toPath)
      as (common & up & down & Hf & Ht & ->).
    pose proof (filter_truthy_proper "/" toPath eq_refl) as Hproper.
    rewrite Ht in Hproper, Hnames. apply Forall_app in Hproper, Hnames.
    destruct Hproper as [_ Hproper]. destruct Hnames as [_ Hnames].
    rewrite Hf, Ht. destruct up as [|u up].
    - rewrite segments_after_dot, (segments_of_join _ Hproper), app_nil_r.
      cbn [resolve_relative String.eqb Ascii.eqb Bool.eqb].
      now apply resolve_relative_names.
    - rewrite segments_after_dots, (segments_of_join _ Hproper), resolve_relative_up.
      now apply resolve_relative_names. }
  split; [exact H|exact H].
Qed.

Lemma getRelativePath_leads_to_the_target_witness :
  LinkUpdater.getRelativePath "notes/2024/trips" "notes/img/rome.png"
    = "../../img/rome.png" /\
  resolve_relative ["notes"; "2024"; "trips"] [".."; ".."; "img"; "rome.png"]
    = ["notes"; "img"; "rome.png"].
Proof.
  split; [reflexivity|].
  apply (getRelativePath_leads_to_the_target "notes/2024/trips" "notes/img/rome.png").
  repeat constructor; discriminate.
Defined.

(** ** applyCustomPattern *)

Section CustomPattern.

Definition no_brace (c : ascii) : Prop := c <> "{"%char.
Definition key_unit (c : ascii) : Prop := c <> "{"%char /\ c <> "}"%char.
Definition value_unit (c : ascii) : Prop := c <> "{"%char /\ c <> "$"%char.

(** A custom pattern cut into plain text and placeholders "{key}". *)
Inductive Piece :=
| Plain (t : string)
| Placeholder (key : string).

Definition piece_ok (p : Piece) : Prop :=
  match p with
  | Plain t => units no_brace t
  | Placeholder key => units key_unit key
  end.

(** The text of a pattern in which the placeholders [filled] knows carry
    their value and the others stand as written. *)
Definition piece_text (filled : string -> option string) (p : Piece) : string :=
  match p with
  | Plain t => t
  | Placeholder key =>
      match filled key with
      | Some v => v
      | None => "{" ++ key ++ "}"
      end
  end.

Fixpoint pattern_text (filled : string -> option string) (ps : list Piece) : string :=
  match ps with
  | [] => ""
  | p :: ps' => piece_text filled p ++ pattern_text filled ps'
  end.

Definition value_of_key (es : list (string * string))
    (filled : string -> option string) (key : string) : option string :=
  match find (fun kv => fst kv =? key) es with
  | Some kv => Some (snd kv)
  | None => filled key
  end.

Lemma pattern_text_ext filled filled' ps :
  (forall key, filled key = filled' key) ->
  pattern_text filled ps = pattern_text filled' ps.
Proof.
  intros H. induction ps as [|p ps IH]; [reflexivity|].
  simpl. rewrite IH. destruct p; simpl; [reflexivity|]. now rewrite H.
Qed.

Lemma exec_literal_starts c lit :
  forall a s, a <> c -> FileNaming.exec_literal (String c lit) (String a s) = None.
Proof.
  intros a s Ha. unfold FileNaming.exec_literal. rewrite strip_prefix_cons.
  destruct (Ascii.eqb_spec c a); [congruence|reflexivity].
Qed.

Lemma replace_loop_text (c : ascii) exec v t :
  (forall a s, a <> c -> exec (String a s) = None) ->
  units (fun u => u <> c) t ->
  forall before rest,
    Js.replace_loop exec v 0 before (t ++ rest) =
    t ++ Js.replace_loop exec v 0 (before ++ t) rest.
Proof.
  intros Hexec. induction t as [|a t IH]; intros Ht before rest.
  - now rewrite append_nil_r.
  - destruct Ht as [Ha Ht]. cbn [append Js.replace_loop].
    rewrite (Hexec a (t ++ rest) Ha), (IH Ht), append_assoc. reflexivity.
Qed.

Lemma exec_literal_on_placeholder key key' rest :
  units key_unit key -> units key_unit key' ->
  FileNaming.exec_literal ("{" ++ key ++ "}") (("{" ++ key' ++ "}") ++ rest) =
  if key =? key' then Some (Js.mkMatch ("{" ++ key ++ "}") []) else None.
Proof.
  intros Hk Hk'. unfold FileNaming.exec_literal.
  rewrite !append_assoc.
  change ("{" ++ key ++ "}") with (String "{" (key ++ String "}" "")).
  change ("{" ++ key' ++ "}" ++ rest) with (String "{" (key' ++ String "}" rest)).
  rewrite strip_prefix_cons, Ascii.eqb_refl.
  rewrite strip_prefix_delimited
    by (eapply units_impl; [|eassumption]; intros c [_ H]; exact H).
  now destruct (key =? key').
Qed.

Lemma replace_placeholder key v filled ps :
  units key_unit key -> units value_unit v -> filled key = None ->
  (forall key' v', filled key' = Some v' -> units no_brace v') ->
  Forall piece_ok ps ->
  forall before,
    Js.replace_loop (FileNaming.exec_literal ("{" ++ key ++ "}")) (Js.Template v) 0
      before (pattern_text filled ps) =
    pattern_text (fun key' => if key' =? key then Some v else filled key') ps.
Proof.
  intros Hkey Hv Hnone Hfilled Hps.
  assert (Hexec : forall a s, a <> "{"%char ->
            FileNaming.exec_literal ("{" ++ key ++ "}") (String a s) = None)
    by apply exec_literal_starts.
  induction Hps as [|p ps Hp Hps IH]; intros before; [reflexivity|].
  cbn [pattern_text].
  assert (Hplain : forall t, units no_brace t ->
            Js.replace_loop (FileNaming.exec_literal ("{" ++ key ++ "}")) (Js.Template v) 0
              before (t ++ pattern_text filled ps) =
            t ++ pattern_text (fun key' => if key' =? key then Some v else filled key') ps).
  { intros t Ht. rewrite (replace_loop_text "{" _ _ t Hexec Ht). now rewrite IH. }
  destruct p as [t|key']; cbn [piece_text]; [now apply Hplain|].
  cbn [piece_ok] in Hp.
  destruct (filled key') as [v'|] eqn:Efilled.
  - destruct (String.eqb_spec key' key) as [->|_]; [congruence|].
    apply Hplain. now apply (Hfilled key').
  - pose proof (exec_literal_on_placeholder key key' (pattern_text filled ps) Hkey Hp)
      as Hhit.
    rewrite (String.eqb_sym key' key).
    set (tail := key' ++ "}") in *.
    change ("{" ++ key' ++ "}") with (String "{" tail) in *.
    cbn [append Js.replace_loop]. cbn [append] in Hhit. rewrite Hhit.
    destruct (String.eqb_spec key key') as [->|Hne].
    + cbn [Js.matched Js.captures Js.replacement].
      rewrite GetSubstitution_literal
        by (eapply units_impl; [|exact Hv]; intros c [_ H]; exact H).
      cbn [String.length Nat.sub].
      rewrite Nat.sub_0_r, replace_loop_skip, IH. reflexivity.
    + assert (Htail : units no_brace tail).
      { unfold tail. apply units_append. split.
        - eapply units_impl; [|exact Hp]. intros c [H _]. exact H.
        - split; [discriminate|exact I]. }
      rewrite (replace_loop_text "{" _ _ tail Hexec Htail), IH.
      reflexivity.
Qed.

Lemma apply_entries ps (es : list (string * string)) :
  Forall piece_ok ps ->
  NoDup (map fst es) ->
  Forall (fun kv => units key_unit (fst kv) /\ units value_unit (snd kv)) es ->
  forall filled,
    (forall key, In key (map fst es) -> filled key = None) ->
    (forall key v, filled key = Some v -> units no_brace v) ->
    fold_left
      (fun result kv =>
         Js.replace_global (FileNaming.exec_literal ("{" ++ fst kv ++ "}"))
           (Js.Template (snd kv)) result)
      es (pattern_text filled ps) =
    pattern_text (value_of_key es filled) ps.
Proof.
  intros Hps. induction es as [|[key v] es IH]; intros Hnd Hes filled Hnone Hfilled.
  - reflexivity.
  - inversion Hnd as [|? ? Hkey Hnd']; subst.
    inversion Hes as [|? ? [Hk Hv] Hes']; subst. cbn [fst snd] in *.
    cbn [fold_left fst snd]. unfold Js.replace_global at 2.
    rewrite (replace_placeholder key v filled ps Hk Hv
               (Hnone key (or_introl eq_refl)) Hfilled Hps).
    rewrite IH; try assumption.
    + apply pattern_text_ext. intros key0. unfold value_of_key. cbn [find fst snd].
      destruct (String.eqb_spec key key0) as [->|Hne].
      * rewrite String.eqb_refl.
        destruct (find (fun kv => fst kv =? key0) es) as [kv|] eqn:E; [|reflexivity].
        exfalso. apply Hkey. apply find_some in E. destruct E as [Hin E].
        apply String.eqb_eq in E. rewrite <- E. now apply in_map.
      * destruct (find (fun kv => fst kv =? key0) es); [reflexivity|].
        destruct (String.eqb_spec key0 key); [congruence|reflexivity].
    + intros key0 Hin. destruct (String.eqb_spec key0 key) as [->|_]; [contradiction|].
      apply Hnone. now right.
    + intros key0 v0. destruct (key0 =? key).
      * intros [= <-]. eapply units_impl; [|exact Hv]. intros c [H _]. exact H.
      * apply Hfilled.
Qed.

(** X22.  [applyCustomPattern] fills the placeholders.  For a pattern made
    of plain text and of placeholders "{key}", and values that contain
    neither '{' nor '$', the result is the pattern with every placeholder
    of a known variable replaced by its value, every occurrence included;
    the plain text and the placeholders of unknown keys stand as written.
    (A '$' in a value would be read as a replacement pattern, a '{' could
    form a placeholder for a later variable.) *)
Theorem applyCustomPattern_fills_the_placeholders (ps : list Piece)
    (variables : FileNaming.PatternVariables) :
  Forall piece_ok ps ->
  Forall (units value_unit) (map snd (FileNaming.entries variables)) ->
  FileNaming.applyCustomPattern (pattern_text (fun _ => None) ps) variables =
  pattern_text (value_of_key (FileNaming.entries variables) (fun _ => None)) ps.
Proof.
  intros Hps Hvalues. unfold FileNaming.applyCustomPattern.
  apply apply_entries; try assumption; try discriminate.
  - cbn [FileNaming.entries map fst].
    repeat (constructor; [simpl; intuition discriminate|]). constructor.
  - cbn [FileNaming.entries map snd] in *.
    repeat match goal with
           | H : Forall _ (_ :: _) |- _ => inversion H; clear H; subst
           end.
    repeat (constructor;
            [split; [simpl; unfold key_unit; repeat split; discriminate|assumption]|]).
    constructor.
  - reflexivity.
Qed.

Definition rome_variables : FileNaming.PatternVariables :=
  FileNaming.getPatternVariables (FileNaming.mkDate 2024 0 5 9 3 7) "k3j9x0aa"
    "Shot 1" "PNG" (FileNaming.mkNote "trips/rome.md" "rome").

Lemma applyCustomPattern_fills_the_placeholders_witness :
  FileNaming.applyCustomPattern "{date} {note}-{original}{nope}_{date}" rome_variables
  = "2024-01-05 rome-Shot 1{nope}_2024-01-05".
Proof.
  apply (applyCustomPattern_fills_the_placeholders
           [Placeholder "date"; Plain " "; Placeholder "note"; Plain "-";
            Placeholder "original"; Placeholder "nope"; Plain "_"; Placeholder "date"]
           rome_variables).
  - repeat constructor; discriminate.
  - vm_compute. repeat constructor; discriminate.
Defined.

End CustomPattern.

(** ** formatTimestamp *)

Section Timestamps.
Import FileNaming.

(** A date of the years 1000 to 9999, as the getters deliver it. *)
Definition calendar_date (d : Date) : Prop :=
  (1000 <= getFullYear d <= 9999)%Z /\
  (getMonth d < 12)%nat /\ (1 <= getDate d <= 31)%nat /\
  (getHours d < 24)%nat /\ (getMinutes d < 60)%nat /\ (getSeconds d < 60)%nat.

Lemma two_digits_length n : (n < 100)%nat -> String.length (two_digits n) = 2%nat.
Proof.
  intros Hn.
  assert (H : forallb (fun k => (String.length (two_digits k) =? 2)%nat) (seq 0 100) = true)
    by (vm_compute; reflexivity).
  rewrite forallb_forall in H. apply Nat.eqb_eq, H, in_seq. lia.
Qed.

Lemma two_digits_reads_back n :
  (n < 100)%nat ->
  option_map Nat.of_uint (DecimalString.NilZero.uint_of_string (two_digits n)) = Some n.
Proof.
  intros Hn.
  assert (H : forallb
                (fun k =>
                   match option_map Nat.of_uint
                           (DecimalString.NilZero.uint_of_string (two_digits k)) with
                   | Some m => (m =? k)%nat
                   | None => false
                   end) (seq 0 100) = true)
    by (vm_compute; reflexivity).
  rewrite forallb_forall in H. specialize (H n). rewrite in_seq in H.
  specialize (H ltac:(lia)).
  destruct (option_map Nat.of_uint _) as [m|]; [|discriminate].
  apply Nat.eqb_eq in H. now subst.
Qed.

Lemma two_digits_inj n m :
  (n < 100)%nat -> (m < 100)%nat -> two_digits n = two_digits m -> n = m.
Proof.
  intros Hn Hm E. pose proof (two_digits_reads_back n Hn) as H.
  rewrite E, (two_digits_reads_back m Hm) in H. congruence.
Qed.

(** The check behind [year_digits]: four characters that read back as the
    year. *)
Definition four_digit_year (y : Z) : bool :=
  (String.length (number_string y) =? 4)%nat
  && match option_map Z.of_uint
             (DecimalString.NilZero.uint_of_string (number_string y)) with
     | Some m => (m =? y)%Z
     | None => false
     end.

Lemma four_digit_years :
  forallb
    (fun h => forallb (fun l => four_digit_year (100 * Z.of_nat h + Z.of_nat l))
                      (seq 0 100))
    (seq 10 90) = true.
Proof. vm_compute. reflexivity. Qed.

Lemma year_digits y :
  (1000 <= y <= 9999)%Z ->
  String.length (number_string y) = 4%nat /\
  option_map Z.of_uint (DecimalString.NilZero.uint_of_string (number_string y))
  = Some y.
Proof.
  intros Hy. pose proof four_digit_years as H.
  rewrite forallb_forall in H.
  specialize (H (Z.to_nat (y / 100))). rewrite in_seq in H.
  assert (Hh : (10 <= y / 100 < 100)%Z).
  { split; [apply Z.div_le_lower_bound|apply Z.div_lt_upper_bound]; lia. }
  specialize (H ltac:(lia)). rewrite forallb_forall in H.
  specialize (H (Z.to_nat (y mod 100))). rewrite in_seq in H.
  pose proof (Z.mod_pos_bound y 100 ltac:(lia)) as Hl.
  specialize (H ltac:(lia)).
  rewrite !Z2Nat.id in H by lia.
  rewrite <- Z.div_mod in H by lia.
  unfold four_digit_year in H.
  apply andb_true_iff in H. destruct H as [Hlen Hread].
  split; [now apply Nat.eqb_eq|].
  destruct (option_map Z.of_uint _) as [m|]; [|discriminate].
  apply Z.eqb_eq in Hread. now f_equal.
Qed.

Lemma append_eq_by_length (a b c d : string) :
  String.length a = String.length c -> a ++ b = c ++ d -> a = c /\ b = d.
Proof.
  revert c. induction a as [|x a IH]; intros [|y c] Hlen H; try discriminate.
  - auto.
  - simpl in *. injection H as -> H. injection Hlen as Hlen.
    destruct (IH c Hlen H) as [-> ->]. auto.
Qed.

(** X24.  The timestamp has a fixed width and tells the seconds apart.
    For dates of the years 1000 to 9999, [formatTimestamp] gives 15
    characters with the '_' after the eighth, and [formatDate] 10; and two
    dates with the same timestamp agree on year, month, day, hour, minute
    and second, so names generated in different seconds differ. *)
Theorem formatTimestamp_tells_seconds_apart (d1 d2 : Date) :
  calendar_date d1 -> calendar_date d2 ->
  String.length (formatTimestamp d1) = 15%nat /\
  String.get 8 (formatTimestamp d1) = Some "_"%char /\
  String.length (formatDate d1) = 10%nat /\
  (formatTimestamp d1 = formatTimestamp d2 -> d1 = d2).
Proof.
  intros (Hy1 & Hmo1 & Hd1 & Hh1 & Hmi1 & Hs1) (Hy2 & Hmo2 & Hd2 & Hh2 & Hmi2 & Hs2).
  destruct (year_digits _ Hy1) as [Ly1 Ry1]. destruct (year_digits _ Hy2) as [Ly2 Ry2].
  assert (L2 : forall n, (n < 100)%nat -> String.length (two_digits n) = 2%nat)
    by apply two_digits_length.
  unfold formatTimestamp, formatDate.
  split; [|split; [|split]].
  - rewrite !length_append, Ly1, !L2 by lia. reflexivity.
  - destruct (number_string (getFullYear d1)) as [|y1 [|y2 [|y3 [|y4 [|? ?]]]]];
      try discriminate.
    pose proof (L2 (getMonth d1 + 1)%nat ltac:(lia)) as Lm.
    pose proof (L2 (getDate d1) ltac:(lia)) as Ld.
    destruct (two_digits (getMonth d1 + 1)) as [|m1 [|m2 [|? ?]]]; try discriminate.
    destruct (two_digits (getDate d1)) as [|a1 [|a2 [|? ?]]]; try discriminate.
    reflexivity.
  - rewrite !length_append, Ly1, !L2 by lia. reflexivity.
  - intros E.
    apply append_eq_by_length in E; [|congruence]. destruct E as [Ey E].
    apply append_eq_by_length in E; [|rewrite !L2 by lia; reflexivity].
    destruct E as [Emo E].
    apply append_eq_by_length in E; [|rewrite !L2 by lia; reflexivity].
    destruct E as [Ed E]. cbn [append] in E. injection E as E.
    apply append_eq_by_length in E; [|rewrite !L2 by lia; reflexivity].
    destruct E as [Eh E].
    apply append_eq_by_length in E; [|rewrite !L2 by lia; reflexivity].
    destruct E as [Emi Es].
    apply two_digits_inj in Emo, Ed, Eh, Emi, Es; try lia.
    assert (Eyear : getFullYear d1 = getFullYear d2).
    { rewrite Ey, Ry2 in Ry1. now injection Ry1. }
    destruct d1, d2. cbn in *. f_equal; lia.
Qed.

Lemma formatTimestamp_tells_seconds_apart_witness :
  String.length (formatTimestamp (mkDate 2024 1 29 23 59 59)) = 15%nat /\
  formatTimestamp (mkDate 2024 1 29 23 59 59) = "20240229_235959".
Proof.
  split; [|reflexivity].
  apply (formatTimestamp_tells_seconds_apart (mkDate 2024 1 29 23 59 59)
           (mkDate 2024 1 29 23 59 59));
    unfold calendar_date; cbn; lia.
Defined.

End Timestamps.

(** ** Flows across the services *)

Section Flows.
Import Obsidian.

(** *** Deleting every orphan a scan found *)

Lemma deleteLoop_frame (imagePaths : list string) :
  forall (st : OrphanDetector.State) count n st',
    OrphanDetector.deleteLoop imagePaths count st = Returned n st' ->
    resolvedLinks (OrphanDetector.app st') = resolvedLinks (OrphanDetector.app st) /\
    OrphanDetector.orphanHandling st' = OrphanDetector.orphanHandling st.
Proof.
  induction imagePaths as [|imagePath rest IH]; intros st count n st'.
  - simpl. unfold ret. intros [= _ <-]. auto.
  - cbn [OrphanDetector.deleteLoop].
    destruct (getAbstractFileByPath imagePath (OrphanDetector.app st))
      as [[q t d|q]|]; try apply IH.
    unfold bind at 1, try_catch, bind at 1, OrphanDetector.liftApp, delete.
    destruct (deleteThrows (OrphanDetector.app st) q).
    + unfold ret at 1. intros H. apply IH in H. exact H.
    + intros H. apply IH in H. exact H.
Qed.

Lemma getAllReferencedImages_links a a' :
  resolvedLinks a' = resolvedLinks a ->
  OrphanDetector.getAllReferencedImages a' = OrphanDetector.getAllReferencedImages a.
Proof. unfold OrphanDetector.getAllReferencedImages. now intros ->. Qed.

Lemma same_members_same_length (l l' : list string) :
  NoDup l -> NoDup l' -> (forall p, In p l <-> In p l') ->
  List.length l = List.length l'.
Proof.
  intros Hl Hl' H. apply Nat.le_antisymm; apply NoDup_incl_length; auto;
    intros p Hp; now apply H.
Qed.

Lemma filter_none {A} (P : A -> bool) (l : list A) :
  (forall x, In x l -> P x = false) -> filter P l = [].
Proof.
  induction l as [|x l IH]; intros H; [reflexivity|]. simpl.
  rewrite (H x (or_introl eq_refl)). apply IH. intros y Hy. apply H. now right.
Qed.

(** X25.  Deleting the orphans a scan returned leaves no orphan.  In a vault
    with one entry per path, when the scan does not move files and no
    deletion fails, [deleteOrphanImages] called with the list the scan
    returned deletes every one of them (it returns their number), empties
    the orphan set, removes exactly these files from the vault, and the
    next scan returns the empty list. *)
Theorem delete_all_orphans_leaves_none (fuel : nat)
    (st st1 : OrphanDetector.State) (orphans : list string) :
  NoDup (map path_of (files (OrphanDetector.app st))) ->
  (forall p, deleteThrows (OrphanDetector.app st) p = false) ->
  OrphanDetector.orphanHandling st <> OrphanDetector.moveToFolder ->
  OrphanDetector.scanOrphanImages fuel st = Returned orphans st1 ->
  exists st2 st3,
    OrphanDetector.deleteOrphanImages orphans st1
      = Returned (List.length orphans) st2 /\
    OrphanDetector.orphanImages st2 = [] /\
    files (OrphanDetector.app st2) =
      filter (fun f => negb (OrphanDetector.set_has (path_of f) orphans))
             (files (OrphanDetector.app st)) /\
    OrphanDetector.scanOrphanImages fuel st2 = Returned [] st3.
Proof.
  intros Hnd Hdel Hmode Hscan.
  destruct (scan_without_move _ _ _ _ Hmode Hscan) as [Happ Hmode1].
  pose proof (scanOrphanImages_state _ _ _ _ Hscan) as (Horph & Hset & _).
  destruct (scanned_orphans_are_files _ _ _ _ Hnd Hscan) as [Hnd' Hfile].
  rewrite (NoDup_fold_set_add _ Hnd') in Hset.
  unfold OrphanDetector.deleteOrphanImages.
  destruct (deleteLoop_spec orphans st1 0)
    as (deleted & st2 & Hrun & Hndd & Hin & Hfs & Ho & _).
  pose proof (deleteLoop_frame _ _ _ _ _ Hrun) as [Hlinks Hmode2].
  rewrite Happ in Hin, Hfs, Hlinks.
  assert (Hsame : forall p, In p deleted <-> In p orphans).
  { intros p. rewrite Hin. split; [tauto|]. intros Hp. auto. }
  assert (Hhas : forall p, OrphanDetector.set_has p deleted =
                           OrphanDetector.set_has p orphans).
  { intros p. apply eq_true_iff_eq. rewrite !set_has_In. apply Hsame. }
  assert (Hfs' : files (OrphanDetector.app st2) =
                 filter (fun f => negb (OrphanDetector.set_has (path_of f) orphans))
                        (files (OrphanDetector.app st))).
  { rewrite Hfs. apply filter_ext. intros f. now rewrite Hhas. }
  assert (Hnone : filter (fun p => negb (OrphanDetector.set_has p
                            (OrphanDetector.getAllReferencedImages (OrphanDetector.app st2))))
                    (map path_of (filter (fun f => Types.isImageFile (path_of f))
                                         (getFiles (OrphanDetector.app st2)))) = []).
  { apply filter_none. intros p Hp. apply negb_false_iff.
    rewrite (getAllReferencedImages_links _ _ Hlinks).
    destruct (OrphanDetector.set_has p
                (OrphanDetector.getAllReferencedImages (OrphanDetector.app st))) eqn:E;
      [reflexivity|exfalso].
    apply in_map_iff in Hp. destruct Hp as (f & <- & Hf).
    apply filter_In in Hf. destruct Hf as [Hf Himg]. unfold getFiles in Hf.
    apply filter_In in Hf. destruct Hf as [Hf Hfile2].
    rewrite Hfs' in Hf. apply filter_In in Hf. destruct Hf as [Hf Hkept].
    apply negb_true_iff, set_has_false in Hkept. apply Hkept.
    rewrite Horph. apply filter_In. split; [|now rewrite E].
    apply in_map. apply filter_In. split; [|assumption].
    unfold getFiles. apply filter_In. auto. }
  exists st2. eexists.
  split; [rewrite Hrun; f_equal; simpl; now apply same_members_same_length|].
  split.
  { rewrite Ho, Hset. apply filter_none. intros p Hp.
    apply negb_false_iff, set_has_In, Hsame, Hp. }
  split; [exact Hfs'|].
  unfold OrphanDetector.scanOrphanImages. rewrite Hnone.
  cbn [fold_left OrphanDetector.with_orphans OrphanDetector.orphanHandling].
  destruct (OrphanDetector.orphanHandling st2); reflexivity.
Qed.

Definition drifted_gallery : OrphanDetector.State :=
  OrphanDetector.mkState
    (mkApp [TFile "notes/a.md" 10 "![[img/used.png]]";
            TFile "img/used.png" 11 "u"; TFile "img/lost.png" 12 "l";
            TFile "old.gif" 13 "o"]
           [("notes/a.md", ["img/used.png"])]
           (fun _ _ => None) (fun p => p)
           (fun _ => false) (fun _ => false) (fun _ => false) (fun _ => false)
           (fun _ => false) [])
    OrphanDetector.markOnly "_orphaned" ["img/used.png"].

Lemma delete_all_orphans_leaves_none_witness :
  exists st1 st2 st3,
    OrphanDetector.scanOrphanImages 0 drifted_gallery
      = Returned ["img/lost.png"; "old.gif"] st1 /\
    OrphanDetector.deleteOrphanImages ["img/lost.png"; "old.gif"] st1
      = Returned 2%nat st2 /\
    OrphanDetector.orphanImages st2 = [] /\
    OrphanDetector.scanOrphanImages 0 st2 = Returned [] st3.
Proof.
  set (st1 := OrphanDetector.with_orphans ["img/lost.png"; "old.gif"] drifted_gallery).
  assert (Hscan : OrphanDetector.scanOrphanImages 0 drifted_gallery =
                  Returned ["img/lost.png"; "old.gif"] st1) by reflexivity.
  assert (Hnd : NoDup (map path_of (files (OrphanDetector.app drifted_gallery)))).
  { vm_compute. repeat constructor; simpl; intuition discriminate. }
  assert (Hmode : OrphanDetector.orphanHandling drifted_gallery
                  <> OrphanDetector.moveToFolder) by discriminate.
  destruct (delete_all_orphans_leaves_none 0 drifted_gallery st1
              ["img/lost.png"; "old.gif"] Hnd (fun _ => eq_refl) Hmode Hscan)
    as (st2 & st3 & H1 & H2 & _ & H4).
  exists st1, st2, st3. auto.
Defined.

(** *** Hashing a new image, then pasting the same bytes *)

Lemma cache_get_entry p e (c : HashService.HashCache) :
  HashService.cache_get p c = Some e -> In (p, e) c.
Proof.
  induction c as [|[k e'] c IH]; simpl; [discriminate|].
  destruct (String.eqb_spec k p) as [->|_]; [intros [= ->]; now left|auto].
Qed.

(** X26.  An image hashed when it was created is found when the same bytes
    are pasted.  In a vault with one entry per path and a cache with one
    entry per key, after [calculateHash] has hashed a file that had no
    entry of its [mtime] (what [handleImageCreate] does for a new image),
    [findDuplicate] on the bytes of that file returns a path: that of a
    cached entry with the digest of these bytes whose file exists. *)
Theorem hashed_image_is_found_again (path : string) (fileMtime : Z)
    (data : string) (st : HashService.State) :
  NoDup (map path_of (files (HashService.app st))) ->
  NoDup (map fst (HashService.cache st)) ->
  getAbstractFileByPath path (HashService.app st) = Some (TFile path fileMtime data) ->
  option_map HashService.mtime (HashService.cache_get path (HashService.cache st))
    <> Some fileMtime ->
  exists q e,
    fst (HashService.findDuplicate data
           (snd (HashService.calculateHash path fileMtime data st))) = Some q /\
    In (q, e) (HashService.cache
                 (snd (HashService.calculateHash path fileMtime data st))) /\
    HashService.hash e = HashService.computeHash data /\
    is_file q (HashService.app st) = true.
Proof.
  intros Hfiles Hkeys Hfile Hstale.
  set (st' := snd (HashService.calculateHash path fileMtime data st)).
  assert (Hst' : HashService.app st' = HashService.app st /\
                 HashService.cache st' =
                   HashService.cache_set path
                     (HashService.mkEntry (HashService.computeHash data) fileMtime)
                     (HashService.cache st)).
  { unfold st', HashService.calculateHash.
    destruct (HashService.cache_get path (HashService.cache st)) as [[h t]|];
      cbn [HashService.mtime] in *; [|auto].
    destruct (Z.eqb_spec t fileMtime) as [->|_]; [|auto].
    exfalso. now apply Hstale. }
  destruct Hst' as [Happ Hcache].
  assert (Hkeys' : NoDup (map fst (HashService.cache st')))
    by (rewrite Hcache; now apply cache_set_NoDup).
  assert (Hfiles' : NoDup (map path_of (files (HashService.app st'))))
    by now rewrite Happ.
  destruct (findDuplicate_spec data st' Hfiles' Hkeys') as (Hresult & _).
  rewrite Hresult, Happ.
  destruct (find (live_match (HashService.computeHash data) (HashService.app st))
                 (HashService.cache st')) as [[q e]|] eqn:Efind.
  - apply find_some in Efind. destruct Efind as [Hin Hlive].
    unfold live_match in Hlive. cbn [fst snd] in Hlive.
    apply andb_true_iff in Hlive. destruct Hlive as [Hh Hq].
    apply String.eqb_eq in Hh. exists q, e. auto.
  - exfalso.
    assert (Hin : In (path, HashService.mkEntry (HashService.computeHash data) fileMtime)
                     (HashService.cache st')).
    { apply cache_get_entry. rewrite Hcache. apply cache_get_set_same. }
    pose proof (find_none _ _ Efind _ Hin) as Hlive.
    unfold live_match, is_file in Hlive. cbn [fst snd HashService.hash] in Hlive.
    rewrite String.eqb_refl, Hfile in Hlive. discriminate.
Qed.

Definition fresh_image_example : HashService.State :=
  HashService.mkState
    (plain_app [TFile "img/a.png" 5 "DATA"; TFile "img/b.png" 6 "DATA"])
    [("img/b.png", HashService.mkEntry "0000000000000000" 1)].

Lemma hashed_image_is_found_again_witness :
  exists q e,
    fst (HashService.findDuplicate "DATA"
           (snd (HashService.calculateHash "img/a.png" 5 "DATA" fresh_image_example)))
      = Some q /\
    In (q, e) (HashService.cache
                 (snd (HashService.calculateHash "img/a.png" 5 "DATA"
                         fresh_image_example))) /\
    HashService.hash e = HashService.computeHash "DATA" /\
    is_file q (HashService.app fresh_image_example) = true.
Proof.
  apply (hashed_image_is_found_again "img/a.png" 5 "DATA" fresh_image_example).
  - vm_compute. repeat constructor; simpl; intuition discriminate.
  - vm_compute. repeat constructor; simpl; intuition discriminate.
  - reflexivity.
  - discriminate.
Defined.

(** *** The notes a link update writes *)

Lemma content_of_other p notePath content a :
  p <> notePath ->
  content_of p
    (with_modification notePath content (map (set_data notePath content) (files a)) a)
  = content_of p a.
Proof.
  intros Hne. unfold content_of, getAbstractFileByPath. cbn [with_modification files].
  induction (files a) as [|f fs IH]; [reflexivity|]. cbn [map find].
  destruct f as [q t d|q]; cbn [set_data].
  - destruct (String.eqb_spec q notePath) as [->|Hq]; cbn [path_of].
    + destruct (String.eqb_spec notePath p); [congruence|apply IH].
    + destruct (q =? p); [reflexivity|apply IH].
  - cbn [path_of]. destruct (q =? p); [reflexivity|apply IH].
Qed.

(** What a run of the link update over [notes] leaves: the other files
    as they were, and a log grown by writes to notes of the list. *)
Definition wrote_only (notes : list string) (a a' : App) : Prop :=
  (forall p, ~ In p notes -> content_of p a' = content_of p a) /\
  exists added,
    modifyLog a' = (added ++ modifyLog a)%list /\
    Forall (fun entry => In (fst entry) notes) added.

Lemma wrote_only_refl notes a : wrote_only notes a a.
Proof. split; [auto|]. exists []. split; [reflexivity|constructor]. Qed.

Lemma wrote_only_step notePath content notes a a' :
  wrote_only notes
    (with_modification notePath content (map (set_data notePath content) (files a)) a) a' ->
  wrote_only (notePath :: notes) a a'.
Proof.
  intros [Hsame (added & Hlog & Hall)]. split.
  - intros p Hp. rewrite Hsame by (intros H; apply Hp; now right).
    apply content_of_other. intros ->. apply Hp. now left.
  - exists (added ++ [(notePath, content)])%list. split.
    + rewrite Hlog. cbn [with_modification modifyLog]. now rewrite <- app_assoc.
    + apply Forall_app. split.
      * eapply Forall_impl; [|exact Hall]. intros e He. now right.
      * repeat constructor.
Qed.

Lemma wrote_only_skip notePath notes a a' :
  wrote_only notes a a' -> wrote_only (notePath :: notes) a a'.
Proof.
  intros [Hsame (added & Hlog & Hall)]. split.
  - intros p Hp. apply Hsame. intros H. apply Hp. now right.
  - exists added. split; [assumption|].
    eapply Forall_impl; [|exact Hall]. intros e He. now right.
Qed.

Lemma updateNotes_wrote_only oldPath newPath (notes : list string) :
  forall count a,
    match LinkUpdater.updateNotes notes oldPath newPath count a with
    | Returned n a' => wrote_only notes a a' /\ (n <= count + List.length notes)%nat
    | Thrown a' => wrote_only notes a a'
    | Diverged => False
    end.
Proof.
  induction notes as [|notePath rest IH]; intros count a.
  - simpl. split; [apply wrote_only_refl|lia].
  - assert (Hskip :
      match LinkUpdater.updateNotes rest oldPath newPath count a with
      | Returned n a' =>
          wrote_only (notePath :: rest) a a' /\
          (n <= count + List.length (notePath :: rest))%nat
      | Thrown a' => wrote_only (notePath :: rest) a a'
      | Diverged => False
      end).
    { specialize (IH count a).
      destruct (LinkUpdater.updateNotes rest oldPath newPath count a); auto.
      - destruct IH. split; [now apply wrote_only_skip|simpl; lia].
      - now apply wrote_only_skip. }
    cbn [LinkUpdater.updateNotes].
    destruct (getAbstractFileByPath notePath a) as [[q t d|q]|]; try exact Hskip.
    unfold bind.
    destruct (updateLinksInNote_cases notePath oldPath newPath a)
      as [E|[E|(content & E)]]; rewrite E.
    + apply wrote_only_refl.
    + exact Hskip.
    + set (a1 := with_modification _ _ _ a).
      specialize (IH (S count) a1).
      destruct (LinkUpdater.updateNotes rest oldPath newPath (S count) a1).
      * destruct IH. split; [now apply wrote_only_step with (content := content)|].
        simpl. lia.
      * now apply wrote_only_step with (content := content).
      * exact IH.
Qed.

(** X27.  [updateImageReferences] writes only notes that link to the image.
    Whether it returns or rejects, every file that is not one of the notes
    [findNotesReferencingImage] lists has the content it had, and every
    write that was logged went to one of these notes; the count it returns
    is at most [getReferenceCount]. *)
Theorem updateImageReferences_writes_only_referencing_notes
    (oldPath newPath : string) (a : App) :
  match LinkUpdater.updateImageReferences oldPath newPath a with
  | Returned n a' =>
      wrote_only (LinkUpdater.findNotesReferencingImage oldPath a) a a' /\
      (n <= LinkQueries.getReferenceCount oldPath a)%nat
  | Thrown a' => wrote_only (LinkUpdater.findNotesReferencingImage oldPath a) a a'
  | Diverged => False
  end.
Proof.
  unfold LinkUpdater.updateImageReferences, LinkQueries.getReferenceCount.
  apply (updateNotes_wrote_only oldPath newPath
           (LinkUpdater.findNotesReferencingImage oldPath a) 0 a).
Qed.

(** *** main.ts: the rename of an image *)

Lemma updateNotes_frames oldPath newPath (notes : list string) count a :
  match LinkUpdater.updateNotes notes oldPath newPath count a with
  | Returned _ a' | Thrown a' => wrote_only notes a a' /\ unchanged_host a a'
  | Diverged => False
  end.
Proof.
  pose proof (updateNotes_outcome oldPath newPath notes count a) as H1.
  pose proof (updateNotes_wrote_only oldPath newPath notes count a) as H2.
  destruct (LinkUpdater.updateNotes notes oldPath newPath count a); tauto.
Qed.

(** X23.  [handleImageRename] updates the links first and the hash cache
    after.  Whether it returns or rejects, every file other than the notes
    that link to the old path has the content it had, every logged write
    went to one of these notes, and the links, the files and the failures
    of the host are as before.  When it returns, the entry stored under
    the old path has moved to the new path and every other key reads as
    before; a name inherited from [Object.prototype] that has no entry
    takes the cache out of what [HashCache] describes, and only then.
    When the link update rejects (nothing catches it), the cache has not
    been touched, so the digest of the renamed file stays under the old
    path; this happens as soon as one referencing note cannot be read.
    With an entry under the old path and no failing read or write, the
    handler returns and the digest is served under the new path. *)
Theorem handleImageRename_updates_links_then_cache (newPath oldPath : string)
    (st : HashService.State) :
  match Plugin.handleImageRename newPath oldPath st with
  | Returned _ (Some st') =>
      (forall q,
         HashService.cache_get q (HashService.cache st') =
         if q =? oldPath then None
         else match HashService.cache_get oldPath (HashService.cache st) with
              | Some entry =>
                  if q =? newPath then Some entry
                  else HashService.cache_get q (HashService.cache st)
              | None => HashService.cache_get q (HashService.cache st)
              end) /\
      wrote_only (LinkUpdater.findNotesReferencingImage oldPath (HashService.app st))
        (HashService.app st) (HashService.app st') /\
      unchanged_host (HashService.app st) (HashService.app st')
  | Returned _ None =>
      HashService.cache_get oldPath (HashService.cache st) = None /\
      In oldPath OrphanDetector.object_prototype_keys
  | Thrown after =>
      exists st',
        after = Some st' /\ HashService.cache st' = HashService.cache st /\
        wrote_only (LinkUpdater.findNotesReferencingImage oldPath (HashService.app st))
          (HashService.app st) (HashService.app st') /\
        unchanged_host (HashService.app st) (HashService.app st')
  | Diverged => False
  end /\
  (forall notePath,
     In notePath (LinkUpdater.findNotesReferencingImage oldPath (HashService.app st)) ->
     is_file notePath (HashService.app st) = true ->
     readThrows (HashService.app st) notePath = true ->
     exists st', Plugin.handleImageRename newPath oldPath st = Thrown (Some st') /\
                 HashService.cache st' = HashService.cache st) /\
  (forall entry,
     HashService.cache_get oldPath (HashService.cache st) = Some entry ->
     oldPath <> newPath ->
     (forall p, readThrows (HashService.app st) p = false) ->
     (forall p, modifyThrows (HashService.app st) p = false) ->
     exists st', Plugin.handleImageRename newPath oldPath st = Returned tt (Some st') /\
                 HashService.cache_get newPath (HashService.cache st') = Some entry /\
                 HashService.cache_get oldPath (HashService.cache st') = None).
Proof.
  unfold Plugin.handleImageRename, Plugin.liftApp, LinkUpdater.updateImageReferences.
  set (notes := LinkUpdater.findNotesReferencingImage oldPath (HashService.app st)).
  assert (Hget : forall entry q,
            HashService.cache_get q
              (HashService.cache_delete oldPath
                 (HashService.cache_set newPath entry (HashService.cache st))) =
            if q =? oldPath then None
            else if q =? newPath then Some entry
                 else HashService.cache_get q (HashService.cache st)).
  { intros entry q. rewrite cache_get_delete.
    destruct (q =? oldPath); [reflexivity|].
    destruct (String.eqb_spec q newPath) as [->|Hq].
    - apply cache_get_set_same.
    - now apply cache_get_set_other. }
  split; [|split].
  - pose proof (updateNotes_frames oldPath newPath notes 0 (HashService.app st)) as H.
    destruct (LinkUpdater.updateNotes notes oldPath newPath 0 (HashService.app st))
      as [n a'|a'|]; [| |exact H].
    + unfold HashMaintenance.updateCachePath, HashMaintenance.cache_read.
      cbn [HashService.cache HashService.app].
      destruct (HashService.cache_get oldPath (HashService.cache st)) as [entry|] eqn:E.
      * cbn [HashService.cache HashService.app]. split; [|exact H].
        intros q. apply Hget.
      * destruct (existsb (String.eqb oldPath) OrphanDetector.object_prototype_keys)
          eqn:Einh.
        -- split; [reflexivity|]. apply existsb_exists in Einh.
           destruct Einh as (k & Hk & Ek). apply String.eqb_eq in Ek. now subst k.
        -- cbn [HashService.cache HashService.app]. split; [|exact H].
           intros q. destruct (String.eqb_spec q oldPath) as [->|_]; [exact E|reflexivity].
    + eexists. split; [reflexivity|]. split; [reflexivity|exact H].
  - intros notePath Hin Hfile Hthrow.
    destruct (updateNotes_unreadable oldPath newPath _ 0 (HashService.app st) notePath
                Hin Hfile Hthrow) as (a' & ->).
    eexists. split; reflexivity.
  - intros entry E Hne Hr Hm.
    destruct (updateNotes_returns oldPath newPath notes 0 (HashService.app st) Hr Hm)
      as (n & a' & ->).
    unfold HashMaintenance.updateCachePath, HashMaintenance.cache_read.
    cbn [HashService.cache HashService.app]. rewrite E.
    eexists. split; [reflexivity|]. cbn [HashService.cache].
    rewrite !Hget, String.eqb_refl.
    destruct (String.eqb_spec newPath oldPath) as [E'|_]; [congruence|].
    now rewrite String.eqb_refl.
Qed.

End Flows.

(** *** The statistics of the images *)

Section ImageStatistics.
Import Obsidian OrphanDetector.

Lemma sizes_fold (P : TAbstractFile -> bool) (l : list TAbstractFile) :
  forall t o : nat,
    fold_left
      (fun sizes image =>
         (fst sizes + OrphanViews.size_of image,
          if P image then snd sizes + OrphanViews.size_of image else snd sizes)%nat)
      l (t, o) =
    ((t + list_sum (map OrphanViews.size_of l))%nat,
     (o + list_sum (map OrphanViews.size_of (filter P l)))%nat).
Proof.
  induction l as [|x l IH]; intros t o; cbn [fold_left map filter list_sum fst snd].
  - now rewrite !Nat.add_0_r.
  - destruct (P x); rewrite IH; simpl; f_equal; lia.
Qed.

Lemma list_sum_filter_le {A} (size : A -> nat) (P : A -> bool) (l : list A) :
  (list_sum (map size (filter P l)) <= list_sum (map size l))%nat.
Proof.
  induction l as [|x l IH]; simpl; [lia|].
  destruct (P x); simpl; lia.
Qed.

Lemma filter_split_length {A} (P : A -> bool) (l : list A) :
  (List.length (filter P l) + List.length (filter (fun x => negb (P x)) l)
   = List.length l)%nat.
Proof.
  induction l as [|x l IH]; simpl; [reflexivity|].
  destruct (P x); simpl; lia.
Qed.

Lemma filter_map_paths {A B} (f : A -> B) (P : B -> bool) (l : list A) :
  filter P (map f l) = map f (filter (fun x => P (f x)) l).
Proof.
  induction l as [|x l IH]; simpl; [reflexivity|].
  destruct (P (f x)); simpl; now rewrite IH.
Qed.

(** X28.  In a vault with one entry per path, when the scan does not move
    the orphans, the statistics [getImageStats] returns add up: [total]
    counts the image files, [orphan] those of them no note links to,
    [inUse] the others, so it is never negative; [totalSize] is the sum of
    the sizes of the image files and [orphanSize] the sum over the
    unreferenced ones, so it is at most [totalSize]. *)
Theorem getImageStats_adds_up (fuel : nat) (st st' : State)
    (stats : OrphanViews.ImageStats) :
  NoDup (map path_of (files (app st))) ->
  orphanHandling st <> moveToFolder ->
  OrphanViews.getImageStats fuel st = Returned stats st' ->
  let images := FileNaming.getAllImages (app st) in
  let referenced f := LinkQueries.isImageReferenced (path_of f) (app st) in
  let unreferenced f := negb (referenced f) in
  OrphanViews.total stats = List.length images /\
  OrphanViews.orphan stats = List.length (filter unreferenced images) /\
  OrphanViews.orphan stats = OrphanViews.getOrphanCount st' /\
  OrphanViews.inUse stats = Z.of_nat (List.length (filter referenced images)) /\
  OrphanViews.totalSize stats = list_sum (map OrphanViews.size_of images) /\
  OrphanViews.orphanSize stats =
    list_sum (map OrphanViews.size_of (filter unreferenced images)) /\
  (OrphanViews.orphanSize stats <= OrphanViews.totalSize stats)%nat.
Proof.
  intros Hnd Hmode Hrun images referenced unreferenced.
  unfold OrphanViews.getImageStats, bind in Hrun.
  destruct (scanOrphanImages fuel st) as [orphans st1| |] eqn:Hscan; try discriminate.
  destruct (scan_without_move _ _ _ _ Hmode Hscan) as [Happ _].
  destruct (scanned_orphans_are_files _ _ _ _ Hnd Hscan) as [Hnd' _].
  pose proof (scanOrphanImages_state _ _ _ _ Hscan) as (Horph & Hset & _).
  rewrite (NoDup_fold_set_add _ Hnd') in Hset.
  rewrite Happ, Hset in Hrun.
  fold (FileNaming.getAllImages (app st)) in Hrun, Horph. fold images in Hrun, Horph.
  rewrite filter_map_paths in Horph.
  assert (Hflag : forall f, In f images ->
            negb (set_has (path_of f) (getAllReferencedImages (app st)))
            = unreferenced f).
  { intros f Hf. unfold unreferenced, referenced. rewrite referenced_set_spec.
    apply filter_In in Hf. destruct Hf as [_ ->]. reflexivity. }
  rewrite (filter_ext_in _ _ _ Hflag) in Horph.
  assert (Hmember : forall f, In f images ->
            set_has (path_of f) orphans = unreferenced f).
  { intros f Hf. apply eq_true_iff_eq. rewrite set_has_In, Horph. split.
    - intros Hin. apply in_map_iff in Hin. destruct Hin as (g & Hg & Hin).
      apply filter_In in Hin. destruct Hin as [_ Hin].
      unfold unreferenced, referenced in *. now rewrite <- Hg.
    - intros Hu. apply in_map_iff. exists f. split; [reflexivity|].
      apply filter_In. now split. }
  rewrite sizes_fold, (filter_ext_in _ _ _ Hmember) in Hrun.
  injection Hrun as <- <-.
  cbn [OrphanViews.total OrphanViews.orphan OrphanViews.inUse
       OrphanViews.totalSize OrphanViews.orphanSize fst snd Nat.add].
  unfold OrphanViews.getOrphanCount. rewrite Hset.
  assert (Hlen : List.length orphans = List.length (filter unreferenced images))
    by (now rewrite Horph, length_map).
  pose proof (filter_split_length referenced images) as Hsplit.
  change (fun x => negb (referenced x)) with unreferenced in Hsplit.
  split; [reflexivity|]. split; [exact Hlen|]. split; [reflexivity|].
  split; [lia|]. split; [reflexivity|]. split; [reflexivity|].
  apply list_sum_filter_le.
Qed.

Lemma getImageStats_adds_up_witness :
  exists st',
    OrphanViews.getImageStats 0 drifted_gallery
      = Returned (OrphanViews.mkStats 3 2 1 3 2) st' /\
    OrphanViews.getOrphanCount st' = 2%nat.
Proof.
  eexists.
  match goal with
  | |- ?A /\ _ => assert (H : A) by (vm_compute; reflexivity)
  end.
  split; [exact H|].
  assert (Hnd : NoDup (map path_of (files (app drifted_gallery)))).
  { vm_compute. repeat constructor; simpl; intuition discriminate. }
  assert (Hmode : orphanHandling drifted_gallery <> moveToFolder) by discriminate.
  destruct (getImageStats_adds_up 0 drifted_gallery _ _ Hnd Hmode H)
    as (_ & _ & H3 & _).
  symmetry. exact H3.
Defined.

End ImageStatistics.
